(** * The link-time passes of mold (passes.cc): layout, binning, priorities,
      duplicate detection and symbol versions

    A shallow embedding of the passes of [passes.cc] that carry the layout
    and determinism contract of the linker, together with the properties
    they satisfy.

    Conventions.
    - A [u64] is a [Z] in [0, 2^64); an [i64] is a [Z] in [-2^63, 2^63).
      Every C++ operation is written with the conversion it performs
      ([to_u64], [to_i64]), so wrap-around is explicit.
    - A pointer to a file or to a symbol is its address, a [nat]; objects
      that the passes mutate through pointers (symbols) live in a store.
    - [assert] failures and loops that do not end are [None]. *)

From Stdlib Require Import Ascii.
From stdpp Require Import base numbers list strings gmap sorting.

Local Open Scope Z_scope.

(** ** Machine integers *)

Definition to_u64 (z : Z) : Z := z `mod` 2 ^ 64.
Definition to_i64 (z : Z) : Z := (z + 2 ^ 63) `mod` 2 ^ 64 - 2 ^ 63.
Definition to_u16 (z : Z) : Z := z `mod` 2 ^ 16.

Definition is_u64 (z : Z) : Prop := 0 ≤ z < 2 ^ 64.
Definition is_i64 (z : Z) : Prop := - 2 ^ 63 ≤ z < 2 ^ 63.

(** [popcount(align) == 1] for a [u64]: [align] is one of 2^0 .. 2^63. *)
Definition is_pow2 (align : Z) : bool :=
  existsb (λ k, align =? 2 ^ Z.of_nat k) (seq 0 64).

(** ** ELF constants

    Modelled from the spec: the constants below are declared in the ELF
    header of the project (elf.h), which is not part of passes.cc.  The spec
    fixes [VER_NDX_LAST_RESERVED = 1] and [VERSYM_HIDDEN] as bit 15; the
    others have their values of the ELF format. *)

Definition SHT_NOBITS : Z := 8.
Definition SHF_ALLOC : Z := 2.
Definition SHF_TLS : Z := 1024.
Definition SHN_UNDEF : Z := 0.
Definition SHN_ABS : Z := 65521.
Definition SHN_COMMON : Z := 65522.
Definition STB_WEAK : Z := 2.
Definition VER_NDX_LAST_RESERVED : Z := 1.
Definition VERSYM_HIDDEN : Z := 32768.

(** ** Alignment helpers *)

(** Modelled from the spec: [align_to] is defined in mold.h, which is not
    part of passes.cc.  The spec uses it as "align up"; its callers pass
    section alignments and the page size, which are powers of two, and the
    model is the mask form on [u64] that such a helper has:
    [(val + align - 1) & ~(align - 1)], with [align == 0] meaning "no
    alignment".  Every statement below that depends on the value of
    [align_to] at an alignment that is not a power of two says so. *)
Definition align_to (val align : Z) : Z :=
  if align =? 0 then val
  else Z.land (to_u64 (val + align - 1)) (to_u64 (Z.lnot (to_u64 (align - 1)))).

(** passes.cc, [align_with_skew]:
    [return align_to(val + align - skew, align) - align + skew;] *)
Definition align_with_skew (val align skew : Z) : Z :=
  to_u64 (align_to (to_u64 (val + align - skew)) align - align + skew).

(** ** Output chunks and their section headers *)

(** The fields of [ElfShdr] that the layout passes read or write; all are
    [u64] in the ELF64 section header. *)
Record ElfShdr := mkShdr {
  sh_type : Z;
  sh_flags : Z;
  sh_addr : Z;
  sh_offset : Z;
  sh_size : Z;
  sh_addralign : Z;
}.

Record OutputChunk := mkChunk {
  shdr : ElfShdr;
  new_page : bool;
  new_page_end : bool;
}.

Definition set_sh_offset (c : OutputChunk) (v : Z) : OutputChunk :=
  mkChunk (mkShdr (sh_type (shdr c)) (sh_flags (shdr c)) (sh_addr (shdr c)) v
                  (sh_size (shdr c)) (sh_addralign (shdr c)))
          (new_page c) (new_page_end c).

Definition set_sh_addr (c : OutputChunk) (v : Z) : OutputChunk :=
  mkChunk (mkShdr (sh_type (shdr c)) (sh_flags (shdr c)) v (sh_offset (shdr c))
                  (sh_size (shdr c)) (sh_addralign (shdr c)))
          (new_page c) (new_page_end c).

(** [flags & FLAG] used as a condition. *)
Definition has_flag (flags flag : Z) : bool := negb (Z.land flags flag =? 0).

Definition is_alloc (c : OutputChunk) : bool :=
  has_flag (sh_flags (shdr c)) SHF_ALLOC.
Definition is_bss (c : OutputChunk) : bool :=
  sh_type (shdr c) =? SHT_NOBITS.
Definition is_tbss (c : OutputChunk) : bool :=
  is_bss c && has_flag (sh_flags (shdr c)) SHF_TLS.

(** ** Offset assignment: [set_osec_offsets] *)

Section Layout.

(** The page size is a constant of mold.h; the passes only rely on its
    being a power of two that an [i64] holds. *)
Variable PAGE_SIZE : Z.

(** The running state of the loop: the two [i64] locals. *)
Record layout_state := mkLayout { fileoff : Z; vaddr : Z }.

(** One iteration of the loop of [set_osec_offsets]: the updated chunk and
    the state after it. *)
Definition osec_step (st : layout_state) (chunk : OutputChunk)
    : OutputChunk * layout_state :=
  let vaddr1 :=
    if new_page chunk
    then to_i64 (align_to (to_u64 (vaddr st)) (to_u64 PAGE_SIZE))
    else vaddr st in
  let vaddr2 :=
    to_i64 (align_to (to_u64 vaddr1) (sh_addralign (shdr chunk))) in
  let fileoff1 :=
    to_i64 (align_with_skew (to_u64 (fileoff st)) (to_u64 PAGE_SIZE)
                            (to_u64 (vaddr2 `rem` PAGE_SIZE))) in
  let chunk1 := set_sh_offset chunk (to_u64 fileoff1) in
  let chunk2 :=
    if is_alloc chunk then set_sh_addr chunk1 (to_u64 vaddr2) else chunk1 in
  let fileoff2 :=
    if is_bss chunk then fileoff1
    else to_i64 (to_u64 fileoff1 + sh_size (shdr chunk)) in
  let vaddr3 :=
    if is_tbss chunk then vaddr2
    else to_i64 (to_u64 vaddr2 + sh_size (shdr chunk)) in
  let vaddr4 :=
    if new_page_end chunk
    then to_i64 (align_to (to_u64 vaddr3) (to_u64 PAGE_SIZE))
    else vaddr3 in
  (chunk2, mkLayout fileoff2 vaddr4).

(** The address and the offset a chunk receives, in terms of the state
    before it. *)
Definition chunk_vaddr (st : layout_state) (c : OutputChunk) : Z :=
  to_i64 (align_to
    (to_u64 (if new_page c
             then to_i64 (align_to (to_u64 (vaddr st)) (to_u64 PAGE_SIZE))
             else vaddr st))
    (sh_addralign (shdr c))).

Definition chunk_fileoff (st : layout_state) (c : OutputChunk) : Z :=
  to_i64 (align_with_skew (to_u64 (fileoff st)) (to_u64 PAGE_SIZE)
                          (to_u64 (chunk_vaddr st c `rem` PAGE_SIZE))).

(** The loop over [ctx.chunks], from a given state. *)
Fixpoint osec_loop (st : layout_state) (chunks : list OutputChunk)
    : list OutputChunk * layout_state :=
  match chunks with
  | [] => ([], st)
  | chunk :: rest =>
      let '(chunk', st1) := osec_step st chunk in
      let '(rest', st2) := osec_loop st1 rest in
      (chunk' :: rest', st2)
  end.

(** [set_osec_offsets]: the chunks after the pass and the returned file
    size.  [ctx.chunks] holds pointers to distinct chunks, so the pass is
    a map over the list that threads the two counters. *)
Definition set_osec_offsets (image_base : Z) (chunks : list OutputChunk)
    : list OutputChunk * Z :=
  let '(chunks', st) := osec_loop (mkLayout 0 (to_i64 image_base)) chunks in
  (chunks', fileoff st).

End Layout.

(** ** Padding: [clear_padding] *)

(** A call [memset(ctx.buf + pos, 0, len)], with [pos] and [len] the signed
    values the code computes. *)
Record memset_call := mkMemset { ms_pos : Z; ms_len : Z }.

(** The lambda [zero] of [clear_padding]. *)
Definition zero (chunk : OutputChunk) (next_start : Z) : memset_call :=
  let pos := to_i64 (sh_offset (shdr chunk)) in
  let pos :=
    if negb (is_bss chunk)
    then to_i64 (to_u64 pos + sh_size (shdr chunk)) else pos in
  mkMemset pos (next_start - pos).

(** The loop [for (i = 1; i < chunks.size(); i++)] of [clear_padding]. *)
Fixpoint zero_between (chunks : list OutputChunk) : list memset_call :=
  match chunks with
  | prev :: ((next :: _) as rest) =>
      zero prev (to_i64 (sh_offset (shdr next))) :: zero_between rest
  | _ => []
  end.

(** [clear_padding]: the [memset] calls it issues, in order.  On an empty
    chunk list [ctx.chunks.back()] has no value. *)
Definition clear_padding (chunks : list OutputChunk) (filesize : Z)
    : option (list memset_call) :=
  match last chunks with
  | None => None
  | Some back => Some (zero_between chunks ++ [zero back filesize])
  end.

(** "[n] is the smallest number such that [n >= val] and
    [n % align == skew]": the comment above [align_with_skew]. *)
Definition smallest_with_skew (val align skew n : Z) : Prop :=
  val ≤ n ∧ n `mod` align = skew ∧
  ∀ m, val ≤ m → m `mod` align = skew → n ≤ m.


(** The layout invariant of a chunk after [set_osec_offsets], as the spec
    words it: the file offset is a multiple of the alignment, and an
    allocated chunk has an aligned address that is congruent to its file
    offset modulo the page size. *)
Definition layout_aligned (PAGE_SIZE : Z) (c : OutputChunk) : Prop :=
  sh_offset (shdr c) `mod` sh_addralign (shdr c) = 0 ∧
  (is_alloc c = true →
   sh_addr (shdr c) `mod` sh_addralign (shdr c) = 0 ∧
   sh_offset (shdr c) `mod` PAGE_SIZE = sh_addr (shdr c) `mod` PAGE_SIZE).

(** The same with the file-offset alignment limited to the alignments that
    do not exceed the page size. *)
Definition layout_aligned_page (PAGE_SIZE : Z) (c : OutputChunk) : Prop :=
  (sh_addralign (shdr c) ≤ PAGE_SIZE →
   sh_offset (shdr c) `mod` sh_addralign (shdr c) = 0) ∧
  (is_alloc c = true →
   sh_addr (shdr c) `mod` sh_addralign (shdr c) = 0 ∧
   sh_offset (shdr c) `mod` PAGE_SIZE = sh_addr (shdr c) `mod` PAGE_SIZE).

(** A chunk list in which every [sh_addralign] is a positive power of
    two. *)
Definition aligns_pow2 (chunks : list OutputChunk) : Prop :=
  Forall (λ c, is_pow2 (sh_addralign (shdr c)) = true) chunks.

(** A section of one page followed by a section aligned to two pages. *)
Definition chunks_two_pages : list OutputChunk :=
  [ mkChunk (mkShdr 1 SHF_ALLOC 0 0 4096 1) false false;
    mkChunk (mkShdr 1 SHF_ALLOC 0 0 16 8192) false false ].


(** ** Statements about the layout *)

(** "No overlap": an allocated chunk ends at or before the address of every
    allocated chunk that follows it in the list. *)
Definition no_overlap (chunks : list OutputChunk) : Prop :=
  ∀ (i j : nat) X Y,
    (i < j)%nat → chunks !! i = Some X → chunks !! j = Some Y →
    is_alloc X = true → is_alloc Y = true →
    sh_addr (shdr X) + sh_size (shdr X) ≤ sh_addr (shdr Y).

(** The same for the chunks that take up address space: all but the
    thread-local NOBITS ones. *)
Definition no_overlap_but_tbss (chunks : list OutputChunk) : Prop :=
  ∀ (i j : nat) X Y,
    (i < j)%nat → chunks !! i = Some X → chunks !! j = Some Y →
    is_alloc X = true → is_alloc Y = true → is_tbss X = false →
    sh_addr (shdr X) + sh_size (shdr X) ≤ sh_addr (shdr Y).

(** The fields of a section header that bound the layout are [u64]. *)
Definition chunk_u64 (c : OutputChunk) : Prop :=
  is_u64 (sh_size (shdr c)) ∧ is_u64 (sh_addralign (shdr c)).

(** An upper bound on how far one chunk moves the address counter: two
    roundings to the page, one to the alignment, and the size. *)
Definition vaddr_span (PAGE_SIZE : Z) (c : OutputChunk) : Z :=
  2 * PAGE_SIZE + sh_addralign (shdr c) + sh_size (shdr c).

(** An upper bound on how far one chunk moves the file offset. *)
Definition fileoff_span (PAGE_SIZE : Z) (c : OutputChunk) : Z :=
  PAGE_SIZE + (if is_bss c then 0 else sh_size (shdr c)).

Definition total_span (span : OutputChunk → Z) (chunks : list OutputChunk)
    : Z :=
  foldr (λ c acc, span c + acc) 0 chunks.

(** The addresses of the layout stay within the positive [i64] range. *)
Definition vaddr_fits (PAGE_SIZE image_base : Z) (chunks : list OutputChunk)
    : Prop :=
  Forall chunk_u64 chunks ∧ 0 ≤ image_base ∧
  image_base + total_span (vaddr_span PAGE_SIZE) chunks < 2 ^ 63.

(** The addresses of the layout do not wrap around the [u64] range:
    [image_base] is a [u64], as the option holds it, and the address counter
    stays below 2^64. *)
Definition vaddr_in_range (PAGE_SIZE image_base : Z)
    (chunks : list OutputChunk) : Prop :=
  Forall chunk_u64 chunks ∧ 0 ≤ image_base ∧
  image_base + total_span (vaddr_span PAGE_SIZE) chunks < 2 ^ 64.

(** The file offsets of the layout stay within the positive [i64] range. *)
Definition fileoff_fits (PAGE_SIZE : Z) (chunks : list OutputChunk) : Prop :=
  Forall chunk_u64 chunks ∧
  total_span (fileoff_span PAGE_SIZE) chunks < 2 ^ 63.

(** Where the data of a chunk ends in the file. *)
Definition data_end (c : OutputChunk) : Z :=
  sh_offset (shdr c) + (if is_bss c then 0 else sh_size (shdr c)).

(** The gaps of the file are well placed: each chunk's data ends at or
    before the next chunk's offset, and the last one's at or before
    [filesize]. *)
Fixpoint gaps_ordered (chunks : list OutputChunk) (filesize : Z) : Prop :=
  match chunks with
  | [] => True
  | [c] => data_end c ≤ filesize
  | c :: ((next :: _) as rest) =>
      data_end c ≤ sh_offset (shdr next) ∧ gaps_ordered rest filesize
  end.

(** Every [memset] of [clear_padding] has a non-negative length and stays
    within [0, filesize]. *)
Definition memset_in_bounds (filesize : Z) (m : memset_call) : Prop :=
  0 ≤ ms_pos m ∧ 0 ≤ ms_len m ∧ ms_pos m + ms_len m ≤ filesize.

(** What [clear_padding] is expected to meet after [set_osec_offsets]: the
    gaps are ordered and every [memset] it issues is within the file; it
    issues them unless the chunk list is empty. *)
Definition padding_safe (PAGE_SIZE image_base : Z)
    (chunks : list OutputChunk) : Prop :=
  let '(chunks', filesize) := set_osec_offsets PAGE_SIZE image_base chunks in
  gaps_ordered chunks' filesize ∧
  match clear_padding chunks' filesize with
  | Some calls => Forall (memset_in_bounds filesize) calls
  | None => chunks = []
  end.

(** A thread-local NOBITS section followed by a data section. *)
Definition chunks_tbss : list OutputChunk :=
  [ mkChunk (mkShdr SHT_NOBITS (Z.lor SHF_ALLOC (Z.lor SHF_TLS 1)) 0 0 16 8)
            false false;
    mkChunk (mkShdr 1 (Z.lor SHF_ALLOC 1) 0 0 8 8) false false ].

(** A code section, a thread-local NOBITS section and a data section on a
    page of its own. *)
Definition chunks_text_tbss_data : list OutputChunk :=
  [ mkChunk (mkShdr 1 (Z.lor SHF_ALLOC 4) 0 0 100 16) false false;
    mkChunk (mkShdr SHT_NOBITS (Z.lor SHF_ALLOC (Z.lor SHF_TLS 1)) 0 0 16 8)
            false false;
    mkChunk (mkShdr 1 (Z.lor SHF_ALLOC 1) 0 0 8 8) true false ].

(** Two sections of two pages and of 8 bytes, for an image that starts on
    the last page of the address space. *)
Definition chunks_last_page : list OutputChunk :=
  [ mkChunk (mkShdr 1 SHF_ALLOC 0 0 8192 1) false false;
    mkChunk (mkShdr 1 SHF_ALLOC 0 0 8 1) false false ].

(** A single section of 2^63 bytes. *)
Definition chunks_huge : list OutputChunk :=
  [ mkChunk (mkShdr 1 SHF_ALLOC 0 0 (2 ^ 63) 1) false false ].

(** A section of [2^64 - 100] bytes followed by a page-aligned section of
    200 bytes. *)
Definition chunks_past_end : list OutputChunk :=
  [ mkChunk (mkShdr 1 SHF_ALLOC 0 0 (2 ^ 64 - 100) 1) false false;
    mkChunk (mkShdr 1 SHF_ALLOC 0 0 200 4096) false false ].


(** ** Input files, sections and symbols *)

(** An input section; [output_section] is the [idx] of the output section
    it points to, which is that section's position in
    [OutputSection::instances]. *)
Record InputSection := mkIsec {
  isec_addr : nat;
  output_section : nat;
}.

(** A regular output section, with the list of its input sections. *)
Record OutputSection := mkOsec {
  members : list InputSection;
}.

(** A raw ELF symbol: the fields the passes look at. *)
Record ElfSym := mkEsym {
  st_bind : Z;
  st_shndx : Z;
}.

(** An object file.  [file_addr] is the address of the object, which is how
    the code compares files; [symbols] holds the addresses of the interned
    symbols; a null entry of [sections] or [symvers] is [None].
    [priority] is the field of the base class [InputFile]. *)
Record ObjectFile := mkObj {
  file_addr : nat;
  is_in_lib : bool;
  priority : Z;
  first_global : nat;
  elf_syms : list ElfSym;
  symbols : list nat;
  sections : list (option InputSection);
  symvers : list (option string);
}.

(** A shared library, with the [priority] of its base class. *)
Record SharedFile := mkDso {
  dso_addr : nat;
  dso_priority : Z;
  soname : string;
}.

(** ** Slicing: [split] *)

Section Split.

Context {T : Type}.

(** [span.size() >= unit]: the [i64] is converted to the unsigned type of
    the size. *)
Definition size_ge (span : list T) (unit : Z) : bool :=
  to_u64 unit <=? Z.of_nat (length span).

(** The [while] loop of [split] and the statement after it; [fuel] bounds
    the number of iterations, and running out of it is [None]. *)
Fixpoint split_loop (fuel : nat) (span : list T) (unit : Z)
    (vec : list (list T)) : option (list (list T)) :=
  match fuel with
  | O => None
  | S fuel' =>
      if size_ge span unit
      then split_loop fuel' (drop (Z.to_nat unit) span) unit
                      (vec ++ [take (Z.to_nat unit) span])
      else Some (match span with [] => vec | _ => vec ++ [span] end)
  end.

(** [split]: [None] when [assert(input.size() > 0)] fails or the loop does
    not end (at [unit = 0] the span never shrinks).  One iteration per
    element and one more is all the fuel a terminating run needs. *)
Definition split (input : list T) (unit : Z) : option (list (list T)) :=
  match input with
  | [] => None
  | _ => split_loop (S (length input)) input unit []
  end.

End Split.

(** ** Binning: [bin_sections] *)

(** [groups[i][isec->output_section->idx].push_back(isec)] for a non-null
    section; the index is not checked by the code, and an index outside the
    group is [None]. *)
Definition push_isec (group : list (list InputSection))
    (isec : option InputSection) : option (list (list InputSection)) :=
  match isec with
  | None => Some group
  | Some i =>
      if decide (output_section i < length group)%nat
      then Some (alter (λ l, l ++ [i]) (output_section i) group)
      else None
  end.

(** A loop whose body may fail. *)
Fixpoint fold_opt {A B : Type} (f : A → B → option A) (a : A) (l : list B)
    : option A :=
  match l with
  | [] => Some a
  | x :: l' => match f a x with Some a' => fold_opt f a' l' | None => None end
  end.

(** The body of the first [parallel_for]: the local vectors of one slice,
    filled file by file and section by section. *)
Definition slice_group (num_osec : nat) (slice : list ObjectFile)
    : option (list (list InputSection)) :=
  fold_opt (λ group file, fold_opt push_isec group (sections file))
           (replicate num_osec []) slice.

(** The first [parallel_for], slice by slice; the tasks write to disjoint
    groups, so their order does not matter. *)
Fixpoint slice_groups (num_osec : nat) (slices : list (list ObjectFile))
    : option (list (list (list InputSection))) :=
  match slices with
  | [] => Some []
  | slice :: rest =>
      match slice_group num_osec slice, slice_groups num_osec rest with
      | Some g, Some gs => Some (g :: gs)
      | _, _ => None
      end
  end.

(** [sizes[j]], the capacity reserved for output section [j]. *)
Definition reserved_size (groups : list (list (list InputSection))) (j : nat)
    : nat :=
  foldl (λ n group, (n + length (default [] (group !! j)))%nat) 0%nat groups.

(** The body of the second [parallel_for]: every slice's contribution is
    appended in slice order. *)
Definition append_groups (groups : list (list (list InputSection)))
    (j : nat) (osec : OutputSection) : OutputSection :=
  mkOsec (foldl (λ m group, m ++ default [] (group !! j)) (members osec) groups).

(** [bin_sections], on [ctx.objs] and [OutputSection::instances]. *)
Definition bin_sections (objs : list ObjectFile)
    (instances : list OutputSection) : option (list OutputSection) :=
  let unit := to_i64 (to_u64 (Z.of_nat (length objs) + 127) `div` 128) in
  match split objs unit with
  | None => None
  | Some slices =>
      match slice_groups (length instances) slices with
      | None => None
      | Some groups => Some (imap (append_groups groups) instances)
      end
  end.

(** The sequential reference of the spec: the objects in vector order,
    the sections of each in index order, every non-null section appended to
    the members of the output section it points to. *)
Definition append_seq (j : nat) (ms : list InputSection)
    (isec : option InputSection) : list InputSection :=
  match isec with
  | Some i => if decide (output_section i = j) then ms ++ [i] else ms
  | None => ms
  end.

Definition bin_sections_seq (objs : list ObjectFile)
    (instances : list OutputSection) : list OutputSection :=
  imap (λ j osec,
          mkOsec (foldl (λ ms file, foldl (append_seq j) ms (sections file))
                        (members osec) objs))
       instances.

(** Every input section points to an existing output section. *)
Definition sections_valid (num_osec : nat) (objs : list ObjectFile) : Prop :=
  ∀ file i, file ∈ objs → Some i ∈ sections file →
            (output_section i < num_osec)%nat.

(** Two output sections, the first with a member already. *)
Definition instances_two : list OutputSection :=
  [mkOsec [mkIsec 99 0]; mkOsec []].

(** Three object files with five sections for two output sections. *)
Definition objs_three : list ObjectFile :=
  [ mkObj 1 false 0 0 [] [] [Some (mkIsec 10 0); None; Some (mkIsec 11 1)] [];
    mkObj 2 true 0 0 [] [] [Some (mkIsec 20 1)] [];
    mkObj 3 false 0 0 [] [] [None; Some (mkIsec 30 0); Some (mkIsec 31 0)] [] ].


(** What [split] promises about its result: non-empty slices that
    concatenate to the input, all of length [unit] except possibly the
    last, which is no longer than [unit]. *)
Definition slices_of {T : Type} (v : list T) (unit : Z)
    (slices : list (list T)) : Prop :=
  concat slices = v ∧
  Forall (λ s, s ≠ []) slices ∧
  (∀ (i : nat) s, slices !! i = Some s → (S i < length slices)%nat →
                  Z.of_nat (length s) = unit) ∧
  (∀ s, last slices = Some s → Z.of_nat (length s) ≤ unit).


(** ** File priorities: [set_file_priority] *)

Definition set_priority (file : ObjectFile) (p : Z) : ObjectFile :=
  mkObj (file_addr file) (is_in_lib file) p (first_global file)
        (elf_syms file) (symbols file) (sections file) (symvers file).

Definition set_dso_priority (file : SharedFile) (p : Z) : SharedFile :=
  mkDso (dso_addr file) p (soname file).

(** One loop over [ctx.objs]: [if (file->is_in_lib == lib)
    file->priority = priority++].  The counter is an [i64] that starts at 2
    and grows by one per file, so it does not overflow. *)
Fixpoint assign_objs (lib : bool) (priority : Z) (objs : list ObjectFile)
    : list ObjectFile * Z :=
  match objs with
  | [] => ([], priority)
  | file :: rest =>
      if bool_decide (is_in_lib file = lib)
      then let '(rest', p) := assign_objs lib (priority + 1) rest in
           (set_priority file priority :: rest', p)
      else let '(rest', p) := assign_objs lib priority rest in
           (file :: rest', p)
  end.

(** The loop over [ctx.dsos]. *)
Fixpoint assign_dsos (priority : Z) (dsos : list SharedFile)
    : list SharedFile * Z :=
  match dsos with
  | [] => ([], priority)
  | file :: rest =>
      let '(rest', p) := assign_dsos (priority + 1) rest in
      (set_dso_priority file priority :: rest', p)
  end.

(** [set_file_priority]: the files of [ctx.objs] and [ctx.dsos] after the
    three loops. *)
Definition set_file_priority (objs : list ObjectFile)
    (dsos : list SharedFile) : list ObjectFile * list SharedFile :=
  let priority := 2 in
  let '(objs1, priority) := assign_objs false priority objs in
  let '(objs2, priority) := assign_objs true priority objs1 in
  let '(dsos', _) := assign_dsos priority dsos in
  (objs2, dsos').

(** The order the pass is to establish. *)
Definition priorities_ordered (objs : list ObjectFile)
    (dsos : list SharedFile) : Prop :=
  (** pairwise distinct, and exactly the integers from 2 on *)
  Permutation ((priority <$> objs) ++ (dso_priority <$> dsos))
              (seqZ 2 (Z.of_nat (length objs + length dsos))) ∧
  (** objects given on the command line before archive members *)
  (∀ a b, a ∈ objs → b ∈ objs → is_in_lib a = false → is_in_lib b = true →
          priority a < priority b) ∧
  (** objects before shared libraries *)
  (∀ a d, a ∈ objs → d ∈ dsos → priority a < dso_priority d) ∧
  (** input order within each of the three classes *)
  (∀ (i j : nat) a b, (i < j)%nat → objs !! i = Some a → objs !! j = Some b →
          is_in_lib a = is_in_lib b → priority a < priority b) ∧
  (∀ (i j : nat) c d, (i < j)%nat → dsos !! i = Some c → dsos !! j = Some d →
          dso_priority c < dso_priority d).


(** How many files of a list are (or are not) archive members. *)
Definition count_lib (lib : bool) (objs : list ObjectFile) : nat :=
  length (filter (λ b, b = lib) (is_in_lib <$> objs)).


(** ** Symbols *)

(** An interned symbol: [file] is the address of the file that provides the
    current binding ([None] for a null pointer), [version] what
    [get_version()] returns. *)
Record Symbol := mkSym {
  file : option nat;
  ver_idx : Z;
  dynsym_idx : nat;
  version : string;
}.

(** Modelled from the spec: the predicates of [ElfSym] are defined in
    elf.h, and [ObjectFile::get_section] in mold.h, neither part of
    passes.cc.  They are what the ELF format says: a symbol is undefined,
    absolute or common by its section index, and [get_section] is the input
    section at that index, null when the section was discarded. *)
Definition is_undef (esym : ElfSym) : bool := st_shndx esym =? SHN_UNDEF.
Definition is_defined (esym : ElfSym) : bool := negb (is_undef esym).
Definition is_abs (esym : ElfSym) : bool := st_shndx esym =? SHN_ABS.
Definition is_common (esym : ElfSym) : bool := st_shndx esym =? SHN_COMMON.
Definition get_section (file : ObjectFile) (esym : ElfSym)
    : option InputSection :=
  mjoin (sections file !! Z.to_nat (st_shndx esym)).

(** ** Duplicate definitions: [check_duplicate_symbols] *)

(** The error ["duplicate symbol: " << *file << ": " << *sym.file << ": "
    << sym]: the reporting file, the owner of the symbol, the symbol.  The
    owner is printed through [*sym.file], so that it is a file. *)
Record DupError := mkDup {
  dup_file : nat;
  dup_owner : nat;
  dup_sym : nat;
}.

Global Instance DupError_eq_dec : EqDecision DupError.
Proof. solve_decision. Defined.

Definition is_weak (esym : ElfSym) : bool := st_bind esym =? STB_WEAK.

Definition is_eliminated (file : ObjectFile) (esym : ElfSym) : bool :=
  negb (is_abs esym) && negb (is_common esym)
       && negb (bool_decide (is_Some (get_section file esym))).

(** The condition of the [if] in the loop body. *)
Definition is_duplicate (this : ObjectFile) (esym : ElfSym) (sym : Symbol)
    : bool :=
  negb (bool_decide (file sym = Some (file_addr this)))
  && is_defined esym && negb (is_common esym) && negb (is_weak esym)
  && negb (is_eliminated this esym).

(** The body of the loop at index [i]: the errors it records, none or
    one.  The code reads [symbols[i]] unchecked and dereferences the
    pointer it finds there, and to print the error it dereferences
    [sym.file]: an index past the end of [symbols], a pointer to no symbol,
    and a duplicate whose symbol has no owner (a null [sym.file]) have no
    defined outcome, [None]. *)
Definition check_dup_at (syms : gmap nat Symbol) (this : ObjectFile)
    (i : nat) : option (list DupError) :=
  esym ← elf_syms this !! i;
  a ← symbols this !! i;
  sym ← syms !! a;
  if is_duplicate this esym sym
  then owner ← file sym; Some [mkDup (file_addr this) owner a]
  else Some [].

(** The indices [first_global .. elf_syms.size() - 1]. *)
Definition global_indices (this : ObjectFile) : list nat :=
  seq (first_global this) (length (elf_syms this) - first_global this).

(** The loop over the globals of one file. *)
Definition check_dup_file (syms : gmap nat Symbol) (this : ObjectFile)
    : option (list DupError) :=
  @concat DupError <$> mapM (check_dup_at syms this) (global_indices this).

(** [check_duplicate_symbols]: the errors recorded, file by file.  The
    files are visited in parallel, so the order between the errors of two
    files is not fixed; the statements below count errors and do not depend
    on it. *)
Definition check_duplicate_symbols (syms : gmap nat Symbol)
    (objs : list ObjectFile) : option (list DupError) :=
  @concat DupError <$> mapM (check_dup_file syms) objs.

(** [this] defines symbol [a] as a non-weak, non-common, non-eliminated
    global. *)
Definition defines_strong (this : ObjectFile) (a : nat) : Prop :=
  ∃ (i : nat) esym,
    i ∈ global_indices this ∧ elf_syms this !! i = Some esym ∧
    symbols this !! i = Some a ∧
    is_defined esym = true ∧ is_common esym = false ∧
    is_weak esym = false ∧ is_eliminated this esym = false.

(** The same as a test: slot [i] of [this] is such a definition of [a], and
    some global slot is. *)
Definition strong_at (this : ObjectFile) (a i : nat) : bool :=
  match elf_syms this !! i, symbols this !! i with
  | Some esym, Some b =>
      bool_decide (b = a) && is_defined esym && negb (is_common esym)
      && negb (is_weak esym) && negb (is_eliminated this esym)
  | _, _ => false
  end.

Definition defines_strongb (this : ObjectFile) (a : nat) : bool :=
  existsb (strong_at this a) (global_indices this).

(** The errors recorded for the pair of files [f] and [g] about symbol
    [a]: one of the two reports the other as the owner. *)
Definition errors_for_pair (f g a : nat) (errs : list DupError)
    : list DupError :=
  filter (λ e, dup_sym e = a ∧
               ((dup_file e = f ∧ dup_owner e = g) ∨
                (dup_file e = g ∧ dup_owner e = f))) errs.

(** "Exactly one error per pair of conflicting strong definitions across
    distinct files". *)
Definition one_error_per_pair (syms : gmap nat Symbol)
    (objs : list ObjectFile) : Prop :=
  ∃ errs, check_duplicate_symbols syms objs = Some errs ∧
    ∀ a f g, f ∈ objs → g ∈ objs → file_addr f ≠ file_addr g →
             defines_strong f a → defines_strong g a →
             length (errors_for_pair (file_addr f) (file_addr g) a errs)
             = 1%nat.

(** The errors that file [f] reports about symbol [a], and the errors
    about [a]. *)
Definition errors_of (f a : nat) (errs : list DupError) : list DupError :=
  filter (λ e, dup_file e = f ∧ dup_sym e = a) errs.

Definition errors_about (a : nat) (errs : list DupError) : list DupError :=
  filter (λ e, dup_sym e = a) errs.

(** What the pass needs of its input: every global slot of every file
    points to a symbol, and a symbol that some file defines (not weak, not
    common, not eliminated) has been bound to a file. *)
Definition dup_inputs_ok (syms : gmap nat Symbol) (objs : list ObjectFile)
    : Prop :=
  ∀ this (i : nat) esym, this ∈ objs → i ∈ global_indices this →
    elf_syms this !! i = Some esym →
    ∃ a sym, symbols this !! i = Some a ∧ syms !! a = Some sym ∧
             (is_defined esym = true → is_common esym = false →
              is_weak esym = false → is_eliminated this esym = false →
              is_Some (file sym)).

(** No file holds symbol [a] in two global slots. *)
Definition single_slot (objs : list ObjectFile) (a : nat) : Prop :=
  ∀ this (i i' : nat), this ∈ objs →
    i ∈ global_indices this → i' ∈ global_indices this →
    symbols this !! i = Some a → symbols this !! i' = Some a → i = i'.

(** The files that lose symbol [a]: they define it, and it is bound to
    another file. *)
Definition losers (objs : list ObjectFile) (a : nat) (sym : Symbol)
    : list ObjectFile :=
  filter (λ this, defines_strongb this a = true ∧
                  file sym ≠ Some (file_addr this)) objs.

(** Three files that each define symbol 100 in section 1; the symbol is
    bound to the first. *)
Definition obj_strong (addr : nat) : ObjectFile :=
  mkObj addr false 0 1 [mkEsym 0 0; mkEsym 1 1] [0%nat; 100%nat]
        [None; Some (mkIsec addr 0)] [].
Definition objs_strong : list ObjectFile :=
  [obj_strong 1; obj_strong 2; obj_strong 3].
Definition syms_strong : gmap nat Symbol :=
  {[ 100%nat := mkSym (Some 1%nat) 1 0 "" ]}.

(** A file that holds symbol 100 in two global slots, both definitions,
    beside the file the symbol is bound to. *)
Definition obj_twice : ObjectFile :=
  mkObj 2 false 0 1 [mkEsym 0 0; mkEsym 1 1; mkEsym 1 1]
        [0%nat; 100%nat; 100%nat] [None; Some (mkIsec 2 0)] [].
Definition objs_twice : list ObjectFile := [obj_strong 1; obj_twice].

(** The symbol bound to a file that is not among [ctx.objs]. *)
Definition syms_elsewhere : gmap nat Symbol :=
  {[ 100%nat := mkSym (Some 99%nat) 1 0 "" ]}.


(** ** Symbol versions: [parse_symbol_version] *)

(** The error [*file << ": symbol " << *sym << " has undefined version "
    << ver]. *)
Record VerError := mkVerr {
  verr_file : nat;
  verr_sym : nat;
  verr_ver : string;
}.

(** The loop that fills [verdefs]:
    [verdefs[version_definitions[i]] = i + VER_NDX_LAST_RESERVED + 1], the
    value being a [u16]. *)
Fixpoint verdefs_loop (i : nat) (version_definitions : list string)
    (verdefs : gmap string Z) : gmap string Z :=
  match version_definitions with
  | [] => verdefs
  | v :: rest =>
      verdefs_loop (S i) rest
        (<[v := to_u16 (Z.of_nat i + VER_NDX_LAST_RESERVED + 1)]> verdefs)
  end.

Definition make_verdefs (version_definitions : list string) : gmap string Z :=
  verdefs_loop 0 version_definitions ∅.

(** [if (ver.starts_with('@')) { is_default = true; ver = ver.substr(1); }] *)
Definition split_default (ver : string) : bool * string :=
  match ver with
  | String "@"%char rest => (true, rest)
  | _ => (false, ver)
  end.

Definition set_ver_idx (sym : Symbol) (v : Z) : Symbol :=
  mkSym (file sym) v (dynsym_idx sym) (version sym).

(** The version index a symbol receives: [it->second], with
    [VERSYM_HIDDEN] ORed in unless the version is the default one. *)
Definition versym_value (is_default : bool) (idx : Z) : Z :=
  if is_default then idx else to_u16 (Z.lor idx VERSYM_HIDDEN).

(** The body of the loop over the globals of a file, at index [i], on the
    symbol store and the errors recorded so far. *)
Definition parse_symver_at (verdefs : gmap string Z) (this : ObjectFile)
    (st : gmap nat Symbol * list VerError) (i : nat)
    : gmap nat Symbol * list VerError :=
  match symvers this !! i with
  | Some (Some verstr) =>
      match symbols this !! (i + first_global this)%nat with
      | Some a =>
          match st.1 !! a with
          | Some sym =>
              if bool_decide (file sym = Some (file_addr this))
              then
                let '(is_default, ver) := split_default verstr in
                match verdefs !! ver with
                | None => (st.1, st.2 ++ [mkVerr (file_addr this) a ver])
                | Some idx =>
                    (<[a := set_ver_idx sym (versym_value is_default idx)]>
                       st.1, st.2)
                end
              else st
          | None => st
          end
      | None => st
      end
  | _ => st
  end.

(** The indices [0 .. symbols.size() - first_global - 1]; [first_global]
    is at most the number of symbols. *)
Definition symver_indices (this : ObjectFile) : list nat :=
  seq 0 (length (symbols this) - first_global this).

(** [parse_symbol_version]: the symbol store and the errors after the pass.
    A file writes only to symbols it owns, so the files, which run in
    parallel, do not interfere, and the pass is the loop over them. *)
Definition parse_symbol_version (version_definitions : list string)
    (syms : gmap nat Symbol) (objs : list ObjectFile)
    : gmap nat Symbol * list VerError :=
  let verdefs := make_verdefs version_definitions in
  foldl (λ st this, foldl (parse_symver_at verdefs this) st
                          (symver_indices this))
        (syms, []) objs.

(** Symbol [a], owned by [this], carries the version string [verstr] in
    slot [i] of the globals of [this]. *)
Definition carries_version (syms : gmap nat Symbol) (this : ObjectFile)
    (i : nat) (a : nat) (verstr : string) : Prop :=
  i ∈ symver_indices this ∧
  symvers this !! i = Some (Some verstr) ∧
  symbols this !! (i + first_global this)%nat = Some a ∧
  ∃ sym, syms !! a = Some sym ∧ file sym = Some (file_addr this).

(** No other slot of [this] with a version string holds [a]. *)
Definition only_version_slot (this : ObjectFile) (i : nat) (a : nat) : Prop :=
  ∀ j, j ∈ symver_indices this → is_Some (mjoin (symvers this !! j)) →
       symbols this !! (j + first_global this)%nat = Some a → j = i.

(** Scenario 4 of the spec: [f@@V1] and [g@V1] in [a.o], with
    [version_definitions = ["V1"]]. *)
Definition obj_versions : ObjectFile :=
  mkObj 1 false 2 1 [mkEsym 0 0; mkEsym 1 1; mkEsym 1 1]
        [0%nat; 100%nat; 101%nat] [None; Some (mkIsec 10 0)]
        [Some "@V1"; Some "V1"]%string.
Definition syms_versions : gmap nat Symbol :=
  {[ 100%nat := mkSym (Some 1%nat) 1 0 ""; 101%nat := mkSym (Some 1%nat) 1 0 "" ]}.


(** The index of a version as the spec words it: whichever entry [k] of
    [version_definitions] holds the version of a symbol, the symbol gets
    [k + VER_NDX_LAST_RESERVED + 1], with [VERSYM_HIDDEN] unless the version
    is the default one. *)
Definition version_index_stated (version_definitions : list string)
    (syms : gmap nat Symbol) (objs : list ObjectFile) : Prop :=
  ∀ this (i : nat) a verstr sym (k : nat),
    this ∈ objs → carries_version syms this i a verstr →
    only_version_slot this i a → syms !! a = Some sym →
    version_definitions !! k = Some (split_default verstr).2 →
    (parse_symbol_version version_definitions syms objs).1 !! a
    = Some (set_ver_idx sym
        (if (split_default verstr).1
         then Z.of_nat k + VER_NDX_LAST_RESERVED + 1
         else Z.lor (Z.of_nat k + VER_NDX_LAST_RESERVED + 1) VERSYM_HIDDEN)).

(** 65535 version definitions, the last of them [V1]. *)
Definition versions_many : list string :=
  replicate (Z.to_nat 65534) "V0"%string ++ ["V1"%string].

(** The pass leaves the owner of every symbol as it was. *)
Definition same_owners (syms0 syms1 : gmap nat Symbol) : Prop :=
  ∀ b, file <$> (syms1 !! b) = file <$> (syms0 !! b).

(** Slot [i] of [this] holds a version string for a symbol that [this]
    owns in [syms0]. *)
Definition slot_owned (syms0 : gmap nat Symbol) (this : ObjectFile)
    (i : nat) (a : nat) (verstr : string) : Prop :=
  symvers this !! i = Some (Some verstr) ∧
  symbols this !! (i + first_global this)%nat = Some a ∧
  ∃ sym, syms0 !! a = Some sym ∧ file sym = Some (file_addr this).

(** The error that slot [i] of [this] records, if its version is not
    defined. *)
Definition slot_error (syms0 : gmap nat Symbol) (verdefs : gmap string Z)
    (this : ObjectFile) (i : nat) (e : VerError) : Prop :=
  ∃ a verstr, slot_owned syms0 this i a verstr ∧
              verdefs !! (split_default verstr).2 = None ∧
              e = mkVerr (file_addr this) a (split_default verstr).2.


(** ** Version needs: [fill_verneed] *)

(** An input file is an object file or a shared library. *)
Inductive InputFile :=
  | ObjFile (o : ObjectFile)
  | DsoFile (d : SharedFile).

Definition is_dso (f : InputFile) : bool :=
  match f with DsoFile _ => true | ObjFile _ => false end.

(** A [Vernaux] record: the version index it assigns and the version
    string, which determines [vna_hash] and [vna_name]. *)
Record Vernaux := mkVernaux {
  vna_other : Z;
  vna_name : string;
}.

(** A [Verneed] record with the [Vernaux] records that follow it;
    [vn_file] is the soname whose offset the record stores.

    Modelled from the spec: the records are declared in elf.h, which is not
    part of passes.cc; they are those of the ELF format, in which [vn_cnt]
    is a 16-bit field. *)
Record Verneed := mkVerneed {
  vn_version : Z;
  vn_cnt : Z;
  vn_file : string;
  vn_aux : list Vernaux;
}.

(** What the pass writes: the contents of [.gnu.version], the records of
    [.gnu.version_r], and [sh_info] of the latter. *)
Record VersionTables := mkTables {
  versym : list Z;
  verneed : list Verneed;
  verneed_info : Z;
}.

Section Verneed.

(** The files by address; the pass only reads files and symbols. *)
Variable files : gmap nat InputFile.

(** The buffer of [.gnu.version_r] before the pass.  [contents.resize]
    keeps the bytes the buffer has and fills what it adds with zeros, and
    the pass never writes [vn_cnt] before it increments it, so that the
    count of a group starts from what the buffer holds at the place of the
    record: [stale_cnt g x] is the value found in the [vn_cnt] field of a
    [Verneed] record placed after [g] groups and [x] entries.  It is 0
    everywhere when the buffer is new. *)
Variable stale_cnt : nat → nat → Z.

(** The symbols that stay after [erase]: those of a shared library with a
    version index above the reserved ones.  Every symbol of [.dynsym] has a
    file; a pointer that is null or to no file is not selected here. *)
Definition needs_version (sym : Symbol) : bool :=
  match file sym with
  | Some a =>
      match files !! a with
      | Some f => is_dso f && (VER_NDX_LAST_RESERVED <? ver_idx sym)
      | None => false
      end
  | None => false
  end.

(** The soname of the shared library that [sym->file] points to. *)
Definition soname_of (sym : Symbol) : string :=
  match file sym with
  | Some a =>
      match files !! a with
      | Some (DsoFile d) => soname d
      | _ => EmptyString
      end
  | None => EmptyString
  end.

(** The comparison of the sort:
    [tuple(soname(a), a->ver_idx) < tuple(soname(b), b->ver_idx)]. *)
Definition verneed_less (a b : Symbol) : bool :=
  match String.compare (soname_of a) (soname_of b) with
  | Lt => true
  | Gt => false
  | Eq => ver_idx a <? ver_idx b
  end.

(** Modelled from the spec: [sort] is a helper of mold.h, not part of
    passes.cc; the spec says "sort by (soname, ver_idx)".  The model is the
    stable sort by the comparison it is given, written as an insertion
    sort. *)
Fixpoint sort_insert {A : Type} (less : A → A → bool) (x : A) (l : list A)
    : list A :=
  match l with
  | [] => [x]
  | y :: l' => if less y x then y :: sort_insert less x l' else x :: y :: l'
  end.

Definition sort {A : Type} (less : A → A → bool) (l : list A) : list A :=
  foldr (sort_insert less) [] l.

(** The state of the walk: the finished groups, the group [verneed] points
    to, the counter [veridx], [.gnu.version] and [sh_info]. *)
Record walk_state := mkWalk {
  w_done : list Verneed;
  w_verneed : option Verneed;
  w_veridx : Z;
  w_versym : list Z;
  w_info : Z;
}.

(** All the groups of a walk, the current one last. *)
Definition walk_groups (st : walk_state) : list Verneed :=
  w_done st ++ option_list (w_verneed st).

(** The lambda [start_group].  The new record is placed at [ptr], after
    the groups and entries written so far; [vn_version], [vn_file] and
    [vn_aux] are written, [vn_cnt] is what the buffer holds there. *)
Definition start_group (sym : Symbol) (st : walk_state) : walk_state :=
  let groups := walk_groups st in
  mkWalk groups
         (Some (mkVerneed 1
                  (stale_cnt (length groups) (length (groups ≫= vn_aux)))
                  (soname_of sym) []))
         (w_veridx st) (w_versym st) (w_info st + 1).

(** The lambda [add_entry]; it is only called with a group started. *)
Definition add_entry (sym : Symbol) (st : walk_state) : walk_state :=
  match w_verneed st with
  | Some g =>
      let veridx := to_u16 (w_veridx st + 1) in
      mkWalk (w_done st)
             (Some (mkVerneed (vn_version g) (to_u16 (vn_cnt g + 1))
                       (vn_file g)
                       (vn_aux g ++ [mkVernaux veridx (version sym)])))
             veridx (w_versym st) (w_info st)
  | None => st
  end.

(** [i == 0 || syms[i - 1]->file != syms[i]->file]. *)
Definition is_new_file (prev : option Symbol) (sym : Symbol) : bool :=
  match prev with
  | None => true
  | Some p => negb (bool_decide (file p = file sym))
  end.

(** The condition under which [add_entry] is called. *)
Definition is_new_aux (prev : option Symbol) (sym : Symbol) : bool :=
  is_new_file prev sym ||
  match prev with
  | None => false
  | Some p => negb (ver_idx p =? ver_idx sym)
  end.

(** The body of the walk for [syms[i]], [prev] being [syms[i - 1]].  The
    code writes [contents[dynsym_idx]] unchecked; the index is within
    [.gnu.version] when [dynsym_idx] is the position in [.dynsym], and a
    write outside of it is left out. *)
Definition walk_step (prev : option Symbol) (sym : Symbol) (st : walk_state)
    : walk_state :=
  let st1 :=
    if is_new_file prev sym then add_entry sym (start_group sym st)
    else if is_new_aux prev sym then add_entry sym st
    else st in
  mkWalk (w_done st1) (w_verneed st1) (w_veridx st1)
         (<[dynsym_idx sym := w_veridx st1]> (w_versym st1)) (w_info st1).

Fixpoint walk (prev : option Symbol) (syms : list Symbol) (st : walk_state)
    : walk_state :=
  match syms with
  | [] => st
  | sym :: rest => walk (Some sym) rest (walk_step prev sym st)
  end.

(** [fill_verneed], on the symbols of [.dynsym] (the entry at index 0 is
    null), [version_definitions] and the tables. *)
Definition fill_verneed (dynsym : list (option Symbol))
    (version_definitions : list string) (tables : VersionTables)
    : VersionTables :=
  match dynsym with
  | [] => tables
  | _ =>
      let syms := filter (λ s, needs_version s = true)
                         (omap id (drop 1 dynsym)) in
      match syms with
      | [] => tables
      | _ =>
          let syms := sort verneed_less syms in
          let contents := <[0%nat := 0]> (resize (length dynsym) 1 (versym tables)) in
          let veridx :=
            to_u16 (VER_NDX_LAST_RESERVED
                    + Z.of_nat (length version_definitions)) in
          let st :=
            walk None syms
                 (mkWalk [] None veridx contents (verneed_info tables)) in
          mkTables (w_versym st) (w_done st ++ option_list (w_verneed st))
                   (w_info st)
      end
  end.

End Verneed.

(** The symbols of a walk at which a condition on the symbol and the one
    before it holds: the symbols that start a group, or an entry. *)
Fixpoint new_starts (new : option Symbol → Symbol → bool)
    (prev : option Symbol) (syms : list Symbol) : list Symbol :=
  match syms with
  | [] => []
  | sym :: rest =>
      (if new prev sym then [sym] else []) ++ new_starts new (Some sym) rest
  end.

(** The symbols [fill_verneed] selects, in the order of [.dynsym]. *)
Definition selected (files : gmap nat InputFile)
    (dynsym : list (option Symbol)) : list Symbol :=
  filter (λ s, needs_version files s = true) (omap id (drop 1 dynsym)).

(** The shape of the groups: version 1, and a count that is what the
    buffer held at the place of the group plus the number of its entries,
    in the 16 bits of [vn_cnt]. *)
Definition groups_counted (stale_cnt : nat → nat → Z)
    (groups : list Verneed) : Prop :=
  ∀ (k : nat) g, groups !! k = Some g →
    vn_version g = 1 ∧
    vn_cnt g = to_u16 (stale_cnt k (length (take k groups ≫= vn_aux))
                       + Z.of_nat (length (vn_aux g))).

(** The order the sort is to establish between neighbours. *)
Definition verneed_le (files : gmap nat InputFile) (a b : Symbol) : Prop :=
  verneed_less files b a = false.

(** [dynsym_idx] is the position of the symbol in [.dynsym]. *)
Definition dynsym_indexed (dynsym : list (option Symbol)) : Prop :=
  ∀ (p : nat) s, dynsym !! p = Some (Some s) → dynsym_idx s = p.

(** The selected symbols have slots of their own in [.gnu.version]: their
    [dynsym_idx] are pairwise distinct, within [.dynsym] and not 0, as when
    [dynsym_idx] is the position of the symbol in [.dynsym]. *)
Definition slots_distinct (files : gmap nat InputFile)
    (dynsym : list (option Symbol)) : Prop :=
  NoDup (dynsym_idx <$> selected files dynsym) ∧
  ∀ s, s ∈ selected files dynsym →
       (1 ≤ dynsym_idx s < length dynsym)%nat.

(** What [fill_verneed] has written when it selects at least one symbol;
    [sorted] is the selection in the order of the walk and [base] the
    initial value of the counter. *)
Definition verneed_filled (files : gmap nat InputFile)
    (stale_cnt : nat → nat → Z)
    (dynsym : list (option Symbol)) (tables out : VersionTables)
    (sorted : list Symbol) (base : Z) : Prop :=
  (** one group per file boundary, for the soname of the file *)
  vn_file <$> verneed out
    = soname_of files <$> new_starts is_new_file None sorted ∧
  verneed_info out
    = verneed_info tables
      + Z.of_nat (length (new_starts is_new_file None sorted)) ∧
  groups_counted stale_cnt (verneed out) ∧
  (** one entry per (file, ver_idx) boundary, numbered by the counter *)
  verneed out ≫= vn_aux
    = imap (λ j s, mkVernaux (to_u16 (base + Z.of_nat j + 1)) (version s))
           (new_starts is_new_aux None sorted) ∧
  (** the entry of every symbol lies in the group of the symbol's file:
      the group of the last file boundary at or before the symbol holds the
      entry of the last version boundary at or before it *)
  (∀ (i : nat) s, sorted !! i = Some s →
     ∃ g aux,
       verneed out
         !! pred (length (new_starts is_new_file None (take (S i) sorted)))
       = Some g ∧
       vn_file g = soname_of files s ∧ aux ∈ vn_aux g ∧
       vna_other aux =
       to_u16 (base + Z.of_nat
                 (length (new_starts is_new_aux None (take (S i) sorted))))) ∧
  (** [.gnu.version] *)
  length (versym out) = length dynsym ∧
  versym out !! 0%nat = Some 0 ∧
  (∀ (i : nat) s, sorted !! i = Some s →
     versym out !! dynsym_idx s =
     Some (to_u16 (base + Z.of_nat
             (length (new_starts is_new_aux None (take (S i) sorted)))))) ∧
  (∀ p : nat, (1 ≤ p)%nat → (∀ s, s ∈ sorted → dynsym_idx s ≠ p) →
     versym out !! p = resize (length dynsym) 1 (versym tables) !! p).

(** C7 as the claim words it, for the tables [out] after the pass: one
    group per distinct file of the walk, one entry per boundary, numbered
    from [VER_NDX_LAST_RESERVED + |version_definitions|] on, 0 at index 0
    of [.gnu.version] and the value of the counter in the slot of every
    selected symbol. *)
Definition verneed_stated (files : gmap nat InputFile)
    (dynsym : list (option Symbol)) (version_definitions : list string)
    (out : VersionTables) : Prop :=
  let sorted := sort (verneed_less files) (selected files dynsym) in
  let base := VER_NDX_LAST_RESERVED
              + Z.of_nat (length version_definitions) in
  length (verneed out) = length (remove_dups (file <$> sorted)) ∧
  vna_other <$> (verneed out ≫= vn_aux)
    = imap (λ j _, base + Z.of_nat j + 1)
           (new_starts is_new_aux None sorted) ∧
  versym out !! 0%nat = Some 0 ∧
  (∀ (i : nat) s, sorted !! i = Some s →
     versym out !! dynsym_idx s =
     Some (base + Z.of_nat
             (length (new_starts is_new_aux None (take (S i) sorted))))).

(** A buffer that is new. *)
Definition no_stale : nat → nat → Z := λ _ _, 0.

(** A [.dynsym] with one symbol, of an object file. *)
Definition dynsym_unversioned : list (option Symbol) :=
  [ None; Some (mkSym (Some 1%nat) 1 1 "") ].

(** Two libraries, three versioned symbols and an unversioned one. *)
Definition files_two : gmap nat InputFile :=
  {[ 7%nat := DsoFile (mkDso 7 5 "libc.so");
     8%nat := DsoFile (mkDso 8 6 "libm.so");
     1%nat := ObjFile (obj_strong 1) ]}.
Definition dynsym_four : list (option Symbol) :=
  [ None;
    Some (mkSym (Some 8%nat) 2 1 "LIBM_1");
    Some (mkSym (Some 7%nat) 3 2 "GLIBC_2.14");
    Some (mkSym (Some 1%nat) 1 3 "");
    Some (mkSym (Some 7%nat) 2 4 "GLIBC_2.2.5");
    Some (mkSym (Some 7%nat) 3 5 "GLIBC_2.14") ].


(** Two libraries with the same soname, and three symbols that alternate
    between them in the order of their versions. *)
Definition files_same_soname : gmap nat InputFile :=
  {[ 7%nat := DsoFile (mkDso 7 5 "libx.so");
     8%nat := DsoFile (mkDso 8 6 "libx.so") ]}.
Definition dynsym_alternate : list (option Symbol) :=
  [ None;
    Some (mkSym (Some 7%nat) 2 1 "X_1");
    Some (mkSym (Some 8%nat) 3 2 "X_2");
    Some (mkSym (Some 7%nat) 4 3 "X_3") ].

(** Two versioned symbols with the same [dynsym_idx]. *)
Definition dynsym_same_slot : list (option Symbol) :=
  [ None;
    Some (mkSym (Some 7%nat) 2 1 "GLIBC_2.2.5");
    Some (mkSym (Some 7%nat) 3 1 "GLIBC_2.14") ].

(** A versioned symbol whose [dynsym_idx] is 0. *)
Definition dynsym_slot_zero : list (option Symbol) :=
  [ None; Some (mkSym (Some 7%nat) 2 0 "GLIBC_2.2.5") ].

(** One versioned symbol. *)
Definition dynsym_one : list (option Symbol) :=
  [ None; Some (mkSym (Some 7%nat) 2 1 "GLIBC_2.2.5") ].

(** Symbols of shared libraries with the same soname are symbols of the
    same library. *)
Definition sonames_identify (files : gmap nat InputFile)
    (syms : list Symbol) : Prop :=
  ∀ a b, a ∈ syms → b ∈ syms →
         soname_of files a = soname_of files b → file a = file b.

(** The order of the sonames alone. *)
Definition soname_le (files : gmap nat InputFile) (a b : Symbol) : Prop :=
  String.compare (soname_of files a) (soname_of files b) ≠ Gt.


(** * The other passes *)

(** ** What a pass leaves alone *)

(** [set_osec_offsets] reads these fields of a chunk and writes none of
    them: [c'] is [c] but for [sh_offset] and, if [c] is allocated,
    [sh_addr]. *)
Definition same_input (c c' : OutputChunk) : Prop :=
  sh_type (shdr c') = sh_type (shdr c) ∧
  sh_flags (shdr c') = sh_flags (shdr c) ∧
  sh_size (shdr c') = sh_size (shdr c) ∧
  sh_addralign (shdr c') = sh_addralign (shdr c) ∧
  new_page c' = new_page c ∧ new_page_end c' = new_page_end c ∧
  (is_alloc c = false → sh_addr (shdr c') = sh_addr (shdr c)).


(** The fields of a symbol that [parse_symbol_version] leaves alone. *)
Definition unversioned_part (sym : Symbol) : option nat * nat * string :=
  (file sym, dynsym_idx sym, version sym).


(** ** Version definitions: [fill_verdef] *)

(** Modelled from the spec: [VER_FLG_BASE] is a constant of elf.h, with its
    value of the ELF format. *)
Definition VER_FLG_BASE : Z := 1.

(** A [Verdef] record with the [Verdaux] that follows it; [vd_name] is the
    version string, which determines [vd_hash] and [vda_name].  The integer
    fields are 16 bits wide. *)
Record Verdef := mkVerdef {
  vd_version : Z;
  vd_flags : Z;
  vd_ndx : Z;
  vd_cnt : Z;
  vd_name : string;
}.

(** The records of [.gnu.version_d] and [sh_info] of the section. *)
Record VerdefTable := mkVerdefTable {
  verdef : list Verdef;
  verdef_info : Z;
}.

(** The lambda [write] of [fill_verdef]: one more record, and [sh_info]
    counts it. *)
Definition write_verdef (vd : VerdefTable) (verstr : string) (idx flags : Z)
    : VerdefTable :=
  mkVerdefTable
    (verdef vd ++ [mkVerdef 1 (to_u16 flags) (to_u16 idx) 1 verstr])
    (verdef_info vd + 1).

(** The loop [for (verstr : version_definitions) write(verstr, idx++, 0)]. *)
Fixpoint write_verdefs (vd : VerdefTable) (idx : Z)
    (version_definitions : list string) : VerdefTable :=
  match version_definitions with
  | [] => vd
  | verstr :: rest => write_verdefs (write_verdef vd verstr idx 0) (idx + 1) rest
  end.

(** [ctx.versym->contents[sym->dynsym_idx] = sym->ver_idx]: the vector is
    indexed unchecked, and an index outside of it is [None]. *)
Definition set_versym (contents : list Z) (sym : Symbol) : option (list Z) :=
  if decide (dynsym_idx sym < length contents)%nat
  then Some (<[dynsym_idx sym := to_u16 (ver_idx sym)]> contents)
  else None.

(** [fill_verdef], on the symbols of [.dynsym], [version_definitions],
    the soname and the output name, and the tables.  With version
    definitions, the code writes [contents[0]] and takes [subspan(1)] of the
    symbols whatever their number, and reads every symbol past index 0: an
    empty [.dynsym] or a null entry is [None].  The buffer of
    [.gnu.version_d] is sized for the records written, which replace what it
    held. *)
Definition fill_verdef (dynsym : list (option Symbol))
    (version_definitions : list string) (soname output : string)
    (tables : VersionTables) (vd : VerdefTable)
    : option (VersionTables * VerdefTable) :=
  match version_definitions with
  | [] => Some (tables, vd)
  | _ =>
      match dynsym with
      | [] => None
      | _ =>
          let contents :=
            <[0%nat := 0]> (resize (length dynsym) 1 (versym tables)) in
          let basename :=
            match soname with EmptyString => output | _ => soname end in
          let vd1 :=
            write_verdef (mkVerdefTable [] (verdef_info vd)) basename 1
                         VER_FLG_BASE in
          let vd2 := write_verdefs vd1 2 version_definitions in
          syms ← mapM id (drop 1 dynsym);
          contents' ← fold_opt set_versym contents syms;
          Some (mkTables contents' (verneed tables) (verneed_info tables), vd2)
      end
  end.

(** Every entry of [.dynsym] past index 0 is a symbol. *)
Definition dynsym_filled (dynsym : list (option Symbol)) : Prop :=
  Forall is_Some (drop 1 dynsym).

(** The record [fill_verdef] writes for entry [k] of
    [version_definitions]. *)
Definition verdef_of (k : nat) (verstr : string) : Verdef :=
  mkVerdef 1 0 (Z.of_nat k + VER_NDX_LAST_RESERVED + 1) 1 verstr.

(** [.gnu.version] holds 0 at index 0 and, at the index of every other
    symbol of [.dynsym], what [value] gives for the symbol. *)
Definition versym_holds (dynsym : list (option Symbol)) (value : Symbol → Z)
    (contents : list Z) : Prop :=
  length contents = length dynsym ∧
  contents !! 0%nat = Some 0 ∧
  ∀ (p : nat) s, (1 ≤ p)%nat → dynsym !! p = Some (Some s) →
                 contents !! p = Some (value s).

(** A [.dynsym] of a versioned symbol of a library and a symbol of an
    object file that carries version index 2. *)
Definition dynsym_mixed : list (option Symbol) :=
  [ None;
    Some (mkSym (Some 7%nat) 2 1 "GLIBC_2.2.5");
    Some (mkSym (Some 1%nat) 2 2 "") ].


(** All the [Vernaux] records of [.gnu.version_r], in order. *)
Definition vernaux_of (tables : VersionTables) : list Vernaux :=
  verneed tables ≫= vn_aux.


(** The entry of [.gnu.version] for a symbol after [fill_verdef] and
    [fill_verneed]: the index of a [Vernaux] record for a symbol that needs
    a version of a shared library, the symbol's [ver_idx] otherwise. *)
Definition versym_entry (files : gmap nat InputFile) (out : VersionTables)
    (s : Symbol) (v : Z) : Prop :=
  if needs_version files s
  then ∃ aux, aux ∈ vernaux_of out ∧ v = vna_other aux
  else v = to_u16 (ver_idx s).


(** ** Sizes of the output sections: [compute_section_sizes] *)

(** An input section as [compute_section_sizes] sees it: its section
    header, of which the pass reads [sh_size] and [sh_addralign], and its
    [offset] within the output section, which the pass writes.

    Modelled from the spec: the field [offset] is declared in mold.h, which
    is not part of passes.cc; it holds the offset of the section within its
    output section, here the [i64] that the pass computes for it. *)
Record SizedSection := mkSized {
  isec_shdr : ElfShdr;
  offset : Z;
}.

(** A regular output section with its name, its header and its members. *)
Record SizedOutput := mkSizedOutput {
  osec_name : string;
  osec_shdr : ElfShdr;
  osec_members : list SizedSection;
}.

Definition set_offset (isec : SizedSection) (v : Z) : SizedSection :=
  mkSized (isec_shdr isec) v.

(** One iteration of the loop over a slice, on the locals [off] and
    [align]. *)
Definition place_isec (st : Z * Z) (isec : SizedSection)
    : SizedSection * (Z * Z) :=
  let off := to_i64 (align_to (to_u64 st.1) (sh_addralign (isec_shdr isec))) in
  (set_offset isec off,
   (to_i64 (to_u64 off + sh_size (isec_shdr isec)),
    Z.max st.2 (to_i64 (sh_addralign (isec_shdr isec))))).

(** The loop over a slice: the members with their offsets, and the final
    [off] and [align], which become [size[i]] and [alignments[i]]. *)
Fixpoint place_slice (st : Z * Z) (slice : list SizedSection)
    : list SizedSection * (Z * Z) :=
  match slice with
  | [] => ([], st)
  | isec :: rest =>
      let '(isec', st1) := place_isec st isec in
      let '(rest', st2) := place_slice st1 rest in
      (isec' :: rest', st2)
  end.

(** [*std::max_element(first, last)]; there is no such element in an empty
    range. *)
Definition max_element (l : list Z) : option Z :=
  match l with
  | [] => None
  | x :: rest => Some (foldl Z.max x rest)
  end.

(** [align_to(start[i - 1] + size[i - 1], align)]. *)
Definition next_start (align start size : Z) : Z :=
  to_i64 (align_to (to_u64 (to_i64 (start + size))) (to_u64 align)).

(** The vector [start], from its first element. *)
Fixpoint slice_starts (align start : Z) (sizes : list Z) : list Z :=
  match sizes with
  | [] => []
  | size :: rest => start :: slice_starts align (next_start align start size) rest
  end.

(** [isec->offset += start[i]]. *)
Definition shift_isec (start : Z) (isec : SizedSection) : SizedSection :=
  set_offset isec (to_i64 (offset isec + start)).

Definition set_size_align (shdr : ElfShdr) (size align : Z) : ElfShdr :=
  mkShdr (sh_type shdr) (sh_flags shdr) (sh_addr shdr) (sh_offset shdr)
         size align.

(** The body of the [parallel_for_each] over the output sections.  The
    slices are laid out one by one; their tasks write to distinct members
    and distinct elements of [size] and [alignments].  The first slice is
    not shifted: the last loop starts at index 1. *)
Definition section_sizes (osec : SizedOutput) : option SizedOutput :=
  match osec_members osec with
  | [] => Some osec
  | _ =>
      slices ← split (osec_members osec) 10000;
      let placed := place_slice (0, 1) <$> slices in
      let size := (λ r, r.2.1) <$> placed in
      let alignments := (λ r, r.2.2) <$> placed in
      align ← max_element alignments;
      let start := slice_starts align 0 size in
      let members :=
        match placed, start with
        | first :: others, _ :: starts =>
            first.1 ++
            concat (zip_with (λ s r, shift_isec s <$> r.1) starts others)
        | _, _ => []
        end in
      start_back ← last start;
      size_back ← last size;
      Some (mkSizedOutput (osec_name osec)
              (set_size_align (osec_shdr osec)
                 (to_u64 (to_i64 (start_back + size_back))) (to_u64 align))
              members)
  end.

(** [compute_section_sizes], on [OutputSection::instances]. *)
Definition compute_section_sizes (instances : list SizedOutput)
    : option (list SizedOutput) :=
  mapM section_sizes instances.

(** The largest alignment of the members of a section, and at least 1. *)
Definition max_align (members : list SizedSection) : Z :=
  foldr (λ m a, Z.max (sh_addralign (isec_shdr m)) a) 1 members.

(** The sizes are [u64], the alignments powers of two, and the section
    fits the positive [i64] range even if every member and every slice
    wastes a whole alignment. *)
Definition members_fit (members : list SizedSection) : Prop :=
  Forall (λ m, is_u64 (sh_size (isec_shdr m)) ∧
               is_pow2 (sh_addralign (isec_shdr m)) = true) members ∧
  foldr (λ m acc, sh_size (isec_shdr m) + acc) 0 members
  + 2 * Z.of_nat (length members) * max_align members < 2 ^ 63.

(** The members lie in order between [lo] and [hi]: each at a multiple of
    its alignment, and each ending at or before the next one starts. *)
Fixpoint members_placed (lo : Z) (members : list SizedSection) (hi : Z)
    : Prop :=
  match members with
  | [] => lo ≤ hi
  | m :: rest =>
      lo ≤ offset m ∧
      offset m `mod` sh_addralign (isec_shdr m) = 0 ∧
      members_placed (offset m + sh_size (isec_shdr m)) rest hi
  end.

(** What [compute_section_sizes] makes of an output section. *)
Definition section_sized (osec osec' : SizedOutput) : Prop :=
  Forall2 (λ m m', isec_shdr m' = isec_shdr m)
          (osec_members osec) (osec_members osec') ∧
  match osec_members osec with
  | [] => osec' = osec
  | _ =>
      members_placed 0 (osec_members osec') (sh_size (osec_shdr osec')) ∧
      sh_addralign (osec_shdr osec') = max_align (osec_members osec) ∧
      osec_name osec' = osec_name osec ∧
      osec_shdr osec' =
        set_size_align (osec_shdr osec) (sh_size (osec_shdr osec'))
                       (sh_addralign (osec_shdr osec'))
  end.

(** Three sections of 10, 3 and 8 bytes, aligned to 4, 1 and 16. *)
Definition members_three : list SizedSection :=
  [ mkSized (mkShdr 1 2 0 0 10 4) 0;
    mkSized (mkShdr 1 2 0 0 3 1) 0;
    mkSized (mkShdr 1 2 0 0 8 16) 0 ].

(** A member whose size is a [u64] and whose alignment is a power of two
    up to [2^K]. *)
Definition member_ok (K : Z) (m : SizedSection) : Prop :=
  is_u64 (sh_size (isec_shdr m)) ∧
  ∃ k, 0 ≤ k ≤ K ∧ sh_addralign (isec_shdr m) = 2 ^ k.

(** An upper bound on the room that members take when each may waste an
    alignment of [2^K]. *)
Definition members_span (K : Z) (members : list SizedSection) : Z :=
  foldr (λ m acc, sh_size (isec_shdr m) + 2 ^ K + acc) 0 members.

(** The same for a list of slices, each of which may waste one more
    alignment before it starts. *)
Definition slices_span (K : Z) (slices : list (list SizedSection)) : Z :=
  foldr (λ sl acc, members_span K sl + 2 ^ K + acc) 0 slices.


(** ** The sections of the output: [collect_output_sections] *)

(** A merged section, with its name and its header. *)
Record MergedSection := mkMerged {
  merged_name : string;
  merged_shdr : ElfShdr;
}.

(** The chunks that [collect_output_sections] returns are regular and
    merged output sections. *)
Inductive CollectedChunk :=
  | RegularChunk (osec : SizedOutput)
  | MergedChunk (osec : MergedSection).

Definition collected_name (c : CollectedChunk) : string :=
  match c with
  | RegularChunk osec => osec_name osec
  | MergedChunk osec => merged_name osec
  end.

Definition collected_shdr (c : CollectedChunk) : ElfShdr :=
  match c with
  | RegularChunk osec => osec_shdr osec
  | MergedChunk osec => merged_shdr osec
  end.

(** The comparison of the sort:
    [tuple(x->name, x->shdr.sh_type, x->shdr.sh_flags) < tuple(y->...)],
    the names compared as strings of bytes. *)
Definition chunk_less (x y : CollectedChunk) : bool :=
  match String.compare (collected_name x) (collected_name y) with
  | Lt => true
  | Gt => false
  | Eq =>
      (sh_type (collected_shdr x) <? sh_type (collected_shdr y)) ||
      ((sh_type (collected_shdr x) =? sh_type (collected_shdr y)) &&
       (sh_flags (collected_shdr x) <? sh_flags (collected_shdr y)))
  end.

(** The two loops that fill [vec]. *)
Definition nonempty_sections (instances : list SizedOutput)
    (merged : list MergedSection) : list CollectedChunk :=
  (instances ≫= λ osec,
     match osec_members osec with [] => [] | _ => [RegularChunk osec] end) ++
  (merged ≫= λ osec,
     if sh_size (merged_shdr osec) =? 0 then [] else [MergedChunk osec]).

(** [collect_output_sections], on [OutputSection::instances] and
    [MergedSection::instances]. *)
Definition collect_output_sections (instances : list SizedOutput)
    (merged : list MergedSection) : list CollectedChunk :=
  sort chunk_less (nonempty_sections instances merged).

(** The key of the sort. *)
Definition chunk_key (c : CollectedChunk) : string * Z * Z :=
  (collected_name c, sh_type (collected_shdr c), sh_flags (collected_shdr c)).

(** The order the sort is to establish between neighbours. *)
Definition chunk_le (x y : CollectedChunk) : Prop := chunk_less y x = false.

(** Three sections, one of them without members, and a merged section. *)
Definition instances_named : list SizedOutput :=
  [ mkSizedOutput ".text" (mkShdr 1 6 0 0 0 0) members_three;
    mkSizedOutput ".data" (mkShdr 1 3 0 0 0 0) [];
    mkSizedOutput ".init_array" (mkShdr 14 3 0 0 0 0)
                  [mkSized (mkShdr 14 3 0 0 8 8) 0] ].
Definition merged_named : list MergedSection :=
  [ mkMerged ".comment" (mkShdr 1 48 0 0 19 1) ].


(** ** The order of the chunks: [get_section_rank] *)

(** Modelled from the spec: constants of elf.h, with their values of the
    ELF format. *)
Definition SHT_NOTE : Z := 7.
Definition SHF_WRITE : Z := 1.
Definition SHF_EXECINSTR : Z := 4.

(** The chunks that [get_section_rank] knows by their address:
    [ctx.ehdr], [ctx.phdr], [ctx.interp] and [ctx.shdr]; a null pointer is
    [None]. *)
Record HeaderChunks := mkHeaders {
  ctx_ehdr : option nat;
  ctx_phdr : option nat;
  ctx_interp : option nat;
  ctx_shdr : option nat;
}.

Section Rank.

(** [is_relro(ctx, chunk)] is not part of passes.cc; the rank is modelled
    for any such predicate on the address and the header of a chunk. *)
Variable is_relro : nat → OutputChunk → bool.

(** [<< n] on a [bool] promoted to [int]. *)
Definition rank_bit (b : bool) (n : Z) : Z := Z.shiftl (Z.b2z b) n.

(** [get_section_rank] for the chunk at address [addr]. *)
Definition get_section_rank (ctx : HeaderChunks) (addr : nat)
    (chunk : OutputChunk) : Z :=
  if bool_decide (Some addr = ctx_ehdr ctx) then 0
  else if bool_decide (Some addr = ctx_phdr ctx) then 1
  else if bool_decide (Some addr = ctx_interp ctx) then 2
  else if bool_decide (Some addr = ctx_shdr ctx) then Z.shiftl 1 20
  else
    let type := sh_type (shdr chunk) in
    let flags := sh_flags (shdr chunk) in
    if type =? SHT_NOTE then 3
    else if negb (has_flag flags SHF_ALLOC) then Z.shiftl 1 20 - 1
    else
      let reaodnly := negb (has_flag flags SHF_WRITE) in
      let exec := has_flag flags SHF_EXECINSTR in
      let tls := has_flag flags SHF_TLS in
      let relro := is_relro addr chunk in
      let hasbits := negb (type =? SHT_NOBITS) in
      Z.lor (Z.lor (Z.lor (Z.lor (rank_bit (negb reaodnly) 9)
                                 (rank_bit exec 8))
                          (rank_bit (negb tls) 7))
                   (rank_bit (negb relro) 6))
            (rank_bit (negb hasbits) 5)
      + 4.

(** The five properties that order the allocated sections, the most
    significant first: writable, executable, not thread-local, not RELRO,
    without bits in the file. *)
Definition rank_key (addr : nat) (chunk : OutputChunk) : list bool :=
  [ has_flag (sh_flags (shdr chunk)) SHF_WRITE;
    has_flag (sh_flags (shdr chunk)) SHF_EXECINSTR;
    negb (has_flag (sh_flags (shdr chunk)) SHF_TLS);
    negb (is_relro addr chunk);
    sh_type (shdr chunk) =? SHT_NOBITS ].

(** A chunk that is none of the four the rank knows by address. *)
Definition plain_chunk (ctx : HeaderChunks) (addr : nat) : Prop :=
  Some addr ≠ ctx_ehdr ctx ∧ Some addr ≠ ctx_phdr ctx ∧
  Some addr ≠ ctx_interp ctx ∧ Some addr ≠ ctx_shdr ctx.

(** An allocated section that is not a note. *)
Definition loaded_chunk (chunk : OutputChunk) : Prop :=
  sh_type (shdr chunk) ≠ SHT_NOTE ∧ is_alloc chunk = true.

End Rank.

(** The lexicographic order on lists of booleans, [false] first. *)
Fixpoint bits_lt (x y : list bool) : bool :=
  match x, y with
  | a :: x', b :: y' =>
      (negb a && b) || (bool_decide (a = b) && bits_lt x' y')
  | _, _ => false
  end.


(** ** The symbols of the end of the image: [fix_synthetic_symbols] *)

(** [OutputChunk::kind]. *)
Inductive ChunkKind := HEADER | REGULAR | SYNTHETIC.

Global Instance ChunkKind_eq_dec : EqDecision ChunkKind.
Proof. solve_decision. Defined.

(** A chunk of [ctx.chunks] with its kind and its section index. *)
Record LaidChunk := mkLaid {
  chunk_kind : ChunkKind;
  chunk_shndx : Z;
  chunk_of : OutputChunk;
}.

(** The fields of a symbol that [fix_synthetic_symbols] writes. *)
Record SymbolValue := mkSymValue {
  sym_shndx : Z;
  sym_value : Z;
}.

(** The symbols [ctx._end], [ctx._etext] and [ctx._edata]; a null pointer
    is [None]. *)
Record EndSymbols := mkEndSymbols {
  sym_end : option SymbolValue;
  sym_etext : option SymbolValue;
  sym_edata : option SymbolValue;
}.

(** The lambda [stop], for a chunk of the list: the symbol, if there is
    one, gets the index of the chunk and the address of its end. *)
Definition stop (sym : option SymbolValue) (chunk : LaidChunk)
    : option SymbolValue :=
  match sym with
  | Some _ =>
      Some (mkSymValue (chunk_shndx chunk)
              (to_u64 (sh_addr (shdr (chunk_of chunk))
                       + sh_size (shdr (chunk_of chunk)))))
  | None => None
  end.

(** The body of the loop [// _end, _etext, _edata and the like]. *)
Definition fix_end_step (syms : EndSymbols) (chunk : LaidChunk) : EndSymbols :=
  if bool_decide (chunk_kind chunk = HEADER) then syms
  else
    let flags := sh_flags (shdr (chunk_of chunk)) in
    let syms1 :=
      if has_flag flags SHF_ALLOC
      then mkEndSymbols (stop (sym_end syms) chunk) (sym_etext syms)
                        (sym_edata syms)
      else syms in
    let syms2 :=
      if has_flag flags SHF_EXECINSTR
      then mkEndSymbols (sym_end syms1) (stop (sym_etext syms1) chunk)
                        (sym_edata syms1)
      else syms1 in
    if negb (sh_type (shdr (chunk_of chunk)) =? SHT_NOBITS)
       && has_flag flags SHF_ALLOC
    then mkEndSymbols (sym_end syms2) (sym_etext syms2)
                      (stop (sym_edata syms2) chunk)
    else syms2.

(** That loop of [fix_synthetic_symbols], on [ctx.chunks] and the three
    symbols it writes. *)
Definition fix_end_symbols (chunks : list LaidChunk) (syms : EndSymbols)
    : EndSymbols :=
  foldl fix_end_step syms chunks.

(** A chunk that occupies addresses of the image: allocated, not a header
    and not thread-local NOBITS. *)
Definition in_image (chunk : LaidChunk) : Prop :=
  chunk_kind chunk ≠ HEADER ∧ is_alloc (chunk_of chunk) = true ∧
  is_tbss (chunk_of chunk) = false.

(** The chunks are laid out as [set_osec_offsets] leaves them: without
    overlap, and below the end of the address space. *)
Definition image_laid_out (chunks : list LaidChunk) : Prop :=
  no_overlap_but_tbss (chunk_of <$> chunks) ∧
  Forall (λ c, 0 ≤ sh_addr (shdr (chunk_of c)) ∧
               0 ≤ sh_size (shdr (chunk_of c)) ∧
               sh_addr (shdr (chunk_of c)) + sh_size (shdr (chunk_of c))
               < 2 ^ 64) chunks.

(** The ELF header, [.text], [.data] and [.bss] of a small image, and the
    section header. *)
Definition chunks_image : list LaidChunk :=
  [ mkLaid HEADER 0 (mkChunk (mkShdr 0 SHF_ALLOC 2097152 0 64 8) false false);
    mkLaid REGULAR 1
           (mkChunk (mkShdr 1 (Z.lor SHF_ALLOC 4) 2097216 64 100 16) false false);
    mkLaid REGULAR 2
           (mkChunk (mkShdr 1 (Z.lor SHF_ALLOC 1) 2101312 4096 40 8) false false);
    mkLaid REGULAR 3
           (mkChunk (mkShdr SHT_NOBITS (Z.lor SHF_ALLOC 1) 2101352 4136 24 8)
                    false false);
    mkLaid HEADER 0 (mkChunk (mkShdr 0 0 0 4136 320 8) false false) ].


(** ** Excluded libraries: [apply_exclude_libs] *)

(** The fields of an object file that [apply_exclude_libs] reads and
    writes: the name of the archive it came from, empty for a file given on
    its own, and the flag [exclude_libs]. *)
Record ArchiveMember := mkMember {
  archive_name : string;
  exclude_libs : bool;
}.

(** The body of the loop over [ctx.objs], [set] being the set made of
    [ctx.arg.exclude_libs]. *)
Definition exclude_file (set : list string) (file : ArchiveMember)
    : ArchiveMember :=
  if negb (bool_decide (archive_name file = EmptyString))
  then
    if bool_decide ("ALL"%string ∈ set)
       || bool_decide (archive_name file ∈ set)
    then mkMember (archive_name file) true
    else file
  else file.

(** [apply_exclude_libs], on [ctx.arg.exclude_libs] and [ctx.objs]. *)
Definition apply_exclude_libs (exclude_libs_arg : list string)
    (objs : list ArchiveMember) : list ArchiveMember :=
  match exclude_libs_arg with
  | [] => objs
  | _ => exclude_file exclude_libs_arg <$> objs
  end.

(** A file whose archive [--exclude-libs] names, or any archive member
    under [ALL]. *)
Definition excluded_by (exclude_libs_arg : list string)
    (file : ArchiveMember) : Prop :=
  archive_name file ≠ EmptyString ∧
  ("ALL"%string ∈ exclude_libs_arg ∨ archive_name file ∈ exclude_libs_arg).


(** ** Imported and exported symbols: [compute_import_export] *)

(** Modelled from the spec: constants of elf.h, with their values of the
    ELF format ([VER_NDX_LOCAL = 0] is given by the spec). *)
Definition STV_HIDDEN : Z := 2.
Definition STV_PROTECTED : Z := 3.
Definition STT_FUNC : Z := 2.
Definition VER_NDX_LOCAL : Z := 0.

(** A symbol as [compute_import_export] sees it: the file that provides
    its binding ([None] for a null pointer), its version index, its
    visibility, what [get_type()] returns, and the two flags that the pass
    sets. *)
Record ExportSymbol := mkExportSymbol {
  exp_file : option nat;
  exp_ver_idx : Z;
  visibility : Z;
  sym_type : Z;
  is_exported : bool;
  is_imported : bool;
}.

(** The options the pass reads: [ctx.arg.shared], [export_dynamic],
    [Bsymbolic] and [Bsymbolic_functions]. *)
Record ExportArgs := mkExportArgs {
  arg_shared : bool;
  arg_export_dynamic : bool;
  arg_Bsymbolic : bool;
  arg_Bsymbolic_functions : bool;
}.

Definition set_exported (sym : ExportSymbol) : ExportSymbol :=
  mkExportSymbol (exp_file sym) (exp_ver_idx sym) (visibility sym)
                 (sym_type sym) true (is_imported sym).

Definition set_imported (sym : ExportSymbol) : ExportSymbol :=
  mkExportSymbol (exp_file sym) (exp_ver_idx sym) (visibility sym)
                 (sym_type sym) (is_exported sym) true.

(** [sym->file && !sym->file->is_dso && sym->visibility != STV_HIDDEN], the
    files being given by address. *)
Definition referenced_export (files : gmap nat InputFile)
    (sym : ExportSymbol) : bool :=
  match exp_file sym with
  | Some a =>
      match files !! a with
      | Some f => negb (is_dso f) && negb (visibility sym =? STV_HIDDEN)
      | None => false
      end
  | None => false
  end.

(** The body of the loop over the [undefs] of a shared library, for the
    symbol at address [a]. *)
Definition export_undef (files : gmap nat InputFile)
    (syms : gmap nat ExportSymbol) (a : nat) : gmap nat ExportSymbol :=
  match syms !! a with
  | Some sym =>
      if referenced_export files sym then <[a := set_exported sym]> syms
      else syms
  | None => syms
  end.

(** The symbol of an object file is neither hidden nor local. *)
Definition default_export (this : ObjectFile) (sym : ExportSymbol) : bool :=
  bool_decide (exp_file sym = Some (file_addr this))
  && negb ((visibility sym =? STV_HIDDEN) || (exp_ver_idx sym =? VER_NDX_LOCAL)).

(** The condition under which an exported symbol is imported as well. *)
Definition default_import (args : ExportArgs) (sym : ExportSymbol) : bool :=
  arg_shared args && negb (visibility sym =? STV_PROTECTED)
  && negb (arg_Bsymbolic args)
  && negb (arg_Bsymbolic_functions args && (sym_type sym =? STT_FUNC)).

(** The body of the loop over the globals of an object file. *)
Definition export_global (args : ExportArgs) (this : ObjectFile)
    (syms : gmap nat ExportSymbol) (a : nat) : gmap nat ExportSymbol :=
  match syms !! a with
  | Some sym =>
      if default_export this sym
      then
        let sym1 := set_exported sym in
        <[a := if default_import args sym1 then set_imported sym1 else sym1]>
          syms
      else syms
  | None => syms
  end.

(** Modelled from the spec: [get_global_syms()] is defined in mold.h; the
    globals of a file are the entries of [symbols] from [first_global]
    on. *)
Definition get_global_syms (this : ObjectFile) : list nat :=
  drop (first_global this) (symbols this).

(** [compute_import_export], on the options, the [undefs] of every file of
    [ctx.dsos], [ctx.objs] and the symbols.  The files of each loop run in
    parallel; they are taken here in the order of the vectors. *)
Definition compute_import_export (args : ExportArgs)
    (files : gmap nat InputFile) (dsos : list (list nat))
    (objs : list ObjectFile) (syms : gmap nat ExportSymbol)
    : gmap nat ExportSymbol :=
  let syms1 :=
    if negb (arg_shared args)
    then foldl (λ syms undefs, foldl (export_undef files) syms undefs)
               syms dsos
    else syms in
  if arg_shared args || arg_export_dynamic args
  then foldl (λ syms this,
                foldl (export_global args this) syms (get_global_syms this))
             syms1 objs
  else syms1.

(** The symbol at [a] is referenced by a shared library while an object
    file defines it visibly. *)
Definition wanted_by_dso (args : ExportArgs) (files : gmap nat InputFile)
    (dsos : list (list nat)) (a : nat) (sym : ExportSymbol) : Prop :=
  arg_shared args = false ∧ (∃ undefs, undefs ∈ dsos ∧ a ∈ undefs) ∧
  referenced_export files sym = true.

(** The symbol at [a] is a global of an object file that owns it, neither
    hidden nor local, and globals are exported. *)
Definition exported_global (args : ExportArgs) (objs : list ObjectFile)
    (a : nat) (sym : ExportSymbol) : Prop :=
  arg_shared args || arg_export_dynamic args = true ∧
  ∃ this, this ∈ objs ∧ a ∈ get_global_syms this ∧
          default_export this sym = true.

(** What the pass makes of a symbol. *)
Definition export_marked (args : ExportArgs) (files : gmap nat InputFile)
    (dsos : list (list nat)) (objs : list ObjectFile) (a : nat)
    (sym sym' : ExportSymbol) : Prop :=
  exp_file sym' = exp_file sym ∧ exp_ver_idx sym' = exp_ver_idx sym ∧
  visibility sym' = visibility sym ∧ sym_type sym' = sym_type sym ∧
  (is_exported sym' = true ↔
   is_exported sym = true ∨ wanted_by_dso args files dsos a sym ∨
   exported_global args objs a sym) ∧
  (is_imported sym' = true ↔
   is_imported sym = true ∨
   (exported_global args objs a sym ∧ default_import args sym = true)).

(** A symbol of an object file that a shared library references. *)
Definition syms_export : gmap nat ExportSymbol :=
  {[ 100%nat := mkExportSymbol (Some 1%nat) 1 0 2 false false;
     101%nat := mkExportSymbol (Some 1%nat) 1 STV_HIDDEN 2 false false ]}.

(** The body of both loops: the symbol at [b] is exported if it satisfies
    [c], and then imported too if it satisfies [ci]. *)
Definition mark_symbol (c ci : ExportSymbol → bool)
    (syms : gmap nat ExportSymbol) (b : nat) : gmap nat ExportSymbol :=
  match syms !! b with
  | Some sym =>
      if c sym
      then <[b := if ci (set_exported sym) then set_imported (set_exported sym)
                  else set_exported sym]> syms
      else syms
  | None => syms
  end.

(** Two symbols agree on the fields that the pass only reads. *)
Definition same_fixed (s s' : ExportSymbol) : Prop :=
  exp_file s' = exp_file s ∧ exp_ver_idx s' = exp_ver_idx s ∧
  visibility s' = visibility s ∧ sym_type s' = sym_type s.

(** A condition that looks at those fields only. *)
Definition reads_fixed (c : ExportSymbol → bool) : Prop :=
  ∀ s s', same_fixed s s' → c s' = c s.

(** The symbols [syms] are those of [syms0] with the flags set where [Pe]
    and [Pi] say. *)
Definition marked_from (syms0 : gmap nat ExportSymbol)
    (Pe Pi : nat → ExportSymbol → Prop) (syms : gmap nat ExportSymbol)
    : Prop :=
  ∀ a,
    match syms0 !! a with
    | None => syms !! a = None
    | Some s =>
        ∃ s', syms !! a = Some s' ∧ same_fixed s s' ∧
              (is_exported s' = true ↔ is_exported s = true ∨ Pe a s) ∧
              (is_imported s' = true ↔ is_imported s = true ∨ Pi a s)
    end.


(** * Properties *)

(** ** Facts about machine integers *)

Lemma to_u64_range z : is_u64 (to_u64 z).
Proof. unfold is_u64, to_u64. apply Z.mod_pos_bound. lia. Qed.

Lemma to_i64_range z : is_i64 (to_i64 z).
Proof.
  unfold is_i64, to_i64.
  pose proof (Z.mod_pos_bound (z + 2 ^ 63) (2 ^ 64)). lia.
Qed.

Lemma to_u64_small z : is_u64 z → to_u64 z = z.
Proof. unfold is_u64, to_u64. intros. by apply Z.mod_small. Qed.

Lemma to_i64_small z : is_i64 z → to_i64 z = z.
Proof.
  unfold is_i64, to_i64. intros.
  rewrite Z.mod_small; lia.
Qed.

Lemma to_u64_cong z : (2 ^ 64 | to_u64 z - z).
Proof.
  unfold to_u64. exists (- (z `div` 2 ^ 64)).
  pose proof (Z.div_mod z (2 ^ 64)). lia.
Qed.

Lemma to_i64_cong z : (2 ^ 64 | to_i64 z - z).
Proof.
  unfold to_i64. exists (- ((z + 2 ^ 63) `div` 2 ^ 64)).
  pose proof (Z.div_mod (z + 2 ^ 63) (2 ^ 64)). lia.
Qed.

Lemma is_pow2_spec a : is_pow2 a = true ↔ ∃ k, 0 ≤ k < 64 ∧ a = 2 ^ k.
Proof.
  unfold is_pow2. rewrite existsb_exists. split.
  - intros (n & Hn & Heq). apply in_seq in Hn. apply Z.eqb_eq in Heq.
    exists (Z.of_nat n). lia.
  - intros (k & Hk & ->). exists (Z.to_nat k). split.
    + apply in_seq. lia.
    + apply Z.eqb_eq. f_equal. lia.
Qed.

Lemma pow2_divides_word k : 0 ≤ k ≤ 64 → (2 ^ k | 2 ^ 64).
Proof.
  intros Hk. exists (2 ^ (64 - k)).
  rewrite <- Z.pow_add_r by lia. f_equal. lia.
Qed.

Lemma pow2_pos k : 0 ≤ k → 0 < 2 ^ k.
Proof. intros. by apply Z.pow_pos_nonneg. Qed.

(** ** Facts about [align_to] and [align_with_skew] *)

Ltac word_lia :=
  unfold to_u64, to_i64, is_u64, is_i64 in *;
  Z.div_mod_to_equations; lia.

Lemma to_u64_eq a b : (2 ^ 64 | a - b) → to_u64 a = to_u64 b.
Proof. intros [q Hq]. word_lia. Qed.

Lemma land_le_r x m : 0 ≤ m → 0 ≤ Z.land x m ≤ m.
Proof.
  intros Hm. split.
  - apply Z.land_nonneg. by right.
  - pose proof (Z.sub_land_same_l m x) as H.
    assert (0 ≤ Z.land m (Z.lnot x)) by (apply Z.land_nonneg; by left).
    rewrite (Z.land_comm x m). lia.
Qed.

(** The mask [~(align - 1)] clears the bits of [align - 1]. *)
Lemma land_mask x m :
  is_u64 x → is_u64 m →
  Z.land x (to_u64 (Z.lnot (to_u64 m))) = x - Z.land x m.
Proof.
  intros Hx Hm. rewrite (to_u64_small m) by done.
  unfold to_u64. rewrite <- (Z.land_ones (Z.lnot m) 64) by lia.
  rewrite (Z.land_comm (Z.lnot m)), Z.land_assoc.
  rewrite (Z.land_ones x 64) by lia.
  rewrite Z.mod_small by (unfold is_u64 in Hx; lia).
  symmetry. apply Z.sub_land_same_l.
Qed.

(** [align_to] at any non-zero alignment: the argument plus [align - 1],
    wrapped, minus its low bits. *)
Lemma align_to_mask v a :
  is_u64 a → a ≠ 0 →
  ∃ m, 0 ≤ m ≤ a - 1 ∧ align_to v a = to_u64 (v + a - 1) - m ∧
       m = Z.land (to_u64 (v + a - 1)) (a - 1).
Proof.
  intros Ha Hne. unfold align_to.
  destruct (a =? 0) eqn:E; [apply Z.eqb_eq in E; done|].
  exists (Z.land (to_u64 (v + a - 1)) (a - 1)). split; [|split; [|done]].
  - apply land_le_r. unfold is_u64 in Ha. lia.
  - apply land_mask; [apply to_u64_range|]. unfold is_u64 in *. lia.
Qed.

(** At a power of two the low bits are the remainder. *)
Lemma align_to_pow2 v k :
  0 ≤ k < 64 →
  align_to v (2 ^ k) = to_u64 (v + 2 ^ k - 1) - to_u64 (v + 2 ^ k - 1) `mod` 2 ^ k.
Proof.
  intros Hk.
  assert (0 < 2 ^ k) by (apply pow2_pos; lia).
  assert (2 ^ k < 2 ^ 64) by (apply Z.pow_lt_mono_r; lia).
  destruct (align_to_mask v (2 ^ k)) as (m & _ & -> & ->);
    [unfold is_u64; lia | lia |].
  replace (2 ^ k - 1) with (Z.ones k) by (rewrite Z.ones_equiv; lia).
  rewrite Z.land_ones by lia. done.
Qed.

Lemma align_to_divide v k : 0 ≤ k < 64 → (2 ^ k | align_to v (2 ^ k)).
Proof.
  intros Hk. rewrite align_to_pow2 by done.
  assert (0 < 2 ^ k) by (apply pow2_pos; lia).
  exists (to_u64 (v + 2 ^ k - 1) `div` 2 ^ k).
  pose proof (Z.div_mod (to_u64 (v + 2 ^ k - 1)) (2 ^ k)). lia.
Qed.

(** Without wrap-around [align_to] moves its argument up by less than the
    alignment, whatever the alignment. *)
Lemma align_to_bounds v a :
  is_u64 a → 0 ≤ v → v + a - 1 < 2 ^ 64 →
  v ≤ align_to v a ≤ v + Z.max (a - 1) 0.
Proof.
  intros Ha Hv Hfit. destruct (decide (a = 0)) as [->|Hne].
  - unfold align_to. simpl. lia.
  - destruct (align_to_mask v a) as (m & Hm & -> & _); [done..|].
    rewrite to_u64_small by (unfold is_u64 in *; lia). lia.
Qed.

(** [align_with_skew] at a power of two, in modular form: the result is
    [val + d] wrapped, for the one [d] below [align] that makes it congruent
    to [skew]. *)
Lemma align_with_skew_mod val k skew :
  0 ≤ k < 64 →
  ∃ d, 0 ≤ d < 2 ^ k ∧
       align_with_skew val (2 ^ k) skew = to_u64 (val + d) ∧
       (2 ^ k | val + d - skew).
Proof.
  intros Hk.
  assert (HP : 0 < 2 ^ k) by (apply pow2_pos; lia).
  destruct (pow2_divides_word k) as [w Hw]; [lia|].
  unfold align_with_skew. rewrite align_to_pow2 by done.
  set (x := to_u64 (val + 2 ^ k - skew)).
  set (X := to_u64 (x + 2 ^ k - 1)).
  pose proof (Z.mod_pos_bound X (2 ^ k) HP) as Hm.
  pose proof (Z.div_mod X (2 ^ k)) as HX.
  set (m := X `mod` 2 ^ k) in *. set (q := X `div` 2 ^ k) in *.
  pose proof (to_u64_cong (val + 2 ^ k - skew)) as [j2 Hj2]. fold x in Hj2.
  pose proof (to_u64_cong (x + 2 ^ k - 1)) as [j1 Hj1]. fold X in Hj1.
  exists (2 ^ k - 1 - m). split; [lia|]. split.
  - apply to_u64_eq. exists (j1 + j2). lia.
  - exists (q - 1 - (j1 + j2) * w).
    assert (X = 2 ^ k * q + m) as HXq by lia.
    assert (val + (2 ^ k - 1 - m) - skew = X - m - 2 ^ k - (j1 + j2) * 2 ^ 64)
      as -> by lia.
    rewrite Hw, HXq. lia.
Qed.

Lemma divide_above x p : 0 < p → (p | x) → - p < x → 0 ≤ x.
Proof.
  intros Hp [q ->] Hx. destruct (Z.le_gt_cases 0 q); [nia|].
  assert (q * p ≤ (- 1) * p) by (apply Z.mul_le_mono_nonneg_r; lia). lia.
Qed.

Lemma divide_mod_eq x y p : 0 < p → (p | x - y) → x `mod` p = y `mod` p.
Proof.
  intros Hp [q Hq]. replace x with (y + q * p) by lia.
  apply Z.mod_add. lia.
Qed.

Lemma mod_eq_divide x y p : 0 < p → x `mod` p = y `mod` p → (p | x - y).
Proof.
  intros Hp Heq. exists (x `div` p - y `div` p).
  pose proof (Z.div_mod x p). pose proof (Z.div_mod y p). nia.
Qed.

(** C8, the claim as amended: for a [u64] [val], [align] a power of two
    (the alignments [align_to] is written for), [skew < align] and
    [val + align - skew] within the [u64] range, [align_with_skew] returns
    the smallest [n] with [n >= val] and [n % align == skew]. *)
Theorem align_with_skew_smallest val align skew :
  is_u64 val → is_pow2 align = true → 0 ≤ skew < align →
  val + align - skew ≤ 2 ^ 64 - 1 →
  smallest_with_skew val align skew (align_with_skew val align skew).
Proof.
  intros Hval Hpow Hskew Hfit.
  apply is_pow2_spec in Hpow as (k & Hk & ->).
  assert (HP : 0 < 2 ^ k) by (apply pow2_pos; lia).
  destruct (align_with_skew_mod val k skew) as (d & Hd & -> & Hdiv); [done|].
  destruct (pow2_divides_word k) as [w Hw]; [lia|].
  assert (val + d ≤ 2 ^ 64 - 2 ^ k + skew) as Hle.
  { assert (0 ≤ 2 ^ 64 - 2 ^ k + skew - (val + d)); [|lia].
    apply (divide_above _ (2 ^ k)); [done| |unfold is_u64 in *; lia].
    destruct Hdiv as [q Hq]. exists (w - 1 - q). lia. }
  rewrite to_u64_small by (unfold is_u64 in *; lia).
  split; [lia|]. split.
  - rewrite (divide_mod_eq _ skew) by done. apply Z.mod_small. lia.
  - intros m Hm Hmod.
    assert (0 ≤ m - (val + d)); [|lia].
    apply (divide_above _ (2 ^ k)); [done| |lia].
    apply mod_eq_divide; [done|].
    rewrite Hmod. rewrite (divide_mod_eq _ skew) by done.
    symmetry. apply Z.mod_small. lia.
Qed.

Lemma align_with_skew_smallest_witness :
  is_u64 5000 ∧ is_pow2 4096 = true ∧ 0 ≤ 16 < 4096 ∧
  5000 + 4096 - 16 ≤ 2 ^ 64 - 1 ∧
  smallest_with_skew 5000 4096 16 (align_with_skew 5000 4096 16).
Proof.
  assert (H1 : is_u64 5000) by (unfold is_u64; lia).
  assert (H2 : is_pow2 4096 = true) by reflexivity.
  assert (H3 : 0 ≤ 16 < 4096) by lia.
  assert (H4 : 5000 + 4096 - 16 ≤ 2 ^ 64 - 1) by lia.
  exact (conj H1 (conj H2 (conj H3 (conj H4
           (align_with_skew_smallest 5000 4096 16 H1 H2 H3 H4))))).
Defined.

(** C8 as stated, with [align > 0] only, fails: at [val = 2^64 - 2],
    [align = 7], [skew = 6] the sum [val + align - skew] is [2^64 - 1], yet
    the value returned, 0, is below [val]; no [u64] at or above [val] has
    remainder 6 modulo 7. *)
Lemma align_with_skew_any_align_counterexample :
  let val := 2 ^ 64 - 2 in
  is_u64 val ∧ 0 < 7 ∧ 0 ≤ 6 < 7 ∧ val + 7 - 6 ≤ 2 ^ 64 - 1 ∧
  align_with_skew val 7 6 = 0 ∧
  ¬ smallest_with_skew val 7 6 (align_with_skew val 7 6).
Proof.
  cbv zeta.
  assert (align_with_skew (2 ^ 64 - 2) 7 6 = 0) as Hval by reflexivity.
  split; [unfold is_u64; lia|]. split; [lia|]. split; [lia|].
  split; [lia|]. split; [done|].
  rewrite Hval. intros (Hge & _). lia.
Qed.

(** The mask form of [align_to] is also off at small arguments when the
    alignment is not a power of two. *)
Example align_with_skew_align_3 :
  align_with_skew 1 3 0 = 1 ∧ ¬ smallest_with_skew 1 3 0 1.
Proof.
  split; [reflexivity|]. intros (_ & Hmod & _). vm_compute in Hmod. done.
Qed.


(** ** Congruences as divisibility *)

Lemma cong_trans p a b c : (p | a - b) → (p | b - c) → (p | a - c).
Proof.
  intros H1 H2. replace (a - c) with ((a - b) + (b - c)) by lia.
  by apply Z.divide_add_r.
Qed.

Lemma cong_sym p a b : (p | a - b) → (p | b - a).
Proof.
  intros H. replace (b - a) with (- (a - b)) by lia.
  by apply Z.divide_opp_r.
Qed.

Lemma cong_weaken p q a b : (p | q) → (q | a - b) → (p | a - b).
Proof. intros. by etrans. Qed.

Lemma rem_cong v p : (p | v `rem` p - v).
Proof.
  destruct (decide (p = 0)) as [->|Hp].
  - rewrite Z.rem_0_r_ext by done. exists 0. lia.
  - rewrite Z.rem_eq by done. exists (- (v ÷ p)). lia.
Qed.

Lemma pow2_divide_le j k : 0 ≤ j → 0 ≤ k → 2 ^ j ≤ 2 ^ k → (2 ^ j | 2 ^ k).
Proof.
  intros Hj Hk Hle. apply Z.pow_le_mono_r_iff in Hle; [|lia..].
  exists (2 ^ (k - j)). rewrite <- Z.pow_add_r by lia. f_equal. lia.
Qed.

(** ** The layout pass: what each iteration establishes *)

Section LayoutFacts.

Variable PAGE_SIZE : Z.
Variable page_bits : Z.
Hypothesis page_bits_range : 0 ≤ page_bits < 63.
Hypothesis PAGE_SIZE_pow2 : PAGE_SIZE = 2 ^ page_bits.

Lemma PAGE_SIZE_pos : 0 < PAGE_SIZE.
Proof using page_bits_range PAGE_SIZE_pow2.
  rewrite PAGE_SIZE_pow2. apply pow2_pos. lia.
Qed.

Lemma PAGE_SIZE_u64 : to_u64 PAGE_SIZE = PAGE_SIZE.
Proof using page_bits_range PAGE_SIZE_pow2.
  apply to_u64_small. rewrite PAGE_SIZE_pow2. unfold is_u64. split.
  - apply Z.pow_nonneg. lia.
  - apply Z.pow_lt_mono_r; lia.
Qed.

Lemma PAGE_SIZE_divides_word : (PAGE_SIZE | 2 ^ 64).
Proof using page_bits_range PAGE_SIZE_pow2.
  rewrite PAGE_SIZE_pow2. apply pow2_divides_word. lia.
Qed.

(** The pass writes [sh_offset] and [sh_addr] only. *)
Lemma osec_step_frame st c :
  let c' := (osec_step PAGE_SIZE st c).1 in
  sh_type (shdr c') = sh_type (shdr c) ∧
  sh_flags (shdr c') = sh_flags (shdr c) ∧
  sh_size (shdr c') = sh_size (shdr c) ∧
  sh_addralign (shdr c') = sh_addralign (shdr c) ∧
  new_page c' = new_page c ∧ new_page_end c' = new_page_end c.
Proof using Type.
  clear page_bits_range PAGE_SIZE_pow2. unfold osec_step. simpl. by destruct (is_alloc c). Qed.

Lemma osec_step_offset st c :
  sh_offset (shdr (osec_step PAGE_SIZE st c).1) = to_u64 (chunk_fileoff PAGE_SIZE st c).
Proof using Type.
  clear page_bits_range PAGE_SIZE_pow2. unfold osec_step. simpl. by destruct (is_alloc c). Qed.

Lemma osec_step_addr st c :
  is_alloc c = true →
  sh_addr (shdr (osec_step PAGE_SIZE st c).1) = to_u64 (chunk_vaddr PAGE_SIZE st c).
Proof using Type.
  clear page_bits_range PAGE_SIZE_pow2. unfold osec_step. simpl. by intros ->. Qed.

Lemma osec_step_addr_keep st c :
  is_alloc c = false →
  sh_addr (shdr (osec_step PAGE_SIZE st c).1) = sh_addr (shdr c).
Proof using Type.
  clear page_bits_range PAGE_SIZE_pow2. unfold osec_step. simpl. by intros ->. Qed.

(** The file offset is congruent to the address modulo the page size,
    for every chunk and whatever wrapped on the way. *)
Lemma chunk_fileoff_cong st c :
  (PAGE_SIZE | to_u64 (chunk_fileoff PAGE_SIZE st c) - to_u64 (chunk_vaddr PAGE_SIZE st c)).
Proof using page_bits_range PAGE_SIZE_pow2.
  pose proof PAGE_SIZE_divides_word as Hw.
  unfold chunk_fileoff. set (v := chunk_vaddr PAGE_SIZE st c).
  rewrite PAGE_SIZE_u64, PAGE_SIZE_pow2.
  destruct (align_with_skew_mod (to_u64 (fileoff st)) page_bits
              (to_u64 (v `rem` 2 ^ page_bits))) as (d & _ & -> & Hd); [lia|].
  rewrite <- PAGE_SIZE_pow2 in *.
  eapply cong_trans; [eapply cong_weaken; [exact Hw|apply to_u64_cong]|].
  eapply cong_trans; [eapply cong_weaken; [exact Hw|apply to_i64_cong]|].
  eapply cong_trans; [eapply cong_weaken; [exact Hw|apply to_u64_cong]|].
  eapply cong_trans; [exact Hd|].
  eapply cong_trans; [eapply cong_weaken; [exact Hw|apply to_u64_cong]|].
  eapply cong_trans; [apply rem_cong|].
  apply cong_sym. eapply cong_weaken; [exact Hw|apply to_u64_cong].
Qed.

(** The address is a multiple of the alignment when that is a power of
    two. *)
Lemma chunk_vaddr_aligned st c :
  is_pow2 (sh_addralign (shdr c)) = true →
  (sh_addralign (shdr c) | to_u64 (chunk_vaddr PAGE_SIZE st c)).
Proof using Type.
  clear page_bits_range PAGE_SIZE_pow2.
  intros (k & Hk & Hal)%is_pow2_spec. unfold chunk_vaddr. rewrite Hal.
  set (x := to_u64 (if new_page c then _ else _)).
  pose proof (align_to_divide x k Hk) as Hdiv.
  assert (2 ^ k | 2 ^ 64) as Hw by (apply pow2_divides_word; lia).
  set (A := align_to x (2 ^ k)) in *.
  replace (to_u64 (to_i64 A)) with ((to_u64 (to_i64 A) - to_i64 A) +
    (to_i64 A - A) + A) by lia.
  apply Z.divide_add_r; [apply Z.divide_add_r|done].
  - eapply cong_weaken; [exact Hw|apply to_u64_cong].
  - eapply cong_weaken; [exact Hw|apply to_i64_cong].
Qed.

Lemma osec_step_aligned st c :
  is_pow2 (sh_addralign (shdr c)) = true →
  layout_aligned_page PAGE_SIZE (osec_step PAGE_SIZE st c).1.
Proof using page_bits_range PAGE_SIZE_pow2.
  intros Hpow.
  destruct (osec_step_frame st c) as (_ & Hfl & _ & Hal & _).
  pose proof (chunk_vaddr_aligned st c Hpow) as Hv.
  pose proof (chunk_fileoff_cong st c) as Hf.
  pose proof PAGE_SIZE_pos as HP.
  unfold layout_aligned_page, is_alloc. rewrite Hfl, Hal, osec_step_offset.
  apply is_pow2_spec in Hpow as Hk. destruct Hk as (k & Hk & Hak).
  assert (0 < sh_addralign (shdr c)) as Ha
    by (rewrite Hak; apply pow2_pos; lia).
  split.
  - intros Hle. apply Z.mod_divide; [lia|].
    replace (to_u64 (chunk_fileoff PAGE_SIZE st c)) with
      ((to_u64 (chunk_fileoff PAGE_SIZE st c) - to_u64 (chunk_vaddr PAGE_SIZE st c)) +
       to_u64 (chunk_vaddr PAGE_SIZE st c)) by lia.
    apply Z.divide_add_r; [|done].
    eapply cong_weaken; [|exact Hf].
    rewrite Hak, PAGE_SIZE_pow2. apply pow2_divide_le; [lia..|].
    rewrite <- Hak, <- PAGE_SIZE_pow2. done.
  - intros Halloc. fold (is_alloc c) in Halloc.
    rewrite osec_step_addr by done. split.
    + apply Z.mod_divide; [lia|done].
    + by apply divide_mod_eq.
Qed.

Lemma osec_loop_cons st c rest :
  osec_loop PAGE_SIZE st (c :: rest) =
  ((osec_step PAGE_SIZE st c).1
     :: (osec_loop PAGE_SIZE (osec_step PAGE_SIZE st c).2 rest).1,
   (osec_loop PAGE_SIZE (osec_step PAGE_SIZE st c).2 rest).2).
Proof using Type.
  clear page_bits_range PAGE_SIZE_pow2.
  change (osec_loop PAGE_SIZE st (c :: rest)) with
    (let '(c', st1) := osec_step PAGE_SIZE st c in
     let '(rest', st2) := osec_loop PAGE_SIZE st1 rest in
     (c' :: rest', st2)).
  destruct (osec_step PAGE_SIZE st c) as [c' st1]. cbn [fst snd].
  by destruct (osec_loop PAGE_SIZE st1 rest).
Qed.

Lemma osec_loop_aligned st chunks :
  aligns_pow2 chunks →
  Forall (layout_aligned_page PAGE_SIZE) (osec_loop PAGE_SIZE st chunks).1.
Proof using page_bits_range PAGE_SIZE_pow2.
  intros Hall. revert st. induction Hall as [|c rest Hc _ IH]; intros st.
  - constructor.
  - rewrite osec_loop_cons. cbn [fst].
    constructor; [by apply osec_step_aligned|apply IH].
Qed.

(** *** Without wrap-around the counters only move forward *)

Lemma align_to_i64 x a :
  0 ≤ x → is_u64 a → x + a < 2 ^ 63 →
  x ≤ to_i64 (align_to (to_u64 x) a) ≤ x + Z.max (a - 1) 0.
Proof using Type.
  clear page_bits_range PAGE_SIZE_pow2.
  intros Hx Ha Hfit.
  rewrite (to_u64_small x) by (unfold is_u64 in *; lia).
  pose proof (align_to_bounds x a Ha Hx) as Hb.
  rewrite to_i64_small; unfold is_u64, is_i64 in *; lia.
Qed.

Lemma add_i64 x s :
  0 ≤ x → 0 ≤ s → x + s < 2 ^ 63 → to_i64 (to_u64 x + s) = x + s.
Proof using Type.
  clear page_bits_range PAGE_SIZE_pow2.
  intros. rewrite to_u64_small by (unfold is_u64; lia).
  apply to_i64_small. unfold is_i64. lia.
Qed.

Lemma align_with_skew_i64 f skew :
  0 ≤ f → f + PAGE_SIZE < 2 ^ 63 →
  f ≤ to_i64 (align_with_skew (to_u64 f) (to_u64 PAGE_SIZE) skew)
    ≤ f + PAGE_SIZE - 1.
Proof using page_bits_range PAGE_SIZE_pow2.
  intros Hf Hfit. rewrite PAGE_SIZE_u64.
  rewrite (to_u64_small f) by (unfold is_u64; lia).
  revert Hfit. rewrite PAGE_SIZE_pow2. intros Hfit.
  destruct (align_with_skew_mod f page_bits skew) as (d & Hd & -> & _);
    [lia|].
  rewrite to_u64_small by (unfold is_u64; lia).
  rewrite to_i64_small by (unfold is_i64; lia). lia.
Qed.

Lemma osec_step_vaddr st c :
  vaddr (osec_step PAGE_SIZE st c).2 =
  let v3 := if is_tbss c then chunk_vaddr PAGE_SIZE st c
            else to_i64 (to_u64 (chunk_vaddr PAGE_SIZE st c)
                         + sh_size (shdr c)) in
  if new_page_end c
  then to_i64 (align_to (to_u64 v3) (to_u64 PAGE_SIZE)) else v3.
Proof using Type.
  clear page_bits_range PAGE_SIZE_pow2. reflexivity. Qed.

Lemma osec_step_fileoff st c :
  fileoff (osec_step PAGE_SIZE st c).2 =
  if is_bss c then chunk_fileoff PAGE_SIZE st c
  else to_i64 (to_u64 (chunk_fileoff PAGE_SIZE st c) + sh_size (shdr c)).
Proof using Type.
  clear page_bits_range PAGE_SIZE_pow2. reflexivity. Qed.

Lemma osec_step_vaddr_bounds st c :
  0 ≤ vaddr st → chunk_u64 c →
  vaddr st + vaddr_span PAGE_SIZE c < 2 ^ 63 →
  let v := chunk_vaddr PAGE_SIZE st c in
  let st' := (osec_step PAGE_SIZE st c).2 in
  vaddr st ≤ v ∧
  v + (if is_tbss c then 0 else sh_size (shdr c)) ≤ vaddr st' ∧
  vaddr st' ≤ vaddr st + vaddr_span PAGE_SIZE c.
Proof using page_bits_range PAGE_SIZE_pow2.
  intros Hv (Hsz & Hal) Hfit. cbv zeta.
  pose proof PAGE_SIZE_pos as HP.
  assert (is_u64 PAGE_SIZE) as HPu.
  { rewrite <- PAGE_SIZE_u64. apply to_u64_range. }
  unfold vaddr_span in Hfit.
  rewrite osec_step_vaddr. unfold chunk_vaddr. rewrite PAGE_SIZE_u64.
  set (v1 := if new_page c then _ else _).
  assert (vaddr st ≤ v1 ≤ vaddr st + PAGE_SIZE) as Hv1.
  { subst v1. destruct (new_page c); [|lia].
    pose proof (align_to_i64 (vaddr st) PAGE_SIZE Hv HPu).
    unfold is_u64 in *. lia. }
  set (v2 := to_i64 (align_to (to_u64 v1) _)).
  assert (v1 ≤ v2 ≤ v1 + sh_addralign (shdr c)) as Hv2.
  { subst v2. pose proof (align_to_i64 v1 (sh_addralign (shdr c))).
    unfold is_u64 in *. lia. }
  cbv zeta. set (v3 := if is_tbss c then v2 else _).
  assert (v3 = v2 + (if is_tbss c then 0 else sh_size (shdr c))) as Hv3.
  { subst v3. destruct (is_tbss c); [lia|].
    apply add_i64; unfold is_u64 in *; lia. }
  assert (0 ≤ (if is_tbss c then 0 else sh_size (shdr c))
            ≤ sh_size (shdr c)) as Hs
    by (destruct (is_tbss c); unfold is_u64 in *; lia).
  split; [lia|]. unfold vaddr_span.
  destruct (new_page_end c); [|lia].
  pose proof (align_to_i64 v3 PAGE_SIZE).
  unfold is_u64 in *. lia.
Qed.

Lemma osec_step_fileoff_bounds st c :
  0 ≤ fileoff st → chunk_u64 c →
  fileoff st + fileoff_span PAGE_SIZE c < 2 ^ 63 →
  let c' := (osec_step PAGE_SIZE st c).1 in
  let st' := (osec_step PAGE_SIZE st c).2 in
  fileoff st ≤ sh_offset (shdr c') ∧
  data_end c' = fileoff st' ∧
  fileoff st' ≤ fileoff st + fileoff_span PAGE_SIZE c.
Proof using page_bits_range PAGE_SIZE_pow2.
  intros Hf (Hsz & Hal) Hfit. cbv zeta.
  destruct (osec_step_frame st c) as (Hty & _ & Hsize & _).
  unfold data_end, is_bss. rewrite Hty, Hsize, osec_step_offset.
  fold (is_bss c). rewrite osec_step_fileoff.
  unfold fileoff_span in Hfit. unfold chunk_fileoff.
  set (skew := to_u64 (_ `rem` _)).
  assert (0 ≤ (if is_bss c then 0 else sh_size (shdr c))) as Hs
    by (destruct (is_bss c); unfold is_u64 in *; lia).
  pose proof (align_with_skew_i64 (fileoff st) skew Hf) as Hb.
  set (f1 := to_i64 (align_with_skew _ _ _)) in *.
  assert (fileoff st ≤ f1 ≤ fileoff st + PAGE_SIZE - 1) as Hf1
    by (apply Hb; lia).
  rewrite (to_u64_small f1) by (unfold is_u64; lia).
  unfold fileoff_span.
  destruct (is_bss c); [lia|].
  rewrite to_i64_small; unfold is_u64, is_i64 in *; lia.
Qed.

(** *** The loop: addresses *)

Lemma is_alloc_step st c : is_alloc (osec_step PAGE_SIZE st c).1 = is_alloc c.
Proof using Type.
  clear page_bits_range PAGE_SIZE_pow2.
  destruct (osec_step_frame st c) as (_ & Hfl & _).
  unfold is_alloc. by rewrite Hfl.
Qed.

Lemma is_bss_step st c : is_bss (osec_step PAGE_SIZE st c).1 = is_bss c.
Proof using Type.
  clear page_bits_range PAGE_SIZE_pow2.
  destruct (osec_step_frame st c) as (Hty & _).
  unfold is_bss. by rewrite Hty.
Qed.

Lemma is_tbss_step st c : is_tbss (osec_step PAGE_SIZE st c).1 = is_tbss c.
Proof using Type.
  clear page_bits_range PAGE_SIZE_pow2.
  destruct (osec_step_frame st c) as (Hty & Hfl & _).
  unfold is_tbss, is_bss. by rewrite Hty, Hfl.
Qed.

Lemma vaddr_span_pos c : chunk_u64 c → 0 < vaddr_span PAGE_SIZE c.
Proof using page_bits_range PAGE_SIZE_pow2.
  intros (Hsz & Hal). pose proof PAGE_SIZE_pos.
  unfold vaddr_span, is_u64 in *. lia.
Qed.

Lemma fileoff_span_pos c : chunk_u64 c → 0 < fileoff_span PAGE_SIZE c.
Proof using page_bits_range PAGE_SIZE_pow2.
  intros (Hsz & Hal). pose proof PAGE_SIZE_pos.
  unfold fileoff_span, is_u64 in *. destruct (is_bss c); lia.
Qed.

Lemma total_span_nonneg span chunks :
  Forall (λ c, 0 < span c) chunks → 0 ≤ total_span span chunks.
Proof using Type.
  clear page_bits_range PAGE_SIZE_pow2. induction 1; simpl; lia. Qed.

Lemma osec_loop_no_overlap st chunks :
  0 ≤ vaddr st → Forall chunk_u64 chunks →
  vaddr st + total_span (vaddr_span PAGE_SIZE) chunks < 2 ^ 63 →
  let out := (osec_loop PAGE_SIZE st chunks).1 in
  (∀ (j : nat) Y, out !! j = Some Y → is_alloc Y = true →
                  vaddr st ≤ sh_addr (shdr Y)) ∧
  no_overlap_but_tbss out.
Proof using page_bits_range PAGE_SIZE_pow2.
  intros Hv Hall. revert st Hv.
  induction Hall as [|c rest Hc Hrest IH]; intros st Hv Hfit; cbv zeta.
  { split; [intros j Y Hj; done|]. intros i j X Y _ Hi. done. }
  rewrite osec_loop_cons. cbn [fst]. cbn [total_span foldr] in Hfit.
  fold (total_span (vaddr_span PAGE_SIZE) rest) in Hfit.
  assert (0 ≤ total_span (vaddr_span PAGE_SIZE) rest) as Hnn.
  { apply total_span_nonneg. eapply Forall_impl; [exact Hrest|].
    apply vaddr_span_pos. }
  pose proof (vaddr_span_pos c Hc) as Hpos.
  destruct (osec_step_vaddr_bounds st c Hv Hc) as (Hv1 & Hv2 & Hv3); [lia|].
  set (v := chunk_vaddr PAGE_SIZE st c) in *.
  set (c' := (osec_step PAGE_SIZE st c).1).
  set (st1 := (osec_step PAGE_SIZE st c).2) in *.
  assert (0 ≤ (if is_tbss c then 0 else sh_size (shdr c))) as Hs.
  { destruct Hc as [Hsz _]. destruct (is_tbss c); unfold is_u64 in *; lia. }
  destruct (IH st1) as (IHfirst & IHpair); [lia..|].
  assert (is_alloc c = true → sh_addr (shdr c') = v) as Haddr.
  { intros Ha. subst c'. rewrite osec_step_addr by done. fold v.
    apply to_u64_small. unfold is_u64. lia. }
  split.
  - intros [|j] Y Hj Halloc; simpl in Hj.
    + inversion Hj; subst Y. subst c'. rewrite is_alloc_step in Halloc.
      rewrite Haddr by done. lia.
    + specialize (IHfirst j Y Hj Halloc). lia.
  - intros [|i] [|j] X Y Hij Hi Hj HaX HaY HtX; simpl in Hi, Hj; try lia.
    + inversion Hi; subst X. subst c'.
      rewrite is_alloc_step in HaX. rewrite is_tbss_step in HtX.
      rewrite Haddr by done.
      destruct (osec_step_frame st c) as (_ & _ & -> & _).
      specialize (IHfirst j Y Hj HaY). rewrite HtX in Hv2. lia.
    + apply (IHpair i j X Y); [lia|done..].
Qed.

(** *** The same for addresses in the upper half of the [u64] range

    The counter [vaddr] is an [i64], but the addresses it stands for are
    the [u64] values stored in [sh_addr]: an image base at or above 2^63 is
    a negative counter, and the arithmetic is the same modulo 2^64. *)

Lemma to_u64_to_i64 z : to_u64 (to_i64 z) = to_u64 z.
Proof using Type.
  clear page_bits_range PAGE_SIZE_pow2.
  apply to_u64_eq, to_i64_cong.
Qed.

Lemma align_to_u64 x a :
  is_u64 a → to_u64 x + a < 2 ^ 64 →
  to_u64 x ≤ to_u64 (to_i64 (align_to (to_u64 x) a))
           ≤ to_u64 x + Z.max (a - 1) 0.
Proof using Type.
  clear page_bits_range PAGE_SIZE_pow2.
  intros Ha Hfit. pose proof (to_u64_range x) as Hx.
  pose proof (align_to_bounds (to_u64 x) a Ha) as Hb.
  rewrite to_u64_to_i64.
  rewrite (to_u64_small (align_to (to_u64 x) a)); unfold is_u64 in *; lia.
Qed.

Lemma add_u64 x s :
  0 ≤ s → to_u64 x + s < 2 ^ 64 →
  to_u64 (to_i64 (to_u64 x + s)) = to_u64 x + s.
Proof using Type.
  clear page_bits_range PAGE_SIZE_pow2.
  intros Hs Hfit. pose proof (to_u64_range x) as Hx.
  rewrite to_u64_to_i64. apply to_u64_small. unfold is_u64 in *. lia.
Qed.

Lemma osec_step_vaddr_range st c :
  chunk_u64 c →
  to_u64 (vaddr st) + vaddr_span PAGE_SIZE c < 2 ^ 64 →
  let v := to_u64 (chunk_vaddr PAGE_SIZE st c) in
  let st' := (osec_step PAGE_SIZE st c).2 in
  to_u64 (vaddr st) ≤ v ∧
  v + (if is_tbss c then 0 else sh_size (shdr c)) ≤ to_u64 (vaddr st') ∧
  to_u64 (vaddr st') ≤ to_u64 (vaddr st) + vaddr_span PAGE_SIZE c.
Proof using page_bits_range PAGE_SIZE_pow2.
  intros (Hsz & Hal) Hfit. cbv zeta.
  pose proof PAGE_SIZE_pos as HP.
  assert (is_u64 PAGE_SIZE) as HPu.
  { rewrite <- PAGE_SIZE_u64. apply to_u64_range. }
  unfold vaddr_span in Hfit.
  rewrite osec_step_vaddr. unfold chunk_vaddr. rewrite PAGE_SIZE_u64.
  set (v1 := if new_page c then _ else _).
  assert (to_u64 (vaddr st) ≤ to_u64 v1 ≤ to_u64 (vaddr st) + PAGE_SIZE)
    as Hv1.
  { subst v1. destruct (new_page c); [|lia].
    pose proof (align_to_u64 (vaddr st) PAGE_SIZE HPu).
    unfold is_u64 in *. lia. }
  set (v2 := to_i64 (align_to (to_u64 v1) _)).
  assert (to_u64 v1 ≤ to_u64 v2 ≤ to_u64 v1 + sh_addralign (shdr c)) as Hv2.
  { subst v2. pose proof (align_to_u64 v1 (sh_addralign (shdr c))).
    unfold is_u64 in *. lia. }
  cbv zeta. set (v3 := if is_tbss c then v2 else _).
  assert (to_u64 v3
          = to_u64 v2 + (if is_tbss c then 0 else sh_size (shdr c))) as Hv3.
  { subst v3. destruct (is_tbss c); [lia|].
    apply add_u64; unfold is_u64 in *; lia. }
  assert (0 ≤ (if is_tbss c then 0 else sh_size (shdr c))
            ≤ sh_size (shdr c)) as Hs
    by (destruct (is_tbss c); unfold is_u64 in *; lia).
  split; [lia|]. unfold vaddr_span.
  destruct (new_page_end c); [|lia].
  pose proof (align_to_u64 v3 PAGE_SIZE).
  unfold is_u64 in *. lia.
Qed.

Lemma osec_loop_no_overlap_range st chunks :
  Forall chunk_u64 chunks →
  to_u64 (vaddr st) + total_span (vaddr_span PAGE_SIZE) chunks < 2 ^ 64 →
  let out := (osec_loop PAGE_SIZE st chunks).1 in
  (∀ (j : nat) Y, out !! j = Some Y → is_alloc Y = true →
                  to_u64 (vaddr st) ≤ sh_addr (shdr Y)) ∧
  no_overlap_but_tbss out.
Proof using page_bits_range PAGE_SIZE_pow2.
  intros Hall. revert st.
  induction Hall as [|c rest Hc Hrest IH]; intros st Hfit; cbv zeta.
  { split; [intros j Y Hj; done|]. intros i j X Y _ Hi. done. }
  rewrite osec_loop_cons. cbn [fst]. cbn [total_span foldr] in Hfit.
  fold (total_span (vaddr_span PAGE_SIZE) rest) in Hfit.
  assert (0 ≤ total_span (vaddr_span PAGE_SIZE) rest) as Hnn.
  { apply total_span_nonneg. eapply Forall_impl; [exact Hrest|].
    apply vaddr_span_pos. }
  pose proof (vaddr_span_pos c Hc) as Hpos.
  destruct (osec_step_vaddr_range st c Hc) as (Hv1 & Hv2 & Hv3); [lia|].
  set (v := to_u64 (chunk_vaddr PAGE_SIZE st c)) in *.
  set (c' := (osec_step PAGE_SIZE st c).1).
  set (st1 := (osec_step PAGE_SIZE st c).2) in *.
  assert (0 ≤ (if is_tbss c then 0 else sh_size (shdr c))) as Hs.
  { destruct Hc as [Hsz _]. destruct (is_tbss c); unfold is_u64 in *; lia. }
  destruct (IH st1) as (IHfirst & IHpair); [lia|].
  assert (is_alloc c = true → sh_addr (shdr c') = v) as Haddr.
  { intros Ha. subst c'. by rewrite osec_step_addr. }
  split.
  - intros [|j] Y Hj Halloc; simpl in Hj.
    + inversion Hj; subst Y. subst c'. rewrite is_alloc_step in Halloc.
      rewrite Haddr by done. lia.
    + specialize (IHfirst j Y Hj Halloc). lia.
  - intros [|i] [|j] X Y Hij Hi Hj HaX HaY HtX; simpl in Hi, Hj; try lia.
    + inversion Hi; subst X. subst c'.
      rewrite is_alloc_step in HaX. rewrite is_tbss_step in HtX.
      rewrite Haddr by done.
      destruct (osec_step_frame st c) as (_ & _ & -> & _).
      specialize (IHfirst j Y Hj HaY). rewrite HtX in Hv2. lia.
    + apply (IHpair i j X Y); [lia|done..].
Qed.

(** *** The loop: file offsets *)

Lemma osec_loop_gaps st chunks :
  0 ≤ fileoff st → Forall chunk_u64 chunks →
  fileoff st + total_span (fileoff_span PAGE_SIZE) chunks < 2 ^ 63 →
  let out := (osec_loop PAGE_SIZE st chunks).1 in
  let fin := fileoff (osec_loop PAGE_SIZE st chunks).2 in
  fileoff st ≤ fin ∧
  fin ≤ fileoff st + total_span (fileoff_span PAGE_SIZE) chunks ∧
  (∀ c, head out = Some c → fileoff st ≤ sh_offset (shdr c)) ∧
  gaps_ordered out fin.
Proof using page_bits_range PAGE_SIZE_pow2.
  intros Hf Hall. revert st Hf.
  induction Hall as [|c rest Hc Hrest IH]; intros st Hf Hfit; cbv zeta.
  { simpl. split; [lia|]. split; [lia|]. split; [intros c; done|done]. }
  rewrite osec_loop_cons. cbn [fst snd]. cbn [total_span foldr] in *.
  fold (total_span (fileoff_span PAGE_SIZE) rest) in *.
  assert (0 ≤ total_span (fileoff_span PAGE_SIZE) rest) as Hnn.
  { apply total_span_nonneg. eapply Forall_impl; [exact Hrest|].
    apply fileoff_span_pos. }
  pose proof (fileoff_span_pos c Hc) as Hpos.
  destruct (osec_step_fileoff_bounds st c Hf Hc) as (Ho & He & Hb); [lia|].
  set (c' := (osec_step PAGE_SIZE st c).1) in *.
  set (st1 := (osec_step PAGE_SIZE st c).2) in *.
  assert (sh_offset (shdr c') ≤ fileoff st1) as Hoe.
  { rewrite <- He. unfold data_end. destruct Hc as [Hsz _].
    destruct (osec_step_frame st c) as (_ & _ & Hsize & _).
    fold c' in Hsize. rewrite Hsize.
    destruct (is_bss c'); unfold is_u64 in *; lia. }
  destruct (IH st1) as (IH1 & IH2 & IHhead & IHgaps); [lia..|].
  split; [lia|]. split; [lia|]. split.
  - intros c0 Hc0. simpl in Hc0. inversion Hc0; subst c0. done.
  - cbn [gaps_ordered].
    destruct ((osec_loop PAGE_SIZE st1 rest).1) as [|next out'] eqn:Hout.
    + rewrite He. done.
    + split; [|done]. rewrite He. apply IHhead. done.
Qed.

Lemma osec_loop_length st chunks :
  length (osec_loop PAGE_SIZE st chunks).1 = length chunks.
Proof using Type.
  clear page_bits_range PAGE_SIZE_pow2.
  revert st. induction chunks as [|c rest IH]; intros st; [done|].
  rewrite osec_loop_cons. cbn [fst length]. by rewrite IH.
Qed.

Lemma osec_loop_fields st chunks :
  Forall chunk_u64 chunks →
  Forall (λ c, 0 ≤ sh_offset (shdr c) ∧ 0 ≤ sh_size (shdr c))
         (osec_loop PAGE_SIZE st chunks).1.
Proof using Type.
  clear page_bits_range PAGE_SIZE_pow2.
  intros Hall. revert st. induction Hall as [|c rest Hc _ IH]; intros st.
  { constructor. }
  rewrite osec_loop_cons. cbn [fst]. constructor; [|apply IH].
  destruct (osec_step_frame st c) as (_ & _ & -> & _).
  rewrite osec_step_offset. pose proof (to_u64_range (chunk_fileoff PAGE_SIZE st c)).
  destruct Hc as [Hsz _]. unfold is_u64 in *. lia.
Qed.

End LayoutFacts.

(** C1, the claim as amended: after [set_osec_offsets] on a chunk list in
    which every [sh_addralign] is a positive power of two, every chunk whose
    [sh_addralign] does not exceed the page size has
    [sh_offset % sh_addralign == 0], and every chunk with [SHF_ALLOC] has
    [sh_addr % sh_addralign == 0] and [sh_offset ≡ sh_addr (mod PAGE_SIZE)].
    The page size is any power of two below 2^63. *)
Theorem set_osec_offsets_aligned PAGE_SIZE page_bits image_base chunks :
  0 ≤ page_bits < 63 → PAGE_SIZE = 2 ^ page_bits →
  aligns_pow2 chunks →
  Forall (layout_aligned_page PAGE_SIZE)
         (set_osec_offsets PAGE_SIZE image_base chunks).1.
Proof.
  intros Hbits HP Hall. unfold set_osec_offsets.
  pose proof (osec_loop_aligned PAGE_SIZE page_bits Hbits HP
                (mkLayout 0 (to_i64 image_base)) chunks Hall) as H.
  by destruct (osec_loop _ _ _).
Qed.

Lemma set_osec_offsets_aligned_witness :
  0 ≤ 12 < 63 ∧ 4096 = 2 ^ 12 ∧ aligns_pow2 chunks_two_pages ∧
  Forall (layout_aligned_page 4096)
         (set_osec_offsets 4096 2097152 chunks_two_pages).1.
Proof.
  assert (H1 : 0 ≤ 12 < 63) by lia.
  assert (H2 : 4096 = 2 ^ 12) by reflexivity.
  assert (H3 : aligns_pow2 chunks_two_pages)
    by (repeat constructor).
  exact (conj H1 (conj H2 (conj H3
    (set_osec_offsets_aligned 4096 12 2097152 chunks_two_pages H1 H2 H3)))).
Defined.

(** C1 as stated fails when an alignment exceeds the page size: the file
    offset is only placed congruent to the address modulo the page size.
    With 4096-byte pages, a one-page section followed by a section aligned
    to 8192 puts the second one at file offset 4096. *)
Lemma set_osec_offsets_aligned_counterexample :
  aligns_pow2 chunks_two_pages ∧
  ∃ c, (set_osec_offsets 4096 2097152 chunks_two_pages).1 !! 1%nat = Some c ∧
       sh_addralign (shdr c) = 8192 ∧ sh_offset (shdr c) = 4096 ∧
       ¬ layout_aligned 4096 c.
Proof.
  split; [repeat constructor|].
  eexists. split; [reflexivity|]. split; [reflexivity|].
  split; [reflexivity|]. intros [Hoff _]. vm_compute in Hoff. done.
Qed.


(** ** From ordered gaps to the [memset] calls of [clear_padding] *)

Lemma zero_exact c next :
  0 ≤ sh_offset (shdr c) → 0 ≤ sh_size (shdr c) → data_end c < 2 ^ 63 →
  zero c next = mkMemset (data_end c) (next - data_end c).
Proof.
  intros Ho Hs He. unfold zero, data_end in *.
  assert (sh_offset (shdr c) < 2 ^ 63) by (destruct (is_bss c); lia).
  rewrite (to_i64_small (sh_offset (shdr c))) by (unfold is_i64; lia).
  destruct (is_bss c); simpl.
  - by rewrite Z.add_0_r.
  - rewrite to_u64_small by (unfold is_u64; lia).
    rewrite to_i64_small by (unfold is_i64; lia). done.
Qed.

Lemma gaps_memset out fin :
  Forall (λ c, 0 ≤ sh_offset (shdr c) ∧ 0 ≤ sh_size (shdr c)) out →
  fin < 2 ^ 63 → gaps_ordered out fin →
  Forall (memset_in_bounds fin) (zero_between out) ∧
  (∀ b, last out = Some b → memset_in_bounds fin (zero b fin)) ∧
  (∀ c, head out = Some c → sh_offset (shdr c) ≤ fin).
Proof.
  intros Hall Hfin. induction Hall as [|c rest [Ho Hs] Hrest IH].
  { intros _. split; [constructor|]. split; intros ?; done. }
  assert (sh_offset (shdr c) ≤ data_end c) as Hoe
    by (unfold data_end; destruct (is_bss c); lia).
  destruct rest as [|next out'].
  - cbn [gaps_ordered]. intros He. split; [constructor|]. split.
    + intros b Hb. simpl in Hb. inversion Hb; subst b.
      rewrite zero_exact by lia. unfold memset_in_bounds. simpl. lia.
    + intros c0 Hc0. simpl in Hc0. inversion Hc0; subst c0. lia.
  - cbn [gaps_ordered]. intros [Hgap Hgaps].
    destruct (IH Hgaps) as (IHz & IHlast & IHhead).
    specialize (IHhead next eq_refl).
    apply Forall_cons in Hrest as [[Hno _] _].
    split; [|split].
    + cbn [zero_between]. constructor; [|exact IHz].
      rewrite (to_i64_small (sh_offset (shdr next))) by (unfold is_i64; lia).
      rewrite zero_exact by lia. unfold memset_in_bounds. simpl. lia.
    + intros b Hb. apply IHlast. by rewrite last_cons_cons in Hb.
    + intros c0 Hc0. simpl in Hc0. inversion Hc0; subst c0. lia.
Qed.

(** C2, the claim as amended: when the addresses of the layout do not wrap
    around the 64-bit range ([image_base] plus, for every chunk, its size,
    its alignment and two pages is below 2^64), after [set_osec_offsets]
    every allocated chunk that is not a thread-local NOBITS (TBSS) chunk ends
    at or before the address of every allocated chunk that follows it,
    whether next to it or not.  A TBSS chunk does not advance the address
    counter.  The image base is any [u64], also one in the upper half of the
    address space. *)
Theorem set_osec_offsets_no_overlap PAGE_SIZE page_bits image_base chunks :
  0 ≤ page_bits < 63 → PAGE_SIZE = 2 ^ page_bits →
  vaddr_in_range PAGE_SIZE image_base chunks →
  no_overlap_but_tbss (set_osec_offsets PAGE_SIZE image_base chunks).1.
Proof.
  intros Hbits HP (Hall & Hbase & Hfit). unfold set_osec_offsets.
  assert (0 ≤ total_span (vaddr_span PAGE_SIZE) chunks) as Hnn.
  { apply total_span_nonneg. eapply Forall_impl; [exact Hall|].
    by apply (vaddr_span_pos PAGE_SIZE page_bits). }
  assert (to_u64 (to_i64 image_base) = image_base) as Hib.
  { rewrite to_u64_to_i64. apply to_u64_small. unfold is_u64. lia. }
  destruct (osec_loop_no_overlap_range PAGE_SIZE page_bits Hbits HP
              (mkLayout 0 (to_i64 image_base)) chunks) as [_ H];
    [done|simpl; lia|].
  by destruct (osec_loop _ _ _).
Qed.

Lemma set_osec_offsets_no_overlap_witness :
  0 ≤ 12 < 63 ∧ 4096 = 2 ^ 12 ∧
  vaddr_in_range 4096 18446744071562067968 chunks_text_tbss_data ∧
  no_overlap_but_tbss
    (set_osec_offsets 4096 18446744071562067968 chunks_text_tbss_data).1.
Proof.
  assert (H1 : 0 ≤ 12 < 63) by lia.
  assert (H2 : 4096 = 2 ^ 12) by reflexivity.
  assert (H3 : vaddr_in_range 4096 18446744071562067968 chunks_text_tbss_data).
  { split; [|split; [lia|reflexivity]].
    repeat constructor; unfold is_u64; simpl; lia. }
  exact (conj H1 (conj H2 (conj H3
    (set_osec_offsets_no_overlap 4096 12 18446744071562067968
       chunks_text_tbss_data H1 H2 H3)))).
Defined.

(** C2 as stated fails in two ways.  At a TBSS chunk: with 4096-byte pages
    and the image at 0x200000, a 16-byte [.tbss] followed by a data section
    leaves both at address 0x200000.  And when the address counter wraps
    around: with the image on the last page of the address space, a section
    of two pages is followed by a section at address 0x1000, with no TBSS
    chunk involved. *)
Lemma set_osec_offsets_no_overlap_counterexample :
  ¬ no_overlap (set_osec_offsets 4096 2097152 chunks_tbss).1 ∧
  ¬ no_overlap_but_tbss
      (set_osec_offsets 4096 (2 ^ 64 - 4096) chunks_last_page).1 ∧
  ¬ no_overlap (set_osec_offsets 4096 (2 ^ 64 - 4096) chunks_last_page).1.
Proof.
  split; [|split].
  - intros H.
    specialize (H 0%nat 1%nat _ _ ltac:(lia) eq_refl eq_refl eq_refl eq_refl).
    vm_compute in H. by apply H.
  - intros H.
    specialize (H 0%nat 1%nat _ _ ltac:(lia) eq_refl eq_refl eq_refl eq_refl
                  eq_refl).
    vm_compute in H. by apply H.
  - intros H.
    specialize (H 0%nat 1%nat _ _ ltac:(lia) eq_refl eq_refl eq_refl eq_refl).
    vm_compute in H. by apply H.
Qed.

(** C10, the claim as amended: when the file offsets of the layout stay in
    the positive [i64] range (the sum over the chunks of the page size and
    of the size of the chunks that are not NOBITS is below 2^63) and
    [clear_padding] is called on the chunks as [set_osec_offsets] left them,
    with the file size it returned, the data of every chunk ends at or
    before the offset of the next chunk and the data of the last chunk at or
    before [filesize], so that every [memset] has a non-negative length and
    lies within [0, filesize]. *)
Theorem clear_padding_in_bounds PAGE_SIZE page_bits image_base chunks :
  0 ≤ page_bits < 63 → PAGE_SIZE = 2 ^ page_bits →
  fileoff_fits PAGE_SIZE chunks →
  padding_safe PAGE_SIZE image_base chunks.
Proof.
  intros Hbits HP (Hall & Hfit). unfold padding_safe, set_osec_offsets.
  set (st := mkLayout 0 (to_i64 image_base)).
  destruct (osec_loop_gaps PAGE_SIZE page_bits Hbits HP st chunks)
    as (Hge & Hle & _ & Hgaps); [simpl; lia|done|simpl; lia|].
  pose proof (osec_loop_fields PAGE_SIZE st chunks Hall) as Hfields.
  pose proof (osec_loop_length PAGE_SIZE st chunks) as Hlen.
  destruct (osec_loop PAGE_SIZE st chunks) as [out st'] eqn:Hloop.
  cbn [fst snd] in *. split; [done|].
  destruct (gaps_memset out (fileoff st') Hfields) as (Hz & Hlast & _);
    [simpl in Hle; lia|done|].
  unfold clear_padding. destruct (last out) as [b|] eqn:Hb.
  - apply Forall_app. split; [done|]. constructor; [by apply Hlast|constructor].
  - apply last_None in Hb. subst out. by destruct chunks.
Qed.

Lemma clear_padding_in_bounds_witness :
  0 ≤ 12 < 63 ∧ 4096 = 2 ^ 12 ∧ fileoff_fits 4096 chunks_two_pages ∧
  padding_safe 4096 2097152 chunks_two_pages.
Proof.
  assert (H1 : 0 ≤ 12 < 63) by lia.
  assert (H2 : 4096 = 2 ^ 12) by reflexivity.
  assert (H3 : fileoff_fits 4096 chunks_two_pages).
  { split; [|reflexivity]. repeat constructor; unfold is_u64; simpl; lia. }
  exact (conj H1 (conj H2 (conj H3
    (clear_padding_in_bounds 4096 12 2097152 chunks_two_pages H1 H2 H3)))).
Defined.

(** C10 as stated, for every chunk list, fails when the file offset leaves
    the [i64] range: nothing in the pass checks the counter [fileoff].  A
    single section of 2^63 bytes ends at 2^63 in the file while the file
    size returned is [-2^63]; and after a section of [2^64 - 100] bytes a
    page-aligned section is placed at offset 0 again, so that
    [clear_padding] clears 100 bytes before the start of the buffer. *)
Lemma clear_padding_in_bounds_counterexample :
  ¬ padding_safe 4096 2097152 chunks_huge ∧
  (set_osec_offsets 4096 2097152 chunks_past_end).2 = 200 ∧
  clear_padding (set_osec_offsets 4096 2097152 chunks_past_end).1 200
    = Some [mkMemset (- 100) 100; mkMemset 200 0] ∧
  ¬ padding_safe 4096 2097152 chunks_past_end.
Proof.
  split; [|split; [reflexivity|split; [reflexivity|]]].
  - intros [Hgap _]. vm_compute in Hgap. by apply Hgap.
  - intros [_ Hcalls]. apply Forall_cons in Hcalls as [[Hpos _] _].
    vm_compute in Hpos. by apply Hpos.
Qed.

(** The same at the level of the values: with a single section of 2^63 bytes
    [set_osec_offsets] returns [-2^63], where the [memset] of
    [clear_padding] then starts. *)
Example clear_padding_wraps :
  (set_osec_offsets 4096 2097152 chunks_huge).2 = - 2 ^ 63 ∧
  clear_padding (set_osec_offsets 4096 2097152 chunks_huge).1 (- 2 ^ 63)
    = Some [mkMemset (- 2 ^ 63) 0] ∧
  ¬ fileoff_fits 4096 chunks_huge.
Proof.
  split; [reflexivity|]. split; [reflexivity|].
  intros [_ Hfit]. vm_compute in Hfit. discriminate Hfit.
Qed.


(** ** [split] *)

Section SplitFacts.

Context {T : Type}.
Implicit Types (span : list T) (vec : list (list T)).

(** Whatever the unit, a run that ends returns slices that concatenate to
    the span. *)
Lemma split_loop_concat fuel span unit vec res :
  split_loop fuel span unit vec = Some res →
  ∃ tl, res = vec ++ tl ∧ concat tl = span.
Proof.
  revert span vec. induction fuel as [|fuel IH]; intros span vec; [done|].
  cbn [split_loop]. destruct (size_ge span unit).
  - intros (tl & -> & Htl)%IH. exists (take (Z.to_nat unit) span :: tl).
    split; [by rewrite <- app_assoc|].
    simpl. rewrite Htl. apply take_drop.
  - intros [= <-]. destruct span as [|x span].
    + exists []. by rewrite app_nil_r.
    + exists [x :: span]. split; [done|]. simpl. by rewrite app_nil_r.
Qed.

Lemma split_concat (input : list T) unit slices :
  split input unit = Some slices → concat slices = input.
Proof.
  unfold split. destruct input as [|x input]; [done|].
  intros (tl & -> & Htl)%split_loop_concat. done.
Qed.

(** With a unit of at least one the loop ends within the fuel, and the
    slices have the promised lengths. *)
Lemma split_loop_slices fuel span unit vec :
  1 ≤ unit < 2 ^ 63 → (length span < fuel)%nat →
  ∃ tl, split_loop fuel span unit vec = Some (vec ++ tl) ∧
        concat tl = span ∧
        Forall (λ s, s ≠ [] ∧ Z.of_nat (length s) ≤ unit) tl ∧
        (∀ (i : nat) s, tl !! i = Some s → (S i < length tl)%nat →
                        Z.of_nat (length s) = unit).
Proof.
  intros Hunit. revert span vec.
  induction fuel as [|fuel IH]; intros span vec Hlen; [lia|].
  cbn [split_loop]. unfold size_ge.
  rewrite to_u64_small by (unfold is_u64; lia).
  destruct (unit <=? Z.of_nat (length span)) eqn:Hge.
  - apply Z.leb_le in Hge.
    set (n := Z.to_nat unit).
    assert (length (take n span) = n) as Htake
      by (rewrite length_take; lia).
    destruct (IH (drop n span) (vec ++ [take n span])) as (tl & -> & Hc & Hf & Hi).
    { rewrite length_drop. lia. }
    exists (take n span :: tl). split; [by rewrite <- app_assoc|].
    split; [simpl; rewrite Hc; apply take_drop|]. split.
    + constructor; [|done]. split; [|lia].
      intros Hnil. rewrite Hnil in Htake. simpl in Htake. lia.
    + intros [|i] s Hs Hlt; simpl in Hs.
      * inversion Hs; subst s. lia.
      * apply (Hi i s Hs). simpl in Hlt. lia.
  - apply Z.leb_gt in Hge. destruct span as [|x span].
    + exists []. rewrite app_nil_r. split; [done|]. split; [done|].
      split; [constructor|]. intros i s Hs. done.
    + exists [x :: span]. split; [done|].
      split; [simpl; by rewrite app_nil_r|]. split.
      * constructor; [|constructor]. split; [done|lia].
      * intros [|i] s Hs Hlt; simpl in Hlt; lia.
Qed.

(** On a non-empty vector and with a unit of at least one, [split]
    returns. *)
Lemma split_some (input : list T) unit :
  input ≠ [] → 1 ≤ unit < 2 ^ 63 →
  ∃ slices, split input unit = Some slices ∧ concat slices = input.
Proof.
  intros Hne Hunit. unfold split. destruct input as [|x input]; [done|].
  destruct (split_loop_slices (S (length (x :: input))) (x :: input) unit []
              Hunit) as (tl & Heq & Hc & _); [lia|].
  by exists tl.
Qed.

End SplitFacts.

(** C9: for every non-empty vector [v] and every [i64] [unit >= 1],
    [split(v, unit)] returns a list of non-empty slices whose in-order
    concatenation is [v]; every slice except possibly the last has length
    exactly [unit], and the last has length at most [unit]. *)
Theorem split_slices {T : Type} (v : list T) (unit : Z) :
  v ≠ [] → 1 ≤ unit < 2 ^ 63 →
  ∃ slices, split v unit = Some slices ∧ slices_of v unit slices.
Proof.
  intros Hne Hunit. unfold split. destruct v as [|x v]; [done|].
  destruct (split_loop_slices (S (length (x :: v))) (x :: v) unit [] Hunit)
    as (tl & Heq & Hc & Hf & Hi); [lia|].
  exists tl. split; [exact Heq|]. split; [done|]. split; [|split; [done|]].
  - eapply Forall_impl; [exact Hf|]. by intros s [? _].
  - intros s Hs. apply last_Some_elem_of in Hs.
    rewrite Forall_forall in Hf. by apply Hf.
Qed.

Lemma split_slices_witness :
  [1; 2; 3; 4; 5; 6; 7]%nat ≠ [] ∧ 1 ≤ 3 < 2 ^ 63 ∧
  ∃ slices, split [1; 2; 3; 4; 5; 6; 7]%nat 3 = Some slices ∧
            slices_of [1; 2; 3; 4; 5; 6; 7]%nat 3 slices.
Proof.
  assert (H1 : [1; 2; 3; 4; 5; 6; 7]%nat ≠ []) by discriminate.
  assert (H2 : 1 ≤ 3 < 2 ^ 63) by lia.
  exact (conj H1 (conj H2 (split_slices [1; 2; 3; 4; 5; 6; 7]%nat 3 H1 H2))).
Defined.


(** ** [bin_sections] *)

(** What one file appends to the members of output section [j]. *)
Lemma append_seq_app j ms secs :
  foldl (append_seq j) ms secs = ms ++ foldl (append_seq j) [] secs.
Proof.
  revert ms. induction secs as [|isec secs IH]; intros ms; simpl.
  - by rewrite app_nil_r.
  - rewrite (IH (append_seq j ms isec)), (IH (append_seq j [] isec)).
    rewrite app_assoc. f_equal.
    destruct isec as [i|]; simpl; [|by rewrite app_nil_r].
    destruct (decide (output_section i = j)); [done|by rewrite app_nil_r].
Qed.

Lemma append_files_app j ms (files : list ObjectFile) :
  foldl (λ ms file, foldl (append_seq j) ms (sections file)) ms files =
  ms ++ foldl (λ ms file, foldl (append_seq j) ms (sections file)) [] files.
Proof.
  revert ms. induction files as [|file files IH]; intros ms; simpl.
  - by rewrite app_nil_r.
  - rewrite IH. rewrite (IH (foldl _ [] _)).
    rewrite (append_seq_app j ms). by rewrite app_assoc.
Qed.

Lemma append_files_concat j (slices : list (list ObjectFile)) :
  foldl (λ ms file, foldl (append_seq j) ms (sections file)) [] (concat slices)
  = concat ((λ slice,
       foldl (λ ms file, foldl (append_seq j) ms (sections file)) [] slice)
     <$> slices).
Proof.
  induction slices as [|slice slices IH]; [done|].
  simpl. rewrite foldl_app, append_files_app. by rewrite IH.
Qed.

(** The local vectors of a slice hold, for each output section, what the
    sequential loop appends for the files of the slice. *)
Lemma push_isec_lookup group isec group' :
  push_isec group isec = Some group' →
  length group' = length group ∧
  ∀ (j : nat) l, group !! j = Some l → group' !! j = Some (append_seq j l isec).
Proof.
  unfold push_isec. destruct isec as [i|]; [|by intros [= <-]].
  destruct (decide _) as [Hlt|]; [|done]. intros [= <-].
  split; [by rewrite length_alter|]. intros j l Hj. simpl.
  destruct (decide (output_section i = j)) as [->|Hne].
  - rewrite list_lookup_alter_eq, Hj. done.
  - rewrite list_lookup_alter_ne by done. done.
Qed.

Lemma fold_push_lookup secs group group' :
  fold_opt push_isec group secs = Some group' →
  length group' = length group ∧
  ∀ (j : nat) l, group !! j = Some l →
                 group' !! j = Some (foldl (append_seq j) l secs).
Proof.
  revert group. induction secs as [|isec secs IH]; intros group; simpl.
  - by intros [= <-].
  - destruct (push_isec group isec) as [g1|] eqn:Hpush; [|done].
    apply push_isec_lookup in Hpush as [Hlen1 Hl1].
    intros [Hlen Hl]%IH. split; [congruence|].
    intros j l Hj. apply Hl, Hl1, Hj.
Qed.

Lemma fold_files_lookup (files : list ObjectFile) group group' :
  fold_opt (λ group file, fold_opt push_isec group (sections file))
           group files = Some group' →
  length group' = length group ∧
  ∀ (j : nat) l, group !! j = Some l →
    group' !! j =
    Some (foldl (λ ms file, foldl (append_seq j) ms (sections file)) l files).
Proof.
  revert group. induction files as [|file files IH]; intros group; simpl.
  - by intros [= <-].
  - destruct (fold_opt push_isec group (sections file)) as [g1|] eqn:Hf;
      [|done].
    apply fold_push_lookup in Hf as [Hlen1 Hl1].
    intros [Hlen Hl]%IH. split; [congruence|].
    intros j l Hj. apply Hl, Hl1, Hj.
Qed.

Lemma slice_group_lookup num_osec slice group (j : nat) :
  slice_group num_osec slice = Some group → (j < num_osec)%nat →
  group !! j =
  Some (foldl (λ ms file, foldl (append_seq j) ms (sections file)) [] slice).
Proof.
  unfold slice_group. intros [_ Hl]%fold_files_lookup Hj.
  apply Hl. by apply lookup_replicate_2.
Qed.

Lemma slice_groups_append num_osec slices groups (j : nat) ms :
  slice_groups num_osec slices = Some groups → (j < num_osec)%nat →
  foldl (λ m group, m ++ default [] (group !! j)) ms groups =
  foldl (λ ms file, foldl (append_seq j) ms (sections file)) ms
        (concat slices).
Proof.
  intros Hgs Hj. rewrite (append_files_app j ms), append_files_concat.
  revert groups ms Hgs. induction slices as [|slice slices IH];
    intros groups ms; simpl.
  - intros [= <-]. simpl. by rewrite app_nil_r.
  - destruct (slice_group num_osec slice) as [g|] eqn:Hg; [|done].
    destruct (slice_groups num_osec slices) as [gs|]; [|done].
    intros [= <-]. simpl. rewrite (IH gs) by done.
    rewrite (slice_group_lookup _ _ _ j Hg Hj). simpl.
    by rewrite app_assoc.
Qed.

(** X1: [bin_sections] reserves what it appends: the number of members
    that the second loop appends to output section [j] is [sizes[j]], the
    sum that the pass computes from the local vectors and passes to
    [reserve]. *)
Lemma reserved_size_exact groups (j : nat) osec :
  length (members (append_groups groups j osec)) =
  (length (members osec) + reserved_size groups j)%nat.
Proof.
  unfold append_groups, reserved_size. cbn [members].
  assert (∀ ms n,
    (length (foldl (λ m group, m ++ default [] (group !! j)) ms groups) + n
     = length ms
       + foldl (λ n group, (n + length (default [] (group !! j)))%nat)
               n groups)%nat) as Hgen.
  { induction groups as [|g groups IH]; intros ms n; simpl; [done|].
    specialize (IH (ms ++ default [] (g !! j))
                   (n + length (default [] (g !! j)))%nat).
    rewrite length_app in IH. lia. }
  specialize (Hgen (members osec) 0%nat). lia.
Qed.

(** The pushes succeed when every section points to an existing output
    section. *)
Lemma fold_push_some num_osec secs group :
  length group = num_osec →
  (∀ i, Some i ∈ secs → (output_section i < num_osec)%nat) →
  is_Some (fold_opt push_isec group secs).
Proof.
  revert group. induction secs as [|isec secs IH]; intros group Hlen Hv;
    simpl; [done|].
  assert (∃ g1, push_isec group isec = Some g1 ∧ length g1 = num_osec)
    as (g1 & -> & Hlen1).
  { destruct isec as [i|]; simpl; [|by exists group].
    rewrite decide_True by (rewrite Hlen; apply Hv; left).
    eexists. split; [done|]. by rewrite length_alter. }
  apply IH; [done|]. intros i Hi. apply Hv. by right.
Qed.

Lemma fold_files_some num_osec (files : list ObjectFile) group :
  length group = num_osec → sections_valid num_osec files →
  is_Some (fold_opt (λ group file, fold_opt push_isec group (sections file))
                    group files).
Proof.
  revert group. induction files as [|file files IH]; intros group Hlen Hv;
    simpl; [done|].
  destruct (fold_push_some num_osec (sections file) group Hlen) as [g1 Hg1].
  { intros i Hi. apply (Hv file i); [left|done]. }
  rewrite Hg1. apply fold_push_lookup in Hg1 as [Hlen1 _].
  apply IH; [congruence|]. intros f i Hf Hi. apply (Hv f i); [by right|done].
Qed.

Lemma slice_groups_some num_osec (slices : list (list ObjectFile)) :
  sections_valid num_osec (concat slices) →
  is_Some (slice_groups num_osec slices).
Proof.
  induction slices as [|slice slices IH]; intros Hv; simpl; [done|].
  destruct (fold_files_some num_osec slice (replicate num_osec []))
    as [g Hg]; [by rewrite length_replicate| |].
  { intros f i Hf Hi. apply (Hv f i); [|done].
    simpl. apply elem_of_app. by left. }
  unfold slice_group. rewrite Hg.
  destruct IH as [gs ->]; [|done].
  intros f i Hf Hi. apply (Hv f i); [|done].
  simpl. apply elem_of_app. by right.
Qed.

(** C3: whenever [bin_sections] returns, the member list of every output
    section is the one the sequential reference produces: the objects in
    vector order, the sections of each in index order, every non-null
    section appended to the output section it points to.  It returns when
    [ctx.objs] is not empty (the [assert] of [split]), holds fewer than 2^63
    files, as a vector does, and every section points to an existing output
    section. *)
Theorem bin_sections_sequential objs instances :
  (∀ out, bin_sections objs instances = Some out →
          out = bin_sections_seq objs instances) ∧
  (objs ≠ [] → Z.of_nat (length objs) < 2 ^ 63 →
   sections_valid (length instances) objs →
   is_Some (bin_sections objs instances)).
Proof.
  unfold bin_sections. set (unit := to_i64 _). split.
  - intros out. destruct (split objs unit) as [slices|] eqn:Hsplit; [|done].
    apply split_concat in Hsplit.
    destruct (slice_groups (length instances) slices) as [groups|] eqn:Hgs;
      [|done].
    intros [= <-]. unfold bin_sections_seq. apply imap_ext.
    intros j osec Hj. apply lookup_lt_Some in Hj. unfold append_groups.
    f_equal. rewrite <- Hsplit. by eapply slice_groups_append.
  - intros Hne Hlen Hv.
    assert (1 ≤ unit < 2 ^ 63) as Hunit.
    { subst unit. destruct objs as [|o objs]; [done|].
      rewrite to_u64_small by (unfold is_u64; lia).
      rewrite to_i64_small; unfold is_i64;
        pose proof (Z.div_mod (Z.of_nat (length (o :: objs)) + 127) 128);
        pose proof (Z.mod_pos_bound (Z.of_nat (length (o :: objs)) + 127) 128);
        simpl length in *; lia. }
    destruct (split_some objs unit Hne Hunit) as (slices & -> & Hc).
    rewrite <- Hc in Hv.
    destruct (slice_groups_some _ _ Hv) as [groups ->]. done.
Qed.

Lemma bin_sections_sequential_witness :
  bin_sections objs_three instances_two
    = Some (bin_sections_seq objs_three instances_two) ∧
  is_Some (bin_sections objs_three instances_two).
Proof.
  pose proof (bin_sections_sequential objs_three instances_two)
    as [Hseq Hsome].
  assert (H1 : objs_three ≠ []) by discriminate.
  assert (H2 : Z.of_nat (length objs_three) < 2 ^ 63) by (simpl; lia).
  assert (H3 : sections_valid 2 objs_three).
  { intros file i Hf Hi. unfold objs_three in Hf.
    repeat (apply elem_of_cons in Hf as [->|Hf]);
      [..|by apply elem_of_nil in Hf]; simpl in Hi;
      repeat (apply elem_of_cons in Hi as [Hi|Hi]; [inversion Hi; simpl; lia|]);
      by apply elem_of_nil in Hi. }
  split; [|exact (Hsome H1 H2 H3)].
  destruct (Hsome H1 H2 H3) as [out Hout]. rewrite Hout. f_equal.
  by apply Hseq.
Defined.


(** ** [set_file_priority] *)

Lemma count_lib_cons lib file objs :
  count_lib lib (file :: objs) =
  ((if bool_decide (is_in_lib file = lib) then 1 else 0) + count_lib lib objs)%nat.
Proof.
  unfold count_lib. rewrite fmap_cons, filter_cons.
  destruct (decide (is_in_lib file = lib)) as [H|H].
  - by rewrite bool_decide_true.
  - by rewrite bool_decide_false.
Qed.

Lemma count_lib_total objs :
  (count_lib false objs + count_lib true objs)%nat = length objs.
Proof.
  induction objs as [|f objs IH]; [done|].
  rewrite !count_lib_cons. simpl. destruct (is_in_lib f); simpl; lia.
Qed.

Lemma count_lib_take_le lib (i : nat) objs :
  (count_lib lib (take i objs) ≤ count_lib lib objs)%nat.
Proof.
  revert i. induction objs as [|f objs IH]; intros [|i]; simpl; try done.
  - unfold count_lib at 1. simpl. lia.
  - rewrite !count_lib_cons. specialize (IH i). lia.
Qed.

(** A file of the class counts itself among the files up to and including
    its position. *)
Lemma count_lib_take_lt lib (i j : nat) objs f :
  objs !! i = Some f → is_in_lib f = lib → (i < j)%nat →
  (count_lib lib (take i objs) < count_lib lib (take j objs))%nat.
Proof.
  revert i j. induction objs as [|g objs IH]; intros [|i] [|j] Hi Hf Hij;
    simpl in *; try done; try lia.
  - inversion Hi; subst g. rewrite count_lib_cons.
    rewrite bool_decide_true by done. unfold count_lib at 1. simpl. lia.
  - rewrite !count_lib_cons. specialize (IH i j Hi Hf). lia.
Qed.

Lemma count_lib_take_lt_all lib (i : nat) objs f :
  objs !! i = Some f → is_in_lib f = lib →
  (count_lib lib (take i objs) < count_lib lib objs)%nat.
Proof.
  intros Hi Hf.
  pose proof (count_lib_take_lt lib i (length objs) objs f Hi Hf) as H.
  rewrite firstn_all in H. apply H. by eapply lookup_lt_Some.
Qed.

Lemma assign_objs_cons lib p file rest :
  assign_objs lib p (file :: rest) =
  if bool_decide (is_in_lib file = lib)
  then (set_priority file p :: (assign_objs lib (p + 1) rest).1,
        (assign_objs lib (p + 1) rest).2)
  else (file :: (assign_objs lib p rest).1, (assign_objs lib p rest).2).
Proof.
  cbn [assign_objs]. destruct (bool_decide _).
  - by destruct (assign_objs lib (p + 1) rest).
  - by destruct (assign_objs lib p rest).
Qed.

Lemma assign_objs_counter lib p objs :
  (assign_objs lib p objs).2 = p + Z.of_nat (count_lib lib objs).
Proof.
  revert p. induction objs as [|f objs IH]; intros p.
  - unfold count_lib. simpl. lia.
  - rewrite assign_objs_cons, count_lib_cons.
    destruct (bool_decide _); cbn [snd]; rewrite IH; lia.
Qed.

Lemma assign_objs_lookup lib p objs (i : nat) f :
  objs !! i = Some f →
  (assign_objs lib p objs).1 !! i =
  Some (if bool_decide (is_in_lib f = lib)
        then set_priority f (p + Z.of_nat (count_lib lib (take i objs)))
        else f).
Proof.
  revert p i. induction objs as [|g objs IH]; intros p [|i] Hi;
    simpl in Hi; try done.
  - inversion Hi; subst g. rewrite assign_objs_cons.
    destruct (bool_decide _); cbn [fst]; simpl; [|done].
    unfold count_lib. simpl. do 2 f_equal. lia.
  - rewrite assign_objs_cons. cbn [take]. rewrite count_lib_cons.
    destruct (bool_decide (is_in_lib g = lib)); cbn [fst]; simpl;
      rewrite (IH _ _ Hi); destruct (bool_decide _); try done.
    do 2 f_equal. lia.
Qed.

Lemma assign_objs_length lib p objs :
  length (assign_objs lib p objs).1 = length objs.
Proof.
  revert p. induction objs as [|g objs IH]; intros p; [done|].
  rewrite assign_objs_cons. destruct (bool_decide _); cbn [fst length];
    by rewrite IH.
Qed.

Lemma assign_objs_is_in_lib lib p objs :
  is_in_lib <$> (assign_objs lib p objs).1 = is_in_lib <$> objs.
Proof.
  revert p. induction objs as [|g objs IH]; intros p; [done|].
  rewrite assign_objs_cons. destruct (bool_decide _); cbn [fst];
    rewrite !fmap_cons, IH; done.
Qed.

Lemma count_lib_assign lib lib' p (i : nat) objs :
  count_lib lib' (take i (assign_objs lib p objs).1) =
  count_lib lib' (take i objs).
Proof.
  unfold count_lib. by rewrite !fmap_take, assign_objs_is_in_lib.
Qed.

Lemma assign_dsos_cons p file rest :
  assign_dsos p (file :: rest) =
  (set_dso_priority file p :: (assign_dsos (p + 1) rest).1,
   (assign_dsos (p + 1) rest).2).
Proof. cbn [assign_dsos]. by destruct (assign_dsos (p + 1) rest). Qed.

Lemma assign_dsos_lookup p dsos (i : nat) d :
  dsos !! i = Some d →
  (assign_dsos p dsos).1 !! i = Some (set_dso_priority d (p + Z.of_nat i)).
Proof.
  revert p i. induction dsos as [|g dsos IH]; intros p [|i] Hi;
    simpl in Hi; try done; rewrite assign_dsos_cons; cbn [fst]; simpl.
  - inversion Hi; subst g. do 2 f_equal. lia.
  - rewrite (IH _ _ Hi). do 2 f_equal. lia.
Qed.

Lemma assign_dsos_length p dsos :
  length (assign_dsos p dsos).1 = length dsos.
Proof.
  revert p. induction dsos as [|g dsos IH]; intros p; [done|].
  rewrite assign_dsos_cons. cbn [fst length]. by rewrite IH.
Qed.

(** The priority of every file after the pass, in closed form. *)
Lemma set_file_priority_lookup objs dsos :
  let '(objs', dsos') := set_file_priority objs dsos in
  length objs' = length objs ∧ length dsos' = length dsos ∧
  (∀ (i : nat) f, objs !! i = Some f →
     objs' !! i = Some (set_priority f
       (if is_in_lib f
        then 2 + Z.of_nat (count_lib false objs)
               + Z.of_nat (count_lib true (take i objs))
        else 2 + Z.of_nat (count_lib false (take i objs))))) ∧
  (∀ (i : nat) d, dsos !! i = Some d →
     dsos' !! i =
     Some (set_dso_priority d (2 + Z.of_nat (length objs) + Z.of_nat i))).
Proof.
  unfold set_file_priority.
  pose proof (assign_objs_counter false 2 objs) as Hp1.
  pose proof (assign_objs_length false 2 objs) as Hl1.
  pose proof (assign_objs_lookup false 2 objs) as Hk1.
  pose proof (λ lib' i, count_lib_assign false lib' 2 i objs) as Hc1.
  destruct (assign_objs false 2 objs) as [objs1 p1]. cbn [fst snd] in *.
  pose proof (assign_objs_counter true p1 objs1) as Hp2.
  pose proof (assign_objs_length true p1 objs1) as Hl2.
  pose proof (assign_objs_lookup true p1 objs1) as Hk2.
  destruct (assign_objs true p1 objs1) as [objs2 p2]. cbn [fst snd] in *.
  pose proof (assign_dsos_length p2 dsos) as Hl3.
  pose proof (assign_dsos_lookup p2 dsos) as Hk3.
  destruct (assign_dsos p2 dsos) as [dsos' p3]. cbn [fst] in *.
  assert (count_lib true objs1 = count_lib true objs) as Hct.
  { pose proof (Hc1 true (length objs)) as H.
    rewrite firstn_all in H. rewrite <- Hl1 in H.
    by rewrite firstn_all in H. }
  split; [congruence|]. split; [done|]. split.
  - intros i f Hi. specialize (Hk1 i f Hi).
    destruct (is_in_lib f) eqn:Hlib.
    + rewrite bool_decide_false in Hk1 by done.
      rewrite (Hk2 i f Hk1), Hc1, Hlib.
      rewrite bool_decide_true by done. by rewrite Hp1.
    + rewrite bool_decide_true in Hk1 by done.
      rewrite (Hk2 i _ Hk1). simpl (is_in_lib (set_priority _ _)).
      rewrite Hlib, bool_decide_false by done. done.
  - intros i d Hi. rewrite (Hk3 i d Hi). do 2 f_equal.
    pose proof (count_lib_total objs). lia.
Qed.


(** The pass keeps the files and their order and writes [priority] only. *)
Lemma set_file_priority_frame objs dsos :
  Forall2 (λ f f', f' = set_priority f (priority f'))
          objs (set_file_priority objs dsos).1 ∧
  Forall2 (λ d d', d' = set_dso_priority d (dso_priority d'))
          dsos (set_file_priority objs dsos).2.
Proof.
  pose proof (set_file_priority_lookup objs dsos) as H.
  destruct (set_file_priority objs dsos) as [objs' dsos']. cbn [fst snd].
  destruct H as (Hlo & Hld & Hko & Hkd). split.
  - apply Forall2_same_length_lookup. split; [done|].
    intros i f f' Hf Hf'. rewrite (Hko i f Hf) in Hf'. by inversion Hf'.
  - apply Forall2_same_length_lookup. split; [done|].
    intros i d d' Hd Hd'. rewrite (Hkd i d Hd) in Hd'. by inversion Hd'.
Qed.

(** C5: [set_file_priority] gives every file of [ctx.objs] and [ctx.dsos] a
    priority and changes nothing else: the files after the pass are the
    files before it, in the same order, with [priority] set.  The priorities
    are pairwise distinct and are exactly the integers from 2 on (1 is left
    to the internal file); every object that is not an archive member comes
    before every archive member, every object before every shared library,
    and within each of the three classes the priorities increase strictly in
    input order. *)
Theorem set_file_priority_ordered objs dsos :
  let objs' := (set_file_priority objs dsos).1 in
  let dsos' := (set_file_priority objs dsos).2 in
  Forall2 (λ f f', f' = set_priority f (priority f')) objs objs' ∧
  Forall2 (λ d d', d' = set_dso_priority d (dso_priority d')) dsos dsos' ∧
  priorities_ordered objs' dsos'.
Proof.
  cbv zeta. destruct (set_file_priority_frame objs dsos) as [Hfo Hfd].
  split; [exact Hfo|]. split; [exact Hfd|]. clear Hfo Hfd.
  pose proof (set_file_priority_lookup objs dsos) as H.
  destruct (set_file_priority objs dsos) as [objs' dsos']. cbn [fst snd].
  destruct H as (Hlo & Hld & Hko & Hkd).
  pose proof (count_lib_total objs) as Htot.
  set (nf := count_lib false objs) in *. set (nt := count_lib true objs) in *.
  (* every object of the result, from the file it was *)
  assert (∀ (i : nat) a, objs' !! i = Some a →
    ∃ f, objs !! i = Some f ∧ is_in_lib a = is_in_lib f ∧
         priority a =
         if is_in_lib f
         then 2 + Z.of_nat nf + Z.of_nat (count_lib true (take i objs))
         else 2 + Z.of_nat (count_lib false (take i objs))) as Hobj.
  { intros i a Ha.
    destruct (lookup_lt_is_Some_2 objs i) as [f Hf].
    { rewrite <- Hlo. by eapply lookup_lt_Some. }
    rewrite (Hko i f Hf) in Ha. inversion Ha; subst a. by exists f. }
  assert (∀ (i : nat) d, dsos' !! i = Some d →
    dso_priority d = 2 + Z.of_nat (length objs) + Z.of_nat i) as Hdso.
  { intros i d Hd.
    destruct (lookup_lt_is_Some_2 dsos i) as [f Hf].
    { rewrite <- Hld. by eapply lookup_lt_Some. }
    rewrite (Hkd i f Hf) in Hd. by inversion Hd. }
  (* the bounds of each class *)
  assert (∀ (i : nat) a, objs' !! i = Some a →
    if is_in_lib a
    then 2 + Z.of_nat nf ≤ priority a < 2 + Z.of_nat (length objs)
    else 2 ≤ priority a < 2 + Z.of_nat nf) as Hbound.
  { intros i a (f & Hf & -> & ->)%Hobj.
    destruct (is_in_lib f) eqn:Hlib.
    - pose proof (count_lib_take_lt_all true i objs f Hf Hlib). lia.
    - pose proof (count_lib_take_lt_all false i objs f Hf Hlib). lia. }
  assert (∀ (i j : nat) a b, (i < j)%nat → objs' !! i = Some a →
    objs' !! j = Some b → is_in_lib a = is_in_lib b →
    priority a < priority b) as Horder.
  { intros i j a b Hij (f & Hf & Hla & ->)%Hobj (g & Hg & Hlb & ->)%Hobj Hsame.
    rewrite Hla, Hlb in Hsame. rewrite <- Hsame.
    destruct (is_in_lib f) eqn:Hlib.
    - pose proof (count_lib_take_lt true i j objs f Hf Hlib Hij). lia.
    - pose proof (count_lib_take_lt false i j objs f Hf Hlib Hij). lia. }
  assert (∀ a b, a ∈ objs' → b ∈ objs' → is_in_lib a = false →
    is_in_lib b = true → priority a < priority b) as Hclass.
  { intros a b [i Ha]%list_elem_of_lookup [j Hb]%list_elem_of_lookup Hla Hlb.
    pose proof (Hbound i a Ha) as Hba. pose proof (Hbound j b Hb) as Hbb.
    rewrite Hla in Hba. rewrite Hlb in Hbb. lia. }
  assert (∀ a, a ∈ objs' → 2 ≤ priority a < 2 + Z.of_nat (length objs))
    as Hrange.
  { intros a [i Ha]%list_elem_of_lookup. pose proof (Hbound i a Ha) as Hb.
    destruct (is_in_lib a); lia. }
  unfold priorities_ordered.
  split; [|split; [exact Hclass|split; [|split; [exact Horder|]]]].
  - apply submseteq_length_Permutation.
    2: { rewrite length_seqZ, length_app, !length_fmap. lia. }
    apply NoDup_submseteq.
    + apply NoDup_app. split; [|split].
      * apply NoDup_alt. intros i j x Hi Hj.
        rewrite list_lookup_fmap in Hi, Hj.
        destruct (objs' !! i) as [a|] eqn:Ha; [|done].
        destruct (objs' !! j) as [b|] eqn:Hb; [|done].
        simpl in Hi, Hj. inversion Hi as [Hpa]. inversion Hj as [Hpb].
        destruct (decide (is_in_lib a = is_in_lib b)) as [Hs|Hs].
        -- destruct (lt_eq_lt_dec i j) as [[Hlt| ->]|Hlt]; [|done|].
           ++ pose proof (Horder i j a b Hlt Ha Hb Hs). lia.
           ++ pose proof (Horder j i b a Hlt Hb Ha (eq_sym Hs)). lia.
        -- pose proof (Hbound i a Ha) as Hba.
           pose proof (Hbound j b Hb) as Hbb.
           destruct (is_in_lib a), (is_in_lib b); try done; lia.
      * intros x (a & -> & Ha)%list_elem_of_fmap
                 (d & Hx & [j Hd]%list_elem_of_lookup)%list_elem_of_fmap.
        pose proof (Hrange a Ha). pose proof (Hdso j d Hd). lia.
      * apply NoDup_alt. intros i j x Hi Hj.
        rewrite list_lookup_fmap in Hi, Hj.
        destruct (dsos' !! i) as [c|] eqn:Hc; [|done].
        destruct (dsos' !! j) as [d|] eqn:Hd; [|done].
        simpl in Hi, Hj. inversion Hi as [Hpc]. inversion Hj as [Hpd].
        pose proof (Hdso i c Hc). pose proof (Hdso j d Hd). lia.
    + intros x [Hx|Hx]%elem_of_app; apply elem_of_seqZ.
      * apply list_elem_of_fmap in Hx as (a & -> & Ha).
        pose proof (Hrange a Ha). lia.
      * apply list_elem_of_fmap in Hx as (d & -> & [j Hd]%list_elem_of_lookup).
        pose proof (Hdso j d Hd). apply lookup_lt_Some in Hd. lia.
  - intros a d Ha [j Hd]%list_elem_of_lookup.
    pose proof (Hrange a Ha). pose proof (Hdso j d Hd). lia.
  - intros i j c d Hij Hc Hd.
    pose proof (Hdso i c Hc). pose proof (Hdso j d Hd). lia.
Qed.


(** ** [check_duplicate_symbols] *)

Lemma filter_none {B : Type} (P : B → Prop) `{∀ e, Decision (P e)}
    (l : list B) :
  (∀ e, e ∈ l → ¬ P e) → filter P l = [].
Proof.
  induction l as [|e l IH]; intros Hl; [done|].
  rewrite filter_cons_False by (apply Hl; left).
  apply IH. intros e' He'. apply Hl. by right.
Qed.

Lemma filter_all {B : Type} (P : B → Prop) `{∀ e, Decision (P e)}
    (l : list B) :
  (∀ e, e ∈ l → P e) → filter P l = l.
Proof.
  induction l as [|e l IH]; intros Hl; [done|].
  rewrite filter_cons_True by (apply Hl; left).
  f_equal. apply IH. intros e' He'. apply Hl. by right.
Qed.

(** When only one element of a list can contribute, filtering a bind is
    filtering that contribution. *)
Lemma filter_bind_unique {A B : Type} (P : B → Prop) `{∀ e, Decision (P e)}
    (g : A → list B) (l : list A) (x : A) :
  NoDup l → x ∈ l →
  (∀ y e, y ∈ l → y ≠ x → e ∈ g y → ¬ P e) →
  filter P (l ≫= g) = filter P (g x).
Proof.
  intros Hnd. induction Hnd as [|y l Hy Hnd IH]; intros Hx Hother.
  { by apply elem_of_nil in Hx. }
  rewrite bind_cons, filter_app.
  apply elem_of_cons in Hx as [->|Hx].
  - rewrite (filter_none P (l ≫= g)); [by rewrite app_nil_r|].
    intros e (z & He & Hz)%list_elem_of_bind.
    apply (Hother z e); [by right| |done]. intros ->. done.
  - rewrite (filter_none P (g y)).
    + simpl. apply IH; [done|]. intros z e Hz. apply Hother. by right.
    + intros e He. apply (Hother y e); [by left| |done]. intros ->. done.
Qed.

Lemma NoDup_fmap_inj {A B : Type} (f : A → B) (l : list A) x y :
  NoDup (f <$> l) → x ∈ l → y ∈ l → f x = f y → x = y.
Proof.
  intros Hnd [i Hi]%list_elem_of_lookup [j Hj]%list_elem_of_lookup Hf.
  assert (i = j) as ->; [|congruence].
  apply (proj1 (NoDup_alt _) Hnd i j (f x)); rewrite list_lookup_fmap.
  - by rewrite Hi.
  - rewrite Hj. simpl. by rewrite Hf.
Qed.

(** The errors of a loop whose iterations all have an outcome. *)
Lemma mapM_concat_bind {A B : Type} (f : A → option (list B)) l ys :
  mapM f l = Some ys → concat ys = l ≫= (λ x, default [] (f x)).
Proof.
  rewrite mapM_Some. induction 1 as [|x y l ys Hx _ IH]; [done|].
  rewrite bind_cons. simpl. by rewrite Hx, IH.
Qed.

Lemma length_filter_bind {A B : Type} (P : B → Prop) `{∀ e, Decision (P e)}
    (Q : A → Prop) `{∀ x, Decision (Q x)} (g : A → list B) (l : list A) :
  (∀ x, x ∈ l →
        length (filter P (g x)) = if decide (Q x) then 1%nat else 0%nat) →
  length (filter P (l ≫= g)) = length (filter Q l).
Proof.
  induction l as [|x l IH]; intros Hl; [done|].
  rewrite bind_cons, filter_app, length_app, filter_cons.
  rewrite (Hl x) by left. rewrite IH by (intros y Hy; apply Hl; by right).
  by destruct (decide (Q x)).
Qed.

Lemma global_indices_lookup this (i : nat) :
  i ∈ global_indices this → is_Some (elf_syms this !! i).
Proof.
  unfold global_indices. intros Hi%elem_of_seq.
  apply lookup_lt_is_Some. lia.
Qed.

Lemma is_duplicate_true this esym sym :
  is_duplicate this esym sym = true ↔
  file sym ≠ Some (file_addr this) ∧ is_defined esym = true ∧
  is_common esym = false ∧ is_weak esym = false ∧
  is_eliminated this esym = false.
Proof.
  unfold is_duplicate.
  rewrite !andb_true_iff, !negb_true_iff, bool_decide_eq_false. tauto.
Qed.

Lemma check_dup_at_cases syms this i esym a sym :
  elf_syms this !! i = Some esym → symbols this !! i = Some a →
  syms !! a = Some sym →
  check_dup_at syms this i =
  if is_duplicate this esym sym
  then owner ← file sym; Some [mkDup (file_addr this) owner a]
  else Some [].
Proof.
  intros Hesym Ha Hsym. unfold check_dup_at.
  rewrite Hesym. simpl. rewrite Ha. simpl. by rewrite Hsym.
Qed.

Lemma check_dup_at_elem syms this i e :
  e ∈ default [] (check_dup_at syms this i) →
  dup_file e = file_addr this ∧ symbols this !! i = Some (dup_sym e).
Proof.
  unfold check_dup_at.
  destruct (elf_syms this !! i) as [esym|]; simpl; [|by intros ?%elem_of_nil].
  destruct (symbols this !! i) as [a|]; simpl; [|by intros ?%elem_of_nil].
  destruct (syms !! a) as [sym|]; simpl; [|by intros ?%elem_of_nil].
  destruct (is_duplicate this esym sym); [|by intros ?%elem_of_nil].
  destruct (file sym) as [owner|]; simpl; [|by intros ?%elem_of_nil].
  intros ->%list_elem_of_singleton. done.
Qed.

(** The pass has an outcome on well-formed input. *)
Lemma check_duplicate_symbols_run syms objs :
  dup_inputs_ok syms objs → is_Some (check_duplicate_symbols syms objs).
Proof.
  intros Hok. unfold check_duplicate_symbols.
  apply fmap_is_Some, mapM_is_Some, Forall_forall. intros this Hthis.
  unfold compose, check_dup_file.
  apply fmap_is_Some, mapM_is_Some, Forall_forall. intros i Hi.
  destruct (global_indices_lookup this i Hi) as [esym Hesym].
  destruct (Hok this i esym Hthis Hi Hesym) as (a & sym & Ha & Hsym & Hown).
  unfold compose. rewrite (check_dup_at_cases syms this i esym a sym) by done.
  destruct (is_duplicate this esym sym) eqn:Hd; [|done].
  apply is_duplicate_true in Hd as (_ & Hdef & Hc & Hw & He).
  by destruct (Hown Hdef Hc Hw He) as [owner ->].
Qed.

(** Its errors are those of the iterations, file by file and slot by
    slot. *)
Lemma check_duplicate_symbols_bind syms objs errs :
  check_duplicate_symbols syms objs = Some errs →
  errs = objs ≫= (λ this, global_indices this ≫=
                    (λ i, default [] (check_dup_at syms this i))).
Proof.
  unfold check_duplicate_symbols. intros (ys & Hys & ->)%fmap_Some.
  apply mapM_Some in Hys.
  induction Hys as [|this y objs ys Hy _ IH]; [done|].
  rewrite bind_cons. simpl. rewrite IH. f_equal.
  unfold check_dup_file in Hy. apply fmap_Some in Hy as (zs & Hzs & ->).
  by apply mapM_concat_bind.
Qed.

(** What a file reports about a symbol it holds in one global slot. *)
Lemma check_duplicate_symbols_slot syms objs errs this (i : nat) a :
  check_duplicate_symbols syms objs = Some errs →
  NoDup (file_addr <$> objs) → this ∈ objs →
  i ∈ global_indices this → symbols this !! i = Some a →
  (∀ i', i' ∈ global_indices this → symbols this !! i' = Some a → i' = i) →
  errors_of (file_addr this) a errs = default [] (check_dup_at syms this i).
Proof.
  intros ->%check_duplicate_symbols_bind Hnd Hthis Hi Ha Huniq.
  unfold errors_of.
  rewrite (filter_bind_unique _ _ objs this);
    [|by eapply NoDup_fmap_1|done|].
  2: { intros y e Hy Hne (j & He & _)%list_elem_of_bind [Hf _].
       apply check_dup_at_elem in He as [Hfile _].
       apply Hne. eapply NoDup_fmap_inj; [exact Hnd|done..|congruence]. }
  rewrite (filter_bind_unique _ _ (global_indices this) i);
    [|apply NoDup_seq|done|].
  2: { intros j e Hj Hne He [_ Hs].
       apply check_dup_at_elem in He as [_ Hslot].
       apply Hne, Huniq; [done|congruence]. }
  apply filter_all.
  intros e [Hfile Hslot]%check_dup_at_elem. split; [done|]. congruence.
Qed.

Lemma strong_at_true this a (i : nat) :
  strong_at this a i = true ↔
  ∃ esym, elf_syms this !! i = Some esym ∧ symbols this !! i = Some a ∧
          is_defined esym = true ∧ is_common esym = false ∧
          is_weak esym = false ∧ is_eliminated this esym = false.
Proof.
  unfold strong_at. split.
  - destruct (elf_syms this !! i) as [esym|]; [|done].
    destruct (symbols this !! i) as [b|]; [|done].
    rewrite !andb_true_iff, !negb_true_iff, bool_decide_eq_true.
    intros ((((-> & ?) & ?) & ?) & ?). by exists esym.
  - intros (esym & -> & -> & -> & -> & -> & ->).
    by rewrite bool_decide_true.
Qed.

Lemma defines_strongb_spec this a :
  defines_strongb this a = true ↔ defines_strong this a.
Proof.
  unfold defines_strongb, defines_strong. rewrite existsb_exists. split.
  - intros (i & Hi%list_elem_of_In & (esym & H)%strong_at_true).
    by exists i, esym.
  - intros (i & esym & Hi & H). exists i. split; [by apply list_elem_of_In|].
    apply strong_at_true. by exists esym.
Qed.

(** The errors of one file about a symbol: one if the file loses it, none
    otherwise. *)
Lemma check_dup_file_about syms objs this a sym :
  dup_inputs_ok syms objs → single_slot objs a → this ∈ objs →
  syms !! a = Some sym →
  length (filter (λ e, dup_sym e = a)
            (global_indices this ≫=
               (λ i, default [] (check_dup_at syms this i))))
  = if decide (defines_strongb this a = true ∧
               file sym ≠ Some (file_addr this))
    then 1%nat else 0%nat.
Proof.
  intros Hok Hsingle Hthis Hsym.
  destruct (decide (Exists (λ i : nat, symbols this !! i = Some a)
                           (global_indices this))) as [Hex|Hnone].
  - apply Exists_exists in Hex as (i & Hi & Ha).
    destruct (global_indices_lookup this i Hi) as [esym Hesym].
    destruct (Hok this i esym Hthis Hi Hesym) as (a' & sym' & Ha' & Hsym' & Hown).
    assert (a' = a) as -> by congruence.
    assert (sym' = sym) as -> by congruence.
    rewrite (filter_bind_unique _ _ (global_indices this) i);
      [|apply NoDup_seq|done|].
    2: { intros j e Hj Hne He Hs.
         apply check_dup_at_elem in He as [_ Hslot].
         apply Hne. apply (Hsingle this j i); [done..|congruence|done]. }
    rewrite (check_dup_at_cases syms this i esym a sym) by done.
    assert (is_duplicate this esym sym = true ↔
            defines_strongb this a = true ∧ file sym ≠ Some (file_addr this))
      as Hiff.
    { rewrite is_duplicate_true, defines_strongb_spec. split.
      - intros (Hne & Hdef & Hc & Hw & He). split; [|done].
        by exists i, esym.
      - intros [(j & esym' & Hj & Hesym' & Haj & Hdef & Hc & Hw & He) Hne].
        assert (j = i) as -> by (by apply (Hsingle this j i)).
        assert (esym' = esym) as -> by congruence. done. }
    destruct (is_duplicate this esym sym) eqn:Hd.
    + rewrite decide_True by (by apply Hiff).
      apply is_duplicate_true in Hd as (_ & Hdef & Hc & Hw & He).
      destruct (Hown Hdef Hc Hw He) as [owner ->]. simpl.
      by rewrite filter_cons_True.
    + rewrite decide_False; [done|]. intros H%Hiff. congruence.
  - rewrite filter_none.
    + rewrite decide_False; [done|].
      intros [(j & esym & Hj & _ & Haj & _)%defines_strongb_spec _].
      apply Hnone, Exists_exists. by exists j.
    + intros e (j & He & Hj)%list_elem_of_bind Hs.
      apply check_dup_at_elem in He as [_ Hslot].
      apply Hnone, Exists_exists. exists j. split; [done|congruence].
Qed.

(** C4, the claim as amended: on well-formed input (the files of
    [ctx.objs] distinct, every global slot pointing to a symbol, every
    symbol with a strong definition bound to a file) the pass records one
    error per losing strong definition, not one per pair of files.
    - For every file and every symbol that the file holds in one global
      slot, the file reports exactly one error about the symbol, naming the
      symbol's owner, when it defines the symbol (not weak, not common, not
      eliminated) and the owner is another file; it reports none when the
      symbol is undefined, common, weak or eliminated there, or owned by the
      file.
    - For every symbol that no file holds in two global slots, the number
      of errors about the symbol is the number of files of [ctx.objs] that
      define it so and are not its owner. *)
Theorem check_duplicate_symbols_per_file syms objs :
  NoDup (file_addr <$> objs) → dup_inputs_ok syms objs →
  ∃ errs, check_duplicate_symbols syms objs = Some errs ∧
    (∀ this (i : nat) esym a sym,
       this ∈ objs → i ∈ global_indices this →
       elf_syms this !! i = Some esym → symbols this !! i = Some a →
       syms !! a = Some sym →
       (∀ i', i' ∈ global_indices this → symbols this !! i' = Some a →
              i' = i) →
       (is_defined esym = true → is_common esym = false →
        is_weak esym = false → is_eliminated this esym = false →
        file sym ≠ Some (file_addr this) →
        ∃ owner, file sym = Some owner ∧
                 errors_of (file_addr this) a errs
                 = [mkDup (file_addr this) owner a]) ∧
       (is_defined esym = false ∨ is_common esym = true ∨
        is_weak esym = true ∨ is_eliminated this esym = true ∨
        file sym = Some (file_addr this) →
        errors_of (file_addr this) a errs = [])) ∧
    (∀ a sym, syms !! a = Some sym → single_slot objs a →
       length (errors_about a errs) = length (losers objs a sym) ∧
       ∀ this, this ∈ losers objs a sym ↔
               this ∈ objs ∧ defines_strong this a ∧
               file sym ≠ Some (file_addr this)).
Proof.
  intros Hnd Hok.
  destruct (check_duplicate_symbols_run syms objs Hok) as [errs Hrun].
  exists errs. split; [done|]. split.
  - intros this i esym a sym Hthis Hi Hesym Ha Hsym Huniq.
    rewrite (check_duplicate_symbols_slot syms objs errs this i a) by done.
    rewrite (check_dup_at_cases syms this i esym a sym) by done.
    destruct (Hok this i esym Hthis Hi Hesym)
      as (a' & sym' & Ha' & Hsym' & Hown).
    assert (a' = a) as -> by congruence.
    assert (sym' = sym) as -> by congruence.
    split.
    + intros Hdef Hc Hw He Hne.
      destruct (Hown Hdef Hc Hw He) as [owner Howner]. exists owner.
      split; [done|].
      rewrite (proj2 (is_duplicate_true this esym sym)) by done.
      by rewrite Howner.
    + intros Hnot.
      destruct (is_duplicate this esym sym) eqn:Hd; [|done].
      apply is_duplicate_true in Hd as (Hne & Hdef & Hc & Hw & He).
      destruct Hnot as [?|[?|[?|[?|?]]]]; congruence.
  - intros a sym Hsym Hsingle. split.
    + rewrite (check_duplicate_symbols_bind syms objs errs Hrun).
      unfold errors_about, losers. apply length_filter_bind.
      intros this Hthis. by apply (check_dup_file_about syms objs).
    + intros this. unfold losers.
      rewrite list_elem_of_filter, defines_strongb_spec. tauto.
Qed.

Lemma check_duplicate_symbols_per_file_witness :
  ∃ errs, check_duplicate_symbols syms_elsewhere objs_strong = Some errs ∧
          errors_of 2 100 errs = [mkDup 2 99 100] ∧
          length (errors_about 100 errs) = 3%nat.
Proof.
  assert (Hnd : NoDup (file_addr <$> objs_strong)).
  { apply (bool_decide_unpack _). by vm_compute. }
  assert (Hslot : ∀ this (i : nat), this ∈ objs_strong →
            i ∈ global_indices this →
            i = 1%nat ∧ elf_syms this !! 1%nat = Some (mkEsym 1 1) ∧
            symbols this !! 1%nat = Some 100%nat).
  { intros this i Hthis Hi. unfold objs_strong in Hthis.
    repeat (apply elem_of_cons in Hthis as [->|Hthis];
            [apply list_elem_of_singleton in Hi; by subst i|]).
    by apply elem_of_nil in Hthis. }
  assert (Hok : dup_inputs_ok syms_elsewhere objs_strong).
  { intros this i esym Hthis Hi Hesym.
    destruct (Hslot this i Hthis Hi) as (-> & _ & Ha).
    exists 100%nat, (mkSym (Some 99%nat) 1 0 "").
    split; [done|]. split; [done|]. intros _ _ _ _. by eexists. }
  assert (Hsingle : single_slot objs_strong 100).
  { intros this i i' Hthis Hi Hi' _ _.
    destruct (Hslot this i Hthis Hi) as (-> & _).
    by destruct (Hslot this i' Hthis Hi') as (-> & _). }
  destruct (check_duplicate_symbols_per_file syms_elsewhere objs_strong
              Hnd Hok) as (errs & Hrun & Hfile & Hcount).
  exists errs. split; [done|]. split.
  - destruct (Hfile (obj_strong 2) 1%nat (mkEsym 1 1) 100%nat
                (mkSym (Some 99%nat) 1 0 "")) as [Hone _];
      [right; left|left|done..| |].
    { intros i' Hi' _. by apply list_elem_of_singleton in Hi'. }
    destruct Hone as (owner & [= <-] & Herr); done.
  - destruct (Hcount 100%nat (mkSym (Some 99%nat) 1 0 "") eq_refl Hsingle)
      as [Hlen _].
    rewrite Hlen. reflexivity.
Defined.

(** C4 as stated fails in two ways.  When three files define a symbol, the
    two files that lost it each report the owner, and nothing is recorded
    for the pair they form.  And a file that holds the symbol in two global
    slots reports it twice, two errors for one pair of files. *)
Lemma check_duplicate_symbols_pair_counterexample :
  check_duplicate_symbols syms_strong objs_strong
    = Some [mkDup 2 1 100; mkDup 3 1 100] ∧
  ¬ one_error_per_pair syms_strong objs_strong ∧
  check_duplicate_symbols syms_strong objs_twice
    = Some [mkDup 2 1 100; mkDup 2 1 100] ∧
  ¬ one_error_per_pair syms_strong objs_twice.
Proof.
  assert (∀ n, defines_strong (obj_strong n) 100) as Hdef.
  { intros n. exists 1%nat, (mkEsym 1 1). split; [left|]. done. }
  assert (defines_strong obj_twice 100) as Hdef2.
  { exists 1%nat, (mkEsym 1 1). split; [left|]. done. }
  split; [reflexivity|]. split; [|split; [reflexivity|]].
  - intros (errs & Hrun & H). vm_compute in Hrun. inversion Hrun; subst errs.
    specialize (H 100%nat (obj_strong 2) (obj_strong 3)).
    discriminate H; [right; left|right; right; left|done|apply Hdef..].
  - intros (errs & Hrun & H). vm_compute in Hrun. inversion Hrun; subst errs.
    specialize (H 100%nat (obj_strong 1) obj_twice).
    discriminate H; [left|right; left|done|apply Hdef|apply Hdef2].
Qed.


(** ** [parse_symbol_version] *)

(** *** The map of version indices *)

Lemma verdefs_loop_notin i vds (m : gmap string Z) v :
  v ∉ vds → verdefs_loop i vds m !! v = m !! v.
Proof.
  revert i m. induction vds as [|x vds IH]; intros i m Hv; [done|].
  apply not_elem_of_cons in Hv as [Hne Hv]. simpl.
  rewrite IH by done. by rewrite lookup_insert_ne.
Qed.

Lemma verdefs_loop_in i vds (m : gmap string Z) v :
  v ∈ vds → is_Some (verdefs_loop i vds m !! v).
Proof.
  revert i m. induction vds as [|x vds IH]; intros i m Hv.
  { by apply elem_of_nil in Hv. }
  simpl. destruct (decide (v ∈ vds)) as [Hin|Hnin]; [by apply IH|].
  apply elem_of_cons in Hv as [->|Hv]; [|done].
  rewrite verdefs_loop_notin by done. rewrite lookup_insert_eq. by eexists.
Qed.

(** The index kept for a string is the one of its last occurrence. *)
Lemma verdefs_loop_last i vds (m : gmap string Z) (k : nat) v :
  vds !! k = Some v → (∀ k' : nat, (k < k')%nat → vds !! k' ≠ Some v) →
  verdefs_loop i vds m !! v =
  Some (to_u16 (Z.of_nat (i + k) + VER_NDX_LAST_RESERVED + 1)).
Proof.
  revert i m k. induction vds as [|x vds IH]; intros i m [|k] Hk Hlast;
    simpl in Hk; try done.
  - inversion Hk; subst x. simpl. rewrite verdefs_loop_notin.
    + rewrite lookup_insert_eq. do 3 f_equal. lia.
    + intros [j Hj]%list_elem_of_lookup. apply (Hlast (S j)); [lia|done].
  - simpl. rewrite (IH (S i) _ k Hk).
    + do 3 f_equal. lia.
    + intros k' Hlt. apply (Hlast (S k')). lia.
Qed.

Lemma make_verdefs_None vds v : make_verdefs vds !! v = None ↔ v ∉ vds.
Proof.
  unfold make_verdefs. split.
  - intros Hnone Hin. apply (verdefs_loop_in 0 vds ∅) in Hin as [x Hx].
    congruence.
  - intros Hnin. by rewrite verdefs_loop_notin.
Qed.

Lemma lor_hidden_u16 idx :
  0 ≤ idx < 2 ^ 16 → to_u16 (Z.lor idx VERSYM_HIDDEN) = Z.lor idx VERSYM_HIDDEN.
Proof.
  intros Hidx. unfold to_u16. apply Z.mod_small. split.
  - apply Z.lor_nonneg. unfold VERSYM_HIDDEN. lia.
  - destruct (decide (idx = 0)) as [->|Hne]; [by vm_compute|].
    apply Z.log2_lt_pow2; [|rewrite Z.log2_lor by (unfold VERSYM_HIDDEN; lia)].
    + assert (0 ≤ Z.lor idx VERSYM_HIDDEN)
        by (apply Z.lor_nonneg; unfold VERSYM_HIDDEN; lia).
      assert (Z.lor idx VERSYM_HIDDEN ≠ 0); [|lia].
      intros [_ Hz]%Z.lor_eq_0_iff. discriminate Hz.
    + assert (Z.log2 idx < 16) by (apply Z.log2_lt_pow2; lia).
      assert (Z.log2 VERSYM_HIDDEN = 15) by reflexivity. lia.
Qed.

(** *** One iteration *)

Lemma same_owners_owned syms0 syms1 this i a verstr :
  same_owners syms0 syms1 → slot_owned syms0 this i a verstr →
  ∃ s, syms1 !! a = Some s ∧ file s = Some (file_addr this).
Proof.
  intros Hown (_ & _ & sym & Hsym & Hfile). specialize (Hown a).
  rewrite Hsym in Hown. simpl in Hown.
  destruct (syms1 !! a) as [s|]; [|done]. exists s. split; [done|].
  simpl in Hown. congruence.
Qed.

(** What an iteration does, by cases on the slot. *)
Lemma parse_symver_at_cases syms0 verdefs this st i :
  same_owners syms0 st.1 →
  (parse_symver_at verdefs this st i = st ∧
   ∀ a verstr, ¬ slot_owned syms0 this i a verstr) ∨
  (∃ a verstr s,
     slot_owned syms0 this i a verstr ∧ st.1 !! a = Some s ∧
     file s = Some (file_addr this) ∧
     parse_symver_at verdefs this st i =
     match verdefs !! (split_default verstr).2 with
     | None =>
         (st.1, st.2 ++ [mkVerr (file_addr this) a (split_default verstr).2])
     | Some idx =>
         (<[a := set_ver_idx s
                   (versym_value (split_default verstr).1 idx)]> st.1, st.2)
     end).
Proof.
  intros Hown. unfold parse_symver_at.
  destruct (symvers this !! i) as [[verstr|]|] eqn:Hver.
  2,3: left; split; [done|]; intros a v (Hv & _); congruence.
  destruct (symbols this !! (i + first_global this)%nat) as [a|] eqn:Ha.
  2: left; split; [done|]; intros a v (_ & Hs & _); congruence.
  destruct (st.1 !! a) as [s|] eqn:Hs.
  2: { left. split; [done|]. intros a' v Hslot.
       destruct (same_owners_owned _ _ _ _ _ _ Hown Hslot) as (s & Hs' & _).
       destruct Hslot as (_ & Ha' & _). congruence. }
  destruct (decide (file s = Some (file_addr this))) as [Hfile|Hfile].
  - rewrite bool_decide_true by done. right. exists a, verstr, s.
    split; [|split; [done|split; [done|]]].
    + split; [done|]. split; [done|]. specialize (Hown a).
      rewrite Hs in Hown. simpl in Hown.
      destruct (syms0 !! a) as [sym|]; [|done]. exists sym. split; [done|].
      simpl in Hown. congruence.
    + by destruct (split_default verstr) as [d v].
  - rewrite bool_decide_false by done. left. split; [done|].
    intros a' v Hslot.
    destruct (same_owners_owned _ _ _ _ _ _ Hown Hslot) as (s' & Hs' & Hf').
    destruct Hslot as (_ & Ha' & _). congruence.
Qed.

Lemma parse_symver_at_owners syms0 verdefs this st i :
  same_owners syms0 st.1 →
  same_owners syms0 (parse_symver_at verdefs this st i).1.
Proof.
  intros Hown.
  destruct (parse_symver_at_cases syms0 verdefs this st i Hown)
    as [[-> _]|(a & verstr & s & _ & Hs & _ & ->)]; [done|].
  destruct (verdefs !! _); [|done]. simpl. intros b.
  destruct (decide (a = b)) as [->|Hne].
  - rewrite lookup_insert_eq. rewrite <- Hown, Hs. done.
  - rewrite lookup_insert_ne by done. apply Hown.
Qed.

(** An iteration changes a symbol only through a slot that holds it. *)
Lemma parse_symver_at_other syms0 verdefs this st i b :
  same_owners syms0 st.1 →
  (∀ verstr, ¬ slot_owned syms0 this i b verstr) →
  (parse_symver_at verdefs this st i).1 !! b = st.1 !! b.
Proof.
  intros Hown Hnot.
  destruct (parse_symver_at_cases syms0 verdefs this st i Hown)
    as [[-> _]|(a & verstr & s & Hslot & Hs & _ & ->)]; [done|].
  destruct (verdefs !! _); [|done]. simpl.
  rewrite lookup_insert_ne; [done|]. intros ->. by eapply Hnot.
Qed.

(** The errors of an iteration. *)
Lemma parse_symver_at_errors syms0 verdefs this st i e :
  same_owners syms0 st.1 →
  e ∈ (parse_symver_at verdefs this st i).2 ↔
  e ∈ st.2 ∨ slot_error syms0 verdefs this i e.
Proof.
  intros Hown.
  destruct (parse_symver_at_cases syms0 verdefs this st i Hown)
    as [[-> Hnone]|(a & verstr & s & Hslot & Hs & _ & ->)].
  { split; [by left|]. intros [He|(a & v & Hslot & _)]; [done|].
    by apply Hnone in Hslot. }
  assert (∀ a' v', slot_owned syms0 this i a' v' → a' = a ∧ v' = verstr)
    as Huniq.
  { intros a' v' (Hv' & Ha' & _). destruct Hslot as (Hv & Ha & _).
    split; congruence. }
  destruct (verdefs !! (split_default verstr).2) eqn:Hlook; simpl.
  - split; [by left|]. intros [He|(a' & v' & Hslot' & Hnone & _)]; [done|].
    apply Huniq in Hslot' as [-> ->]. congruence.
  - rewrite elem_of_app, list_elem_of_singleton. split.
    + intros [He| ->]; [by left|]. right. by exists a, verstr.
    + intros [He|(a' & v' & Hslot' & _ & ->)]; [by left|].
      apply Huniq in Hslot' as [-> ->]. by right.
Qed.

(** *** The loops *)

Lemma parse_slots_owners syms0 verdefs this st l :
  same_owners syms0 st.1 →
  same_owners syms0 (foldl (parse_symver_at verdefs this) st l).1.
Proof.
  revert st. induction l as [|i l IH]; intros st Hown; [done|].
  simpl. apply IH. by apply parse_symver_at_owners.
Qed.

Lemma parse_slots_other syms0 verdefs this st l b :
  same_owners syms0 st.1 →
  (∀ i verstr, i ∈ l → ¬ slot_owned syms0 this i b verstr) →
  (foldl (parse_symver_at verdefs this) st l).1 !! b = st.1 !! b.
Proof.
  revert st. induction l as [|i l IH]; intros st Hown Hnot; [done|].
  simpl. rewrite IH.
  - apply (parse_symver_at_other syms0); [done|].
    intros v. apply Hnot. left.
  - by apply parse_symver_at_owners.
  - intros j v Hj. apply Hnot. by right.
Qed.

Lemma parse_slots_errors syms0 verdefs this st l e :
  same_owners syms0 st.1 →
  e ∈ (foldl (parse_symver_at verdefs this) st l).2 ↔
  e ∈ st.2 ∨ ∃ i, i ∈ l ∧ slot_error syms0 verdefs this i e.
Proof.
  revert st. induction l as [|i l IH]; intros st Hown; simpl.
  { split; [by left|]. intros [He|(i & Hi & _)]; [done|].
    by apply elem_of_nil in Hi. }
  rewrite IH by (by apply parse_symver_at_owners).
  rewrite (parse_symver_at_errors syms0) by done. split.
  - intros [[He|He]|(j & Hj & He)]; [by left|right..].
    + exists i. split; [left|done].
    + exists j. split; [by right|done].
  - intros [He|(j & [->|Hj]%elem_of_cons & He)]; [by left; left| |].
    + left. by right.
    + right. by exists j.
Qed.

Lemma parse_files_owners syms0 verdefs st (objs : list ObjectFile) :
  same_owners syms0 st.1 →
  same_owners syms0
    (foldl (λ st this, foldl (parse_symver_at verdefs this) st
                             (symver_indices this)) st objs).1.
Proof.
  revert st. induction objs as [|g objs IH]; intros st Hown; [done|].
  simpl. apply IH. by apply parse_slots_owners.
Qed.

Lemma parse_files_other syms0 verdefs st (objs : list ObjectFile) b :
  same_owners syms0 st.1 →
  (∀ g i verstr, g ∈ objs → ¬ slot_owned syms0 g i b verstr) →
  (foldl (λ st this, foldl (parse_symver_at verdefs this) st
                           (symver_indices this)) st objs).1 !! b
  = st.1 !! b.
Proof.
  revert st. induction objs as [|g objs IH]; intros st Hown Hnot; [done|].
  simpl. rewrite IH.
  - apply (parse_slots_other syms0); [done|].
    intros i v _. apply Hnot. left.
  - by apply parse_slots_owners.
  - intros g' i v Hg'. apply Hnot. by right.
Qed.

Lemma parse_files_errors syms0 verdefs st (objs : list ObjectFile) e :
  same_owners syms0 st.1 →
  e ∈ (foldl (λ st this, foldl (parse_symver_at verdefs this) st
                               (symver_indices this)) st objs).2 ↔
  e ∈ st.2 ∨ ∃ g i, g ∈ objs ∧ i ∈ symver_indices g ∧
                    slot_error syms0 verdefs g i e.
Proof.
  revert st. induction objs as [|g objs IH]; intros st Hown; simpl.
  { split; [by left|]. intros [He|(g & i & Hg & _)]; [done|].
    by apply elem_of_nil in Hg. }
  rewrite IH by (by apply parse_slots_owners).
  rewrite (parse_slots_errors syms0) by done. split.
  - intros [[He|(i & Hi & He)]|(g' & i & Hg' & Hi & He)]; [by left|right..].
    + exists g, i. split; [left|done].
    + exists g', i. split; [by right|done].
  - intros [He|(g' & i & [->|Hg']%elem_of_cons & Hi & He)];
      [by left; left| |].
    + left. right. by exists i.
    + right. by exists g', i.
Qed.


(** The symbol of a slot after the pass, when no other slot of the file
    versions it. *)
Lemma parse_symbol_version_lookup vds syms objs this i a verstr sym :
  NoDup (file_addr <$> objs) → this ∈ objs →
  carries_version syms this i a verstr → only_version_slot this i a →
  syms !! a = Some sym →
  (parse_symbol_version vds syms objs).1 !! a =
  match make_verdefs vds !! (split_default verstr).2 with
  | None => Some sym
  | Some idx =>
      Some (set_ver_idx sym (versym_value (split_default verstr).1 idx))
  end.
Proof.
  intros Hnd Hthis (Hi & Hver & Ha & sym' & Hsym' & Hfile) Honly Hsym.
  assert (sym' = sym) as -> by congruence.
  assert (slot_owned syms this i a verstr) as Hslot.
  { split; [done|]. split; [done|]. by exists sym. }
  unfold parse_symbol_version. set (verdefs := make_verdefs vds).
  assert (same_owners syms (syms, @nil VerError).1) as Hown0 by done.
  (* the files before and after [this] *)
  apply list_elem_of_split in Hthis as (l1 & l2 & ->).
  assert (NoDup (l1 ++ this :: l2)) as Hnd' by (by eapply NoDup_fmap_1).
  assert (∀ g j v, g ∈ l1 ++ l2 → ¬ slot_owned syms g j a v) as Hothers.
  { intros g j v Hg (_ & _ & s & Hs & Hf).
    assert (s = sym) as -> by congruence.
    assert (g = this) as ->.
    { eapply (NoDup_fmap_inj file_addr); [exact Hnd| | |congruence].
      - rewrite elem_of_app, elem_of_cons.
        apply elem_of_app in Hg as [?|?]; auto.
      - rewrite elem_of_app, elem_of_cons. auto. }
    apply NoDup_app in Hnd' as (_ & Hdisj & Hnd2).
    apply NoDup_cons in Hnd2 as [Hnin2 _].
    apply elem_of_app in Hg as [Hg|Hg]; [|done].
    apply (Hdisj this Hg). left. }
  rewrite foldl_app. cbn [foldl].
  set (st1 := foldl _ (syms, []) l1).
  assert (same_owners syms st1.1) as Hown1
    by (by apply parse_files_owners).
  assert (st1.1 !! a = Some sym) as Hst1.
  { subst st1. rewrite (parse_files_other syms); [done..|].
    intros g j v Hg. apply Hothers. apply elem_of_app. by left. }
  rewrite (parse_files_other syms); [|by apply parse_slots_owners|].
  2: { intros g j v Hg. apply Hothers. apply elem_of_app. by right. }
  (* the slots before and after [i] *)
  assert (NoDup (symver_indices this)) as Hndi by apply NoDup_seq.
  pose proof Hi as Hi'.
  apply list_elem_of_split in Hi' as (la & lb & Hl). rewrite Hl in *.
  assert (∀ j v, j ∈ la ++ lb → ¬ slot_owned syms this j a v) as Hslots.
  { intros j v Hj (Hv & Hs & _).
    assert (j = i) as ->.
    { apply Honly; [rewrite Hl|by rewrite Hv|done].
      rewrite elem_of_app, elem_of_cons.
      apply elem_of_app in Hj as [?|?]; auto. }
    apply NoDup_app in Hndi as (_ & Hdisj & Hnd2).
    apply NoDup_cons in Hnd2 as [Hnin2 _].
    apply elem_of_app in Hj as [Hj|Hj]; [|done].
    apply (Hdisj i Hj). left. }
  rewrite foldl_app. cbn [foldl].
  set (sta := foldl (parse_symver_at verdefs this) st1 la).
  assert (same_owners syms sta.1) as Howna
    by (by apply parse_slots_owners).
  assert (sta.1 !! a = Some sym) as Hsta.
  { subst sta. rewrite (parse_slots_other syms); [done..|].
    intros j v Hj. apply Hslots. apply elem_of_app. by left. }
  rewrite (parse_slots_other syms);
    [|by apply parse_symver_at_owners|].
  2: { intros j v Hj. apply Hslots. apply elem_of_app. by right. }
  destruct (parse_symver_at_cases syms verdefs this sta i Howna)
    as [[_ Hnone]|(a' & v' & s & Hslot' & Hs & _ & ->)].
  { by apply Hnone in Hslot. }
  destruct Hslot' as (Hv' & Ha' & _).
  assert (a' = a) as -> by congruence.
  assert (v' = verstr) as -> by congruence.
  assert (s = sym) as -> by congruence.
  destruct (verdefs !! (split_default verstr).2); simpl; [|done].
  by rewrite lookup_insert_eq.
Qed.

(** C6, the claim as amended: with the files of [ctx.objs] distinct, for
    every object file and every global symbol that the file owns and that
    carries a version string, [ver] being the string without the [@] that
    marks a default version:
    - an error for the symbol and [ver] is recorded if and only if [ver] is
      not among [version_definitions];
    - the iteration for that slot, from any state of the pass, records the
      error and leaves the symbols alone when [ver] is unknown, and
      otherwise sets [ver_idx] to [k + VER_NDX_LAST_RESERVED + 1] for a
      default version and to that index with [VERSYM_HIDDEN] ORed in for
      another, [k] being the 0-based position of [ver] in
      [version_definitions] (the last one with that string) and the index
      fitting its [u16];
    - when that slot is the only one of the file that versions the symbol,
      this is the [ver_idx] the symbol has after the pass. *)
Theorem parse_symbol_version_spec vds syms objs this i a verstr :
  NoDup (file_addr <$> objs) → this ∈ objs →
  carries_version syms this i a verstr →
  let is_default := (split_default verstr).1 in
  let ver := (split_default verstr).2 in
  let syms' := (parse_symbol_version vds syms objs).1 in
  let errs := (parse_symbol_version vds syms objs).2 in
  let new_idx (k : nat) :=
    if is_default then Z.of_nat k + VER_NDX_LAST_RESERVED + 1
    else Z.lor (Z.of_nat k + VER_NDX_LAST_RESERVED + 1) VERSYM_HIDDEN in
  let is_entry (k : nat) :=
    vds !! k = Some ver ∧ (∀ k' : nat, (k < k')%nat → vds !! k' ≠ Some ver) ∧
    Z.of_nat k + VER_NDX_LAST_RESERVED + 1 < 2 ^ 16 in
  (mkVerr (file_addr this) a ver ∈ errs ↔ ver ∉ vds) ∧
  (∀ st s, same_owners syms st.1 → st.1 !! a = Some s →
     (ver ∉ vds →
      parse_symver_at (make_verdefs vds) this st i
      = (st.1, st.2 ++ [mkVerr (file_addr this) a ver])) ∧
     (∀ k, is_entry k →
      parse_symver_at (make_verdefs vds) this st i
      = (<[a := set_ver_idx s (new_idx k)]> st.1, st.2))) ∧
  (only_version_slot this i a → ∀ sym, syms !! a = Some sym →
     (ver ∉ vds → syms' !! a = Some sym) ∧
     (∀ k, is_entry k → syms' !! a = Some (set_ver_idx sym (new_idx k)))).
Proof.
  intros Hnd Hthis Hcarry. cbv zeta.
  assert (∀ k : nat,
    vds !! k = Some (split_default verstr).2 →
    (∀ k' : nat, (k < k')%nat → vds !! k' ≠ Some (split_default verstr).2) →
    Z.of_nat k + VER_NDX_LAST_RESERVED + 1 < 2 ^ 16 →
    make_verdefs vds !! (split_default verstr).2
      = Some (Z.of_nat k + VER_NDX_LAST_RESERVED + 1) ∧
    versym_value (split_default verstr).1
                 (Z.of_nat k + VER_NDX_LAST_RESERVED + 1)
    = if (split_default verstr).1
      then Z.of_nat k + VER_NDX_LAST_RESERVED + 1
      else Z.lor (Z.of_nat k + VER_NDX_LAST_RESERVED + 1) VERSYM_HIDDEN)
    as Hentry.
  { intros k Hk Hlast Hfit. unfold make_verdefs.
    rewrite (verdefs_loop_last 0 vds ∅ k _ Hk Hlast). simpl (0 + k)%nat.
    assert (to_u16 (Z.of_nat k + VER_NDX_LAST_RESERVED + 1)
            = Z.of_nat k + VER_NDX_LAST_RESERVED + 1) as ->.
    { unfold to_u16. apply Z.mod_small.
      unfold VER_NDX_LAST_RESERVED in *. lia. }
    split; [done|].
    unfold versym_value. destruct (split_default verstr).1; [done|].
    rewrite lor_hidden_u16; [done|]. unfold VER_NDX_LAST_RESERVED in *. lia. }
  split; [|split].
  - unfold parse_symbol_version.
    rewrite (parse_files_errors syms) by done. split.
    + intros [He|(g & j & _ & _ & b & v & _ & Hnone & He)].
      { by apply elem_of_nil in He. }
      apply make_verdefs_None. inversion He. congruence.
    + intros Hnin. right. exists this, i.
      destruct Hcarry as (Hi & Hver & Ha & sym & Hsym & Hfile).
      split; [done|]. split; [done|]. exists a, verstr.
      split; [|split; [by apply make_verdefs_None|done]].
      split; [done|]. split; [done|]. by exists sym.
  - intros st s Hown Hs.
    destruct Hcarry as (Hi & Hver & Ha & sym & Hsym & Hfile).
    assert (slot_owned syms this i a verstr) as Hslot.
    { split; [done|]. split; [done|]. by exists sym. }
    destruct (parse_symver_at_cases syms (make_verdefs vds) this st i Hown)
      as [[_ Hnone]|(a' & v' & s' & (Hv' & Ha' & _) & Hs' & _ & ->)].
    { by apply Hnone in Hslot. }
    assert (a' = a) as -> by congruence.
    assert (v' = verstr) as -> by congruence.
    assert (s' = s) as -> by congruence.
    split.
    + intros Hnin. by rewrite (proj2 (make_verdefs_None vds _) Hnin).
    + intros k (Hk & Hlast & Hfit).
      destruct (Hentry k Hk Hlast Hfit) as [-> ->]. done.
  - intros Honly sym Hsym.
    rewrite (parse_symbol_version_lookup vds syms objs this i a verstr sym)
      by done.
    split.
    + intros Hnin. by rewrite (proj2 (make_verdefs_None vds _) Hnin).
    + intros k (Hk & Hlast & Hfit).
      destruct (Hentry k Hk Hlast Hfit) as [-> ->]. done.
Qed.

Lemma parse_symbol_version_spec_witness :
  (parse_symbol_version ["V1"]%string syms_versions [obj_versions]).1
    !! 100%nat = Some (mkSym (Some 1%nat) 2 0 "") ∧
  (parse_symbol_version ["V1"]%string syms_versions [obj_versions]).1
    !! 101%nat = Some (mkSym (Some 1%nat) (Z.lor 2 VERSYM_HIDDEN) 0 "") ∧
  (mkVerr 1 100 "V1" ∈
     (parse_symbol_version ["V2"]%string syms_versions [obj_versions]).2).
Proof.
  assert (Hnd : NoDup (file_addr <$> [obj_versions])).
  { apply (bool_decide_unpack _). by vm_compute. }
  assert (Hin : obj_versions ∈ [obj_versions]) by left.
  assert (Hc0 : carries_version syms_versions obj_versions 0 100 "@V1").
  { split; [left|]. split; [done|]. split; [done|]. by eexists. }
  assert (Hc1 : carries_version syms_versions obj_versions 1 101 "V1").
  { split; [right; left|]. split; [done|]. split; [done|]. by eexists. }
  assert (Ho0 : only_version_slot obj_versions 0 100).
  { intros j Hj _ Hs. unfold symver_indices in Hj. simpl in Hj.
    repeat (apply elem_of_cons in Hj as [->|Hj]; [done|]).
    by apply elem_of_nil in Hj. }
  assert (Ho1 : only_version_slot obj_versions 1 101).
  { intros j Hj _ Hs. unfold symver_indices in Hj. simpl in Hj.
    repeat (apply elem_of_cons in Hj as [->|Hj]; [done|]).
    by apply elem_of_nil in Hj. }
  assert (Hentry : ["V1"%string] !! 0%nat = Some "V1"%string ∧
            (∀ k' : nat, (0 < k')%nat → ["V1"%string] !! k' ≠ Some "V1"%string) ∧
            Z.of_nat 0 + VER_NDX_LAST_RESERVED + 1 < 2 ^ 16).
  { split; [done|]. split; [|done]. intros [|k'] Hk'; [lia|done]. }
  split; [|split].
  - exact (proj2 (proj2 (proj2 (parse_symbol_version_spec ["V1"%string]
             syms_versions [obj_versions] obj_versions 0 100 "@V1"
             Hnd Hin Hc0)) Ho0 _ eq_refl) 0%nat Hentry).
  - exact (proj2 (proj2 (proj2 (parse_symbol_version_spec ["V1"%string]
             syms_versions [obj_versions] obj_versions 1 101 "V1"
             Hnd Hin Hc1)) Ho1 _ eq_refl) 0%nat Hentry).
  - apply (proj1 (parse_symbol_version_spec ["V2"%string] syms_versions
                    [obj_versions] obj_versions 0 100 "@V1" Hnd Hin Hc0)).
    intros Hin2. apply list_elem_of_singleton in Hin2. discriminate Hin2.
Defined.

(** Where [V1] is in the long list. *)
Lemma versions_many_last :
  versions_many !! Z.to_nat 65534 = Some "V1"%string ∧
  ∀ k' : nat, (Z.to_nat 65534 < k')%nat → versions_many !! k' ≠ Some "V1"%string.
Proof.
  unfold versions_many. split.
  - apply list_lookup_middle. rewrite length_replicate. reflexivity.
  - intros k' Hk'. rewrite lookup_ge_None_2; [discriminate|].
    rewrite length_app, length_replicate, Nat.add_comm.
    change (length ["V1"%string]) with 1%nat. apply Hk'.
Qed.

(** The slot of [f@@V1] in the object file of the scenario. *)
Lemma obj_versions_slot :
  NoDup (file_addr <$> [obj_versions]) ∧ obj_versions ∈ [obj_versions] ∧
  carries_version syms_versions obj_versions 0 100 "@V1" ∧
  only_version_slot obj_versions 0 100.
Proof.
  split; [apply (bool_decide_unpack _); by vm_compute|]. split; [left|]. split.
  - split; [left|]. split; [done|]. split; [done|]. by eexists.
  - intros j Hj _ Hs. unfold symver_indices in Hj. simpl in Hj.
    repeat (apply elem_of_cons in Hj as [->|Hj]; [done|]).
    by apply elem_of_nil in Hj.
Qed.

(** When the entry for [V1] is entry 65534, the index [65534 + 2] wraps to
    0 in the [u16] of the map. *)
Lemma version_index_wraps vds (k : nat) :
  Z.of_nat k = 65534 → vds !! k = Some "V1"%string →
  (∀ k' : nat, (k < k')%nat → vds !! k' ≠ Some "V1"%string) →
  (parse_symbol_version vds syms_versions [obj_versions]).1 !! 100%nat
    = Some (mkSym (Some 1%nat) 0 0 "") ∧
  ¬ version_index_stated vds syms_versions [obj_versions].
Proof.
  intros Hk65 Hk Hlast.
  destruct obj_versions_slot as (Hnd & Hin & Hc0 & Ho0).
  assert ((parse_symbol_version vds syms_versions [obj_versions]).1 !! 100%nat
          = Some (mkSym (Some 1%nat) 0 0 "")) as H2.
  { rewrite (parse_symbol_version_lookup vds syms_versions
               [obj_versions] obj_versions 0 100 "@V1" _ Hnd Hin Hc0 Ho0
               eq_refl).
    change ((split_default "@V1").2) with "V1"%string.
    unfold make_verdefs. rewrite (verdefs_loop_last 0 vds ∅ k _ Hk Hlast).
    rewrite Nat.add_0_l, Hk65. reflexivity. }
  split; [exact H2|]. intros H.
  specialize (H obj_versions 0%nat 100%nat "@V1"%string _ k
                Hin Hc0 Ho0 eq_refl Hk).
  rewrite H2 in H. cbn [split_default fst] in H. rewrite Hk65 in H.
  vm_compute in H. discriminate H.
Qed.

(** C6 as stated, for every entry of [version_definitions], fails in two
    ways.  When a version is listed twice the map keeps the index of the
    last entry: with [version_definitions = ["V1"; "V1"]] the symbol
    [f@@V1] gets index 3, not the index 2 of entry 0.  And the indices are
    [u16]: entry 65534 of a list of 65535 versions has index 65536, which the
    map holds as 0. *)
Lemma parse_symbol_version_entry_counterexample :
  (parse_symbol_version ["V1"; "V1"]%string syms_versions [obj_versions]).1
    !! 100%nat = Some (mkSym (Some 1%nat) 3 0 "") ∧
  ¬ version_index_stated ["V1"; "V1"]%string syms_versions [obj_versions] ∧
  (parse_symbol_version versions_many syms_versions [obj_versions]).1
    !! 100%nat = Some (mkSym (Some 1%nat) 0 0 "") ∧
  ¬ version_index_stated versions_many syms_versions [obj_versions].
Proof.
  destruct obj_versions_slot as (Hnd & Hin & Hc0 & Ho0).
  split; [reflexivity|]. split.
  - intros H.
    specialize (H obj_versions 0%nat 100%nat "@V1"%string _ 0%nat
                  Hin Hc0 Ho0 eq_refl eq_refl).
    vm_compute in H. discriminate H.
  - exact (version_index_wraps versions_many (Z.to_nat 65534)
             (Z2Nat.id 65534 ltac:(lia))
             (proj1 versions_many_last) (proj2 versions_many_last)).
Qed.


(** ** [fill_verneed] *)

Lemma to_u16_idemp z c : to_u16 (to_u16 z + c) = to_u16 (z + c).
Proof. unfold to_u16. by rewrite Zplus_mod_idemp_l. Qed.

Section VerneedFacts.

Variable files : gmap nat InputFile.
Variable stale_cnt : nat → nat → Z.

(** *** The counts of the groups *)

Lemma groups_counted_nil : groups_counted stale_cnt [].
Proof using Type. intros k g Hk. done. Qed.

Lemma groups_counted_app_l G H :
  groups_counted stale_cnt (G ++ H) → groups_counted stale_cnt G.
Proof using Type.
  intros Hc k g Hk. pose proof (lookup_lt_Some _ _ _ Hk) as Hlt.
  destruct (Hc k g) as [Hv Hcnt]; [by apply lookup_app_l_Some|].
  split; [done|]. rewrite Hcnt. by rewrite take_app_le by lia.
Qed.

Lemma groups_counted_last G g :
  groups_counted stale_cnt (G ++ [g]) →
  vn_version g = 1 ∧
  vn_cnt g = to_u16 (stale_cnt (length G) (length (G ≫= vn_aux))
                     + Z.of_nat (length (vn_aux g))).
Proof using Type.
  intros Hc. destruct (Hc (length G) g) as [Hv Hcnt].
  { by apply list_lookup_middle. }
  split; [done|]. rewrite Hcnt. by rewrite take_app_length.
Qed.

Lemma groups_counted_snoc G g :
  groups_counted stale_cnt G → vn_version g = 1 →
  vn_cnt g = to_u16 (stale_cnt (length G) (length (G ≫= vn_aux))
                     + Z.of_nat (length (vn_aux g))) →
  groups_counted stale_cnt (G ++ [g]).
Proof using Type.
  intros Hc Hv Hcnt k g' Hk.
  apply lookup_app_Some in Hk as [Hk|[Hge Hk]].
  - pose proof (lookup_lt_Some _ _ _ Hk) as Hlt.
    destruct (Hc k g' Hk) as [Hv' Hcnt']. split; [done|].
    rewrite Hcnt'. by rewrite take_app_le by lia.
  - apply list_lookup_singleton_Some in Hk as [Hk0 <-].
    assert (k = length G) as -> by lia.
    by rewrite take_app_length.
Qed.

(** *** One iteration of the walk *)

(** What an iteration does to the groups, case by case. *)
Lemma walk_step_shape prev sym st :
  prev = None ∨ is_Some (w_verneed st) →
  let st' := walk_step files stale_cnt prev sym st in
  let v := to_u16 (w_veridx st + 1) in
  w_versym st' = <[dynsym_idx sym := w_veridx st']> (w_versym st) ∧
  if is_new_file prev sym
  then
    w_done st' = walk_groups st ∧
    w_verneed st'
    = Some (mkVerneed 1
              (to_u16 (stale_cnt (length (walk_groups st))
                                 (length (walk_groups st ≫= vn_aux)) + 1))
              (soname_of files sym) [mkVernaux v (version sym)]) ∧
    w_veridx st' = v ∧ w_info st' = w_info st + 1
  else
    ∃ g0, w_verneed st = Some g0 ∧ w_done st' = w_done st ∧
          w_info st' = w_info st ∧
          if is_new_aux prev sym
          then
            w_verneed st'
            = Some (mkVerneed (vn_version g0) (to_u16 (vn_cnt g0 + 1))
                      (vn_file g0)
                      (vn_aux g0 ++ [mkVernaux v (version sym)])) ∧
            w_veridx st' = v
          else w_verneed st' = Some g0 ∧ w_veridx st' = w_veridx st.
Proof using Type.
  intros Hgroup. cbv zeta. unfold walk_step, is_new_aux.
  destruct (is_new_file prev sym) eqn:Hfile; cbn [orb].
  - unfold add_entry, start_group. cbn. done.
  - destruct prev as [p|]; [|done]. destruct Hgroup as [|[g Hg]]; [done|].
    destruct (negb (ver_idx p =? ver_idx sym)) eqn:Hver.
    + unfold add_entry. rewrite Hg. cbn. split; [done|]. by exists g.
    + cbn. split; [done|]. by exists g.
Qed.

Lemma walk_step_some prev sym st :
  prev = None ∨ is_Some (w_verneed st) →
  is_Some (w_verneed (walk_step files stale_cnt prev sym st)).
Proof using Type.
  intros Hgroup.
  destruct (walk_step_shape prev sym st Hgroup) as [_ Hshape].
  destruct (is_new_file prev sym).
  - destruct Hshape as (_ & -> & _). by eexists.
  - destruct Hshape as (g0 & _ & _ & _ & Hshape).
    destruct (is_new_aux prev sym); destruct Hshape as [-> _]; by eexists.
Qed.

Lemma walk_step_spec prev sym st v0 :
  prev = None ∨ is_Some (w_verneed st) →
  w_veridx st = to_u16 v0 →
  let st' := walk_step files stale_cnt prev sym st in
  let b := if is_new_aux prev sym then 1 else 0 in
  w_veridx st' = to_u16 (v0 + b) ∧
  w_info st' = w_info st + (if is_new_file prev sym then 1 else 0) ∧
  vn_file <$> walk_groups st' =
    (vn_file <$> walk_groups st)
      ++ (if is_new_file prev sym then [soname_of files sym] else []) ∧
  walk_groups st' ≫= vn_aux =
    (walk_groups st ≫= vn_aux)
      ++ (if is_new_aux prev sym
          then [mkVernaux (to_u16 (v0 + 1)) (version sym)] else []) ∧
  (groups_counted stale_cnt (walk_groups st) →
   groups_counted stale_cnt (walk_groups st')) ∧
  w_versym st' = <[dynsym_idx sym := to_u16 (v0 + b)]> (w_versym st) ∧
  is_Some (w_verneed st').
Proof using Type.
  intros Hgroup Hv. cbv zeta.
  destruct (walk_step_shape prev sym st Hgroup) as [Hsym Hshape].
  set (st' := walk_step files stale_cnt prev sym st) in *.
  assert (to_u16 (w_veridx st + 1) = to_u16 (v0 + 1)) as Hv1
    by (by rewrite Hv, to_u16_idemp).
  unfold is_new_aux in *.
  destruct (is_new_file prev sym) eqn:Hfile; cbn [orb] in *.
  - destruct Hshape as (Hdone & Hcur & Hidx & Hinfo).
    rewrite Hv1 in Hcur, Hidx.
    assert (∃ g', walk_groups st' = walk_groups st ++ [g'] ∧
                  vn_version g' = 1 ∧ vn_file g' = soname_of files sym ∧
                  vn_aux g' = [mkVernaux (to_u16 (v0 + 1)) (version sym)] ∧
                  vn_cnt g' =
                  to_u16 (stale_cnt (length (walk_groups st))
                            (length (walk_groups st ≫= vn_aux)) + 1))
      as (g' & HG' & Hg1 & Hg2 & Hg3 & Hg4).
    { eexists.
      split; [unfold walk_groups at 1; by rewrite Hdone, Hcur|done]. }
    rewrite Hsym, Hidx, HG', fmap_app, bind_app.
    split; [done|]. split; [done|].
    split; [cbn; by rewrite Hg2|].
    split; [cbn; by rewrite Hg3, app_nil_r|].
    split; [|split; [done|by eexists]].
    intros Hc. apply groups_counted_snoc; [done..|]. by rewrite Hg3, Hg4.
  - destruct Hshape as (g0 & Hg0 & Hdone & Hinfo & Hshape).
    assert (walk_groups st = w_done st ++ [g0]) as HG
      by (unfold walk_groups; by rewrite Hg0).
    destruct prev as [p|]; [|done]. cbn [is_new_file] in Hfile.
    destruct (negb (ver_idx p =? ver_idx sym)) eqn:Hver.
    + destruct Hshape as [Hcur Hidx].
      rewrite Hv1 in Hcur, Hidx.
      assert (∃ g', walk_groups st' = w_done st ++ [g'] ∧
                    vn_version g' = vn_version g0 ∧
                    vn_file g' = vn_file g0 ∧
                    vn_aux g' = vn_aux g0
                      ++ [mkVernaux (to_u16 (v0 + 1)) (version sym)] ∧
                    vn_cnt g' = to_u16 (vn_cnt g0 + 1))
        as (g' & HG' & Hg1 & Hg2 & Hg3 & Hg4).
      { eexists.
        split; [unfold walk_groups at 1; by rewrite Hdone, Hcur|done]. }
      rewrite Hsym, Hidx, HG', HG, !fmap_app, !bind_app.
      split; [done|]. split; [lia|].
      split; [cbn; by rewrite Hg2, app_nil_r|].
      split; [cbn; by rewrite Hg3, !app_nil_r, app_assoc|].
      split; [|split; [done|by eexists]].
      intros Hc. apply groups_counted_last in Hc as Hlast.
      destruct Hlast as [Hver1 Hcnt].
      apply groups_counted_snoc;
        [by eapply groups_counted_app_l|congruence|].
      rewrite Hg4, Hg3, Hcnt, to_u16_idemp, length_app. f_equal. simpl. lia.
    + destruct Hshape as [Hcur Hidx].
      assert (walk_groups st' = walk_groups st) as HG'.
      { unfold walk_groups. by rewrite Hdone, Hcur, Hg0. }
      rewrite Hsym, Hidx, Hv, Z.add_0_r, HG', !app_nil_r.
      split; [done|]. split; [lia|]. split; [done|]. split; [done|].
      split; [done|]. split; [done|by eexists].
Qed.

(** A group that is there stays where it is, keeps its file and loses no
    entry. *)
Lemma walk_step_grows prev sym st (k : nat) g :
  prev = None ∨ is_Some (w_verneed st) →
  walk_groups st !! k = Some g →
  ∃ g', walk_groups (walk_step files stale_cnt prev sym st) !! k = Some g' ∧
        vn_file g' = vn_file g ∧ ∀ aux, aux ∈ vn_aux g → aux ∈ vn_aux g'.
Proof using Type.
  intros Hgroup Hk.
  destruct (walk_step_shape prev sym st Hgroup) as [_ Hshape].
  set (st' := walk_step files stale_cnt prev sym st) in *.
  destruct (is_new_file prev sym).
  - destruct Hshape as (Hdone & Hcur & _). exists g.
    split; [|done]. unfold walk_groups at 1. rewrite Hdone.
    by apply lookup_app_l_Some.
  - destruct Hshape as (g0 & Hg0 & Hdone & _ & Hshape).
    assert (walk_groups st = w_done st ++ [g0]) as HG
      by (unfold walk_groups; by rewrite Hg0).
    rewrite HG in Hk. unfold walk_groups. rewrite Hdone.
    destruct (is_new_aux prev sym); destruct Hshape as [-> _];
      cbn [option_list].
    + apply lookup_app_Some in Hk as [Hk|[Hge Hk]].
      * exists g. split; [by apply lookup_app_l_Some|done].
      * apply list_lookup_singleton_Some in Hk as [Hk0 <-].
        eexists. split.
        { apply lookup_app_Some. right. split; [done|].
          apply list_lookup_singleton_Some. done. }
        split; [done|]. intros aux Haux. cbn. apply elem_of_app. by left.
    + by exists g.
Qed.

(** The group that an iteration leaves current is the group of the file
    of its symbol, and holds the entry with the index the counter has. *)
Lemma walk_step_current prev sym st v0 :
  (prev = None ∨
   ∃ p g aux, prev = Some p ∧ w_verneed st = Some g ∧
              vn_file g = soname_of files p ∧ aux ∈ vn_aux g ∧
              vna_other aux = to_u16 v0) →
  w_veridx st = to_u16 v0 →
  let st' := walk_step files stale_cnt prev sym st in
  let b := if is_new_aux prev sym then 1 else 0 in
  length (walk_groups st')
  = (length (walk_groups st)
     + (if is_new_file prev sym then 1 else 0))%nat ∧
  ∃ g aux, w_verneed st' = Some g ∧
           vn_file g = soname_of files sym ∧ aux ∈ vn_aux g ∧
           vna_other aux = to_u16 (v0 + b).
Proof using Type.
  intros Hcur Hv. cbv zeta.
  assert (prev = None ∨ is_Some (w_verneed st)) as Hgroup.
  { destruct Hcur as [?|(p & g & aux & _ & Hg & _)]; [by left|].
    right. by eexists. }
  destruct (walk_step_shape prev sym st Hgroup) as [_ Hshape].
  set (st' := walk_step files stale_cnt prev sym st) in *.
  assert (to_u16 (w_veridx st + 1) = to_u16 (v0 + 1)) as Hv1
    by (by rewrite Hv, to_u16_idemp).
  unfold is_new_aux in *.
  destruct (is_new_file prev sym) eqn:Hfile; cbn [orb] in *.
  - destruct Hshape as (Hdone & Hg & _). split.
    + unfold walk_groups at 1. rewrite Hdone, Hg, length_app. done.
    + eexists _, _. split; [exact Hg|]. split; [done|].
      split; [left|]. cbn. done.
  - destruct Hshape as (g0 & Hg0 & Hdone & _ & Hshape).
    destruct prev as [p|]; [|done]. cbn [is_new_file] in Hfile.
    apply negb_false_iff, bool_decide_eq_true in Hfile.
    destruct Hcur as [?|(p' & g & aux & [= <-] & Hg & Hgfile & Haux & Hother)];
      [done|].
    assert (g0 = g) as -> by congruence.
    assert (soname_of files p = soname_of files sym) as Hso
      by (unfold soname_of; by rewrite Hfile).
    split.
    { unfold walk_groups. rewrite Hdone, Hg0.
      destruct (negb (ver_idx p =? ver_idx sym));
        destruct Hshape as [-> _]; rewrite !length_app; simpl; lia. }
    destruct (negb (ver_idx p =? ver_idx sym)); destruct Hshape as [Hg' _].
    + eexists _, _. split; [exact Hg'|]. cbn. split; [congruence|].
      split; [apply elem_of_app; right; left|]. done.
    + exists g, aux. rewrite Z.add_0_r. split; [done|]. split; [congruence|].
      done.
Qed.

(** *** The walk *)

Lemma walk_spec syms : ∀ prev st v0,
  prev = None ∨ is_Some (w_verneed st) →
  w_veridx st = to_u16 v0 →
  let st' := walk files stale_cnt prev syms st in
  w_veridx st'
    = to_u16 (v0 + Z.of_nat (length (new_starts is_new_aux prev syms))) ∧
  w_info st'
    = w_info st + Z.of_nat (length (new_starts is_new_file prev syms)) ∧
  vn_file <$> walk_groups st' =
    (vn_file <$> walk_groups st)
      ++ (soname_of files <$> new_starts is_new_file prev syms) ∧
  walk_groups st' ≫= vn_aux =
    (walk_groups st ≫= vn_aux)
      ++ imap (λ j s, mkVernaux (to_u16 (v0 + Z.of_nat j + 1)) (version s))
              (new_starts is_new_aux prev syms) ∧
  (groups_counted stale_cnt (walk_groups st) →
   groups_counted stale_cnt (walk_groups st')) ∧
  length (w_versym st') = length (w_versym st) ∧
  (∀ q : nat, (∀ s, s ∈ syms → dynsym_idx s ≠ q) →
              w_versym st' !! q = w_versym st !! q) ∧
  (NoDup (dynsym_idx <$> syms) →
   (∀ s, s ∈ syms → (dynsym_idx s < length (w_versym st))%nat) →
   ∀ (i : nat) s, syms !! i = Some s →
     w_versym st' !! dynsym_idx s =
     Some (to_u16 (v0 + Z.of_nat
             (length (new_starts is_new_aux prev (take (S i) syms)))))).
Proof using Type.
  induction syms as [|sym rest IH]; intros prev st v0 Hgroup Hv; cbv zeta.
  { cbn. rewrite Z.add_0_r, !app_nil_r.
    repeat (split; [done || lia|]). intros _ _ i s Hi. done. }
  cbn [walk new_starts].
  destruct (walk_step_spec prev sym st v0 Hgroup Hv)
    as (S1 & S2 & S3 & S4 & S5 & S6 & S7).
  set (st1 := walk_step files stale_cnt prev sym st) in *.
  set (b := if is_new_aux prev sym then 1 else 0) in *.
  destruct (IH (Some sym) st1 (v0 + b) (or_intror S7) S1)
    as (R1 & R2 & R3 & R4 & R5 & R6 & R7 & R8).
  assert (length (if is_new_aux prev sym then [sym] else [])
          = Z.to_nat b) as Hb by (subst b; by destruct (is_new_aux prev sym)).
  assert (0 ≤ b) as Hb0 by (subst b; destruct (is_new_aux prev sym); lia).
  split; [|split; [|split; [|split; [|split; [|split; [|split]]]]]].
  - rewrite R1, length_app, Hb. f_equal. lia.
  - rewrite R2, S2, length_app.
    destruct (is_new_file prev sym); simpl length; lia.
  - rewrite R3, S3, fmap_app, <- app_assoc. f_equal.
    by destruct (is_new_file prev sym).
  - rewrite R4, S4, <- app_assoc. f_equal. subst b.
    destruct (is_new_aux prev sym); cbn.
    + f_equal; [do 2 f_equal; lia|]. apply imap_ext. intros j s _. cbn.
      do 2 f_equal. lia.
    + apply imap_ext. intros j s _. cbn. do 2 f_equal. lia.
  - intros Hok. by apply R5, S5.
  - by rewrite R6, S6, length_insert.
  - intros q Hq. rewrite R7.
    + rewrite S6. apply list_lookup_insert_ne. apply Hq. left.
    + intros s Hs. apply Hq. by right.
  - intros Hnd Hlt [|i] s Hi; cbn in Hi.
    + inversion Hi; subst s. cbn [take new_starts]. rewrite app_nil_r.
      apply NoDup_cons in Hnd as [Hnin _].
      rewrite R7.
      * rewrite S6, list_lookup_insert_eq by (apply Hlt; left).
        rewrite Hb. do 2 f_equal. lia.
      * intros s Hs Heq. apply Hnin. rewrite <- Heq.
        by apply list_elem_of_fmap_2.
    + cbn [take new_starts]. rewrite length_app, Hb.
      apply NoDup_cons in Hnd as [_ Hnd].
      rewrite (R8 Hnd) with (i := i); [do 2 f_equal; lia| |done].
      intros s' Hs'. rewrite S6, length_insert. apply Hlt. by right.
Qed.

Lemma walk_grows syms : ∀ prev st (k : nat) g,
  prev = None ∨ is_Some (w_verneed st) →
  walk_groups st !! k = Some g →
  ∃ g', walk_groups (walk files stale_cnt prev syms st) !! k = Some g' ∧
        vn_file g' = vn_file g ∧ ∀ aux, aux ∈ vn_aux g → aux ∈ vn_aux g'.
Proof using Type.
  induction syms as [|sym rest IH]; intros prev st k g Hgroup Hk.
  { by exists g. }
  cbn [walk].
  destruct (walk_step_grows prev sym st k g Hgroup Hk) as (g1 & Hk1 & Hf1 & Ha1).
  pose proof (walk_step_some prev sym st Hgroup) as S7.
  destruct (IH (Some sym) _ k g1 (or_intror S7) Hk1) as (g' & Hk' & Hf' & Ha').
  exists g'. split; [done|]. split; [congruence|]. auto.
Qed.

(** Every symbol of the walk has its entry in the group of its file: the
    group of the last file boundary at or before the symbol holds the entry
    of the last version boundary at or before it. *)
Lemma walk_member syms : ∀ prev st v0,
  (prev = None ∨
   ∃ p g aux, prev = Some p ∧ w_verneed st = Some g ∧
              vn_file g = soname_of files p ∧ aux ∈ vn_aux g ∧
              vna_other aux = to_u16 v0) →
  w_veridx st = to_u16 v0 →
  ∀ (i : nat) s, syms !! i = Some s →
    ∃ g aux,
      walk_groups (walk files stale_cnt prev syms st)
        !! pred (length (walk_groups st)
                 + length (new_starts is_new_file prev (take (S i) syms)))
      = Some g ∧
      vn_file g = soname_of files s ∧ aux ∈ vn_aux g ∧
      vna_other aux =
      to_u16 (v0 + Z.of_nat
                (length (new_starts is_new_aux prev (take (S i) syms)))).
Proof using Type.
  induction syms as [|sym rest IH]; intros prev st v0 Hcur Hv i s Hi; [done|].
  assert (prev = None ∨ is_Some (w_verneed st)) as Hgroup.
  { destruct Hcur as [?|(p & g & aux & _ & Hg & _)]; [by left|].
    right. by eexists. }
  destruct (walk_step_current prev sym st v0 Hcur Hv)
    as (Hlen & g1 & aux1 & Hg1 & Hf1 & Ha1 & Ho1).
  destruct (walk_step_spec prev sym st v0 Hgroup Hv)
    as (S1 & _ & _ & _ & _ & _ & S7).
  set (st1 := walk_step files stale_cnt prev sym st) in *.
  set (b := if is_new_aux prev sym then 1 else 0) in *.
  assert (length (if is_new_aux prev sym then [sym] else [])
          = Z.to_nat b) as Hb by (subst b; by destruct (is_new_aux prev sym)).
  assert (0 ≤ b) as Hb0 by (subst b; destruct (is_new_aux prev sym); lia).
  assert (length (if is_new_file prev sym then [sym] else [])
          = (if is_new_file prev sym then 1 else 0)%nat) as Hf
    by (by destruct (is_new_file prev sym)).
  cbn [walk]. destruct i as [|i]; cbn in Hi.
  - inversion Hi; subst s. cbn [take new_starts]. rewrite !app_nil_r, Hf, Hb.
    rewrite <- Hlen.
    assert (walk_groups st1 !! pred (length (walk_groups st1)) = Some g1)
      as Hk1.
    { unfold walk_groups. rewrite Hg1.
      change (option_list (Some g1)) with [g1].
      rewrite length_app. change (length [g1]) with 1%nat.
      rewrite Nat.add_1_r, Nat.pred_succ. by apply list_lookup_middle. }
    destruct (walk_grows rest (Some sym) st1 _ g1 (or_intror S7) Hk1)
      as (g' & Hk' & Hf' & Ha').
    exists g', aux1. split; [done|]. split; [congruence|].
    split; [by apply Ha'|]. rewrite Ho1. f_equal. lia.
  - cbn [take new_starts]. rewrite !length_app, Hf, Hb.
    destruct (IH (Some sym) st1 (v0 + b)) with (i := i) (s := s)
      as (g & aux & Hk & Hgf & Haux & Hother); [|done|done|].
    { right. by exists sym, g1, aux1. }
    exists g, aux. rewrite Hlen in Hk.
    rewrite <- Nat.add_assoc in Hk. split; [done|]. split; [done|].
    split; [done|]. rewrite Hother. f_equal. lia.
Qed.

End VerneedFacts.


(** *** The sort *)

Lemma sort_insert_perm {A : Type} (less : A → A → bool) x l :
  sort_insert less x l ≡ₚ x :: l.
Proof.
  induction l as [|y l IH]; [done|]. simpl.
  destruct (less y x); [|done]. rewrite IH. apply Permutation_swap.
Qed.

Lemma sort_perm {A : Type} (less : A → A → bool) l : sort less l ≡ₚ l.
Proof.
  induction l as [|x l IH]; [done|].
  unfold sort in *. simpl. by rewrite sort_insert_perm, IH.
Qed.

Lemma sort_insert_sorted {A : Type} (less : A → A → bool) x l :
  (∀ a b, less a b = true → less b a = false) →
  Sorted (λ a b, less b a = false) l →
  Sorted (λ a b, less b a = false) (sort_insert less x l).
Proof.
  intros Hasym. induction l as [|y l IH]; intros Hs; simpl.
  { repeat constructor. }
  apply Sorted_inv in Hs as [Hs Hhd].
  destruct (less y x) eqn:Hyx.
  - apply Sorted_cons; [by apply IH|].
    destruct l as [|z l]; simpl.
    + constructor. by apply Hasym.
    + apply HdRel_inv in Hhd. destruct (less z x); constructor; [done|].
      by apply Hasym.
  - apply Sorted_cons; [by apply Sorted_cons|]. by constructor.
Qed.

Lemma sort_sorted {A : Type} (less : A → A → bool) l :
  (∀ a b, less a b = true → less b a = false) →
  Sorted (λ a b, less b a = false) (sort less l).
Proof.
  intros Hasym. induction l as [|x l IH]; [constructor|].
  unfold sort in *. simpl. by apply sort_insert_sorted.
Qed.

Lemma verneed_less_asym files a b :
  verneed_less files a b = true → verneed_less files b a = false.
Proof.
  unfold verneed_less.
  rewrite (String.compare_antisym (soname_of files b) (soname_of files a)).
  destruct (String.compare (soname_of files a) (soname_of files b));
    simpl; try done.
  intros Hlt%Z.ltb_lt. apply Z.ltb_ge. lia.
Qed.

(** *** The selection *)

Lemma selected_spec files dynsym s :
  s ∈ selected files dynsym ↔
  ∃ p : nat, (1 ≤ p)%nat ∧ dynsym !! p = Some (Some s) ∧
             needs_version files s = true.
Proof.
  unfold selected. rewrite list_elem_of_filter, list_elem_of_omap. split.
  - intros (Hneed & x & [i Hi]%list_elem_of_lookup & Hx).
    simpl in Hx. subst x. rewrite lookup_drop in Hi.
    exists (1 + i)%nat. split; [lia|done].
  - intros (p & Hp & Hlook & Hneed). split; [done|].
    exists (Some s). split; [|done]. apply list_elem_of_lookup.
    exists (p - 1)%nat. rewrite lookup_drop. by replace (1 + (p - 1))%nat with p by lia.
Qed.

Lemma needs_version_spec files s :
  needs_version files s = true ↔
  (∃ a f, file s = Some a ∧ files !! a = Some f ∧ is_dso f = true) ∧
  VER_NDX_LAST_RESERVED < ver_idx s.
Proof.
  unfold needs_version. split.
  - destruct (file s) as [a|]; [|done].
    destruct (files !! a) as [f|] eqn:Hf; [|done].
    intros [Hdso Hver%Z.ltb_lt]%andb_true_iff. split; [|done]. by exists a, f.
  - intros [(a & f & -> & -> & Hdso) Hver%Z.ltb_lt]. by rewrite Hdso, Hver.
Qed.

Lemma omap_indexed_NoDup (l : list (option Symbol)) (off : nat) :
  (∀ (p : nat) s, l !! p = Some (Some s) → dynsym_idx s = (off + p)%nat) →
  NoDup (dynsym_idx <$> omap id l).
Proof.
  revert off. induction l as [|x l IH]; intros off Hidx; [constructor|].
  assert (NoDup (dynsym_idx <$> omap id l)) as Hrest.
  { apply (IH (S off)). intros p s Hp. rewrite (Hidx (S p) s Hp). lia. }
  destruct x as [s|]; [|done]. cbn. constructor; [|done].
  intros (s' & Heq & (x & [p Hp]%list_elem_of_lookup & Hx)%list_elem_of_omap)
    %list_elem_of_fmap.
  simpl in Hx. subst x.
  pose proof (Hidx 0%nat s eq_refl). pose proof (Hidx (S p) s' Hp). lia.
Qed.

Lemma selected_indexed files dynsym :
  dynsym_indexed dynsym →
  NoDup (dynsym_idx <$> selected files dynsym) ∧
  ∀ s, s ∈ selected files dynsym →
       (1 ≤ dynsym_idx s < length dynsym)%nat.
Proof.
  intros Hidx. split.
  - unfold selected. eapply sublist_NoDup.
    + apply (omap_indexed_NoDup (drop 1 dynsym) 1).
      intros p s Hp. rewrite lookup_drop in Hp. by apply Hidx.
    + apply fmap_sublist, sublist_filter.
  - intros s (p & Hp & Hlook & _)%selected_spec.
    rewrite (Hidx p s Hlook). apply lookup_lt_Some in Hlook. lia.
Qed.


(** *** Groups and distinct files *)

Lemma ascii_compare_refl c : Ascii.compare c c = Eq.
Proof. unfold Ascii.compare. apply N.compare_refl. Qed.

Lemma string_compare_refl s : String.compare s s = Eq.
Proof.
  induction s as [|c s IH]; [done|]. simpl. by rewrite ascii_compare_refl.
Qed.

Lemma string_compare_lt_trans a b c :
  String.compare a b = Lt → String.compare b c = Lt → String.compare a c = Lt.
Proof.
  revert b c. induction a as [|c1 a IH]; intros [|c2 b] [|c3 c]; simpl;
    try done.
  destruct (Ascii.compare c1 c2) eqn:H12; [|clear IH|done];
    (destruct (Ascii.compare c2 c3) eqn:H23; [| |done]).
  - apply Ascii.compare_eq_iff in H12, H23. subst c2 c3.
    rewrite ascii_compare_refl. apply IH.
  - apply Ascii.compare_eq_iff in H12. subst c2. by rewrite H23.
  - apply Ascii.compare_eq_iff in H23. subst c3. by rewrite H12.
  - intros _ _. unfold Ascii.compare in *.
    apply N.compare_lt_iff in H12. apply N.compare_lt_iff in H23.
    assert ((N_of_ascii c1 ?= N_of_ascii c3)%N = Lt) as ->; [|done].
    apply N.compare_lt_iff. by etrans.
Qed.

Global Instance soname_le_trans files : Transitive (soname_le files).
Proof.
  intros a b c. unfold soname_le.
  destruct (String.compare (soname_of files a) (soname_of files b)) eqn:Hab;
    [| |done]; intros _.
  - apply String.compare_eq_iff in Hab. by rewrite Hab.
  - destruct (String.compare (soname_of files b) (soname_of files c)) eqn:Hbc;
      [| |done]; intros _.
    + apply String.compare_eq_iff in Hbc. by rewrite <- Hbc, Hab.
    + by rewrite (string_compare_lt_trans _ _ _ Hab Hbc).
Qed.

Lemma soname_le_antisym files a b :
  soname_le files a b → soname_le files b a →
  soname_of files a = soname_of files b.
Proof.
  unfold soname_le. rewrite (String.compare_antisym (soname_of files b)).
  destruct (String.compare (soname_of files a) (soname_of files b)) eqn:Hab;
    simpl; try done.
  intros _ _. by apply String.compare_eq_iff.
Qed.

Lemma verneed_le_soname files a b :
  verneed_le files a b → soname_le files a b.
Proof.
  unfold verneed_le, verneed_less, soname_le.
  rewrite (String.compare_antisym (soname_of files b)).
  by destruct (String.compare (soname_of files a) (soname_of files b)).
Qed.

Lemma soname_of_file files a b :
  file a = file b → soname_of files a = soname_of files b.
Proof. unfold soname_of. by intros ->. Qed.

(** Every symbol of the walk is in the group of its file. *)
Lemma new_starts_cover prev syms s :
  s ∈ syms →
  file s ∈ file <$> new_starts is_new_file prev syms ∨
  ∃ p, prev = Some p ∧ file p = file s.
Proof.
  revert prev. induction syms as [|x rest IH]; intros prev Hs.
  { by apply elem_of_nil in Hs. }
  cbn [new_starts].
  assert (file x ∈ file <$> ((if is_new_file prev x then [x] else [])
                             ++ new_starts is_new_file (Some x) rest)
          ∨ ∃ p, prev = Some p ∧ file p = file x) as Hx.
  { destruct (is_new_file prev x) eqn:Hnew.
    - left. simpl. left.
    - right. destruct prev as [p|]; [|done]. exists p. split; [done|].
      simpl in Hnew. apply negb_false_iff in Hnew.
      by apply bool_decide_eq_true in Hnew. }
  apply elem_of_cons in Hs as [->|Hs]; [done|].
  destruct (IH (Some x) Hs) as [Hin|(p & [= <-] & Hp)].
  - left. rewrite fmap_app. apply elem_of_app. by right.
  - by rewrite <- Hp.
Qed.

(** In a walk sorted by soname, with sonames that identify the files, the
    groups are for pairwise distinct files. *)
Lemma new_starts_distinct files syms : ∀ prev,
  StronglySorted (soname_le files) (option_list prev ++ syms) →
  sonames_identify files (option_list prev ++ syms) →
  NoDup (file <$> new_starts is_new_file prev syms) ∧
  ∀ p z, prev = Some p → z ∈ new_starts is_new_file prev syms →
         file z ≠ file p.
Proof.
  induction syms as [|x rest IH]; intros prev Hsorted Hid.
  { split; [constructor|]. intros p z _ Hz. by apply elem_of_nil in Hz. }
  assert (StronglySorted (soname_le files) (x :: rest)) as Hxs.
  { destruct prev; [|done]. simpl in Hsorted.
    by apply StronglySorted_inv in Hsorted as [? _]. }
  assert (sonames_identify files (x :: rest)) as Hidx.
  { intros a b Ha Hb. apply Hid; apply elem_of_app; by right. }
  destruct (IH (Some x) Hxs Hidx) as [IHnd IHne].
  cbn [new_starts]. split.
  - destruct (is_new_file prev x); [|done]. simpl. constructor; [|done].
    intros (z & Hz & Hin)%list_elem_of_fmap. by apply (IHne x z).
  - intros p z -> Hz. simpl in Hsorted, Hid.
    assert (z ∈ new_starts is_new_file (Some x) rest → file z ≠ file p)
      as Hrest.
    { intros Hin Heq. apply (IHne x z eq_refl Hin).
      assert (z ∈ rest) as Hzr.
      { clear -Hin. revert Hin. generalize (Some x).
        induction rest as [|y rest IHr]; intros q Hin; simpl in Hin.
        - by apply elem_of_nil in Hin.
        - apply elem_of_app in Hin as [Hin|Hin].
          + destruct (is_new_file q y); [|by apply elem_of_nil in Hin].
            apply list_elem_of_singleton in Hin as ->. left.
          + right. by eapply IHr. }
      apply StronglySorted_inv in Hsorted as [Hs1 Hp].
      apply StronglySorted_inv in Hs1 as [_ Hx].
      rewrite Forall_forall in Hp, Hx.
      assert (soname_le files p x) as Hpx by (apply Hp; left).
      assert (soname_le files x z) as Hxz by (by apply Hx).
      assert (soname_of files z = soname_of files p) as Hzp
        by (by apply soname_of_file).
      assert (soname_of files p = soname_of files x) as Hsx.
      { apply soname_le_antisym; [done|].
        unfold soname_le in *. by rewrite <- Hzp. }
      rewrite Heq. apply Hid; [left|right; left|done]. }
    destruct (is_new_file (Some p) x) eqn:Hnew; [|by apply Hrest].
    apply elem_of_cons in Hz as [->|Hz]; [|by apply Hrest].
    simpl in Hnew. apply negb_true_iff in Hnew.
    apply bool_decide_eq_false in Hnew. congruence.
Qed.

Lemma Sorted_weaken {A : Type} (R R' : A → A → Prop) l :
  (∀ a b, R a b → R' a b) → Sorted R l → Sorted R' l.
Proof.
  intros Himpl. induction 1 as [|x l Hs IH Hhd]; constructor; [done|].
  destruct Hhd; constructor. by apply Himpl.
Qed.

(** One group per distinct file of the walk. *)
Lemma verneed_groups_distinct files sorted :
  Sorted (verneed_le files) sorted → sonames_identify files sorted →
  NoDup (file <$> new_starts is_new_file None sorted) ∧
  ∀ s, s ∈ sorted → file s ∈ file <$> new_starts is_new_file None sorted.
Proof.
  intros Hsorted Hid. split.
  - apply (new_starts_distinct files sorted None); [|done]. simpl.
    apply Sorted_StronglySorted; [apply _|].
    eapply Sorted_weaken; [|exact Hsorted]. apply verneed_le_soname.
  - intros s Hs.
    destruct (new_starts_cover None sorted s Hs) as [?|(p & ? & _)]; done.
Qed.


(** C7, the claim as amended: [fill_verneed] selects exactly the entries
    of [.dynsym] past index 0 whose file is a shared library and whose
    [ver_idx] is above [VER_NDX_LAST_RESERVED], and walks them sorted by
    (soname, ver_idx).  When there is none it leaves the tables as they
    are.  Otherwise, when the selected symbols have [dynsym_idx] that are
    pairwise distinct, within [.dynsym] and not 0, it emits one [Verneed]
    group at each change of file in the walk, for that file's soname, which
    is one group per distinct file when distinct libraries have distinct
    sonames, and one [Vernaux] at each change of file or of [ver_idx], in
    the group of that file; the entries are numbered by a [u16] counter that
    starts at [VER_NDX_LAST_RESERVED + |version_definitions|] and is
    incremented once per entry; [.gnu.version] gets the size of [.dynsym],
    0 at index 0, and at the index of every selected symbol the value of the
    counter when the walk is at that symbol.  The count [vn_cnt] of a group
    is the number of its entries added to what the buffer held at the place
    of the group, which is 0 in a buffer that is new. *)
Theorem fill_verneed_spec files stale_cnt dynsym vds tables :
  slots_distinct files dynsym →
  let sel := selected files dynsym in
  let sorted := sort (verneed_less files) sel in
  let out := fill_verneed files stale_cnt dynsym vds tables in
  (∀ s, s ∈ sorted ↔
        ∃ p : nat, (1 ≤ p)%nat ∧ dynsym !! p = Some (Some s) ∧
          (∃ a f, file s = Some a ∧ files !! a = Some f ∧ is_dso f = true) ∧
          VER_NDX_LAST_RESERVED < ver_idx s) ∧
  sorted ≡ₚ sel ∧ Sorted (verneed_le files) sorted ∧
  (sel = [] → out = tables) ∧
  (sel ≠ [] →
   verneed_filled files stale_cnt dynsym tables out sorted
     (VER_NDX_LAST_RESERVED + Z.of_nat (length vds))) ∧
  (sonames_identify files sorted →
   NoDup (file <$> new_starts is_new_file None sorted) ∧
   ∀ s, s ∈ sorted → file s ∈ file <$> new_starts is_new_file None sorted).
Proof.
  intros [Hnd Hrange]. cbv zeta.
  pose proof (sort_perm (verneed_less files) (selected files dynsym)) as Hperm.
  assert (Sorted (verneed_le files)
            (sort (verneed_less files) (selected files dynsym))) as Hsorted
    by apply sort_sorted, verneed_less_asym.
  split; [|split; [done|split; [done|split; [|split]]]].
  2: { intros Hsel. unfold fill_verneed. destruct dynsym as [|d0 dyn]; [done|].
       fold (selected files (d0 :: dyn)). by rewrite Hsel. }
  3: { by apply verneed_groups_distinct. }
  - intros s. rewrite Hperm, selected_spec.
    by setoid_rewrite needs_version_spec.
  - intros Hsel. unfold fill_verneed.
    destruct dynsym as [|d0 dyn]; [done|].
    fold (selected files (d0 :: dyn)).
    set (dynsym := d0 :: dyn) in *.
    destruct (selected files dynsym) as [|s0 sel'] eqn:Hseleq; [done|].
    rewrite <- Hseleq in *. clear Hsel.
    set (sorted := sort (verneed_less files) (selected files dynsym)) in *.
    set (base := VER_NDX_LAST_RESERVED + Z.of_nat (length vds)).
    set (contents := <[0%nat:=0]> (resize (length dynsym) 1 (versym tables))).
    set (st0 := mkWalk [] None (to_u16 base) contents (verneed_info tables)).
    assert (length contents = length dynsym) as Hlen
      by (subst contents; by rewrite length_insert, length_resize).
    destruct (walk_spec files stale_cnt sorted None st0 base
                (or_introl eq_refl) eq_refl)
      as (_ & R2 & R3 & R4 & R5 & R6 & R7 & R8).
    pose proof (walk_member files stale_cnt sorted None st0 base
                  (or_introl eq_refl) eq_refl) as R9.
    fold (walk_groups (walk files stale_cnt None sorted st0)).
    set (st' := walk files stale_cnt None sorted st0) in *.
    assert (∀ s, s ∈ sorted → (1 ≤ dynsym_idx s < length dynsym)%nat)
      as Hrange'.
    { intros s Hs. apply Hrange. by rewrite <- Hperm. }
    unfold verneed_filled. cbn [versym verneed verneed_info].
    split; [exact R3|]. split; [exact R2|].
    split; [apply R5, groups_counted_nil|]. split; [exact R4|].
    split; [exact R9|].
    split; [by rewrite R6|]. split; [|split].
    + rewrite R7.
      * subst st0 contents. cbn. apply list_lookup_insert_eq.
        rewrite length_resize. subst dynsym. simpl. lia.
      * intros s Hs. specialize (Hrange' s Hs). lia.
    + apply R8.
      * by rewrite Hperm.
      * intros s Hs. specialize (Hrange' s Hs). cbn. lia.
    + intros p Hp Hnot. rewrite R7 by done.
      subst st0 contents. cbn. apply list_lookup_insert_ne. lia.
Qed.

Lemma fill_verneed_spec_witness :
  slots_distinct files_two dynsym_four ∧
  verneed_filled files_two no_stale dynsym_four (mkTables [] [] 0)
    (fill_verneed files_two no_stale dynsym_four ["V1"%string]
       (mkTables [] [] 0))
    (sort (verneed_less files_two) (selected files_two dynsym_four))
    (VER_NDX_LAST_RESERVED + 1).
Proof.
  assert (H1 : slots_distinct files_two dynsym_four).
  { apply selected_indexed. intros p s Hp.
    do 6 (destruct p as [|p]; [simpl in Hp; by inversion Hp|]).
    simpl in Hp. discriminate Hp. }
  assert (H2 : selected files_two dynsym_four ≠ [])
    by (vm_compute; discriminate).
  exact (conj H1
    (proj1 (proj2 (proj2 (proj2 (proj2
       (fill_verneed_spec files_two no_stale dynsym_four ["V1"%string]
          (mkTables [] [] 0) H1))))) H2)).
Defined.

(** With 65535 version definitions the counter, a [u16], starts at 0. *)
Lemma verneed_stated_wraps vds :
  Z.of_nat (length vds) = 65535 →
  ¬ verneed_stated files_two dynsym_one vds
      (fill_verneed files_two no_stale dynsym_one vds (mkTables [] [] 0)).
Proof.
  intros Hlen H. unfold verneed_stated in H. cbv zeta in H.
  destruct H as (_ & Haux & _). unfold fill_verneed in Haux.
  rewrite Hlen in Haux. vm_compute in Haux. discriminate Haux.
Qed.

Lemma versions_many_length : Z.of_nat (length versions_many) = 65535.
Proof.
  unfold versions_many.
  rewrite length_app, length_replicate, Nat2Z.inj_add, Z2Nat.id by lia.
  reflexivity.
Qed.

(** C7 as stated fails in five ways, each on a new buffer.
    - When no symbol is selected the pass returns before it resizes
      [.gnu.version]: with one symbol of an object file and an empty
      [.gnu.version] there is no index 0 to hold a 0 afterwards.
    - A group is started at each change of file in the walk: two libraries
      with the same soname whose symbols alternate in the order of their
      versions get three groups for two files.
    - The slot of a symbol in [.gnu.version] is the one at its
      [dynsym_idx]: two selected symbols with the same [dynsym_idx] share
      it, and it holds the counter of the later one; and a selected symbol
      whose [dynsym_idx] is 0 has its counter written over the 0 at index
      0.
    - The counter is a [u16]: with 65535 version definitions it starts at
      0, and the first entry is numbered 1, not 65537. *)
Lemma fill_verneed_stated_counterexample :
  ¬ verneed_stated files_two dynsym_unversioned []
      (fill_verneed files_two no_stale dynsym_unversioned []
         (mkTables [] [] 0)) ∧
  ¬ verneed_stated files_same_soname dynsym_alternate []
      (fill_verneed files_same_soname no_stale dynsym_alternate []
         (mkTables [] [] 0)) ∧
  ¬ verneed_stated files_two dynsym_same_slot []
      (fill_verneed files_two no_stale dynsym_same_slot []
         (mkTables [] [] 0)) ∧
  ¬ verneed_stated files_two dynsym_slot_zero []
      (fill_verneed files_two no_stale dynsym_slot_zero []
         (mkTables [] [] 0)) ∧
  ¬ verneed_stated files_two dynsym_one versions_many
      (fill_verneed files_two no_stale dynsym_one versions_many
         (mkTables [] [] 0)).
Proof.
  split; [|split; [|split; [|split]]].
  - intros (_ & _ & Hzero & _). vm_compute in Hzero. discriminate Hzero.
  - intros (Hgroups & _). vm_compute in Hgroups. discriminate Hgroups.
  - intros (_ & _ & _ & Hslot).
    specialize (Hslot 0%nat _ eq_refl). vm_compute in Hslot.
    discriminate Hslot.
  - intros (_ & _ & Hzero & _). vm_compute in Hzero. discriminate Hzero.
  - apply verneed_stated_wraps, versions_many_length.
Qed.


(** * Properties of the other passes *)

Lemma osec_step_same_input PAGE_SIZE st c :
  same_input c (osec_step PAGE_SIZE st c).1.
Proof.
  destruct (osec_step_frame PAGE_SIZE st c) as (H1 & H2 & H3 & H4 & H5 & H6).
  repeat (split; [done|]). apply osec_step_addr_keep.
Qed.

Lemma osec_step_same PAGE_SIZE st c c' :
  same_input c c' → osec_step PAGE_SIZE st c' = osec_step PAGE_SIZE st c.
Proof.
  destruct c as [[t f a o s al] np npe], c' as [[t' f' a' o' s' al'] np' npe'].
  unfold same_input, is_alloc. simpl.
  intros (-> & -> & -> & -> & -> & -> & Ha).
  unfold osec_step, is_alloc, is_tbss, is_bss, set_sh_addr, set_sh_offset.
  simpl. destruct (has_flag f SHF_ALLOC); [done|]. by rewrite Ha.
Qed.

Lemma osec_loop_same_input PAGE_SIZE st chunks :
  Forall2 same_input chunks (osec_loop PAGE_SIZE st chunks).1.
Proof.
  revert st. induction chunks as [|c rest IH]; intros st; [constructor|].
  rewrite osec_loop_cons. cbn [fst]. constructor; [|apply IH].
  apply osec_step_same_input.
Qed.

Lemma osec_loop_same PAGE_SIZE st chunks chunks' :
  Forall2 same_input chunks chunks' →
  osec_loop PAGE_SIZE st chunks' = osec_loop PAGE_SIZE st chunks.
Proof.
  intros H. revert st. induction H as [|c c' rest rest' Hc Hrest IH]; intros st;
    [done|].
  rewrite !osec_loop_cons. rewrite (osec_step_same _ _ _ _ Hc). by rewrite IH.
Qed.

(** X2: [set_osec_offsets] writes nothing but [sh_offset] and, for the
    chunks with [SHF_ALLOC], [sh_addr]: the number of chunks, their order
    and every other field are as they were. *)
Theorem set_osec_offsets_frame PAGE_SIZE image_base chunks :
  Forall2 same_input chunks (set_osec_offsets PAGE_SIZE image_base chunks).1.
Proof.
  unfold set_osec_offsets.
  pose proof (osec_loop_same_input PAGE_SIZE
                (mkLayout 0 (to_i64 image_base)) chunks) as H.
  by destruct (osec_loop _ _ _).
Qed.

(** X3: [set_osec_offsets] can be run again on its result: the offsets, the
    addresses and the file size it returns are the same. *)
Theorem set_osec_offsets_idempotent PAGE_SIZE image_base chunks :
  set_osec_offsets PAGE_SIZE image_base
    (set_osec_offsets PAGE_SIZE image_base chunks).1
  = set_osec_offsets PAGE_SIZE image_base chunks.
Proof.
  unfold set_osec_offsets.
  pose proof (osec_loop_same PAGE_SIZE (mkLayout 0 (to_i64 image_base)) chunks
    _ (osec_loop_same_input PAGE_SIZE (mkLayout 0 (to_i64 image_base)) chunks))
    as H.
  destruct (osec_loop PAGE_SIZE _ chunks) as [out st] eqn:Hloop.
  cbn [fst] in *. by rewrite H.
Qed.

Lemma align_to_aligned v k :
  0 ≤ k < 64 → is_u64 v → (2 ^ k | v) → align_to v (2 ^ k) = v.
Proof.
  intros Hk Hv [q Hq]. rewrite align_to_pow2 by done.
  assert (0 < 2 ^ k) as HP by (apply pow2_pos; lia).
  destruct (pow2_divides_word k) as [w Hw]; [lia|].
  unfold is_u64 in Hv.
  assert (q < w) by nia. assert (0 ≤ q) by nia.
  assert (v + 2 ^ k - 1 < 2 ^ 64) by nia.
  rewrite to_u64_small by (unfold is_u64; lia).
  replace (v + 2 ^ k - 1) with ((2 ^ k - 1) + q * 2 ^ k) at 2 by lia.
  rewrite Z.mod_add by lia. rewrite Z.mod_small by lia. lia.
Qed.

(** X4: the first chunk is placed at file offset 0, and at [image_base] when
    it is allocated, provided [image_base] is a multiple of the page size
    and of the chunk's alignment. *)
Theorem set_osec_offsets_first PAGE_SIZE page_bits image_base c rest :
  0 ≤ page_bits < 63 → PAGE_SIZE = 2 ^ page_bits →
  is_pow2 (sh_addralign (shdr c)) = true →
  0 ≤ image_base < 2 ^ 63 →
  (PAGE_SIZE | image_base) → (sh_addralign (shdr c) | image_base) →
  ∃ c', (set_osec_offsets PAGE_SIZE image_base (c :: rest)).1 !! 0%nat = Some c' ∧
        sh_offset (shdr c') = 0 ∧
        (is_alloc c = true → sh_addr (shdr c') = image_base).
Proof.
  intros Hbits HP Hpow Hbase HdivP Hdiva.
  apply is_pow2_spec in Hpow as (k & Hk & Hal).
  unfold set_osec_offsets. rewrite osec_loop_cons.
  set (st := mkLayout 0 (to_i64 image_base)).
  destruct (osec_loop PAGE_SIZE (osec_step PAGE_SIZE st c).2 rest)
    as [out st'] eqn:Hloop.
  cbn [fst snd]. eexists. split; [reflexivity|].
  assert (0 < PAGE_SIZE) as HPpos by (subst; apply pow2_pos; lia).
  assert (PAGE_SIZE < 2 ^ 63) as HPlt.
  { subst. apply Z.pow_lt_mono_r; lia. }
  assert (to_i64 image_base = image_base) as Hib
    by (apply to_i64_small; unfold is_i64; lia).
  assert (to_u64 image_base = image_base) as Hub
    by (apply to_u64_small; unfold is_u64; lia).
  assert (to_u64 PAGE_SIZE = PAGE_SIZE) as HuP
    by (apply to_u64_small; unfold is_u64; lia).
  assert (chunk_vaddr PAGE_SIZE st c = image_base) as Hv.
  { unfold chunk_vaddr, st. cbn [vaddr]. rewrite Hib, Hub, HuP.
    assert (align_to image_base PAGE_SIZE = image_base) as ->.
    { rewrite HP. apply align_to_aligned; [lia|unfold is_u64; lia|by rewrite <- HP]. }
    rewrite Hib. rewrite Tauto.if_same. rewrite Hub.
    rewrite Hal. rewrite align_to_aligned;
      [done|lia|unfold is_u64; lia|by rewrite <- Hal]. }
  assert (chunk_fileoff PAGE_SIZE st c = 0) as Hf.
  { unfold chunk_fileoff. rewrite Hv. cbn [fileoff st]. rewrite HuP.
    destruct HdivP as [q Hq].
    assert (image_base `rem` PAGE_SIZE = 0) as ->.
    { rewrite Hq. apply Z.rem_mul. lia. }
    unfold align_with_skew. change (to_u64 0) with 0.
    rewrite Z.add_0_l, Z.sub_0_r, HuP.
    rewrite HP at 1 2. rewrite align_to_aligned;
      [|lia|unfold is_u64; rewrite <- HP; lia|done].
    rewrite <- HP. replace (PAGE_SIZE - PAGE_SIZE + 0) with 0 by lia. done. }
  split.
  - rewrite osec_step_offset, Hf. done.
  - intros Ha. rewrite osec_step_addr by done. by rewrite Hv.
Qed.

Lemma set_osec_offsets_first_witness :
  ∃ c', (set_osec_offsets 4096 2097152 chunks_two_pages).1 !! 0%nat = Some c' ∧
        sh_offset (shdr c') = 0 ∧
        (is_alloc (mkChunk (mkShdr 1 SHF_ALLOC 0 0 4096 1) false false) = true →
         sh_addr (shdr c') = 2097152).
Proof.
  apply (set_osec_offsets_first 4096 12 2097152
           (mkChunk (mkShdr 1 SHF_ALLOC 0 0 4096 1) false false));
    [lia|reflexivity|reflexivity|lia|by exists 512|by exists 2097152].
Defined.

(** X5: the image starts at [image_base]: when the addresses of the layout
    stay in the positive [i64] range, [set_osec_offsets] gives every
    allocated chunk an address at or above [image_base]. *)
Theorem set_osec_offsets_above_base PAGE_SIZE page_bits image_base chunks :
  0 ≤ page_bits < 63 → PAGE_SIZE = 2 ^ page_bits →
  vaddr_fits PAGE_SIZE image_base chunks →
  Forall (λ c, is_alloc c = true → image_base ≤ sh_addr (shdr c))
         (set_osec_offsets PAGE_SIZE image_base chunks).1.
Proof.
  intros Hbits HP (Hall & Hbase & Hfit). unfold set_osec_offsets.
  assert (0 ≤ total_span (vaddr_span PAGE_SIZE) chunks) as Hnn.
  { apply total_span_nonneg. eapply Forall_impl; [exact Hall|].
    by apply (vaddr_span_pos PAGE_SIZE page_bits). }
  assert (to_i64 image_base = image_base) as Hib
    by (apply to_i64_small; unfold is_i64; lia).
  destruct (osec_loop_no_overlap PAGE_SIZE page_bits Hbits HP
              (mkLayout 0 (to_i64 image_base)) chunks) as [Hge _];
    [simpl; lia|done|simpl; lia|].
  destruct (osec_loop _ _ _) as [out st']. cbn [fst vaddr] in *.
  apply Forall_lookup_2. intros j Y HY HYa. rewrite <- Hib.
  by apply (Hge j Y).
Qed.

Lemma set_osec_offsets_above_base_witness :
  Forall (λ c, is_alloc c = true → 2097152 ≤ sh_addr (shdr c))
         (set_osec_offsets 4096 2097152 chunks_tbss).1.
Proof.
  apply (set_osec_offsets_above_base 4096 12); [lia|reflexivity|].
  split; [|split; [lia|reflexivity]].
  repeat constructor; unfold is_u64; simpl; lia.
Defined.


(** ** Alignment with a skew, once more *)

(** X6: [align_with_skew] does not move a value that it has produced: for
    an alignment that is a power of two, applying it again with the same
    alignment and skew returns the same value, whatever the value and the
    skew and whether or not the first sum wrapped. *)
Theorem align_with_skew_idempotent val align skew :
  is_pow2 align = true →
  align_with_skew (align_with_skew val align skew) align skew
  = align_with_skew val align skew.
Proof.
  intros (k & Hk & ->)%is_pow2_spec.
  assert (0 < 2 ^ k) as HP by (apply pow2_pos; lia).
  destruct (align_with_skew_mod val k skew Hk) as (d & Hd & Hr & Hdiv).
  set (r := align_with_skew val (2 ^ k) skew) in *.
  assert (is_u64 r) as Hru by (rewrite Hr; apply to_u64_range).
  assert ((2 ^ k | r - skew)) as Hrs.
  { apply (cong_trans _ _ (val + d)); [|done]. rewrite Hr.
    apply (cong_weaken _ (2 ^ 64)); [apply pow2_divides_word; lia|].
    unfold to_u64. rewrite Z.mod_eq by lia.
    exists (- ((val + d) `div` 2 ^ 64)). lia. }
  destruct (align_with_skew_mod r k skew Hk) as (d' & Hd' & -> & Hdiv').
  assert (d' = 0) as ->.
  { assert ((2 ^ k | d')) as [q Hq].
    { replace d' with ((r + d' - skew) - (r - skew)) by lia.
      by apply Z.divide_sub_r. }
    assert (q = 0) by nia. lia. }
  rewrite Z.add_0_r. by apply to_u64_small.
Qed.

Lemma align_with_skew_idempotent_witness :
  align_with_skew (align_with_skew 5000 4096 16) 4096 16
  = align_with_skew 5000 4096 16.
Proof. apply align_with_skew_idempotent. reflexivity. Defined.

(** ** [_end], [_etext] and [_edata] *)

Lemma fix_end_step_end syms chunk :
  sym_end (fix_end_step syms chunk) =
  if bool_decide (chunk_kind chunk ≠ HEADER) && is_alloc (chunk_of chunk)
  then stop (sym_end syms) chunk else sym_end syms.
Proof.
  unfold fix_end_step, is_alloc.
  destruct (bool_decide (chunk_kind chunk = HEADER)) eqn:Hk.
  - apply bool_decide_eq_true in Hk. by rewrite bool_decide_false by naive_solver.
  - apply bool_decide_eq_false in Hk. rewrite bool_decide_true by done.
    cbn [andb].
    by destruct (has_flag _ SHF_ALLOC), (has_flag _ SHF_EXECINSTR),
      (negb _).
Qed.

Lemma fix_end_step_edata syms chunk :
  sym_edata (fix_end_step syms chunk) =
  if bool_decide (chunk_kind chunk ≠ HEADER) && is_alloc (chunk_of chunk)
     && negb (is_bss (chunk_of chunk))
  then stop (sym_edata syms) chunk else sym_edata syms.
Proof.
  unfold fix_end_step, is_alloc, is_bss.
  destruct (bool_decide (chunk_kind chunk = HEADER)) eqn:Hk.
  - apply bool_decide_eq_true in Hk. by rewrite bool_decide_false by naive_solver.
  - apply bool_decide_eq_false in Hk. rewrite bool_decide_true by done.
    cbn [andb].
    by destruct (has_flag _ SHF_ALLOC), (has_flag _ SHF_EXECINSTR),
      (negb _).
Qed.

Lemma stop_is_Some sym chunk : is_Some (stop sym chunk) ↔ is_Some sym.
Proof. destruct sym; simpl; split; intros [? ?]; by eexists. Qed.

(** The value of a symbol that the loop sets at the chunks that satisfy
    [sel]: the end of the last such chunk, and what it was if there is
    none. *)
Lemma fix_end_last (get : EndSymbols → option SymbolValue)
    (sel : LaidChunk → bool) chunks syms s0 :
  (∀ syms chunk, get (fix_end_step syms chunk) =
                 if sel chunk then stop (get syms) chunk else get syms) →
  get syms = Some s0 →
  ∃ s, get (fix_end_symbols chunks syms) = Some s ∧
    match last (filter (λ c, sel c = true) chunks) with
    | Some c =>
        s = mkSymValue (chunk_shndx c)
              (to_u64 (sh_addr (shdr (chunk_of c)) + sh_size (shdr (chunk_of c))))
    | None => s = s0
    end.
Proof.
  intros Hstep. unfold fix_end_symbols. revert syms s0.
  induction chunks as [|c chunks IH] using rev_ind; intros syms s0 Hs.
  { exists s0. by split. }
  rewrite foldl_app. cbn [foldl]. rewrite Hstep, filter_app.
  destruct (IH syms s0 Hs) as (s & Hget & Hlast). rewrite Hget.
  rewrite filter_cons, filter_nil.
  destruct (decide (sel c = true)) as [Hc|Hc].
  - rewrite Hc, last_snoc. simpl. by eexists.
  - apply not_true_is_false in Hc. rewrite Hc, app_nil_r. by exists s.
Qed.

(** X7: [_end] and [_edata] after [fix_synthetic_symbols], on chunks laid out
    without overlap as [set_osec_offsets] leaves them.  If [ctx._end] is
    set and some chunk occupies addresses of the image, [_end] is at or
    above the end of every such chunk, and it is the end of one of the
    chunks; and [_edata], the end of the last allocated chunk with bits in
    the file, is at or below [_end]. *)
Theorem fix_end_symbols_covers chunks syms s0 d0 X :
  image_laid_out chunks →
  sym_end syms = Some s0 → sym_edata syms = Some d0 →
  X ∈ chunks → in_image X →
  ∃ s L,
    sym_end (fix_end_symbols chunks syms) = Some s ∧
    L ∈ chunks ∧ chunk_kind L ≠ HEADER ∧ is_alloc (chunk_of L) = true ∧
    sym_shndx s = chunk_shndx L ∧
    sym_value s
      = sh_addr (shdr (chunk_of L)) + sh_size (shdr (chunk_of L)) ∧
    sh_addr (shdr (chunk_of X)) + sh_size (shdr (chunk_of X)) ≤ sym_value s ∧
    ∃ d, sym_edata (fix_end_symbols chunks syms) = Some d ∧
         (is_bss (chunk_of X) = false →
          sh_addr (shdr (chunk_of X)) + sh_size (shdr (chunk_of X))
          ≤ sym_value d ≤ sym_value s).
Proof.
  intros [Hno Hall] Hs Hd HX (HXk & HXa & HXt).
  set (sel_end := λ c, bool_decide (chunk_kind c ≠ HEADER) && is_alloc (chunk_of c)).
  set (sel_data := λ c, bool_decide (chunk_kind c ≠ HEADER)
                        && is_alloc (chunk_of c) && negb (is_bss (chunk_of c))).
  destruct (fix_end_last sym_end sel_end chunks syms s0 fix_end_step_end Hs)
    as (s & Hget & Hlast).
  destruct (fix_end_last sym_edata sel_data chunks syms d0 fix_end_step_edata Hd)
    as (d & Hgetd & Hlastd).
  assert (∀ c, c ∈ chunks →
            to_u64 (sh_addr (shdr (chunk_of c)) + sh_size (shdr (chunk_of c)))
            = sh_addr (shdr (chunk_of c)) + sh_size (shdr (chunk_of c))) as Hu.
  { intros c Hc. rewrite Forall_forall in Hall.
    destruct (Hall c Hc) as (? & ? & ?). apply to_u64_small. unfold is_u64. lia. }
  (* every selected chunk ends at or before the end of the last one *)
  assert (∀ (sel : LaidChunk → bool) Y L,
    (∀ c, sel c = true → chunk_kind c ≠ HEADER ∧ is_alloc (chunk_of c) = true) →
    Y ∈ chunks → chunk_kind Y ≠ HEADER → is_alloc (chunk_of Y) = true →
    is_tbss (chunk_of Y) = false →
    (sel Y = true ∨ ∃ Z, Z ∈ chunks ∧ sel Z = true ∧
        ∃ i j : nat, (i ≤ j)%nat ∧ chunks !! i = Some Y ∧ chunks !! j = Some Z) →
    last (filter (λ c, sel c = true) chunks) = Some L →
    L ∈ chunks ∧ sel L = true ∧
    sh_addr (shdr (chunk_of Y)) + sh_size (shdr (chunk_of Y))
    ≤ sh_addr (shdr (chunk_of L)) + sh_size (shdr (chunk_of L))) as Hcover.
  { intros sel Y L Hsel HY HYk HYa HYt Hbefore HL.
    assert (L ∈ filter (λ c, sel c = true) chunks) as HLin.
    { apply last_Some_elem_of in HL. done. }
    apply list_elem_of_filter in HLin as [HLs HLc].
    split; [done|]. split; [done|].
    destruct (Hsel L HLs) as [HLk HLa].
    (* positions *)
    assert (∃ j : nat, chunks !! j = Some L ∧
              ∀ (i : nat) c, chunks !! i = Some c → sel c = true → (i ≤ j)%nat)
      as (j & Hj & Hmax).
    { clear -HL. revert L HL.
      induction chunks as [|c chunks IH] using rev_ind; intros L HL; [done|].
      rewrite filter_app, filter_cons, filter_nil in HL.
      destruct (decide (sel c = true)) as [Hc|Hc].
      - rewrite last_snoc in HL. injection HL as <-.
        exists (length chunks). split.
        + by rewrite lookup_app_r, Nat.sub_diag by lia.
        + intros i c' Hi _. apply lookup_lt_Some in Hi.
          rewrite length_app in Hi. simpl in Hi. lia.
      - rewrite app_nil_r in HL. destruct (IH L HL) as (j & Hj & Hmax).
        exists j. split.
        + by apply lookup_app_l_Some.
        + intros i c' Hi Hs'. apply lookup_app_Some in Hi as [Hi|[Hge Hi]].
          * by apply (Hmax i c').
          * destruct (i - length chunks)%nat; [|done].
            simpl in Hi. injection Hi as <-. done. }
    assert (∃ i : nat, (i ≤ j)%nat ∧ chunks !! i = Some Y) as (i & Hij & Hi).
    { destruct Hbefore as [HYs|(Z & HZ & HZs & i & j' & Hij & Hi & Hj')].
      - apply list_elem_of_lookup in HY as [i Hi]. exists i.
        split; [by apply (Hmax i Y)|done].
      - exists i. split; [|done]. specialize (Hmax j' Z Hj' HZs). lia. }
    destruct (decide (i = j)) as [->|Hne].
    - assert (Y = L) as -> by congruence. lia.
    - assert (sh_addr (shdr (chunk_of Y)) + sh_size (shdr (chunk_of Y))
              ≤ sh_addr (shdr (chunk_of L))) as Hle.
      { apply (Hno i j (chunk_of Y) (chunk_of L)); [lia| | |done..].
        - by rewrite list_lookup_fmap, Hi.
        - by rewrite list_lookup_fmap, Hj. }
      rewrite Forall_forall in Hall. destruct (Hall L HLc) as (? & ? & ?). lia. }
  assert (sel_end X = true) as HXs.
  { unfold sel_end. rewrite bool_decide_true by done. by rewrite HXa. }
  assert (∀ c, sel_end c = true →
            chunk_kind c ≠ HEADER ∧ is_alloc (chunk_of c) = true) as Hsel_end.
  { intros c Hc. unfold sel_end in Hc. apply andb_true_iff in Hc as [H1 H2].
    by apply bool_decide_eq_true in H1. }
  destruct (last (filter (λ c, sel_end c = true) chunks)) as [L|] eqn:HL.
  2: { apply last_None in HL.
       assert (X ∈ filter (λ c, sel_end c = true) chunks) as Hin
         by (by apply list_elem_of_filter).
       rewrite HL in Hin. by apply elem_of_nil in Hin. }
  destruct (Hcover sel_end X L Hsel_end HX HXk HXa HXt (or_introl HXs) HL)
    as (HLc & HLs & HXle).
  destruct (Hsel_end L HLs) as [HLk HLa].
  rewrite (Hu L HLc) in Hlast. subst s.
  eexists _, L. cbn [sym_shndx sym_value].
  split; [done|]. split; [done|]. split; [done|]. split; [done|].
  split; [done|]. split; [done|]. split; [done|].
  exists d. split; [done|]. intros HXb.
  assert (sel_data X = true) as HXd.
  { unfold sel_data. rewrite bool_decide_true by done. by rewrite HXa, HXb. }
  destruct (last (filter (λ c, sel_data c = true) chunks)) as [D|] eqn:HD.
  2: { apply last_None in HD.
       assert (X ∈ filter (λ c, sel_data c = true) chunks) as Hin
         by (by apply list_elem_of_filter).
       rewrite HD in Hin. by apply elem_of_nil in Hin. }
  assert (D ∈ filter (λ c, sel_data c = true) chunks) as HDin
    by (by apply last_Some_elem_of in HD).
  apply list_elem_of_filter in HDin as [HDs HDc].
  unfold sel_data in HDs. apply andb_true_iff in HDs as [HDs HDb].
  apply andb_true_iff in HDs as [HDk HDa]. apply bool_decide_eq_true in HDk.
  apply negb_true_iff in HDb.
  rewrite (Hu D HDc) in Hlastd. subst d. cbn [sym_value].
  assert (sel_end D = true) as HDe.
  { unfold sel_end. rewrite bool_decide_true by done. by rewrite HDa. }
  assert (is_tbss (chunk_of D) = false) as HDt
    by (unfold is_tbss; by rewrite HDb).
  destruct (Hcover sel_end D L Hsel_end HDc HDk HDa HDt (or_introl HDe) HL)
    as (_ & _ & Hle).
  assert (∀ c, sel_data c = true →
            chunk_kind c ≠ HEADER ∧ is_alloc (chunk_of c) = true) as Hsel_data.
  { intros c Hc. unfold sel_data in Hc. apply andb_true_iff in Hc as [Hc _].
    apply andb_true_iff in Hc as [H1 H2]. by apply bool_decide_eq_true in H1. }
  destruct (Hcover sel_data X D Hsel_data HX HXk HXa HXt (or_introl HXd) HD)
    as (_ & _ & Hle2).
  done.
Qed.

Lemma fix_end_symbols_covers_witness :
  let text :=
    mkLaid REGULAR 1
      (mkChunk (mkShdr 1 (Z.lor SHF_ALLOC 4) 2097216 64 100 16) false false) in
  let syms := mkEndSymbols (Some (mkSymValue 0 0)) None (Some (mkSymValue 0 0)) in
  ∃ s L,
    sym_end (fix_end_symbols chunks_image syms) = Some s ∧
    L ∈ chunks_image ∧ chunk_kind L ≠ HEADER ∧ is_alloc (chunk_of L) = true ∧
    sym_shndx s = chunk_shndx L ∧
    sym_value s
      = sh_addr (shdr (chunk_of L)) + sh_size (shdr (chunk_of L)) ∧
    sh_addr (shdr (chunk_of text)) + sh_size (shdr (chunk_of text))
      ≤ sym_value s ∧
    ∃ d, sym_edata (fix_end_symbols chunks_image syms) = Some d ∧
         (is_bss (chunk_of text) = false →
          sh_addr (shdr (chunk_of text)) + sh_size (shdr (chunk_of text))
          ≤ sym_value d ≤ sym_value s).
Proof.
  cbv zeta.
  apply (fix_end_symbols_covers chunks_image _ (mkSymValue 0 0)
           (mkSymValue 0 0)); [|done|done|right; left|by repeat split].
  split.
  - intros i j X Y Hij HX HY HXa HYa HXt.
    do 5 (destruct i as [|i]; [
      do 5 (destruct j as [|j]; [
        try lia; injection HX as <-; injection HY as <-;
        first [discriminate HXa | discriminate HYa | discriminate HXt
              | vm_compute; discriminate] |]);
      simpl in HY; discriminate HY |]).
    simpl in HX. discriminate HX.
  - repeat constructor; vm_compute; discriminate.
Defined.


Section SplitEdges.

Context {T : Type}.
Implicit Types (span : list T) (vec : list (list T)).

Lemma split_loop_zero fuel span vec : split_loop fuel span 0 vec = None.
Proof.
  revert vec. induction fuel as [|fuel IH]; intros vec; [done|].
  cbn [split_loop]. unfold size_ge. change (to_u64 0) with 0.
  destruct (0 <=? Z.of_nat (length span)) eqn:Hle.
  - change (Z.to_nat 0) with 0%nat. rewrite drop_0. apply IH.
  - apply Z.leb_gt in Hle. lia.
Qed.

(** The number of slices. *)
Lemma split_loop_count fuel span unit vec :
  1 ≤ unit < 2 ^ 63 → (length span < fuel)%nat →
  ∃ tl, split_loop fuel span unit vec = Some (vec ++ tl) ∧
        Z.of_nat (length tl) = (Z.of_nat (length span) + unit - 1) `div` unit.
Proof.
  intros Hunit. revert span vec.
  induction fuel as [|fuel IH]; intros span vec Hlen; [lia|].
  cbn [split_loop]. unfold size_ge.
  rewrite to_u64_small by (unfold is_u64; lia).
  destruct (unit <=? Z.of_nat (length span)) eqn:Hge.
  - apply Z.leb_le in Hge.
    destruct (IH (drop (Z.to_nat unit) span)
                 (vec ++ [take (Z.to_nat unit) span])) as (tl & -> & Hc).
    { rewrite length_drop. lia. }
    exists (take (Z.to_nat unit) span :: tl).
    split; [by rewrite <- app_assoc|].
    rewrite length_drop in Hc. cbn [length].
    rewrite Nat2Z.inj_succ, Hc.
    replace (Z.of_nat (length span) + unit - 1)
      with ((Z.of_nat (length span - Z.to_nat unit) + unit - 1) + 1 * unit)
      by lia.
    rewrite Z.div_add by lia. lia.
  - apply Z.leb_gt in Hge. destruct span as [|x span].
    + exists []. rewrite app_nil_r. split; [done|].
      simpl. symmetry. apply Z.div_small. lia.
    + exists [x :: span]. split; [done|].
      cbn [length] in *. symmetry.
      replace (Z.of_nat (S (length span)) + unit - 1)
        with (Z.of_nat (length span) + 1 * unit) by lia.
      rewrite Z.div_add by lia. rewrite Z.div_small by lia. done.
Qed.

End SplitEdges.

(** X8: the edges of [split].  On an empty vector the [assert] fails; with
    [unit = 0] the loop never ends; with a negative [unit] the comparison
    [span.size() >= unit] is made on the unsigned value of [unit], which no
    size reaches, and the whole vector comes back as one slice. *)
Theorem split_edges {T : Type} (v : list T) (unit : Z) :
  v ≠ [] →
  split ([] : list T) unit = None ∧
  split v 0 = None ∧
  (- 2 ^ 63 ≤ unit < 0 → Z.of_nat (length v) < 2 ^ 63 →
   split v unit = Some [v]).
Proof.
  intros Hne. split; [done|]. split.
  - unfold split. destruct v; [done|]. apply split_loop_zero.
  - intros Hunit Hlen. unfold split. destruct v as [|x v]; [done|].
    cbn [split_loop]. unfold size_ge.
    assert (to_u64 unit = unit + 2 ^ 64) as ->.
    { unfold to_u64. symmetry. apply (Z.mod_unique_pos _ _ (-1)); lia. }
    destruct (_ <=? _) eqn:Hle; [|done].
    apply Z.leb_le in Hle. lia.
Qed.

Lemma split_edges_witness :
  split ([] : list nat) (-1) = None ∧
  split [1; 2; 3]%nat 0 = None ∧
  (- 2 ^ 63 ≤ -1 < 0 → Z.of_nat (length [1; 2; 3]%nat) < 2 ^ 63 →
   split [1; 2; 3]%nat (-1) = Some [[1; 2; 3]%nat]).
Proof.
  apply (split_edges [1; 2; 3]%nat (-1)). discriminate.
Defined.

(** X9: for a non-empty vector of [n] elements and [unit >= 1], [split]
    returns [ceil(n / unit)] slices. *)
Theorem split_count {T : Type} (v : list T) (unit : Z) :
  v ≠ [] → 1 ≤ unit < 2 ^ 63 →
  ∃ slices, split v unit = Some slices ∧
    Z.of_nat (length slices) = (Z.of_nat (length v) + unit - 1) `div` unit.
Proof.
  intros Hne Hunit. unfold split. destruct v as [|x v]; [done|].
  destruct (split_loop_count (S (length (x :: v))) (x :: v) unit [] Hunit)
    as (tl & Heq & Hc); [lia|].
  by exists tl.
Qed.

Lemma split_count_witness :
  ∃ slices, split [1; 2; 3; 4; 5; 6; 7]%nat 3 = Some slices ∧
    Z.of_nat (length slices)
    = (Z.of_nat (length [1; 2; 3; 4; 5; 6; 7]%nat) + 3 - 1) `div` 3.
Proof.
  apply (split_count [1; 2; 3; 4; 5; 6; 7]%nat 3); [discriminate|lia].
Defined.

(** X10: [bin_sections] cuts [ctx.objs] into at most 128 slices, of at most
    [ceil(n / 128)] files each. *)
Theorem bin_sections_slices (objs : list ObjectFile) :
  objs ≠ [] → Z.of_nat (length objs) < 2 ^ 63 →
  let unit := to_i64 (to_u64 (Z.of_nat (length objs) + 127) `div` 128) in
  ∃ slices, split objs unit = Some slices ∧
    (0 < length slices ≤ 128)%nat ∧
    Forall (λ s, 128 * (Z.of_nat (length s) - 1) < Z.of_nat (length objs))
           slices.
Proof.
  intros Hne Hlen unit.
  assert (unit = (Z.of_nat (length objs) + 127) `div` 128) as Hu.
  { subst unit. rewrite to_u64_small by (unfold is_u64; lia).
    apply to_i64_small. unfold is_i64.
    pose proof (Z.div_mod (Z.of_nat (length objs) + 127) 128).
    pose proof (Z.mod_pos_bound (Z.of_nat (length objs) + 127) 128). lia. }
  assert (0 < length objs)%nat by (destruct objs; [done|simpl; lia]).
  pose proof (Z.div_mod (Z.of_nat (length objs) + 127) 128) as Hdm.
  pose proof (Z.mod_pos_bound (Z.of_nat (length objs) + 127) 128) as Hmb.
  assert (1 ≤ unit < 2 ^ 63) as Hunit by lia.
  destruct objs as [|o objs]; [done|]. unfold split.
  destruct (split_loop_count (S (length (o :: objs))) (o :: objs) unit []
              Hunit) as (tl & Heq & Hc); [lia|].
  destruct (split_loop_slices (S (length (o :: objs))) (o :: objs) unit []
              Hunit) as (tl' & Heq' & _ & Hf & _); [lia|].
  rewrite Heq in Heq'. injection Heq' as <-.
  exists tl. split; [done|]. split.
  - assert (0 < (Z.of_nat (length (o :: objs)) + unit - 1) `div` unit).
    { apply Z.div_str_pos. lia. }
    assert ((Z.of_nat (length (o :: objs)) + unit - 1) `div` unit ≤ 128);
      [|lia].
    apply Z.lt_succ_r. apply Z.div_lt_upper_bound; lia.
  - eapply Forall_impl; [exact Hf|]. intros s [_ Hs]. lia.
Qed.

Lemma bin_sections_slices_witness :
  ∃ slices,
    split objs_three
      (to_i64 (to_u64 (Z.of_nat (length objs_three) + 127) `div` 128))
    = Some slices ∧
    (0 < length slices ≤ 128)%nat ∧
    Forall (λ s, 128 * (Z.of_nat (length s) - 1) < Z.of_nat (length objs_three))
           slices.
Proof.
  apply (bin_sections_slices objs_three); [discriminate|simpl; lia].
Defined.


(** ** [compute_section_sizes] *)

Lemma members_span_nonneg K members :
  0 ≤ K → Forall (member_ok K) members → 0 ≤ members_span K members.
Proof.
  intros HK. induction 1 as [|m ms [Hs _] _ IH]; simpl; [done|].
  pose proof (pow2_pos K HK). unfold is_u64 in Hs. lia.
Qed.

Lemma members_span_app K l1 l2 : members_span K (l1 ++ l2) = members_span K l1 + members_span K l2.
Proof. induction l1 as [|m l1 IH]; simpl; lia. Qed.

Lemma pow2_le_divide j k : 0 ≤ j ≤ k → (2 ^ j | 2 ^ k).
Proof.
  intros Hjk. exists (2 ^ (k - j)). rewrite <- Z.pow_add_r by lia.
  f_equal. lia.
Qed.

Lemma members_placed_le lo members hi :
  Forall (λ m, 0 ≤ sh_size (isec_shdr m)) members →
  members_placed lo members hi → lo ≤ hi.
Proof.
  intros Hall. revert lo. induction Hall as [|m ms Hs _ IH]; intros lo; [done|].
  cbn [members_placed]. intros (Hlo & _ & Hp). apply IH in Hp. lia.
Qed.

Lemma members_placed_weaken lo lo' members hi hi' :
  lo' ≤ lo → hi ≤ hi' →
  members_placed lo members hi → members_placed lo' members hi'.
Proof.
  intros Hlo Hhi. revert lo lo' Hlo.
  induction members as [|m ms IH]; intros lo lo' Hlo; cbn [members_placed].
  - lia.
  - intros (H1 & H2 & H3). split; [lia|]. split; [done|].
    by apply (IH _ _ (Z.le_refl _)).
Qed.

Lemma members_placed_app lo l1 mid l2 hi :
  members_placed lo l1 mid → members_placed mid l2 hi →
  members_placed lo (l1 ++ l2) hi.
Proof.
  revert lo. induction l1 as [|m l1 IH]; intros lo; cbn [members_placed app].
  - intros Hlo Hp.
    apply (members_placed_weaken mid lo l2 hi hi); [done|lia|done].
  - intros (H1 & H2 & H3) Hp. split; [done|]. split; [done|]. by apply IH.
Qed.

Lemma place_slice_cons st isec rest :
  place_slice st (isec :: rest) =
  ((place_isec st isec).1 :: (place_slice (place_isec st isec).2 rest).1,
   (place_slice (place_isec st isec).2 rest).2).
Proof.
  change (place_slice st (isec :: rest)) with
    (let '(isec', st1) := place_isec st isec in
     let '(rest', st2) := place_slice st1 rest in
     (isec' :: rest', st2)).
  destruct (place_isec st isec) as [i' st1]. cbn [fst snd].
  by destruct (place_slice st1 rest).
Qed.

(** One slice, from any [off] and [align]. *)
Lemma place_slice_spec K off al slice :
  0 ≤ K < 63 → 0 ≤ off → 1 ≤ al →
  Forall (member_ok K) slice → off + members_span K slice < 2 ^ 63 →
  let r := place_slice (off, al) slice in
  Forall2 (λ m m', isec_shdr m' = isec_shdr m) slice r.1 ∧
  members_placed off r.1 r.2.1 ∧
  r.2.1 ≤ off + members_span K slice ∧
  r.2.2 = Z.max al (max_align slice).
Proof.
  intros HK. revert off al.
  induction slice as [|m ms IH]; intros off al Hoff Hal Hall Hfit.
  { cbn. split; [constructor|]. split; [lia|]. split; [lia|]. lia. }
  apply Forall_cons in Hall as [[Hsize (k & Hk & Halign)] Hall].
  pose proof (members_span_nonneg K ms (proj1 HK) Hall) as Hnn.
  cbn [members_span foldr] in Hfit. fold (members_span K ms) in Hfit.
  assert (0 < 2 ^ k ≤ 2 ^ K) as Hpow.
  { split; [apply pow2_pos; lia|]. apply Z.pow_le_mono_r; lia. }
  assert (2 ^ K < 2 ^ 63) as HK63 by (apply Z.pow_lt_mono_r; lia).
  unfold is_u64 in Hsize.
  rewrite place_slice_cons. unfold place_isec at 1 2 3. cbn [fst snd].
  rewrite Halign.
  set (off1 := to_i64 (align_to (to_u64 off) (2 ^ k))).
  assert (off ≤ off1 ≤ off + 2 ^ k - 1) as Hoff1.
  { pose proof (align_to_i64 off (2 ^ k) Hoff) as H.
    rewrite Z.max_l in H by lia.
    specialize (H ltac:(unfold is_u64; lia) ltac:(lia)). subst off1. lia. }
  assert (off1 `mod` 2 ^ k = 0) as Hmod.
  { pose proof (align_to_divide (to_u64 off) k ltac:(lia)) as Hd.
    assert (align_to (to_u64 off) (2 ^ k) = off1) as Heq.
    { subst off1. symmetry. apply to_i64_small.
      pose proof (align_to_bounds (to_u64 off) (2 ^ k)) as Hb.
      rewrite to_u64_small in * by (unfold is_u64; lia).
      rewrite Z.max_l in Hb by lia. unfold is_i64.
      specialize (Hb ltac:(unfold is_u64; lia) Hoff ltac:(lia)). lia. }
    rewrite Heq in Hd. apply Z.mod_divide in Hd; [done|lia]. }
  assert (to_i64 (to_u64 off1 + sh_size (isec_shdr m))
          = off1 + sh_size (isec_shdr m)) as Hoff2.
  { apply add_i64; lia. }
  rewrite Hoff2.
  assert (to_i64 (2 ^ k) = 2 ^ k) as ->
    by (apply to_i64_small; unfold is_i64; lia).
  destruct (IH (off1 + sh_size (isec_shdr m)) (Z.max al (2 ^ k)))
    as (IH1 & IH2 & IH3 & IH4); [lia|lia|done|lia|].
  cbn [fst snd]. split; [by constructor|]. split.
  - cbn [members_placed set_offset offset isec_shdr]. rewrite Halign.
    split; [lia|]. split; [done|]. done.
  - split; [cbn [members_span foldr]; fold (members_span K ms); lia|].
    rewrite IH4. cbn [max_align foldr]. fold (max_align ms).
    rewrite Halign. lia.
Qed.

Lemma max_align_ge members : 1 ≤ max_align members.
Proof. induction members as [|m ms IH]; simpl; lia. Qed.

Lemma max_align_app l1 l2 :
  max_align (l1 ++ l2) = Z.max (max_align l1) (max_align l2).
Proof.
  induction l1 as [|m l1 IH]; simpl.
  - pose proof (max_align_ge l2). lia.
  - fold (max_align (l1 ++ l2)) (max_align l1). lia.
Qed.

Lemma foldl_max_align x (slices : list (list SizedSection)) :
  1 ≤ x →
  foldl Z.max x (max_align <$> slices) = Z.max x (max_align (concat slices)).
Proof.
  revert x. induction slices as [|sl slices IH]; intros x Hx; simpl; [lia|].
  rewrite IH by lia. rewrite max_align_app. lia.
Qed.

Lemma max_align_pow2 members :
  Forall (λ m, is_u64 (sh_size (isec_shdr m)) ∧
               is_pow2 (sh_addralign (isec_shdr m)) = true) members →
  ∃ K, 0 ≤ K < 64 ∧ max_align members = 2 ^ K ∧
       Forall (member_ok K) members.
Proof.
  induction 1 as [|m ms [Hs Hp] _ (K & HK & Hmax & Hall)].
  { exists 0. split; [lia|]. split; [done|constructor]. }
  apply is_pow2_spec in Hp as (k & Hk & Hal).
  exists (Z.max k K). split; [lia|]. split.
  - cbn [max_align foldr]. fold (max_align ms). rewrite Hmax, Hal.
    destruct (Z.max_spec k K) as [[Hlt ->]|[Hle ->]].
    + apply Z.max_r. apply Z.pow_le_mono_r; lia.
    + apply Z.max_l. apply Z.pow_le_mono_r; lia.
  - constructor.
    + split; [done|]. exists k. split; [lia|done].
    + eapply Forall_impl; [exact Hall|]. intros m' [Hs' (k' & Hk' & Hal')].
      split; [done|]. exists k'. split; [lia|done].
Qed.

Lemma member_ok_same K l l' :
  Forall2 (λ m m', isec_shdr m' = isec_shdr m) l l' →
  Forall (member_ok K) l → Forall (member_ok K) l'.
Proof.
  induction 1 as [|m m' l l' Hm _ IH]; [done|].
  intros [Hok Hall]%Forall_cons. constructor; [|by apply IH].
  unfold member_ok in *. by rewrite Hm.
Qed.

Lemma member_ok_size K l :
  Forall (member_ok K) l → Forall (λ m, 0 ≤ sh_size (isec_shdr m)) l.
Proof.
  intros H. eapply Forall_impl; [exact H|].
  intros m [Hs _]. unfold is_u64 in Hs. lia.
Qed.

Lemma same_shdr_trans (l1 l2 l3 : list SizedSection) :
  Forall2 (λ m m', isec_shdr m' = isec_shdr m) l1 l2 →
  Forall2 (λ m m', isec_shdr m' = isec_shdr m) l2 l3 →
  Forall2 (λ m m', isec_shdr m' = isec_shdr m) l1 l3.
Proof.
  intros H. revert l3. induction H as [|m m' l l' Hm _ IH]; intros l3 H3.
  - by inversion H3.
  - inversion H3 as [|? y ? l2' Hy Hrest]; subst.
    constructor; [congruence|]. by apply IH.
Qed.

(** Moving a slice to its start. *)
Lemma shift_placed K s lo members hi :
  0 ≤ K → 0 ≤ s → (2 ^ K | s) → 0 ≤ lo →
  Forall (member_ok K) members → members_placed lo members hi →
  hi + s < 2 ^ 63 →
  Forall2 (λ m m', isec_shdr m' = isec_shdr m)
          members (shift_isec s <$> members) ∧
  members_placed (lo + s) (shift_isec s <$> members) (hi + s).
Proof.
  intros HK Hs Hdiv. revert lo.
  induction members as [|m ms IH]; intros lo Hlo Hall Hp Hfit.
  { split; [constructor|]. cbn in *. lia. }
  apply Forall_cons in Hall as [[Hsize (k & Hk & Hal)] Hall].
  cbn [members_placed] in Hp. destruct Hp as (H1 & H2 & H3).
  pose proof (members_placed_le _ _ _ (member_ok_size K ms Hall) H3) as Hle.
  unfold is_u64 in Hsize.
  assert (to_i64 (offset m + s) = offset m + s) as Hsh
    by (apply to_i64_small; unfold is_i64; lia).
  destruct (IH (offset m + sh_size (isec_shdr m))) as [IH1 IH2];
    [lia|done|done|done|].
  rewrite fmap_cons. split; [by constructor|].
  cbn [members_placed shift_isec set_offset offset isec_shdr].
  rewrite Hsh. split; [lia|]. split.
  - rewrite Hal in *. assert (0 < 2 ^ k) by (apply pow2_pos; lia).
    apply Z.mod_divide; [lia|]. apply Z.divide_add_r.
    + apply Z.mod_divide; [lia|done].
    + etrans; [|exact Hdiv]. by apply pow2_le_divide.
  - replace (offset m + s + sh_size (isec_shdr m))
      with (offset m + sh_size (isec_shdr m) + s) by lia. done.
Qed.

Lemma next_start_spec K s size :
  0 ≤ K < 63 → 0 ≤ s → 0 ≤ size → s + size + 2 ^ K < 2 ^ 63 →
  s + size ≤ next_start (2 ^ K) s size ≤ s + size + 2 ^ K - 1 ∧
  (2 ^ K | next_start (2 ^ K) s size).
Proof.
  intros HK Hs Hsize Hfit. unfold next_start.
  assert (0 < 2 ^ K) as HP by (apply pow2_pos; lia).
  rewrite (to_i64_small (s + size)) by (unfold is_i64; lia).
  rewrite (to_u64_small (2 ^ K)) by (unfold is_u64; lia).
  pose proof (align_to_i64 (s + size) (2 ^ K) ltac:(lia)
                ltac:(unfold is_u64; lia) ltac:(lia)) as Hb.
  rewrite Z.max_l in Hb by lia. split; [lia|].
  pose proof (align_to_divide (to_u64 (s + size)) K ltac:(lia)) as Hd.
  rewrite to_i64_small; [done|].
  pose proof (align_to_bounds (to_u64 (s + size)) (2 ^ K)) as Hb2.
  rewrite to_u64_small in * by (unfold is_u64; lia).
  rewrite Z.max_l in Hb2 by lia.
  specialize (Hb2 ltac:(unfold is_u64; lia) ltac:(lia) ltac:(lia)).
  unfold is_i64. lia.
Qed.

Lemma slices_span_nonneg K slices :
  0 ≤ K → Forall (Forall (member_ok K)) slices → 0 ≤ slices_span K slices.
Proof.
  intros HK. induction 1 as [|sl sls Hsl _ IH]; simpl; [done|].
  pose proof (members_span_nonneg K sl HK Hsl). pose proof (pow2_pos K HK). lia.
Qed.

(** The slices from the second on, from the start of the first of them. *)
Lemma slices_placed K slices s :
  0 ≤ K < 63 → 0 ≤ s → (2 ^ K | s) → slices ≠ [] →
  Forall (Forall (member_ok K)) slices →
  s + slices_span K slices < 2 ^ 63 →
  let placed := place_slice (0, 1) <$> slices in
  let size := (λ r, r.2.1) <$> placed in
  let start := slice_starts (2 ^ K) s size in
  let out := concat (zip_with (λ s r, shift_isec s <$> r.1) start placed) in
  Forall2 (λ m m', isec_shdr m' = isec_shdr m) (concat slices) out ∧
  ∃ start_back size_back,
    last start = Some start_back ∧ last size = Some size_back ∧
    members_placed s out (start_back + size_back) ∧
    0 ≤ start_back + size_back ≤ s + slices_span K slices.
Proof.
  intros HK. revert s.
  induction slices as [|sl slices IH]; intros s Hs Hdiv Hne Hall Hfit; [done|].
  apply Forall_cons in Hall as [Hsl Hall].
  pose proof (members_span_nonneg K sl (proj1 HK) Hsl) as Hnn.
  pose proof (slices_span_nonneg K slices (proj1 HK) Hall) as Hnn2.
  assert (0 < 2 ^ K) as HP by (apply pow2_pos; lia).
  cbn [slices_span foldr] in Hfit. fold (slices_span K slices) in Hfit.
  destruct (place_slice_spec K 0 1 sl HK ltac:(lia) ltac:(lia) Hsl ltac:(lia))
    as (P1 & P2 & P3 & _).
  set (r := place_slice (0, 1) sl) in *.
  pose proof (member_ok_same K _ _ P1 Hsl) as Hok.
  pose proof (members_placed_le _ _ _ (member_ok_size K _ Hok) P2) as Hsz.
  destruct (shift_placed K s 0 r.1 r.2.1 (proj1 HK) Hs Hdiv ltac:(lia) Hok P2
              ltac:(lia)) as [S1 S2].
  rewrite Z.add_0_l in S2.
  cbv zeta. rewrite !fmap_cons. fold r. cbn [slice_starts zip_with concat].
  destruct slices as [|sl2 slices'] eqn:Hsls.
  - cbn. rewrite !app_nil_r. split.
    + by apply (same_shdr_trans _ r.1).
    + exists s, r.2.1. split; [done|]. split; [done|].
      split; [by rewrite Z.add_comm|]. cbn. lia.
  - rewrite <- Hsls in *.
    destruct (next_start_spec K s r.2.1 HK Hs Hsz ltac:(lia)) as [Hn Hnd].
    set (next := next_start (2 ^ K) s r.2.1) in *.
    destruct (IH next ltac:(lia) Hnd ltac:(by rewrite Hsls) Hall ltac:(lia))
      as (I1 & sb & zb & Il & Iz & Ip & Ib).
    split.
    + apply Forall2_app; [|done]. by apply (same_shdr_trans _ r.1).
    + exists sb, zb. split.
      { rewrite Hsls in *. cbn [fmap list_fmap slice_starts] in *.
        by rewrite last_cons_cons. }
      split.
      { rewrite Hsls in *. cbn [fmap list_fmap] in *.
        by rewrite last_cons_cons. }
      split; [|cbn [slices_span foldr]; fold (slices_span K slices); lia].
      apply (members_placed_app _ _ next); [|done].
      apply (members_placed_weaken s s _ (r.2.1 + s) next); [lia|lia|done].
Qed.

Lemma members_span_sum K members :
  members_span K members =
  foldr (λ m acc, sh_size (isec_shdr m) + acc) 0 members
  + Z.of_nat (length members) * 2 ^ K.
Proof. induction members as [|m ms IH]; simpl; [done|]. fold (members_span K ms). lia. Qed.

Lemma slices_span_concat K slices :
  slices_span K slices =
  members_span K (concat slices) + Z.of_nat (length slices) * 2 ^ K.
Proof.
  induction slices as [|sl sls IH]; simpl; [done|].
  fold (slices_span K sls). rewrite members_span_app. lia.
Qed.

Lemma length_concat_nonempty {A : Type} (slices : list (list A)) :
  Forall (λ s, s ≠ []) slices → (length slices ≤ length (concat slices))%nat.
Proof.
  induction 1 as [|sl sls Hne _ IH]; simpl; [lia|].
  rewrite length_app. destruct sl; [done|]. simpl. lia.
Qed.

Lemma split_nonempty {A : Type} (input : list A) unit :
  input ≠ [] → 1 ≤ unit < 2 ^ 63 →
  ∃ slices, split input unit = Some slices ∧ concat slices = input ∧
            Forall (λ s, s ≠ []) slices.
Proof.
  intros Hne Hunit. unfold split. destruct input as [|x input]; [done|].
  destruct (split_loop_slices (S (length (x :: input))) (x :: input) unit []
              Hunit) as (tl & Heq & Hc & Hf & _); [lia|].
  exists tl. split; [done|]. split; [done|].
  eapply Forall_impl; [exact Hf|]. by intros s [? _].
Qed.

(** One output section with members. *)
Lemma section_sizes_run osec :
  osec_members osec ≠ [] → members_fit (osec_members osec) →
  ∃ osec', section_sizes osec = Some osec' ∧ section_sized osec osec'.
Proof.
  intros Hne [Hall Hfit]. unfold section_sizes, section_sized.
  destruct (osec_members osec) as [|m0 ms0] eqn:Hms; [done|].
  rewrite <- Hms in *. set (members := osec_members osec) in *.
  destruct (max_align_pow2 members Hall) as (K & HK & HA & Hok).
  assert (0 < 2 ^ K) as HP by (apply pow2_pos; lia).
  assert (0 ≤ foldr (λ m acc, sh_size (isec_shdr m) + acc) 0 members) as Hsum.
  { clear -Hall. induction Hall as [|m ms [Hs _] _ IH]; simpl; [done|].
    unfold is_u64 in Hs. lia. }
  assert (0 < length members)%nat as Hlen by (rewrite Hms; simpl; lia).
  rewrite HA in Hfit.
  assert (K < 63) as HK63.
  { apply (Z.pow_lt_mono_r_iff 2); [lia|lia|]. nia. }
  destruct (split_nonempty members 10000 Hne ltac:(lia))
    as (slices & -> & Hc & Hnes).
  cbn [mbind option_bind].
  assert (Forall (Forall (member_ok K)) slices) as Hoks.
  { rewrite <- Hc in Hok. clear -Hok.
    induction slices as [|sl sls IH]; [constructor|].
    simpl in Hok. apply Forall_app in Hok as [H1 H2].
    constructor; [done|by apply IH]. }
  pose proof (length_concat_nonempty slices Hnes) as Hcount.
  rewrite Hc in Hcount.
  assert (slices_span K slices < 2 ^ 63) as Hspan.
  { rewrite slices_span_concat, Hc, members_span_sum. nia. }
  destruct slices as [|first others] eqn:Hsl.
  { simpl in Hc. by rewrite <- Hc in Hne. }
  apply Forall_cons in Hoks as [Hok1 Hoks].
  pose proof (members_span_nonneg K first ltac:(lia) Hok1) as Hnn1.
  pose proof (slices_span_nonneg K others ltac:(lia) Hoks) as Hnn2.
  cbn [slices_span foldr] in Hspan. fold (slices_span K others) in Hspan.
  (* the alignments *)
  assert ((λ r : list SizedSection * (Z * Z), r.2.2)
            <$> (place_slice (0, 1) <$> first :: others)
          = max_align <$> first :: others) as Hal.
  { rewrite <- list_fmap_compose. apply Forall_fmap_ext.
    assert (Forall (λ sl, Forall (member_ok K) sl ∧ members_span K sl < 2 ^ 63)
              (first :: others)) as Hb.
    { constructor; [split; [done|lia]|].
      clear -Hoks Hspan Hnn1 HP HK. revert Hspan.
      induction Hoks as [|sl sls Hs Hss IH]; intros Hspan; [constructor|].
      cbn [slices_span foldr] in Hspan. fold (slices_span K sls) in Hspan.
      pose proof (members_span_nonneg K sl ltac:(lia) Hs).
      pose proof (slices_span_nonneg K sls ltac:(lia) Hss).
      constructor; [split; [done|lia]|]. apply IH. lia. }
    eapply Forall_impl; [exact Hb|]. intros sl [Hs Hf]. simpl.
    destruct (place_slice_spec K 0 1 sl ltac:(lia) ltac:(lia) ltac:(lia) Hs
                ltac:(lia)) as (_ & _ & _ & ->).
    pose proof (max_align_ge sl). lia. }
  rewrite Hal. cbn [fmap list_fmap max_element].
  rewrite foldl_max_align by apply max_align_ge.
  rewrite <- max_align_app.
  change (first ++ concat others) with (concat (first :: others)).
  rewrite Hc, HA. cbn [mbind option_bind].
  rewrite (to_u64_small (2 ^ K)) by (unfold is_u64; lia).
  (* the first slice *)
  destruct (place_slice_spec K 0 1 first ltac:(lia) ltac:(lia) ltac:(lia) Hok1
              ltac:(lia)) as (P1 & P2 & P3 & _).
  set (r := place_slice (0, 1) first) in *.
  pose proof (member_ok_same K _ _ P1 Hok1) as Hokr.
  pose proof (members_placed_le _ _ _ (member_ok_size K _ Hokr) P2) as Hsz.
  cbn [slice_starts].
  destruct others as [|second others'] eqn:Hoth.
  - cbn. rewrite app_nil_r in *. eexists. split; [reflexivity|].
    cbn [osec_members osec_shdr osec_name set_size_align sh_size sh_addralign].
    rewrite Z.add_0_l.
    rewrite (to_i64_small r.2.1) by (unfold is_i64; lia).
    rewrite (to_u64_small r.2.1) by (unfold is_u64; lia).
    split; [rewrite <- Hc; simpl; by rewrite app_nil_r|]. done.
  - rewrite <- Hoth in *.
    destruct (next_start_spec K 0 r.2.1 ltac:(lia) ltac:(lia) Hsz ltac:(lia))
      as [Hn Hnd].
    set (next := next_start (2 ^ K) 0 r.2.1) in *.
    destruct (slices_placed K others next ltac:(lia) ltac:(lia) Hnd
                ltac:(by rewrite Hoth) Hoks ltac:(lia))
      as (I1 & sb & zb & Il & Iz & Ip & Ib).
    assert (last (0 :: slice_starts (2 ^ K) next
               ((λ r0 : list SizedSection * (Z * Z), r0.2.1)
                  <$> (place_slice (0, 1) <$> others))) = Some sb) as ->.
    { rewrite Hoth in *. cbn [fmap list_fmap slice_starts] in *.
      by rewrite last_cons_cons. }
    assert (last (r.2.1 :: ((λ r0 : list SizedSection * (Z * Z), r0.2.1)
                  <$> (place_slice (0, 1) <$> others))) = Some zb) as ->.
    { rewrite Hoth in *. cbn [fmap list_fmap] in *.
      by rewrite last_cons_cons. }
    cbn [mbind option_bind]. eexists. split; [reflexivity|].
    cbn [osec_members osec_shdr osec_name set_size_align sh_size sh_addralign
         fst].
    rewrite (to_i64_small (sb + zb)) by (unfold is_i64; lia).
    rewrite (to_u64_small (sb + zb)) by (unfold is_u64; lia).
    split.
    { rewrite <- Hc. cbn [concat]. by apply Forall2_app. }
    split; [|done].
    apply (members_placed_app _ _ next); [|done].
    apply (members_placed_weaken 0 0 _ r.2.1 next); [lia|lia|done].
Qed.

(** X11: [compute_section_sizes] lays the members of every output section
    out in order and without overlap.  For sections whose members have
    [u64] sizes and power-of-two alignments and which fit the positive
    [i64] range, the pass returns; it keeps the members and their order,
    puts every member at a multiple of its alignment, at or after the end of
    the member before it, the first at or after 0 and the last ending at or
    before the [sh_size] it gives the section; it sets [sh_addralign] to
    the largest alignment of the members; and it leaves a section without
    members as it is. *)
Theorem compute_section_sizes_placed instances :
  Forall (λ osec, members_fit (osec_members osec)) instances →
  ∃ out, compute_section_sizes instances = Some out ∧
         Forall2 section_sized instances out.
Proof.
  unfold compute_section_sizes.
  induction 1 as [|osec rest Hfit _ (out & Hout & Hall)].
  { exists []. split; [done|constructor]. }
  assert (∃ osec', section_sizes osec = Some osec' ∧ section_sized osec osec')
    as (osec' & Hrun & Hsized).
  { destruct (decide (osec_members osec = [])) as [Hnil|Hne].
    - exists osec. unfold section_sizes, section_sized. rewrite Hnil.
      split; [done|]. split; [constructor|done].
    - by apply section_sizes_run. }
  exists (osec' :: out). split; [|by constructor].
  cbn. rewrite Hrun. cbn. by rewrite Hout.
Qed.

Lemma compute_section_sizes_placed_witness :
  ∃ out,
    compute_section_sizes
      [mkSizedOutput ".text" (mkShdr 1 6 0 0 0 0) members_three;
       mkSizedOutput ".data" (mkShdr 1 3 0 0 0 0) []] = Some out ∧
    Forall2 section_sized
      [mkSizedOutput ".text" (mkShdr 1 6 0 0 0 0) members_three;
       mkSizedOutput ".data" (mkShdr 1 3 0 0 0 0) []] out.
Proof.
  apply compute_section_sizes_placed.
  repeat constructor; vm_compute; try done; by intros [=].
Defined.


(** ** [collect_output_sections] *)

Lemma chunk_le_spec x y :
  chunk_le x y ↔
  String.compare (collected_name x) (collected_name y) = Lt ∨
  (collected_name x = collected_name y ∧
   (sh_type (collected_shdr x) < sh_type (collected_shdr y) ∨
    (sh_type (collected_shdr x) = sh_type (collected_shdr y) ∧
     sh_flags (collected_shdr x) ≤ sh_flags (collected_shdr y)))).
Proof.
  unfold chunk_le, chunk_less.
  rewrite (String.compare_antisym (collected_name y) (collected_name x)).
  destruct (String.compare (collected_name x) (collected_name y)) eqn:Hc;
    simpl.
  - apply String.compare_eq_iff in Hc. rewrite orb_false_iff, andb_false_iff.
    rewrite Z.ltb_ge, Z.eqb_neq, Z.ltb_ge. split.
    + intros [H1 H2]. right. split; [done|]. lia.
    + intros [H|[_ H]]; [done|]. lia.
  - split; [by left|done].
  - split; [done|]. intros [H|[H _]]; [done|].
    rewrite H, string_compare_refl in Hc. done.
Qed.

Global Instance chunk_le_trans : Transitive chunk_le.
Proof.
  intros x y z. rewrite !chunk_le_spec.
  intros [Hxy|[Hxy Hn]] [Hyz|[Hyz Hm]].
  - left. by apply (string_compare_lt_trans _ _ _ Hxy Hyz).
  - left. by rewrite <- Hyz.
  - left. by rewrite Hxy.
  - right. split; [congruence|]. lia.
Qed.

Lemma chunk_le_antisym x y :
  chunk_le x y → chunk_le y x → chunk_key x = chunk_key y.
Proof.
  rewrite !chunk_le_spec. unfold chunk_key.
  intros [Hxy|[Hxy Hn]] [Hyx|[Hyx Hm]].
  - pose proof (string_compare_lt_trans _ _ _ Hxy Hyx) as H.
    by rewrite string_compare_refl in H.
  - rewrite Hyx, string_compare_refl in Hxy. done.
  - rewrite Hxy, string_compare_refl in Hyx. done.
  - f_equal; [f_equal; [done|lia]|lia].
Qed.

Lemma chunk_less_asym x y : chunk_less x y = true → chunk_less y x = false.
Proof.
  intros Hxy. destruct (chunk_less y x) eqn:Hyx; [|done].
  assert (¬ chunk_le x y) as H1 by (unfold chunk_le; by rewrite Hyx).
  assert (¬ chunk_le y x) as H2 by (unfold chunk_le; by rewrite Hxy).
  rewrite chunk_le_spec in H1, H2.
  destruct (String.compare (collected_name x) (collected_name y)) eqn:Hc.
  - apply String.compare_eq_iff in Hc. exfalso.
    destruct (Z.lt_trichotomy (sh_type (collected_shdr x))
                              (sh_type (collected_shdr y))) as [?|[?|?]];
      [apply H1|..]; try (right; split; [done|]; lia).
    + destruct (Z.le_gt_cases (sh_flags (collected_shdr x))
                              (sh_flags (collected_shdr y)));
        [apply H1|apply H2]; right; split; try done; lia.
    + apply H2. right. split; [done|]. lia.
  - exfalso. apply H1. by left.
  - exfalso. apply H2. left.
    rewrite String.compare_antisym, Hc. done.
Qed.

Lemma nonempty_sections_elem instances merged c :
  c ∈ nonempty_sections instances merged ↔
  (∃ osec, c = RegularChunk osec ∧ osec ∈ instances ∧ osec_members osec ≠ []) ∨
  (∃ osec, c = MergedChunk osec ∧ osec ∈ merged ∧
           sh_size (merged_shdr osec) ≠ 0).
Proof.
  unfold nonempty_sections. rewrite elem_of_app, !list_elem_of_bind. split.
  - intros [(osec & Hc & Hin)|(osec & Hc & Hin)]; [left|right]; exists osec.
    + destruct (osec_members osec) eqn:Hm.
      { by apply elem_of_nil in Hc. }
      apply list_elem_of_singleton in Hc. done.
    + destruct (sh_size (merged_shdr osec) =? 0) eqn:Hz.
      { by apply elem_of_nil in Hc. }
      apply list_elem_of_singleton in Hc. by apply Z.eqb_neq in Hz.
  - intros [(osec & -> & Hin & Hne)|(osec & -> & Hin & Hne)];
      [left|right]; exists osec; (split; [|done]).
    + destruct (osec_members osec); [done|]. by left.
    + apply Z.eqb_neq in Hne. rewrite Hne. by left.
Qed.

(** X12: [collect_output_sections] returns the regular sections that have
    members and the merged sections whose size is not 0, each as often as
    the lists hold it, and no other; the result is sorted by (name,
    [sh_type], [sh_flags]). *)
Theorem collect_output_sections_sorted instances merged :
  let out := collect_output_sections instances merged in
  out ≡ₚ nonempty_sections instances merged ∧
  (∀ c, c ∈ out ↔
     (∃ osec, c = RegularChunk osec ∧ osec ∈ instances ∧
              osec_members osec ≠ []) ∨
     (∃ osec, c = MergedChunk osec ∧ osec ∈ merged ∧
              sh_size (merged_shdr osec) ≠ 0)) ∧
  Sorted chunk_le out.
Proof.
  cbv zeta. unfold collect_output_sections.
  pose proof (sort_perm chunk_less (nonempty_sections instances merged)) as Hp.
  split; [done|]. split.
  - intros c. rewrite Hp. apply nonempty_sections_elem.
  - apply sort_sorted. apply chunk_less_asym.
Qed.

(** X13: the result of [collect_output_sections] does not depend on the
    order of the section lists, which parallel tasks fill: when no two of
    the sections collected have the same name, type and flags, any two
    orders of the same sections give the same result. *)
Theorem collect_output_sections_deterministic
    instances instances' merged merged' :
  instances ≡ₚ instances' → merged ≡ₚ merged' →
  NoDup (chunk_key <$> nonempty_sections instances merged) →
  collect_output_sections instances merged
  = collect_output_sections instances' merged'.
Proof.
  intros Hi Hm Hnd. unfold collect_output_sections.
  assert (nonempty_sections instances merged
          ≡ₚ nonempty_sections instances' merged') as Hp.
  { unfold nonempty_sections. by rewrite Hi, Hm. }
  apply (Sorted_unique_strong chunk_le).
  - intros x1 x2 H1 H2 H12 H21.
    rewrite sort_perm in H1. rewrite sort_perm, <- Hp in H2.
    apply (NoDup_fmap_inj chunk_key _ _ _ Hnd H1 H2).
    by apply chunk_le_antisym.
  - apply sort_sorted, chunk_less_asym.
  - apply sort_sorted, chunk_less_asym.
  - by rewrite !sort_perm.
Qed.

Lemma collect_output_sections_deterministic_witness :
  collect_output_sections instances_named merged_named
  = collect_output_sections (reverse instances_named) merged_named.
Proof.
  apply collect_output_sections_deterministic;
    [by rewrite reverse_Permutation|done|].
  apply (bool_decide_unpack _). by vm_compute.
Defined.


(** ** [get_section_rank] *)

Lemma get_section_rank_plain is_relro ctx addr chunk :
  plain_chunk ctx addr → loaded_chunk chunk →
  get_section_rank is_relro ctx addr chunk =
  Z.lor (Z.lor (Z.lor (Z.lor
    (rank_bit (has_flag (sh_flags (shdr chunk)) SHF_WRITE) 9)
    (rank_bit (has_flag (sh_flags (shdr chunk)) SHF_EXECINSTR) 8))
    (rank_bit (negb (has_flag (sh_flags (shdr chunk)) SHF_TLS)) 7))
    (rank_bit (negb (is_relro addr chunk)) 6))
    (rank_bit (sh_type (shdr chunk) =? SHT_NOBITS) 5) + 4.
Proof.
  intros (H1 & H2 & H3 & H4) [Hn Ha]. unfold get_section_rank.
  rewrite !bool_decide_false by done.
  apply Z.eqb_neq in Hn. rewrite Hn.
  unfold is_alloc in Ha. rewrite Ha. cbn [negb]. by rewrite !negb_involutive.
Qed.

(** X14: the classes of [get_section_rank].  The ELF header, the program
    header and [.interp] rank 0, 1 and 2 and the section header [2^20]; of
    the other chunks a note ranks 3, a section that is not allocated
    [2^20 - 1], and every other section between 4 and 996: after the
    headers and the notes, before the sections that are not allocated. *)
Theorem get_section_rank_classes is_relro ctx addr chunk :
  let rank := get_section_rank is_relro ctx addr chunk in
  0 ≤ rank ≤ 2 ^ 20 ∧
  (plain_chunk ctx addr →
   (sh_type (shdr chunk) = SHT_NOTE → rank = 3) ∧
   (loaded_chunk chunk → 4 ≤ rank ≤ 996) ∧
   (sh_type (shdr chunk) ≠ SHT_NOTE → is_alloc chunk = false →
    rank = 2 ^ 20 - 1)).
Proof.
  cbv zeta.
  assert (∀ a b c d e,
    4 ≤ Z.lor (Z.lor (Z.lor (Z.lor (rank_bit a 9) (rank_bit b 8))
                 (rank_bit c 7)) (rank_bit d 6)) (rank_bit e 5) + 4 ≤ 996)
    as Hbits by (intros [] [] [] [] []; vm_compute; split; discriminate).
  split.
  - unfold get_section_rank.
    repeat (case_bool_decide; [vm_compute; split; discriminate|]).
    destruct (_ =? SHT_NOTE); [vm_compute; split; discriminate|].
    destruct (negb _); [vm_compute; split; discriminate|].
    pose proof (Hbits
      (negb (negb (has_flag (sh_flags (shdr chunk)) SHF_WRITE)))
      (has_flag (sh_flags (shdr chunk)) SHF_EXECINSTR)
      (negb (has_flag (sh_flags (shdr chunk)) SHF_TLS))
      (negb (is_relro addr chunk))
      (negb (negb (sh_type (shdr chunk) =? SHT_NOBITS)))) as Hrange.
    cbv zeta. lia.
  - intros Hplain. split; [|split].
    + intros Hn. destruct Hplain as (H1 & H2 & H3 & H4).
      unfold get_section_rank. rewrite !bool_decide_false by done.
      apply Z.eqb_eq in Hn. by rewrite Hn.
    + intros Hl. rewrite get_section_rank_plain by done. apply Hbits.
    + intros Hn Ha. destruct Hplain as (H1 & H2 & H3 & H4).
      unfold get_section_rank. rewrite !bool_decide_false by done.
      apply Z.eqb_neq in Hn. rewrite Hn.
      unfold is_alloc in Ha. by rewrite Ha.
Qed.

(** X15: among the allocated sections that are not notes, [get_section_rank]
    orders by five properties, the first that differs deciding: read-only
    before writable, then data before code, thread-local before the rest,
    RELRO before the rest, and sections with bits in the file before those
    without.  Two such sections have the same rank exactly when they agree
    on all five. *)
Theorem get_section_rank_order is_relro ctx a x b y :
  plain_chunk ctx a → loaded_chunk x → plain_chunk ctx b → loaded_chunk y →
  (get_section_rank is_relro ctx a x < get_section_rank is_relro ctx b y ↔
   bits_lt (rank_key is_relro a x) (rank_key is_relro b y) = true) ∧
  (get_section_rank is_relro ctx a x = get_section_rank is_relro ctx b y ↔
   rank_key is_relro a x = rank_key is_relro b y).
Proof.
  intros Ha Hx Hb Hy. rewrite !get_section_rank_plain by done.
  unfold rank_key.
  destruct (has_flag (sh_flags (shdr x)) SHF_WRITE),
           (has_flag (sh_flags (shdr x)) SHF_EXECINSTR),
           (has_flag (sh_flags (shdr x)) SHF_TLS),
           (is_relro a x), (sh_type (shdr x) =? SHT_NOBITS),
           (has_flag (sh_flags (shdr y)) SHF_WRITE),
           (has_flag (sh_flags (shdr y)) SHF_EXECINSTR),
           (has_flag (sh_flags (shdr y)) SHF_TLS),
           (is_relro b y), (sh_type (shdr y) =? SHT_NOBITS);
    vm_compute; (split; split; (done || (intros; discriminate))).
Qed.

Lemma get_section_rank_order_witness :
  let ctx := mkHeaders (Some 1%nat) (Some 2%nat) None (Some 3%nat) in
  let text := mkChunk (mkShdr 1 (Z.lor SHF_ALLOC SHF_EXECINSTR) 0 0 16 16)
                      false false in
  let data := mkChunk (mkShdr 1 (Z.lor SHF_ALLOC SHF_WRITE) 0 0 16 8)
                      false false in
  (get_section_rank (λ _ _, false) ctx 10 text
     < get_section_rank (λ _ _, false) ctx 11 data ↔
   bits_lt (rank_key (λ _ _, false) 10 text) (rank_key (λ _ _, false) 11 data)
   = true) ∧
  (get_section_rank (λ _ _, false) ctx 10 text
     = get_section_rank (λ _ _, false) ctx 11 data ↔
   rank_key (λ _ _, false) 10 text = rank_key (λ _ _, false) 11 data).
Proof.
  cbv zeta. apply get_section_rank_order;
    repeat split; (done || discriminate).
Defined.


(** ** More on [set_file_priority] *)

Lemma is_in_lib_set_priority f p : is_in_lib (set_priority f p) = is_in_lib f.
Proof. done. Qed.

(** X16: [set_file_priority] changes nothing but the priorities, and running
    it again gives every file the priority it has. *)
Theorem set_file_priority_idempotent objs dsos :
  let objs' := (set_file_priority objs dsos).1 in
  let dsos' := (set_file_priority objs dsos).2 in
  Forall2 (λ f f', f' = set_priority f (priority f')) objs objs' ∧
  Forall2 (λ d d', d' = set_dso_priority d (dso_priority d')) dsos dsos' ∧
  set_file_priority objs' dsos' = (objs', dsos').
Proof.
  cbv zeta.
  pose proof (set_file_priority_lookup objs dsos) as H.
  destruct (set_file_priority objs dsos) as [objs' dsos'] eqn:Hrun.
  cbn [fst snd]. destruct H as (Hlo & Hld & Hko & Hkd).
  assert (Forall2 (λ f f', f' = set_priority f (priority f')) objs objs') as Ho.
  { apply Forall2_same_length_lookup. split; [done|].
    intros i f f' Hf Hf'. rewrite (Hko i f Hf) in Hf'. by inversion Hf'. }
  assert (Forall2 (λ d d', d' = set_dso_priority d (dso_priority d')) dsos dsos')
    as Hd.
  { apply Forall2_same_length_lookup. split; [done|].
    intros i d d' Hd Hd'. rewrite (Hkd i d Hd) in Hd'. by inversion Hd'. }
  split; [done|]. split; [done|].
  assert (is_in_lib <$> objs' = is_in_lib <$> objs) as Hlib.
  { clear -Ho. induction Ho as [|f f' l l' Hf _ IH]; [done|].
    rewrite !fmap_cons, IH, Hf. done. }
  assert (∀ lib n, count_lib lib (take n objs') = count_lib lib (take n objs))
    as Hcount.
  { intros lib n. unfold count_lib. by rewrite !fmap_take, Hlib. }
  assert (∀ lib, count_lib lib objs' = count_lib lib objs) as Hcount'.
  { intros lib. unfold count_lib. by rewrite Hlib. }
  pose proof (set_file_priority_lookup objs' dsos') as H2.
  destruct (set_file_priority objs' dsos') as [objs2 dsos2].
  destruct H2 as (Hlo2 & Hld2 & Hko2 & Hkd2).
  f_equal.
  - apply list_eq. intros i. destruct (objs !! i) as [f|] eqn:Hf.
    + pose proof (Hko i f Hf) as Hf'. rewrite (Hko2 i _ Hf'), Hf'.
      rewrite is_in_lib_set_priority, ?Hcount, ?Hcount'. done.
    + apply lookup_ge_None in Hf.
      rewrite (lookup_ge_None_2 objs2), (lookup_ge_None_2 objs') by lia. done.
  - apply list_eq. intros i. destruct (dsos !! i) as [d|] eqn:Hd'.
    + pose proof (Hkd i d Hd') as Hd2. rewrite (Hkd2 i _ Hd2), Hd2.
      by rewrite Hlo.
    + apply lookup_ge_None in Hd'.
      rewrite (lookup_ge_None_2 dsos2), (lookup_ge_None_2 dsos') by lia. done.
Qed.

(** ** What [parse_symbol_version] leaves alone *)

Lemma parse_symver_at_fields verdefs this st i b :
  unversioned_part <$> (parse_symver_at verdefs this st i).1 !! b
  = unversioned_part <$> st.1 !! b.
Proof.
  unfold parse_symver_at.
  destruct (symvers this !! i) as [[verstr|]|]; [|done..].
  destruct (symbols this !! _) as [a|]; [|done].
  destruct (st.1 !! a) as [sym|] eqn:Hsym; [|done].
  destruct (bool_decide _); [|done].
  destruct (split_default verstr) as [is_default ver].
  destruct (verdefs !! ver) as [idx|]; [|done]. cbn [fst].
  destruct (decide (a = b)) as [->|Hne].
  - by rewrite lookup_insert_eq, Hsym.
  - by rewrite lookup_insert_ne.
Qed.

Lemma parse_symver_at_no_verdefs this st i :
  (parse_symver_at ∅ this st i).1 = st.1.
Proof.
  unfold parse_symver_at.
  destruct (symvers this !! i) as [[verstr|]|]; [|done..].
  destruct (symbols this !! _) as [a|]; [|done].
  destruct (st.1 !! a) as [sym|] eqn:Hsym; [|done].
  destruct (bool_decide _); [|done].
  destruct (split_default verstr) as [is_default ver].
  by rewrite lookup_empty.
Qed.

(** X18: [parse_symbol_version] writes [ver_idx] only.  Every symbol keeps
    its file, its [dynsym_idx] and its version string; a symbol that no
    file of [ctx.objs] both owns and gives a version string is left as it
    is; and with no version definitions no symbol changes at all. *)
Theorem parse_symbol_version_frame vds syms objs :
  let syms' := (parse_symbol_version vds syms objs).1 in
  (∀ b, unversioned_part <$> syms' !! b = unversioned_part <$> syms !! b) ∧
  (∀ b, (∀ g i verstr, g ∈ objs → ¬ slot_owned syms g i b verstr) →
        syms' !! b = syms !! b) ∧
  (vds = [] → syms' = syms).
Proof.
  cbv zeta. unfold parse_symbol_version. split; [|split].
  - intros b.
    assert (∀ verdefs (st : gmap nat Symbol * list VerError),
      unversioned_part <$>
        (foldl (λ st this, foldl (parse_symver_at verdefs this) st
                                 (symver_indices this)) st objs).1 !! b
      = unversioned_part <$> st.1 !! b) as Hgen; [|apply Hgen].
    intros verdefs. induction objs as [|this objs IH]; intros st; [done|].
    cbn [foldl]. rewrite IH.
    generalize (symver_indices this). intros l. revert st.
    induction l as [|i l IHl]; intros st; [done|].
    cbn [foldl]. rewrite IHl. apply parse_symver_at_fields.
  - intros b Hb. by apply (parse_files_other syms).
  - intros ->. change (make_verdefs []) with (∅ : gmap string Z).
    assert (∀ (st : gmap nat Symbol * list VerError),
      (foldl (λ st this, foldl (parse_symver_at ∅ this) st
                               (symver_indices this)) st objs).1 = st.1)
      as Hgen; [|apply Hgen].
    induction objs as [|this objs IH]; intros st; [done|].
    cbn [foldl]. rewrite IH.
    generalize (symver_indices this). intros l. revert st.
    induction l as [|i l IHl]; intros st; [done|].
    cbn [foldl]. rewrite IHl. apply parse_symver_at_no_verdefs.
Qed.


(** ** [fill_verdef] *)

Lemma write_verdefs_spec vd idx vds :
  0 ≤ idx → idx + Z.of_nat (length vds) ≤ 2 ^ 16 →
  verdef (write_verdefs vd idx vds)
    = verdef vd ++ imap (λ k v, mkVerdef 1 0 (idx + Z.of_nat k) 1 v) vds ∧
  verdef_info (write_verdefs vd idx vds)
    = verdef_info vd + Z.of_nat (length vds).
Proof.
  revert vd idx. induction vds as [|v vds IH]; intros vd idx Hidx Hfit.
  { simpl. rewrite app_nil_r. split; [done|lia]. }
  cbn [write_verdefs length] in *.
  destruct (IH (write_verdef vd v idx 0) (idx + 1)) as [-> ->]; [lia..|].
  cbn [write_verdef verdef verdef_info imap]. split; [|lia].
  rewrite <- app_assoc. f_equal. simpl. f_equal.
  - change (to_u16 0) with 0. f_equal.
    unfold to_u16. rewrite Z.mod_small; lia.
  - apply imap_ext. intros k x _. simpl. f_equal. lia.
Qed.

Lemma fold_set_versym syms contents :
  (∀ s, s ∈ syms → (dynsym_idx s < length contents)%nat) →
  ∃ contents',
    fold_opt set_versym contents syms = Some contents' ∧
    length contents' = length contents ∧
    (∀ q : nat, (∀ s, s ∈ syms → dynsym_idx s ≠ q) →
                contents' !! q = contents !! q) ∧
    (NoDup (dynsym_idx <$> syms) →
     ∀ s, s ∈ syms → contents' !! dynsym_idx s = Some (to_u16 (ver_idx s))).
Proof.
  revert contents. induction syms as [|s syms IH]; intros contents Hr.
  { exists contents. split; [done|]. split; [done|]. split; [done|].
    intros _ s Hs. by apply elem_of_nil in Hs. }
  cbn [fold_opt]. unfold set_versym at 1.
  rewrite decide_True by (apply Hr; left).
  destruct (IH (<[dynsym_idx s := to_u16 (ver_idx s)]> contents))
    as (c' & -> & Hlen & Hother & Hset).
  { intros s' Hs'. rewrite length_insert. apply Hr. by right. }
  exists c'. split; [done|]. split; [by rewrite Hlen, length_insert|]. split.
  - intros q Hq. rewrite Hother by (intros s' Hs'; apply Hq; by right).
    apply list_lookup_insert_ne. apply Hq. left.
  - intros Hnd s' Hs'. rewrite fmap_cons in Hnd.
    apply NoDup_cons in Hnd as [Hnin Hnd].
    apply elem_of_cons in Hs' as [->|Hs']; [|by apply Hset].
    rewrite Hother.
    + apply list_lookup_insert_eq. apply Hr. left.
    + intros s' Hs' Heq. apply Hnin. rewrite <- Heq.
      apply list_elem_of_fmap. by exists s'.
Qed.

Lemma mapM_id_filled (l : list (option Symbol)) :
  Forall is_Some l → mapM id l = Some (omap id l).
Proof.
  induction 1 as [|x l [s ->] _ IH]; [done|].
  cbn. rewrite IH. done.
Qed.

Lemma omap_id_elem (l : list (option Symbol)) s :
  s ∈ omap id l ↔ ∃ p : nat, l !! p = Some (Some s).
Proof.
  rewrite list_elem_of_omap. split.
  - intros (x & Hx & Hs). simpl in Hs. subst x.
    apply list_elem_of_lookup in Hx as [p Hp]. by exists p.
  - intros [p Hp]. exists (Some s). split; [|done].
    apply list_elem_of_lookup. by exists p.
Qed.

(** What [fill_verdef] leaves in [.gnu.version]. *)
Lemma fill_verdef_versym dynsym (contents : list Z) :
  dynsym_indexed dynsym → dynsym_filled dynsym → dynsym ≠ [] →
  length contents = length dynsym → contents !! 0%nat = Some 0 →
  ∃ contents',
    (mapM id (drop 1 dynsym) ≫= fold_opt set_versym contents) = Some contents' ∧
    versym_holds dynsym (λ s, to_u16 (ver_idx s)) contents'.
Proof.
  intros Hidx Hfill Hne Hlen H0.
  rewrite (mapM_id_filled _ Hfill). cbn [mbind option_bind].
  assert (∀ s, s ∈ omap id (drop 1 dynsym) →
            ∃ p : nat, (1 ≤ p)%nat ∧ dynsym !! p = Some (Some s) ∧
                       dynsym_idx s = p) as Hel.
  { intros s (p & Hp)%omap_id_elem. rewrite lookup_drop in Hp.
    exists (1 + p)%nat. split; [lia|]. split; [done|]. by apply Hidx. }
  destruct (fold_set_versym (omap id (drop 1 dynsym)) contents)
    as (c' & Hc' & Hlen' & Hother & Hset).
  { intros s (p & Hp & Hs & ->)%Hel. rewrite Hlen.
    by apply lookup_lt_Some in Hs. }
  exists c'. split; [done|]. split; [congruence|]. split.
  - rewrite Hother; [done|]. intros s (p & Hp & _ & ->)%Hel. lia.
  - intros p s Hp Hs. rewrite <- (Hidx p s Hs). apply Hset.
    + apply (omap_indexed_NoDup _ 1). intros q s' Hq.
      rewrite lookup_drop in Hq. by apply Hidx.
    + apply omap_id_elem. exists (p - 1)%nat. rewrite lookup_drop.
      by replace (1 + (p - 1))%nat with p by lia.
Qed.

(** A run of [fill_verdef] with version definitions, on a [.dynsym] whose
    entries past index 0 are symbols that know their index. *)
Lemma fill_verdef_run dynsym vds soname output tables vd :
  vds ≠ [] → dynsym ≠ [] → dynsym_indexed dynsym → dynsym_filled dynsym →
  Z.of_nat (length vds) + VER_NDX_LAST_RESERVED < 2 ^ 16 →
  ∃ tables' vd',
    fill_verdef dynsym vds soname output tables vd = Some (tables', vd') ∧
    verdef vd' =
      mkVerdef 1 VER_FLG_BASE 1 1
               (match soname with EmptyString => output | _ => soname end)
      :: imap verdef_of vds ∧
    verdef_info vd' = verdef_info vd + 1 + Z.of_nat (length vds) ∧
    versym_holds dynsym (λ s, to_u16 (ver_idx s)) (versym tables') ∧
    verneed tables' = verneed tables ∧
    verneed_info tables' = verneed_info tables.
Proof.
  intros Hvds Hdyn Hidx Hfill Hfit. unfold fill_verdef.
  destruct vds as [|v0 vds0] eqn:Hv; [done|]. rewrite <- Hv in *.
  destruct dynsym as [|d0 dyn] eqn:Hd; [done|]. rewrite <- Hd in *.
  set (contents := <[0%nat:=0]> (resize (length dynsym) 1 (versym tables))).
  destruct (fill_verdef_versym dynsym contents Hidx Hfill Hdyn)
    as (c' & Hc' & Hholds).
  { subst contents. by rewrite length_insert, length_resize. }
  { subst contents. apply list_lookup_insert_eq. rewrite length_resize.
    rewrite Hd. simpl. lia. }
  destruct (mapM id (drop 1 dynsym)) as [syms|]; [|done].
  cbn [mbind option_bind] in *. rewrite Hc'. cbn [option_bind].
  eexists _, _. split; [reflexivity|].
  unfold VER_NDX_LAST_RESERVED in *.
  destruct (write_verdefs_spec
              (write_verdef (mkVerdefTable [] (verdef_info vd))
                 (match soname with EmptyString => output | _ => soname end)
                 1 VER_FLG_BASE) 2 vds) as [-> ->]; [lia..|].
  cbn [versym verneed verneed_info verdef verdef_info write_verdef].
  split; [|split; [lia|done]].
  simpl. f_equal. apply imap_ext. intros k x _. unfold verdef_of.
  f_equal. unfold VER_NDX_LAST_RESERVED. lia.
Qed.

(** X19: [fill_verdef].  With no version definitions the tables are left as
    they are.  Otherwise, on a [.dynsym] whose entries past index 0 are
    symbols that know their index, the pass writes the base record (index 1,
    [VER_FLG_BASE], named after the soname, or after the output file when
    there is no soname) followed by one record per version definition, entry
    [k] with index [k + 2]; [sh_info] grows by the number of records; and
    [.gnu.version] gets the size of [.dynsym], 0 at index 0 and the
    [ver_idx] of every other symbol.  On an empty [.dynsym] the pass
    indexes an empty vector. *)
Theorem fill_verdef_spec dynsym vds soname output tables vd :
  (vds = [] →
   fill_verdef dynsym vds soname output tables vd = Some (tables, vd)) ∧
  (vds ≠ [] → dynsym = [] →
   fill_verdef dynsym vds soname output tables vd = None) ∧
  (vds ≠ [] → dynsym ≠ [] → dynsym_indexed dynsym → dynsym_filled dynsym →
   Z.of_nat (length vds) + VER_NDX_LAST_RESERVED < 2 ^ 16 →
   ∃ tables' vd',
     fill_verdef dynsym vds soname output tables vd = Some (tables', vd') ∧
     verdef vd' =
       mkVerdef 1 VER_FLG_BASE 1 1
                (match soname with EmptyString => output | _ => soname end)
       :: imap verdef_of vds ∧
     verdef_info vd' = verdef_info vd + 1 + Z.of_nat (length vds) ∧
     versym_holds dynsym (λ s, to_u16 (ver_idx s)) (versym tables') ∧
     verneed tables' = verneed tables ∧
     verneed_info tables' = verneed_info tables).
Proof.
  split; [by intros ->|]. split.
  { intros Hne ->. unfold fill_verdef. by destruct vds. }
  apply fill_verdef_run.
Qed.

Lemma fill_verdef_spec_witness :
  ∃ tables' vd',
    fill_verdef dynsym_four ["V1"; "V2"]%string "" "a.out"
                (mkTables [] [] 0) (mkVerdefTable [] 0) = Some (tables', vd') ∧
    verdef vd' =
      mkVerdef 1 VER_FLG_BASE 1 1 "a.out" :: imap verdef_of ["V1"; "V2"]%string ∧
    verdef_info vd' = 0 + 1 + Z.of_nat (length ["V1"; "V2"]%string) ∧
    versym_holds dynsym_four (λ s, to_u16 (ver_idx s)) (versym tables') ∧
    verneed tables' = [] ∧ verneed_info tables' = 0.
Proof.
  apply (proj2 (proj2 (fill_verdef_spec dynsym_four ["V1"; "V2"]%string ""
                         "a.out" (mkTables [] [] 0) (mkVerdefTable [] 0))));
    [discriminate|discriminate| | |vm_compute; done].
  - intros p s Hp.
    do 6 (destruct p as [|p]; [simpl in Hp; by inversion Hp|]).
    simpl in Hp. discriminate Hp.
  - unfold dynsym_filled, dynsym_four. simpl. repeat constructor; by eexists.
Defined.

(** X20: [fill_verdef] and [parse_symbol_version] number the versions alike.
    When the version definitions are pairwise distinct, the index that
    [parse_symbol_version] looks up for a version string is the [vd_ndx] of
    the record that [fill_verdef] writes for that string. *)
Theorem fill_verdef_agrees dynsym vds soname output tables vd tables' vd' :
  NoDup vds → Z.of_nat (length vds) + VER_NDX_LAST_RESERVED < 2 ^ 16 →
  vds ≠ [] →
  fill_verdef dynsym vds soname output tables vd = Some (tables', vd') →
  ∀ v idx, make_verdefs vds !! v = Some idx ↔
           ∃ k : nat, verdef vd' !! S k = Some (mkVerdef 1 0 idx 1 v).
Proof.
  intros Hnd Hfit Hvds Hrun v idx.
  assert (verdef vd' =
      mkVerdef 1 VER_FLG_BASE 1 1
               (match soname with EmptyString => output | _ => soname end)
      :: imap verdef_of vds) as ->.
  { unfold fill_verdef in Hrun. destruct vds as [|v0 vds0] eqn:Hv; [done|].
    rewrite <- Hv in *. destruct dynsym as [|d0 dyn]; [done|].
    destruct (mapM id _) as [syms|]; [|done]. cbn [mbind option_bind] in Hrun.
    destruct (fold_opt set_versym _ syms) as [c'|]; [|done].
    cbn [option_bind] in Hrun. injection Hrun as _ <-.
    unfold VER_NDX_LAST_RESERVED in *.
    destruct (write_verdefs_spec
                (write_verdef (mkVerdefTable [] (verdef_info vd))
                   (match soname with EmptyString => output | _ => soname end)
                   1 VER_FLG_BASE) 2 vds) as [-> _]; [lia..|].
    simpl. f_equal. apply imap_ext. intros k x _. unfold verdef_of.
    f_equal. unfold VER_NDX_LAST_RESERVED. lia. }
  assert (∀ k : nat, vds !! k = Some v →
            make_verdefs vds !! v
            = Some (Z.of_nat k + VER_NDX_LAST_RESERVED + 1)) as Hmk.
  { intros k Hk. unfold make_verdefs.
    rewrite (verdefs_loop_last 0 vds ∅ k v Hk).
    - simpl (0 + k)%nat. f_equal. unfold to_u16. apply Z.mod_small.
      apply lookup_lt_Some in Hk. unfold VER_NDX_LAST_RESERVED in *. lia.
    - intros k' Hlt Hk'. pose proof (NoDup_lookup _ _ _ _ Hnd Hk Hk'). lia. }
  split.
  - intros Hidx.
    destruct (decide (v ∈ vds)) as [Hin|Hnin].
    + apply list_elem_of_lookup in Hin as [k Hk]. exists k.
      rewrite (Hmk k Hk) in Hidx. injection Hidx as <-.
      change (imap verdef_of vds !! k
              = Some (mkVerdef 1 0 (Z.of_nat k + VER_NDX_LAST_RESERVED + 1) 1 v)).
      rewrite list_lookup_imap, Hk. done.
    + apply make_verdefs_None in Hnin. congruence.
  - intros [k Hk].
    change (imap verdef_of vds !! k = Some (mkVerdef 1 0 idx 1 v)) in Hk.
    rewrite list_lookup_imap in Hk.
    destruct (vds !! k) as [v'|] eqn:Hv'; [|done].
    simpl in Hk. unfold verdef_of in Hk. injection Hk as <- <-.
    by apply Hmk.
Qed.

Lemma fill_verdef_agrees_witness :
  make_verdefs ["V1"; "V2"]%string !! "V2"%string = Some 3 ↔
  ∃ k : nat,
    (mkVerdef 1 VER_FLG_BASE 1 1 "a.out"
     :: imap verdef_of ["V1"; "V2"]%string) !! S k
    = Some (mkVerdef 1 0 3 1 "V2").
Proof.
  apply (fill_verdef_agrees dynsym_four ["V1"; "V2"]%string "" "a.out"
           (mkTables [] [] 0) (mkVerdefTable [] 0)
           (mkTables [0; 2; 3; 1; 2; 3] [] 0)
           (mkVerdefTable (mkVerdef 1 VER_FLG_BASE 1 1 "a.out"
                           :: imap verdef_of ["V1"; "V2"]%string) 3));
    [|vm_compute; done|discriminate|reflexivity].
  apply (bool_decide_unpack _). by vm_compute.
Defined.


(** ** More on [fill_verneed] *)

Lemma new_starts_length new prev syms :
  (length (new_starts new prev syms) ≤ length syms)%nat.
Proof.
  revert prev. induction syms as [|s syms IH]; intros prev; [done|].
  cbn [new_starts]. rewrite length_app. specialize (IH (Some s)).
  destruct (new prev s); simpl; lia.
Qed.

Lemma new_starts_file_aux prev syms :
  (length (new_starts is_new_file prev syms)
   ≤ length (new_starts is_new_aux prev syms))%nat.
Proof.
  revert prev. induction syms as [|s syms IH]; intros prev; [done|].
  cbn [new_starts]. rewrite !length_app. specialize (IH (Some s)).
  destruct (is_new_file prev s) eqn:Hf, (is_new_aux prev s) eqn:Ha; simpl;
    try lia.
  unfold is_new_aux in Ha. by rewrite Hf in Ha.
Qed.

Lemma new_starts_take new prev syms n :
  (length (new_starts new prev (take n syms))
   ≤ length (new_starts new prev syms))%nat.
Proof.
  revert prev n. induction syms as [|s syms IH]; intros prev n.
  { by rewrite take_nil. }
  destruct n as [|n]; [simpl; lia|].
  cbn [take new_starts]. rewrite !length_app. specialize (IH (Some s) n). lia.
Qed.

Lemma new_starts_first syms n :
  syms ≠ [] →
  (1 ≤ length (new_starts is_new_aux None (take (S n) syms)))%nat.
Proof.
  destruct syms as [|s syms]; [done|]. intros _.
  cbn [take new_starts]. rewrite length_app. simpl. lia.
Qed.

Lemma walk_step_nonempty files stale_cnt prev sym st :
  prev = None ∨ is_Some (w_verneed st) →
  Forall (λ g, vn_aux g ≠ []) (walk_groups st) →
  Forall (λ g, vn_aux g ≠ [])
         (walk_groups (walk_step files stale_cnt prev sym st)) ∧
  is_Some (w_verneed (walk_step files stale_cnt prev sym st)).
Proof.
  intros Hpre Hall. unfold walk_step, walk_groups in *.
  destruct (is_new_file prev sym) eqn:Hnf.
  - cbn. split; [|by eexists]. apply Forall_app. split; [done|].
    constructor; [|constructor]. simpl. discriminate.
  - assert (is_Some (w_verneed st)) as [g Hg].
    { destruct Hpre as [->|]; [done|done]. }
    destruct (is_new_aux prev sym).
    + unfold add_entry. rewrite Hg in *. cbn. split; [|by eexists].
      apply Forall_app in Hall as [Hd _]. apply Forall_app. split; [done|].
      constructor; [|constructor]. simpl. by destruct (vn_aux g).
    + simpl. split; [done|]. rewrite Hg. by eexists.
Qed.

Lemma walk_nonempty files stale_cnt syms prev st :
  prev = None ∨ is_Some (w_verneed st) →
  Forall (λ g, vn_aux g ≠ []) (walk_groups st) →
  Forall (λ g, vn_aux g ≠ [])
         (walk_groups (walk files stale_cnt prev syms st)).
Proof.
  revert prev st. induction syms as [|s syms IH]; intros prev st Hpre Hall;
    [done|].
  cbn [walk].
  destruct (walk_step_nonempty files stale_cnt prev s st Hpre Hall)
    as [H1 H2].
  apply IH; [by right|done].
Qed.

(** The tables that [fill_verneed] returns when it selects a symbol. *)
Lemma fill_verneed_walk files stale_cnt dynsym vds tables :
  selected files dynsym ≠ [] →
  ∃ d0 dyn, dynsym = d0 :: dyn ∧
  fill_verneed files stale_cnt dynsym vds tables =
  let st :=
    walk files stale_cnt None
      (sort (verneed_less files) (selected files dynsym))
      (mkWalk [] None
         (to_u16 (VER_NDX_LAST_RESERVED + Z.of_nat (length vds)))
         (<[0%nat := 0]> (resize (length dynsym) 1 (versym tables)))
         (verneed_info tables)) in
  mkTables (w_versym st) (walk_groups st) (w_info st).
Proof.
  intros Hsel. destruct dynsym as [|d0 dyn]; [done|].
  exists d0, dyn. split; [done|]. unfold fill_verneed.
  fold (selected files (d0 :: dyn)).
  by destruct (selected files (d0 :: dyn)).
Qed.

(** X21: the records of [.gnu.version_r] fit the buffer that [fill_verneed]
    allocates, and no group is empty.  When a symbol is selected, every
    [Verneed] group has at least one [Vernaux]; there are no more groups
    than entries and no more entries than selected symbols, so that the
    groups and entries, of [a] and [b] bytes each, take at most
    [(a + b) * syms.size()] bytes. *)
Theorem fill_verneed_counts files stale_cnt dynsym vds tables (a b : Z) :
  selected files dynsym ≠ [] → 0 ≤ a → 0 ≤ b →
  let out := fill_verneed files stale_cnt dynsym vds tables in
  let n := length (selected files dynsym) in
  Forall (λ g, vn_aux g ≠ []) (verneed out) ∧
  (length (verneed out) ≤ length (vernaux_of out) ≤ n)%nat ∧
  Z.of_nat (length (verneed out)) * a + Z.of_nat (length (vernaux_of out)) * b
  ≤ (a + b) * Z.of_nat n.
Proof.
  intros Hsel Ha Hb. cbv zeta.
  destruct (fill_verneed_walk files stale_cnt dynsym vds tables Hsel)
    as (d0 & dyn & Hd & ->).
  cbv zeta. unfold vernaux_of. cbn [verneed].
  set (base := VER_NDX_LAST_RESERVED + Z.of_nat (length vds)).
  set (sorted := sort (verneed_less files) (selected files dynsym)).
  set (st0 := mkWalk _ _ _ _ _).
  destruct (walk_spec files stale_cnt sorted None st0 base
              (or_introl eq_refl) eq_refl)
    as (_ & _ & R3 & R4 & _).
  assert (length (walk_groups (walk files stale_cnt None sorted st0))
          = length (new_starts is_new_file None sorted)) as Hg.
  { rewrite <- (length_fmap vn_file), R3. simpl. by rewrite length_fmap. }
  assert (length (walk_groups (walk files stale_cnt None sorted st0) ≫= vn_aux)
          = length (new_starts is_new_aux None sorted)) as Hx.
  { rewrite R4. simpl. by rewrite length_imap. }
  assert (length sorted = length (selected files dynsym)) as Hlen
    by (subst sorted; by rewrite sort_perm).
  pose proof (new_starts_file_aux None sorted).
  pose proof (new_starts_length is_new_aux None sorted).
  split; [|split; [lia|nia]].
  apply walk_nonempty; [by left|constructor].
Qed.

Lemma fill_verneed_counts_witness :
  Forall (λ g, vn_aux g ≠ [])
    (verneed (fill_verneed files_two no_stale dynsym_four ["V1"%string]
                (mkTables [] [] 0))) ∧
  (length (verneed (fill_verneed files_two no_stale dynsym_four ["V1"%string]
                      (mkTables [] [] 0)))
   ≤ length (vernaux_of (fill_verneed files_two no_stale dynsym_four ["V1"%string]
                           (mkTables [] [] 0)))
   ≤ length (selected files_two dynsym_four))%nat ∧
  Z.of_nat (length (verneed (fill_verneed files_two no_stale dynsym_four ["V1"%string]
                               (mkTables [] [] 0)))) * 16
  + Z.of_nat (length (vernaux_of (fill_verneed files_two no_stale dynsym_four
                                    ["V1"%string] (mkTables [] [] 0)))) * 16
  ≤ (16 + 16) * Z.of_nat (length (selected files_two dynsym_four)).
Proof.
  apply (fill_verneed_counts files_two no_stale dynsym_four ["V1"%string]
           (mkTables [] [] 0) 16 16); [vm_compute; discriminate|lia|lia].
Defined.

(** The indices and the [.gnu.version] entries of a run that selects a
    symbol. *)
Lemma fill_verneed_numbering files stale_cnt dynsym vds tables :
  dynsym_indexed dynsym → selected files dynsym ≠ [] →
  VER_NDX_LAST_RESERVED + Z.of_nat (length vds)
    + Z.of_nat (length (selected files dynsym)) < 2 ^ 16 →
  let out := fill_verneed files stale_cnt dynsym vds tables in
  let first := VER_NDX_LAST_RESERVED + Z.of_nat (length vds) + 1 in
  vna_other <$> vernaux_of out
    = seqZ first (Z.of_nat (length (vernaux_of out))) ∧
  length (versym out) = length dynsym ∧
  versym out !! 0%nat = Some 0 ∧
  (∀ s, s ∈ selected files dynsym →
     ∃ aux, aux ∈ vernaux_of out ∧
            versym out !! dynsym_idx s = Some (vna_other aux)) ∧
  (∀ p : nat, (1 ≤ p)%nat →
     (∀ s, s ∈ selected files dynsym → dynsym_idx s ≠ p) →
     versym out !! p = resize (length dynsym) 1 (versym tables) !! p).
Proof.
  intros Hidx Hsel Hfit. cbv zeta.
  destruct (fill_verneed_walk files stale_cnt dynsym vds tables Hsel)
    as (d0 & dyn & Hd & ->).
  cbv zeta. unfold vernaux_of. cbn [verneed versym].
  set (base := VER_NDX_LAST_RESERVED + Z.of_nat (length vds)) in *.
  set (sorted := sort (verneed_less files) (selected files dynsym)).
  set (contents := <[0%nat:=0]> (resize (length dynsym) 1 (versym tables))).
  set (st0 := mkWalk _ _ _ _ _).
  pose proof (sort_perm (verneed_less files) (selected files dynsym)) as Hperm.
  fold sorted in Hperm.
  destruct (selected_indexed files dynsym Hidx) as [Hnd Hrange].
  destruct (walk_spec files stale_cnt sorted None st0 base
              (or_introl eq_refl) eq_refl)
    as (_ & _ & _ & R4 & _ & R6 & R7 & R8).
  change ((walk_groups st0 ≫= vn_aux) ++ ?l) with l in R4.
  assert (length sorted = length (selected files dynsym)) as Hlen
    by (by rewrite Hperm).
  pose proof (new_starts_length is_new_aux None sorted) as Hm.
  assert (sorted ≠ []) as Hne.
  { intros Hnil. rewrite Hnil in Hlen. by destruct (selected files dynsym). }
  assert (length contents = length dynsym) as Hclen
    by (subst contents; by rewrite length_insert, length_resize).
  assert (0 ≤ base) as Hbase by (subst base; unfold VER_NDX_LAST_RESERVED; lia).
  assert (∀ j : nat, (j ≤ length (new_starts is_new_aux None sorted))%nat →
            to_u16 (base + Z.of_nat j) = base + Z.of_nat j) as Hsmall.
  { intros j Hj. unfold to_u16. apply Z.mod_small. lia. }
  rewrite R4, length_imap.
  split; [|split; [|split; [|split]]].
  - apply list_eq. intros j. rewrite list_lookup_fmap, list_lookup_imap.
    destruct (new_starts is_new_aux None sorted !! j) as [s|] eqn:Hs.
    + pose proof (lookup_lt_Some _ _ _ Hs) as Hj. simpl.
      rewrite lookup_seqZ_lt by lia. f_equal.
      replace (base + Z.of_nat j + 1) with (base + Z.of_nat (S j)) by lia.
      rewrite Hsmall by lia. lia.
    + apply lookup_ge_None in Hs. simpl. symmetry.
      apply lookup_seqZ_ge. lia.
  - by rewrite R6.
  - rewrite R7.
    + subst contents. apply list_lookup_insert_eq. rewrite length_resize.
      rewrite Hd. simpl. lia.
    + intros s Hs. rewrite Hperm in Hs. specialize (Hrange s Hs). lia.
  - intros s Hs. rewrite <- Hperm in Hs.
    apply list_elem_of_lookup in Hs as [i Hi].
    rewrite (R8 (ltac:(by rewrite Hperm)) (ltac:(
      intros s' Hs'; rewrite Hperm in Hs'; specialize (Hrange s' Hs');
      cbn; lia)) i s Hi).
    set (m := length (new_starts is_new_aux None (take (S i) sorted))).
    pose proof (new_starts_first sorted i Hne) as Hm1.
    pose proof (new_starts_take is_new_aux None sorted (S i)) as Hm2.
    fold m in Hm1, Hm2.
    destruct (lookup_lt_is_Some_2 (new_starts is_new_aux None sorted) (m - 1))
      as [s' Hs']; [lia|].
    exists (mkVernaux (to_u16 (base + Z.of_nat (m - 1) + 1)) (version s')).
    split.
    + apply list_elem_of_lookup. exists (m - 1)%nat.
      by rewrite list_lookup_imap, Hs'.
    + simpl. do 2 f_equal. lia.
  - intros p Hp Hnot. rewrite R7.
    + subst contents. cbn. apply list_lookup_insert_ne. lia.
    + intros s Hs. apply Hnot. by rewrite <- Hperm.
Qed.

(** X22: the version indices that [fill_verneed] hands out.  When the
    indices fit 16 bits, the [Vernaux] records are numbered consecutively
    from [VER_NDX_LAST_RESERVED + |version_definitions| + 1], so that no two
    share an index, and the [.gnu.version] entry of every selected symbol is
    the index of one of the [Vernaux] records written. *)
Theorem fill_verneed_indices files stale_cnt dynsym vds tables :
  dynsym_indexed dynsym → selected files dynsym ≠ [] →
  VER_NDX_LAST_RESERVED + Z.of_nat (length vds)
    + Z.of_nat (length (selected files dynsym)) < 2 ^ 16 →
  let out := fill_verneed files stale_cnt dynsym vds tables in
  let first := VER_NDX_LAST_RESERVED + Z.of_nat (length vds) + 1 in
  vna_other <$> vernaux_of out
    = seqZ first (Z.of_nat (length (vernaux_of out))) ∧
  NoDup (vna_other <$> vernaux_of out) ∧
  ∀ s, s ∈ selected files dynsym →
    ∃ aux, aux ∈ vernaux_of out ∧
           versym out !! dynsym_idx s = Some (vna_other aux).
Proof.
  intros Hidx Hsel Hfit. cbv zeta.
  destruct (fill_verneed_numbering files stale_cnt dynsym vds tables
              Hidx Hsel Hfit)
    as (Hseq & _ & _ & Hsym & _).
  split; [done|]. split; [|done]. rewrite Hseq. apply NoDup_seqZ.
Qed.

Lemma fill_verneed_indices_witness :
  vna_other <$> vernaux_of (fill_verneed files_two no_stale dynsym_four ["V1"%string]
                              (mkTables [] [] 0))
    = seqZ (VER_NDX_LAST_RESERVED + Z.of_nat (length ["V1"%string]) + 1)
           (Z.of_nat (length (vernaux_of
              (fill_verneed files_two no_stale dynsym_four ["V1"%string]
                 (mkTables [] [] 0))))) ∧
  NoDup (vna_other <$> vernaux_of (fill_verneed files_two no_stale dynsym_four
                                     ["V1"%string] (mkTables [] [] 0))) ∧
  ∀ s, s ∈ selected files_two dynsym_four →
    ∃ aux, aux ∈ vernaux_of (fill_verneed files_two no_stale dynsym_four ["V1"%string]
                               (mkTables [] [] 0)) ∧
           versym (fill_verneed files_two no_stale dynsym_four ["V1"%string]
                     (mkTables [] [] 0)) !! dynsym_idx s
           = Some (vna_other aux).
Proof.
  apply (fill_verneed_indices files_two no_stale dynsym_four ["V1"%string]
           (mkTables [] [] 0)); [|vm_compute; discriminate|vm_compute; done].
  intros p s Hp.
  do 6 (destruct p as [|p]; [simpl in Hp; by inversion Hp|]).
  simpl in Hp. discriminate Hp.
Defined.


Lemma fill_verneed_none files stale_cnt dynsym vds tables :
  selected files dynsym = [] →
  fill_verneed files stale_cnt dynsym vds tables = tables.
Proof.
  intros Hsel. unfold fill_verneed. destruct dynsym as [|d0 dyn]; [done|].
  fold (selected files (d0 :: dyn)). by rewrite Hsel.
Qed.

(** X23: [fill_verdef] followed by [fill_verneed].  With version definitions
    and a [.dynsym] whose entries past index 0 are symbols that know their
    index, [.gnu.version] ends with the size of [.dynsym], 0 at index 0, the
    index of a [Vernaux] record for every symbol that needs a version of a
    shared library, and the symbol's own [ver_idx] for every other symbol;
    and every index of a [Vernaux] record is above every index of a
    [Verdef] record. *)
Theorem fill_verdef_then_verneed
    files stale_cnt dynsym vds soname output tables vd :
  vds ≠ [] → dynsym ≠ [] → dynsym_indexed dynsym → dynsym_filled dynsym →
  VER_NDX_LAST_RESERVED + Z.of_nat (length vds)
    + Z.of_nat (length (selected files dynsym)) < 2 ^ 16 →
  ∃ tables' vd',
    fill_verdef dynsym vds soname output tables vd = Some (tables', vd') ∧
    let out := fill_verneed files stale_cnt dynsym vds tables' in
    length (versym out) = length dynsym ∧
    versym out !! 0%nat = Some 0 ∧
    (∀ (p : nat) s, (1 ≤ p)%nat → dynsym !! p = Some (Some s) →
       ∃ v, versym out !! p = Some v ∧ versym_entry files out s v) ∧
    (selected files dynsym ≠ [] →
     ∀ d aux, d ∈ verdef vd' → aux ∈ vernaux_of out →
              vd_ndx d < vna_other aux).
Proof.
  intros Hvds Hdyn Hidx Hfill Hfit.
  destruct (fill_verdef_run dynsym vds soname output tables vd Hvds Hdyn Hidx
              Hfill) as (t1 & vd1 & Hrun & Hvd & _ & (Hlen & H0 & Hver) & _).
  { unfold VER_NDX_LAST_RESERVED in *. lia. }
  exists t1, vd1. split; [done|]. cbv zeta.
  destruct (decide (selected files dynsym = [])) as [Hsel|Hsel].
  - rewrite (fill_verneed_none _ _ _ _ _ Hsel).
    split; [done|]. split; [done|]. split; [|done].
    intros p s Hp Hs. exists (to_u16 (ver_idx s)). split; [by apply Hver|].
    unfold versym_entry. destruct (needs_version files s) eqn:Hn; [|done].
    assert (s ∈ selected files dynsym) as Hin
      by (apply selected_spec; by exists p).
    rewrite Hsel in Hin. by apply elem_of_nil in Hin.
  - destruct (fill_verneed_numbering files stale_cnt dynsym vds t1
                Hidx Hsel Hfit)
      as (Hseq & Hl & Hz & Hsym & Hother).
    split; [done|]. split; [done|]. split.
    + intros p s Hp Hs. unfold versym_entry.
      destruct (needs_version files s) eqn:Hn.
      * destruct (Hsym s) as (aux & Haux & Hv).
        { apply selected_spec. by exists p. }
        rewrite (Hidx p s Hs) in Hv. exists (vna_other aux).
        split; [done|]. by exists aux.
      * exists (to_u16 (ver_idx s)). split; [|done].
        rewrite Hother; [|done|].
        -- rewrite <- Hlen, resize_all. by apply Hver.
        -- intros s' (q & Hq & Hs' & Hn')%selected_spec Heq.
           rewrite (Hidx q s' Hs') in Heq. subst q. congruence.
    + intros _ d aux Hd Haux.
      assert (vna_other aux ∈ vna_other <$> vernaux_of
                (fill_verneed files stale_cnt dynsym vds t1)) as Hin.
      { apply list_elem_of_fmap. by exists aux. }
      rewrite Hseq in Hin. apply elem_of_seqZ in Hin.
      rewrite Hvd in Hd. apply elem_of_cons in Hd as [->|Hd].
      * simpl. unfold VER_NDX_LAST_RESERVED in *. lia.
      * apply list_elem_of_lookup in Hd as [k Hk].
        rewrite list_lookup_imap in Hk.
        destruct (vds !! k) as [v|] eqn:Hv; [|done].
        apply lookup_lt_Some in Hv. injection Hk as <-.
        simpl. lia.
Qed.

Lemma fill_verdef_then_verneed_witness :
  ∃ tables' vd',
    fill_verdef dynsym_mixed ["V1"%string] "libx.so" "a.out"
                (mkTables [] [] 0) (mkVerdefTable [] 0) = Some (tables', vd') ∧
    let out :=
      fill_verneed files_two no_stale dynsym_mixed ["V1"%string] tables' in
    length (versym out) = length dynsym_mixed ∧
    versym out !! 0%nat = Some 0 ∧
    (∀ (p : nat) s, (1 ≤ p)%nat → dynsym_mixed !! p = Some (Some s) →
       ∃ v, versym out !! p = Some v ∧ versym_entry files_two out s v) ∧
    (selected files_two dynsym_mixed ≠ [] →
     ∀ d aux, d ∈ verdef vd' → aux ∈ vernaux_of out →
              vd_ndx d < vna_other aux).
Proof.
  apply (fill_verdef_then_verneed files_two no_stale dynsym_mixed ["V1"%string]
           "libx.so" "a.out" (mkTables [] [] 0) (mkVerdefTable [] 0));
    [discriminate|discriminate| | |vm_compute; done].
  - intros p s Hp.
    do 3 (destruct p as [|p]; [simpl in Hp; by inversion Hp|]).
    simpl in Hp. discriminate Hp.
  - unfold dynsym_filled, dynsym_mixed. simpl. repeat constructor; by eexists.
Defined.


(** ** [apply_exclude_libs] *)

Lemma exclude_file_spec arg f :
  archive_name (exclude_file arg f) = archive_name f ∧
  (exclude_libs (exclude_file arg f) = true ↔
   exclude_libs f = true ∨ excluded_by arg f) ∧
  (archive_name f = EmptyString → exclude_file arg f = f) ∧
  exclude_file arg (exclude_file arg f) = exclude_file arg f.
Proof.
  unfold exclude_file, excluded_by. destruct f as [n e].
  cbn [archive_name exclude_libs].
  destruct (decide (n = EmptyString)) as [->|Hn].
  { rewrite !bool_decide_true by done. cbn [negb archive_name exclude_libs].
    rewrite bool_decide_true by done. cbn [negb].
    split; [done|]. split; [|done]. split; [by left|].
    intros [?|[? _]]; done. }
  rewrite !(bool_decide_false (n = EmptyString)) by done. cbn [negb].
  destruct (decide ("ALL"%string ∈ arg)) as [Hall|Hall];
    [rewrite !(bool_decide_true ("ALL"%string ∈ arg)) by done
    |rewrite !(bool_decide_false ("ALL"%string ∈ arg)) by done];
    (destruct (decide (n ∈ arg)) as [Hin|Hin];
     [rewrite !(bool_decide_true (n ∈ arg)) by done
     |rewrite !(bool_decide_false (n ∈ arg)) by done]);
    cbn [orb archive_name exclude_libs];
    rewrite ?(bool_decide_false (n = EmptyString)) by done; cbn [negb];
    rewrite ?(bool_decide_true ("ALL"%string ∈ arg)) by done;
    rewrite ?(bool_decide_false ("ALL"%string ∈ arg)) by done;
    rewrite ?(bool_decide_true (n ∈ arg)) by done;
    rewrite ?(bool_decide_false (n ∈ arg)) by done; cbn [orb];
    (split; [done|]); (split; [|done]);
    try (split; [intros _; right; split; [done|]; by left|done]).
  - split; [|done]. intros _. right. split; [done|]. by right.
  - split; [by left|]. intros [?|[_ [?|?]]]; done.
Qed.

(** X24: [apply_exclude_libs] sets the flag of the archive members that
    [--exclude-libs] names, of all archive members under [ALL], and of no
    other file; it never clears a flag, never touches a file that is not
    from an archive, even when the empty name is listed, and running it
    again changes nothing. *)
Theorem apply_exclude_libs_marks arg objs :
  let out := apply_exclude_libs arg objs in
  Forall2 (λ f f',
     archive_name f' = archive_name f ∧
     (exclude_libs f' = true ↔ exclude_libs f = true ∨ excluded_by arg f) ∧
     (archive_name f = EmptyString → f' = f)) objs out ∧
  apply_exclude_libs arg out = out.
Proof.
  cbv zeta. unfold apply_exclude_libs.
  destruct arg as [|a rest] eqn:Harg.
  { split; [|done]. apply Forall2_same_length_lookup. split; [done|].
    intros i f f' Hf Hf'. assert (f' = f) as -> by congruence.
    split; [done|]. split; [|done]. unfold excluded_by. split; [by left|].
    intros [?|(_ & [H|H])]; [done|by apply elem_of_nil in H..]. }
  rewrite <- Harg. clear Harg. split.
  - apply Forall2_fmap_r, Forall_Forall2_diag, Forall_forall. intros f _.
    destruct (exclude_file_spec arg f) as (H1 & H2 & H3 & _). done.
  - rewrite <- list_fmap_compose. apply list_fmap_ext. intros i f _.
    apply exclude_file_spec.
Qed.


(** ** [compute_import_export] *)


Lemma marked_from_iff syms0 Pe Pi Pe' Pi' syms :
  marked_from syms0 Pe Pi syms →
  (∀ a s, Pe a s ↔ Pe' a s) → (∀ a s, Pi a s ↔ Pi' a s) →
  marked_from syms0 Pe' Pi' syms.
Proof.
  intros H He Hi a. specialize (H a). destruct (syms0 !! a) as [s|]; [|done].
  destruct H as (s' & Hs & Hf & H1 & H2). exists s'.
  split; [done|]. split; [done|]. by rewrite <- He, <- Hi.
Qed.

Lemma marked_from_start syms0 :
  marked_from syms0 (λ _ _, False) (λ _ _, False) syms0.
Proof.
  intros a. destruct (syms0 !! a) as [s|]; [|done].
  exists s. split; [done|]. split; [done|]. split; tauto.
Qed.

Lemma mark_symbol_marked c ci syms0 Pe Pi syms b :
  reads_fixed c → reads_fixed ci →
  marked_from syms0 Pe Pi syms →
  marked_from syms0
    (λ a s, Pe a s ∨ (a = b ∧ c s = true))
    (λ a s, Pi a s ∨ (a = b ∧ c s = true ∧ ci s = true))
    (mark_symbol c ci syms b).
Proof.
  intros Hc Hci H a. pose proof (H a) as Ha. pose proof (H b) as Hb.
  unfold mark_symbol.
  destruct (decide (a = b)) as [->|Hne].
  - destruct (syms0 !! b) as [s|] eqn:Hs0.
    + destruct Ha as (s' & Hs & Hf & H1 & H2). rewrite Hs.
      rewrite (Hc s s' Hf).
      destruct (c s) eqn:Hcs.
      * rewrite lookup_insert_eq.
        assert (same_fixed s (set_exported s')) as Hf'
          by (destruct Hf as (? & ? & ? & ?); done).
        rewrite (Hci s _ Hf').
        destruct (ci s) eqn:Hcis; eexists; (split; [done|]);
          (split; [done|]); cbn [is_exported is_imported set_exported
                                  set_imported]; split; try tauto.
        rewrite H2. split; [tauto|]. intros [?|[?|(_ & _ & ?)]]; tauto || done.
      * exists s'. split; [done|]. split; [done|]. rewrite H1, H2.
        split; [split; [tauto|]|split; [tauto|]].
        -- intros [?|[?|[_ ?]]]; tauto || done.
        -- intros [?|[?|(_ & ? & _)]]; tauto || done.
    + rewrite Ha. by rewrite Ha.
  - assert (mark_symbol c ci syms b !! a = syms !! a) as Hsame.
    { unfold mark_symbol. destruct (syms !! b) as [sb|]; [|done].
      destruct (c sb); [|done]. by rewrite lookup_insert_ne. }
    unfold mark_symbol in Hsame. rewrite Hsame.
    destruct (syms0 !! a) as [s|]; [|done].
    destruct Ha as (s' & Hs & Hf & H1 & H2). exists s'.
    split; [done|]. split; [done|]. rewrite H1, H2. split; split; tauto.
Qed.

Lemma fold_mark_marked c ci syms0 Pe Pi syms l :
  reads_fixed c → reads_fixed ci →
  marked_from syms0 Pe Pi syms →
  marked_from syms0
    (λ a s, Pe a s ∨ (a ∈ l ∧ c s = true))
    (λ a s, Pi a s ∨ (a ∈ l ∧ c s = true ∧ ci s = true))
    (foldl (mark_symbol c ci) syms l).
Proof.
  intros Hc Hci. revert Pe Pi syms.
  induction l as [|b l IH]; intros Pe Pi syms H.
  { apply (marked_from_iff _ _ _ _ _ _ H); intros a s; split; try tauto;
      intros [?|[Hin _]]; first [done|by apply elem_of_nil in Hin]. }
  cbn [foldl].
  pose proof (IH _ _ _ (mark_symbol_marked c ci _ _ _ _ b Hc Hci H)) as H2.
  apply (marked_from_iff _ _ _ _ _ _ H2);
    intros a s; cbn beta; rewrite elem_of_cons; tauto.
Qed.

Lemma referenced_export_fixed files : reads_fixed (referenced_export files).
Proof.
  intros s s' (Hf & _ & Hv & _). unfold referenced_export. by rewrite Hf, Hv.
Qed.

Lemma default_export_fixed this : reads_fixed (default_export this).
Proof.
  intros s s' (Hf & Hi & Hv & _). unfold default_export. by rewrite Hf, Hi, Hv.
Qed.

Lemma default_import_fixed args : reads_fixed (default_import args).
Proof.
  intros s s' (_ & _ & Hv & Ht). unfold default_import. by rewrite Hv, Ht.
Qed.

Lemma export_undefs_marked files syms0 Pe Pi syms (dsos : list (list nat)) :
  marked_from syms0 Pe Pi syms →
  marked_from syms0
    (λ a s, Pe a s ∨ ((∃ undefs, undefs ∈ dsos ∧ a ∈ undefs) ∧
                       referenced_export files s = true))
    Pi
    (foldl (λ syms undefs, foldl (export_undef files) syms undefs) syms dsos).
Proof.
  revert Pe syms. induction dsos as [|undefs dsos IH]; intros Pe syms H.
  { apply (marked_from_iff _ _ _ _ _ _ H); intros a s; [|done].
    split; [tauto|]. intros [?|[(u & Hu & _) _]]; [done|].
    by apply elem_of_nil in Hu. }
  cbn [foldl].
  pose proof (fold_mark_marked (referenced_export files) (λ _, false)
                syms0 Pe Pi syms undefs (referenced_export_fixed files)
                ltac:(done) H) as H1.
  assert (marked_from syms0
            (λ a s, Pe a s ∨ (a ∈ undefs ∧ referenced_export files s = true))
            Pi (foldl (export_undef files) syms undefs)) as H2.
  { apply (marked_from_iff _ _ _ _ _ _ H1); intros a s; cbn beta; [done|].
    split; [|tauto]. intros [?|(_ & _ & ?)]; done. }
  apply (marked_from_iff _ _ _ _ _ _ (IH _ _ H2)); intros a s; cbn beta;
    [|done].
  split.
  - intros [[?|[? ?]]|[(u & Hu & Ha) Hr]].
    + by left.
    + right. split; [|done]. exists undefs. split; [left|done].
    + right. split; [|done]. exists u. split; [by right|done].
  - intros [?|[(u & Hu & Ha) Hr]]; [by left; left|].
    apply elem_of_cons in Hu as [->|Hu].
    + left. right. done.
    + right. split; [|done]. by exists u.
Qed.

Lemma export_globals_marked args syms0 Pe Pi syms (objs : list ObjectFile) :
  marked_from syms0 Pe Pi syms →
  marked_from syms0
    (λ a s, Pe a s ∨ ∃ this, this ∈ objs ∧ a ∈ get_global_syms this ∧
                            default_export this s = true)
    (λ a s, Pi a s ∨ ((∃ this, this ∈ objs ∧ a ∈ get_global_syms this ∧
                              default_export this s = true) ∧
                      default_import args s = true))
    (foldl (λ syms this,
              foldl (export_global args this) syms (get_global_syms this))
           syms objs).
Proof.
  revert Pe Pi syms. induction objs as [|this objs IH]; intros Pe Pi syms H.
  { apply (marked_from_iff _ _ _ _ _ _ H); intros a s; split; try tauto.
    - intros [?|(t & Ht & _)]; [done|]. by apply elem_of_nil in Ht.
    - intros [?|[(t & Ht & _) _]]; [done|]. by apply elem_of_nil in Ht. }
  cbn [foldl].
  pose proof (fold_mark_marked (default_export this) (default_import args)
                syms0 Pe Pi syms (get_global_syms this)
                (default_export_fixed this) (default_import_fixed args) H)
    as H1.
  apply (marked_from_iff _ _ _ _ _ _ (IH _ _ _ H1)); intros a s; cbn beta.
  - split.
    + intros [[?|[? ?]]|(t & Ht & Ha & Hd)].
      * by left.
      * right. exists this. split; [left|done].
      * right. exists t. split; [by right|done].
    + intros [?|(t & Ht & Ha & Hd)]; [by left; left|].
      apply elem_of_cons in Ht as [->|Ht].
      * left. right. done.
      * right. by exists t.
  - split.
    + intros [[?|(? & ? & ?)]|[(t & Ht & Ha & Hd) Hi]].
      * by left.
      * right. split; [|done]. exists this. split; [left|done].
      * right. split; [|done]. exists t. split; [by right|done].
    + intros [?|[(t & Ht & Ha & Hd) Hi]]; [by left; left|].
      apply elem_of_cons in Ht as [->|Ht].
      * left. right. done.
      * right. split; [|done]. by exists t.
Qed.

(** The pass, symbol by symbol. *)
Lemma compute_import_export_lookup args files dsos objs syms a :
  match syms !! a with
  | None => compute_import_export args files dsos objs syms !! a = None
  | Some sym =>
      ∃ sym', compute_import_export args files dsos objs syms !! a = Some sym' ∧
              export_marked args files dsos objs a sym sym'
  end.
Proof.
  unfold compute_import_export.
  set (syms1 := if negb (arg_shared args) then _ else syms).
  assert (marked_from syms
            (λ a s, wanted_by_dso args files dsos a s) (λ _ _, False) syms1)
    as H1.
  { subst syms1. unfold wanted_by_dso.
    destruct (arg_shared args); cbn [negb].
    - apply (marked_from_iff _ _ _ _ _ _ (marked_from_start syms));
        intros b s; cbn beta; [|done]. split; [done|]. by intros [? _].
    - apply (marked_from_iff _ _ _ _ _ _
               (export_undefs_marked files _ _ _ _ dsos
                  (marked_from_start syms)));
        intros b s; cbn beta; [|done]. tauto. }
  assert (marked_from syms
            (λ a s, wanted_by_dso args files dsos a s
                    ∨ exported_global args objs a s)
            (λ a s, exported_global args objs a s
                    ∧ default_import args s = true)
            (if arg_shared args || arg_export_dynamic args
             then foldl (λ syms this,
                    foldl (export_global args this) syms (get_global_syms this))
                    syms1 objs
             else syms1)) as H2.
  { unfold exported_global.
    destruct (arg_shared args || arg_export_dynamic args).
    - apply (marked_from_iff _ _ _ _ _ _
               (export_globals_marked args _ _ _ _ objs H1));
        intros b s; cbn beta; tauto.
    - apply (marked_from_iff _ _ _ _ _ _ H1); intros b s; cbn beta;
        split; try tauto.
      + intros [?|[? _]]; done.
      + intros [[? _] _]; done. }
  specialize (H2 a). destruct (syms !! a) as [sym|]; [|done].
  destruct H2 as (sym' & Hs & (F1 & F2 & F3 & F4) & He & Hi).
  exists sym'. split; [done|]. unfold export_marked.
  split; [done|]. split; [done|]. split; [done|]. split; [done|].
  split; [exact He|exact Hi].
Qed.

(** X25: [compute_import_export], symbol by symbol.  The pass changes
    nothing but the two flags, and only sets them.  A symbol is exported
    afterwards if and only if it was before, or the output is not a shared
    object and some shared library references it while a file that is not a
    shared library defines it and it is not hidden, or globals are exported
    ([-shared] or [--export-dynamic]) and it is a global of the object file
    that owns it, neither hidden nor of the local version.  It is imported
    if and only if it was before, or it is such a global, the output is a
    shared object, the symbol is not protected, and neither [-Bsymbolic]
    nor, for a function, [-Bsymbolic-functions] is given. *)
Theorem compute_import_export_marks args files dsos objs syms a :
  match syms !! a with
  | None => compute_import_export args files dsos objs syms !! a = None
  | Some sym =>
      ∃ sym', compute_import_export args files dsos objs syms !! a = Some sym' ∧
              export_marked args files dsos objs a sym sym'
  end.
Proof. apply compute_import_export_lookup. Qed.

(** X26: the result of [compute_import_export] does not depend on the order
    in which the files are visited, which parallel tasks decide: any two
    orders of the shared libraries and of the object files give the same
    symbols. *)
Theorem compute_import_export_order args files dsos dsos' objs objs' syms :
  dsos ≡ₚ dsos' → objs ≡ₚ objs' →
  compute_import_export args files dsos objs syms
  = compute_import_export args files dsos' objs' syms.
Proof.
  intros Hd Ho. apply map_eq. intros a.
  pose proof (compute_import_export_lookup args files dsos objs syms a) as H1.
  pose proof (compute_import_export_lookup args files dsos' objs' syms a) as H2.
  destruct (syms !! a) as [sym|]; [|congruence].
  destruct H1 as (s1 & -> & F1 & F2 & F3 & F4 & E1 & I1).
  destruct H2 as (s2 & -> & G1 & G2 & G3 & G4 & E2 & I2).
  f_equal.
  assert (∀ s, wanted_by_dso args files dsos a s
               ↔ wanted_by_dso args files dsos' a s) as Hw.
  { intros s. unfold wanted_by_dso. by setoid_rewrite Hd. }
  assert (∀ s, exported_global args objs a s
               ↔ exported_global args objs' a s) as Hg.
  { intros s. unfold exported_global. by setoid_rewrite Ho. }
  assert (is_exported s1 = is_exported s2) as He.
  { apply eq_true_iff_eq. rewrite E1, E2, Hw, Hg. done. }
  assert (is_imported s1 = is_imported s2) as Hi.
  { apply eq_true_iff_eq. rewrite I1, I2, Hg. done. }
  destruct s1, s2. simpl in *. congruence.
Qed.

Lemma compute_import_export_order_witness :
  compute_import_export (mkExportArgs false true false false) files_two
    [[100%nat]; [101%nat; 100%nat]] [obj_strong 1; obj_strong 2] syms_export
  = compute_import_export (mkExportArgs false true false false) files_two
      [[101%nat; 100%nat]; [100%nat]] [obj_strong 2; obj_strong 1] syms_export.
Proof.
  apply compute_import_export_order; apply Permutation_swap.
Defined.
